(** * clox: the bytecode interpreter of [src/vm.c], embedded in Rocq

    The development follows [vm.c] function by function.  The virtual
    machine is one global [VM] record in C; here it is the state of a small
    monad [M].  A computation of [M] either finishes with a value and a new
    machine state ([Done]), leaves the behaviour of the C program undefined
    ([Undef]: a load or store outside an array, a dereference of a null or
    ill-typed object pointer, an ordering comparison of unrelated pointers,
    a signed overflow), or exhausts the fuel that bounds the [while] loops of
    the source ([OutOfFuel]).

    Runtime errors of the guest program are ordinary results: as in the
    source, [runtimeError] prints and resets the stacks and the caller then
    returns [false] or [INTERPRET_RUNTIME_ERROR].

    Conventions.  Pointers into an array are offsets from its start.  The C
    [int]s of the machine (argument counts, arities, the frame count, line
    numbers) are integers of [Z]: operand bytes bound the first two by 255
    and [FRAMES_MAX] the third; the one sum of the source that can leave the
    range of [int], the length computed by [concatenate], is checked.  A
    [double] is a primitive binary64 float.  The sources of [object.c],
    [table.c], [value.c], [compiler.c] and [debug.c] are not part of the
    repository slice: what the interpreter needs of them is modelled from the
    specification and marked so.  [common.h] defines
    [DEBUG_TRACE_EXECUTION], so every [DISPATCH()] prints the stack and the
    next instruction before it jumps; the trace is part of the model.
    [defineNative] and, of [memory.c], [freeObject] and [freeObjects] are
    embedded after the interpreter; [initVM], [freeVM], [reallocate] and
    [clockNative] (which reads the processor time) are not embedded. *)

From Stdlib Require Import ZArith Floats.
From Stdlib.Strings Require Import Byte.
From stdpp Require Import gmap strings list sorting pretty.

Open Scope Z_scope.

(** ** Values ([value.h]) and heap objects ([object.h]) *)

(** Object pointers ([Obj *], [ObjString *], ...) are heap addresses. *)
Abbreviation addr := positive (only parsing).

(** The tagged union [Value]; a number is an IEEE-754 binary64 [double]. *)
Inductive Value :=
| NIL_VAL
| BOOL_VAL (b : bool)
| NUMBER_VAL (d : float)
| OBJ_VAL (o : addr).

(** A [Value *]: the code only ever forms pointers to a slot of [vm.stack]
    and to the [closed] field of an upvalue object. *)
Inductive ValuePtr :=
| StackSlot (i : Z)
| ClosedField (u : addr).

(** The hash table of [table.h], keyed by interned [ObjString *]. *)
Abbreviation Table := (gmap positive Value) (only parsing).

Record Chunk := mkChunk {
  code : list byte;
  lines : list Z;
  constants : list Value }.

(** [length] of the C struct is the length of [chars]. *)
Record ObjString := mkString { chars : string }.

Record ObjFunction := mkFunction {
  arity : Z;
  upvalueCount : Z;
  chunk : Chunk;
  name : option addr }.

(** The function pointer type [NativeFn], called with [argCount] and the
    address [args] of the first argument: the native sees the [argCount]
    values stored there. *)
Definition NativeFn : Type := Z -> list Value -> Value.

Record ObjClosure := mkClosure {
  function : addr;
  upvalues : list (option addr);
  closure_upvalueCount : Z }.

Record ObjUpvalue := mkUpvalue {
  location : ValuePtr;
  closed : Value;
  next : option addr }.

Record ObjClass := mkClass {
  klass_name : addr;
  methods : Table }.

Record ObjInstance := mkInstance {
  klass : addr;
  fields : Table }.

Record ObjBoundMethod := mkBoundMethod {
  receiver : Value;
  method : addr }.

(** A heap cell: the [ObjType] tag of the common header with the struct it
    announces. *)
Inductive Obj :=
| OBJ_BOUND_METHOD (o : ObjBoundMethod)
| OBJ_CLASS (o : ObjClass)
| OBJ_CLOSURE (o : ObjClosure)
| OBJ_FUNCTION (o : ObjFunction)
| OBJ_INSTANCE (o : ObjInstance)
| OBJ_NATIVE (o : NativeFn)
| OBJ_STRING (o : ObjString)
| OBJ_UPVALUE (o : ObjUpvalue).

(** ** The machine ([vm.h]) *)

(** [ip] is kept as the offset of the C pointer from
    [closure->function->chunk.code], [slots] as the offset from [vm.stack]. *)
Record CallFrame := mkFrame {
  closure : addr;
  ip : Z;
  slots : Z }.

Inductive InterpretResult :=
| INTERPRET_OK
| INTERPRET_COMPILE_ERROR
| INTERPRET_RUNTIME_ERROR.

(** What reaches standard output, in order: a text written by [printf], the
    textual form of a value written by [printValue], the listing of the
    instruction at [offset] written by [disassembleInstruction]. *)
Inductive Output :=
| Text (text : string)
| Printed (value : Value)
| Disassembled (c : Chunk) (offset : Z).

(** The global [VM vm].  [frames] and [stack] are the two fixed arrays (their
    lengths are [FRAMES_MAX] and [STACK_MAX]); [stackTop] is the offset of the
    C pointer from [vm.stack].  [heap] is the memory that holds the objects,
    [stderr] the text written to the diagnostic stream and [stdout] what was
    written to standard output. *)
Record VM := mkVM {
  frames : list CallFrame;
  frameCount : Z;
  stack : list Value;
  stackTop : Z;
  globals : Table;
  strings : gmap string positive;
  initString : addr;
  openUpvalues : option addr;
  heap : gmap positive Obj;
  stderr : string;
  stdout : list Output }.

Definition set_frames (x : list CallFrame) (s : VM) : VM :=
  mkVM x (frameCount s) (stack s) (stackTop s) (globals s) (strings s)
       (initString s) (openUpvalues s) (heap s) (stderr s) (stdout s).
Definition set_frameCount (x : Z) (s : VM) : VM :=
  mkVM (frames s) x (stack s) (stackTop s) (globals s) (strings s)
       (initString s) (openUpvalues s) (heap s) (stderr s) (stdout s).
Definition set_stack (x : list Value) (s : VM) : VM :=
  mkVM (frames s) (frameCount s) x (stackTop s) (globals s) (strings s)
       (initString s) (openUpvalues s) (heap s) (stderr s) (stdout s).
Definition set_stackTop (x : Z) (s : VM) : VM :=
  mkVM (frames s) (frameCount s) (stack s) x (globals s) (strings s)
       (initString s) (openUpvalues s) (heap s) (stderr s) (stdout s).
Definition set_globals (x : Table) (s : VM) : VM :=
  mkVM (frames s) (frameCount s) (stack s) (stackTop s) x (strings s)
       (initString s) (openUpvalues s) (heap s) (stderr s) (stdout s).
Definition set_strings (x : gmap string positive) (s : VM) : VM :=
  mkVM (frames s) (frameCount s) (stack s) (stackTop s) (globals s) x
       (initString s) (openUpvalues s) (heap s) (stderr s) (stdout s).
Definition set_openUpvalues (x : option addr) (s : VM) : VM :=
  mkVM (frames s) (frameCount s) (stack s) (stackTop s) (globals s) (strings s)
       (initString s) x (heap s) (stderr s) (stdout s).
Definition set_heap (x : gmap positive Obj) (s : VM) : VM :=
  mkVM (frames s) (frameCount s) (stack s) (stackTop s) (globals s) (strings s)
       (initString s) (openUpvalues s) x (stderr s) (stdout s).
Definition set_stderr (x : string) (s : VM) : VM :=
  mkVM (frames s) (frameCount s) (stack s) (stackTop s) (globals s) (strings s)
       (initString s) (openUpvalues s) (heap s) x (stdout s).
Definition set_stdout (x : list Output) (s : VM) : VM :=
  mkVM (frames s) (frameCount s) (stack s) (stackTop s) (globals s) (strings s)
       (initString s) (openUpvalues s) (heap s) (stderr s) x.

(** Modelled from the spec: [FRAMES_MAX] is declared in [vm.h], which is not
    among the sources; the specification gives the capacity of the call-frame
    stack as 64. *)
Definition FRAMES_MAX : Z := 64.

Definition INT_MAX : Z := 2147483647.

(** ** The monad of machine computations *)

Inductive Res (A : Type) :=
| Done (a : A) (s : VM)
| Undef
| OutOfFuel.
Arguments Done {A} a s.
Arguments Undef {A}.
Arguments OutOfFuel {A}.

Definition M (A : Type) : Type := VM -> Res A.

#[global] Instance M_ret : MRet M := fun A a s => Done a s.
#[global] Instance M_bind : MBind M := fun A B f m s =>
  match m s with
  | Done a s' => f a s'
  | Undef => Undef
  | OutOfFuel => OutOfFuel
  end.

Definition undefined {A} : M A := fun _ => Undef.
Definition out_of_fuel {A} : M A := fun _ => OutOfFuel.
Definition gets {A} (f : VM -> A) : M A := fun s => Done (f s) s.
Definition modify (f : VM -> VM) : M unit := fun s => Done tt (f s).
Definition lift {A} (o : option A) : M A :=
  match o with Some a => mret a | None => undefined end.

(** ** Arrays and memory *)

(** [a[i]] and [a[i] = x] on a C array of known extent. *)
Definition index {A} (a : list A) (i : Z) : option A :=
  if decide (0 <= i) then a !! Z.to_nat i else None.
Definition update {A} (a : list A) (i : Z) (x : A) : option (list A) :=
  if decide (0 <= i < Z.of_nat (length a)) then Some (<[Z.to_nat i := x]> a) else None.

Definition stack_get (i : Z) : M Value :=
  st ← gets stack; lift (index st i).
Definition stack_put (i : Z) (v : Value) : M unit :=
  st ← gets stack; st' ← lift (update st i v); modify (set_stack st').
Definition frames_get (i : Z) : M CallFrame :=
  fs ← gets frames; lift (index fs i).
Definition frames_put (i : Z) (f : CallFrame) : M unit :=
  fs ← gets frames; fs' ← lift (update fs i f); modify (set_frames fs').

Definition load (a : addr) : M Obj :=
  h ← gets heap; lift (h !! a).
Definition storeObj (a : addr) (o : Obj) : M unit :=
  modify (fun s => set_heap (<[a := o]> (heap s)) s).

Definition loadString (a : addr) : M ObjString :=
  o ← load a; match o with OBJ_STRING x => mret x | _ => undefined end.
Definition loadFunction (a : addr) : M ObjFunction :=
  o ← load a; match o with OBJ_FUNCTION x => mret x | _ => undefined end.
Definition loadClosure (a : addr) : M ObjClosure :=
  o ← load a; match o with OBJ_CLOSURE x => mret x | _ => undefined end.
Definition loadUpvalue (a : addr) : M ObjUpvalue :=
  o ← load a; match o with OBJ_UPVALUE x => mret x | _ => undefined end.
Definition loadClass (a : addr) : M ObjClass :=
  o ← load a; match o with OBJ_CLASS x => mret x | _ => undefined end.
Definition loadInstance (a : addr) : M ObjInstance :=
  o ← load a; match o with OBJ_INSTANCE x => mret x | _ => undefined end.

(** [*p] and [*p = v] for a [Value *]. *)
Definition deref (p : ValuePtr) : M Value :=
  match p with
  | StackSlot i => stack_get i
  | ClosedField u => uv ← loadUpvalue u; mret (closed uv)
  end.
Definition assign (p : ValuePtr) (v : Value) : M unit :=
  match p with
  | StackSlot i => stack_put i v
  | ClosedField u =>
      uv ← loadUpvalue u;
      storeObj u (OBJ_UPVALUE (mkUpvalue (location uv) v (next uv)))
  end.

(** [p > q], [p >= q] and [p == q] for a pointer [q] into [vm.stack]: the
    ordering of pointers into different objects is undefined. *)
Definition ptr_gt (p : ValuePtr) (q : Z) : M bool :=
  match p with StackSlot i => mret (bool_decide (i > q)) | ClosedField _ => undefined end.
Definition ptr_ge (p : ValuePtr) (q : Z) : M bool :=
  match p with StackSlot i => mret (bool_decide (i >= q)) | ClosedField _ => undefined end.
Definition ptr_eq (p : ValuePtr) (q : Z) : M bool :=
  match p with StackSlot i => mret (bool_decide (i = q)) | ClosedField _ => mret false end.

(** ** Collaborators whose sources are not in the repository slice *)

(** Modelled from the spec: the macros of [value.h] and [object.h].  [AS_OBJ]
    reads the object member of the union, which is only meaningful for an
    object value; [OBJ_TYPE] and the [IS_STRING]-style tests read the type tag
    of the object the value points to. *)
Definition IS_NIL (v : Value) : bool := match v with NIL_VAL => true | _ => false end.
Definition IS_BOOL (v : Value) : bool := match v with BOOL_VAL _ => true | _ => false end.
Definition IS_NUMBER (v : Value) : bool := match v with NUMBER_VAL _ => true | _ => false end.
Definition IS_OBJ (v : Value) : bool := match v with OBJ_VAL _ => true | _ => false end.
Definition AS_BOOL (v : Value) : bool := match v with BOOL_VAL b => b | _ => false end.
Definition AS_NUMBER (v : Value) : M float :=
  match v with NUMBER_VAL d => mret d | _ => undefined end.
Definition AS_OBJ (v : Value) : M addr :=
  match v with OBJ_VAL o => mret o | _ => undefined end.

Definition IS_STRING (v : Value) : M bool :=
  match v with
  | OBJ_VAL o => obj ← load o; mret (match obj with OBJ_STRING _ => true | _ => false end)
  | _ => mret false
  end.
Definition IS_INSTANCE (v : Value) : M bool :=
  match v with
  | OBJ_VAL o => obj ← load o; mret (match obj with OBJ_INSTANCE _ => true | _ => false end)
  | _ => mret false
  end.
Definition IS_CLASS (v : Value) : M bool :=
  match v with
  | OBJ_VAL o => obj ← load o; mret (match obj with OBJ_CLASS _ => true | _ => false end)
  | _ => mret false
  end.

(** Modelled from the spec: [valuesEqual] of [value.c].  Nil equals nil,
    booleans and numbers compare by value (numbers as IEEE doubles), objects
    by identity (strings are interned). *)
Definition valuesEqual (a b : Value) : bool :=
  match a, b with
  | NIL_VAL, NIL_VAL => true
  | BOOL_VAL x, BOOL_VAL y => bool_decide (x = y)
  | NUMBER_VAL x, NUMBER_VAL y => PrimFloat.eqb x y
  | OBJ_VAL x, OBJ_VAL y => bool_decide (x = y)
  | _, _ => false
  end.

(** Modelled from the spec: the hash-table primitive of [table.c], a map from
    interned strings to values with [get], [set] (which reports whether the
    key was new), [delete] and [addAll] (a [set] into the target for every
    entry of the source). *)
Definition tableGet (table : Table) (key : addr) : option Value := table !! key.
Definition tableSet (table : Table) (key : addr) (value : Value) : Table * bool :=
  (<[key := value]> table, bool_decide (table !! key = None)).
Definition tableDelete (table : Table) (key : addr) : Table := delete key table.
Definition tableAddAll (from to : Table) : Table :=
  map_fold (fun key value acc => fst (tableSet acc key value)) to from.

(** Modelled from the spec: the allocator of [object.c].  A new object lives at
    an address that holds no object yet; [collectGarbage] in [memory.c] has an
    empty body, so allocation leaves every other object as it is. *)
Definition allocateObject (o : Obj) : M addr :=
  h ← gets heap;
  let a := fresh (dom h) in
  storeObj a o;; mret a.

(** Modelled from the spec: the constructors of [object.c]. *)
Definition newInstance (k : addr) : M addr :=
  allocateObject (OBJ_INSTANCE (mkInstance k ∅)).
Definition newClass (n : addr) : M addr :=
  allocateObject (OBJ_CLASS (mkClass n ∅)).
Definition newBoundMethod (r : Value) (m : addr) : M addr :=
  allocateObject (OBJ_BOUND_METHOD (mkBoundMethod r m)).
Definition newUpvalue (slot : ValuePtr) : M addr :=
  allocateObject (OBJ_UPVALUE (mkUpvalue slot NIL_VAL None)).
Definition newClosure (f : addr) : M addr :=
  fn ← loadFunction f;
  allocateObject (OBJ_CLOSURE
    (mkClosure f (replicate (Z.to_nat (upvalueCount fn)) None) (upvalueCount fn))).

(** Modelled from the spec: the string interner.  [takeString] returns the
    canonical [ObjString] for the given characters: the one already in the
    intern table [vm.strings], or else a new object that it records there. *)
Definition takeString (cs : string) : M addr :=
  tbl ← gets strings;
  match tbl !! cs with
  | Some interned => mret interned
  | None =>
      a ← allocateObject (OBJ_STRING (mkString cs));
      modify (fun s => set_strings (<[cs := a]> (strings s)) s);;
      mret a
  end.

(** ** [vm.c] *)

Definition resetStack : M unit :=
  modify (set_stackTop 0);;
  modify (set_frameCount 0);;
  modify (set_openUpvalues None).

(** The character written for a newline escape of C. *)
Definition newline : string := String (Ascii.ascii_of_nat 10) EmptyString.

Definition fputs (text : string) : M unit :=
  modify (fun s => set_stderr (stderr s +:+ text) s).

(** What the conversion [%s] writes for the array [cs]: a C string ends at
    its first NUL character, whatever the [length] of the [ObjString]. *)
Fixpoint cString (cs : string) : string :=
  match cs with
  | EmptyString => EmptyString
  | String c rest =>
      if Ascii.eqb c Ascii.zero then EmptyString else String c (cString rest)
  end.

(** One iteration of the loop of [runtimeError], for frame [i]. *)
Definition traceFrame (i : Z) : M unit :=
  frame ← frames_get i;
  cl ← loadClosure (closure frame);
  func ← loadFunction (function cl);
  let instruction := ip frame - 1 in
  line ← lift (index (lines (chunk func)) instruction);
  fputs ("[line " +:+ pretty line +:+ "] in ");;
  match name func with
  | None => fputs ("script" +:+ newline)
  | Some n =>
      str ← loadString n;
      fputs (cString (chars str) +:+ "()" +:+ newline)
  end.

(** [for (int i = vm.frameCount - 1; i >= 0; i--)], with [n] frames to go. *)
Fixpoint traceFrames (n : nat) : M unit :=
  match n with
  | O => mret tt
  | S i => traceFrame (Z.of_nat i);; traceFrames i
  end.

(** [message] is the text that [vfprintf] produces from the format and its
    arguments. *)
Definition runtimeError (message : string) : M unit :=
  fputs message;;
  fputs (newline);;
  fc ← gets frameCount;
  traceFrames (Z.to_nat fc);;
  resetStack.

Definition push (value : Value) : M unit :=
  top ← gets stackTop;
  stack_put top value;;
  modify (set_stackTop (top + 1)).

Definition pop : M Value :=
  top ← gets stackTop;
  modify (set_stackTop (top - 1));;
  stack_get (top - 1).

Definition peek (distance : Z) : M Value :=
  top ← gets stackTop;
  stack_get (top - 1 - distance).

Definition call (closure : addr) (argCount : Z) : M bool :=
  cl ← loadClosure closure;
  fn ← loadFunction (function cl);
  if decide (argCount ≠ arity fn) then
    runtimeError ("Expected " +:+ pretty (arity fn) +:+ " arguments but got "
                  +:+ pretty argCount +:+ ".");;
    mret false
  else
    fc ← gets frameCount;
    if decide (fc = FRAMES_MAX) then
      runtimeError "Stack overflow.";;
      mret false
    else
      modify (set_frameCount (fc + 1));;
      top ← gets stackTop;
      frames_put fc (mkFrame closure 0 (top - argCount - 1));;
      mret true.

(** [vm.stackTop - argCount], the [argCount] arguments handed to a native. *)
Definition nativeArgs (argCount : Z) : M (list Value) :=
  top ← gets stackTop;
  st ← gets stack;
  if decide (0 <= top - argCount ∧ 0 <= argCount ∧ top <= Z.of_nat (length st)) then
    mret (take (Z.to_nat argCount) (drop (Z.to_nat (top - argCount)) st))
  else undefined.

Definition callValue (callee : Value) (argCount : Z) : M bool :=
  match callee with
  | OBJ_VAL o =>
      obj ← load o;
      match obj with
      | OBJ_BOUND_METHOD bound =>
          top ← gets stackTop;
          stack_put (top - argCount - 1) (receiver bound);;
          call (method bound) argCount
      | OBJ_CLASS klass =>
          inst ← newInstance o;
          top ← gets stackTop;
          stack_put (top - argCount - 1) (OBJ_VAL inst);;
          init ← gets initString;
          match tableGet (methods klass) init with
          | Some initializer =>
              cl ← AS_OBJ initializer;
              call cl argCount
          | None =>
              if decide (argCount ≠ 0) then
                runtimeError ("Expected 0 arguments but got " +:+ pretty argCount +:+ ".");;
                mret false
              else mret true
          end
      | OBJ_CLOSURE _ => call o argCount
      | OBJ_NATIVE native =>
          args ← nativeArgs argCount;
          let result := native argCount args in
          top ← gets stackTop;
          modify (set_stackTop (top - (argCount + 1)));;
          push result;;
          mret true
      | _ =>
          runtimeError "Can only call functions and classes.";;
          mret false
      end
  | _ =>
      runtimeError "Can only call functions and classes.";;
      mret false
  end.

Definition invokeFromClass (klass : addr) (name : addr) (argCount : Z) : M bool :=
  k ← loadClass klass;
  match tableGet (methods k) name with
  | None =>
      str ← loadString name;
      runtimeError ("Undefined property '" +:+ cString (chars str) +:+ "'.");;
      mret false
  | Some method =>
      cl ← AS_OBJ method;
      call cl argCount
  end.

Definition invoke (name : addr) (argCount : Z) : M bool :=
  receiver ← peek argCount;
  isInst ← IS_INSTANCE receiver;
  if negb isInst then
    runtimeError "Only instances have methods.";;
    mret false
  else
    i ← AS_OBJ receiver;
    instance ← loadInstance i;
    match tableGet (fields instance) name with
    | Some value =>
        top ← gets stackTop;
        stack_put (top - argCount - 1) value;;
        callValue value argCount
    | None => invokeFromClass (klass instance) name argCount
    end.

Definition bindMethod (klass : addr) (name : addr) : M bool :=
  k ← loadClass klass;
  match tableGet (methods k) name with
  | None =>
      str ← loadString name;
      runtimeError ("Undefined property '" +:+ cString (chars str) +:+ "'.");;
      mret false
  | Some method =>
      recv ← peek 0;
      cl ← AS_OBJ method;
      bound ← newBoundMethod recv cl;
      pop;;
      push (OBJ_VAL bound);;
      mret true
  end.

(** The [while] loop of [captureUpvalue]: it returns [prevUpvalue] and
    [upvalue] as the loop leaves them. *)
Fixpoint captureUpvalue_walk (fuel : nat) (local : Z) (prevUpvalue upvalue : option addr)
  : M (option addr * option addr) :=
  match fuel with
  | O => out_of_fuel
  | S fuel' =>
      match upvalue with
      | None => mret (prevUpvalue, upvalue)
      | Some u =>
          uv ← loadUpvalue u;
          above ← ptr_gt (location uv) local;
          if (above : bool) then captureUpvalue_walk fuel' local upvalue (next uv)
          else mret (prevUpvalue, upvalue)
      end
  end.

(** The tail of [captureUpvalue], from [newUpvalue] on. *)
Definition captureUpvalue_create (local : Z) (prevUpvalue upvalue : option addr) : M addr :=
  createdUpvalue ← newUpvalue (StackSlot local);
  cu ← loadUpvalue createdUpvalue;
  storeObj createdUpvalue (OBJ_UPVALUE (mkUpvalue (location cu) (closed cu) upvalue));;
  match prevUpvalue with
  | None => modify (set_openUpvalues (Some createdUpvalue))
  | Some p =>
      pu ← loadUpvalue p;
      storeObj p (OBJ_UPVALUE (mkUpvalue (location pu) (closed pu) (Some createdUpvalue)))
  end;;
  mret createdUpvalue.

Definition captureUpvalue (fuel : nat) (local : Z) : M addr :=
  head ← gets openUpvalues;
  '(prevUpvalue, upvalue) ← captureUpvalue_walk fuel local None head;
  match upvalue with
  | Some u =>
      uv ← loadUpvalue u;
      same ← ptr_eq (location uv) local;
      if (same : bool) then mret u
      else captureUpvalue_create local prevUpvalue upvalue
  | None => captureUpvalue_create local prevUpvalue upvalue
  end.

Fixpoint closeUpvalues (fuel : nat) (last : Z) : M unit :=
  match fuel with
  | O => out_of_fuel
  | S fuel' =>
      head ← gets openUpvalues;
      match head with
      | None => mret tt
      | Some upvalue =>
          uv ← loadUpvalue upvalue;
          above ← ptr_ge (location uv) last;
          if (above : bool) then
            v ← deref (location uv);
            storeObj upvalue (OBJ_UPVALUE (mkUpvalue (location uv) v (next uv)));;
            storeObj upvalue (OBJ_UPVALUE (mkUpvalue (ClosedField upvalue) v (next uv)));;
            modify (set_openUpvalues (next uv));;
            closeUpvalues fuel' last
          else mret tt
      end
  end.

(** [tableSet(&klass->methods, name, method)] on the class object [k]. *)
Definition setMethod (k : addr) (name : addr) (method : Value) : M unit :=
  c ← loadClass k;
  storeObj k (OBJ_CLASS (mkClass (klass_name c) (fst (tableSet (methods c) name method)))).

(** [tableSet(&instance->fields, name, value)] on the instance object [i]. *)
Definition setField (i : addr) (name : addr) (value : Value) : M unit :=
  inst ← loadInstance i;
  storeObj i (OBJ_INSTANCE (mkInstance (klass inst) (fst (tableSet (fields inst) name value)))).

Definition defineMethod (name : addr) : M unit :=
  method ← peek 0;
  v ← peek 1;
  k ← AS_OBJ v;
  setMethod k name method;;
  pop;;
  mret tt.

Definition isFalsey (value : Value) : bool :=
  IS_NIL value || (IS_BOOL value && negb (AS_BOOL value)).

Definition strlen (s : ObjString) : Z := Z.of_nat (String.length (chars s)).

Definition concatenate : M unit :=
  vb ← peek 0;
  pb ← AS_OBJ vb;
  b ← loadString pb;
  va ← peek 1;
  pa ← AS_OBJ va;
  a ← loadString pa;
  let length := strlen a + strlen b in
  if decide (length + 1 <= INT_MAX) then
    result ← takeString (chars a +:+ chars b);
    pop;;
    pop;;
    push (OBJ_VAL result)
  else undefined.

(** ** The dispatch loop [run] *)

(** What a handler reaches: the next [DISPATCH()], with the local [frame]
    (an index into [vm.frames]) as it then stands, or a [return]. *)
Inductive Next :=
| Continue (frame : Z)
| Return (r : InterpretResult).

Definition byte_to_Z (b : byte) : Z := Z.of_N (Byte.to_N b).
Definition uint16_t (z : Z) : Z := z mod 65536.

(** [frame->ip[k]] and [frame->ip += k]. *)
Definition ip_get (frame : Z) (k : Z) : M Z :=
  fr ← frames_get frame;
  cl ← loadClosure (closure fr);
  fn ← loadFunction (function cl);
  b ← lift (index (code (chunk fn)) (ip fr + k));
  mret (byte_to_Z b).
Definition ip_add (frame : Z) (k : Z) : M unit :=
  fr ← frames_get frame;
  frames_put frame (mkFrame (closure fr) (ip fr + k) (slots fr)).

Definition READ_BYTE (frame : Z) : M Z :=
  b ← ip_get frame 0;
  ip_add frame 1;;
  mret b.

Definition READ_CONSTANT (frame : Z) : M Value :=
  i ← READ_BYTE frame;
  fr ← frames_get frame;
  cl ← loadClosure (closure fr);
  fn ← loadFunction (function cl);
  lift (index (constants (chunk fn)) i).

Definition READ_SHORT (frame : Z) : M Z :=
  ip_add frame 2;;
  hi ← ip_get frame (-2);
  lo ← ip_get frame (-1);
  mret (uint16_t (Z.lor (Z.shiftl hi 8) lo)).

Definition READ_STRING (frame : Z) : M addr :=
  v ← READ_CONSTANT frame;
  AS_OBJ v.

Definition BINARY_OP (valueType : float -> float -> Value) : M Next -> M Next :=
  fun continue =>
  v0 ← peek 0;
  bad ← (if negb (IS_NUMBER v0) then mret true
         else v1 ← peek 1; mret (negb (IS_NUMBER v1)));
  if (bad : bool) then
    runtimeError "Operands must be numbers.";;
    mret (Return INTERPRET_RUNTIME_ERROR)
  else
    vb ← pop; b ← AS_NUMBER vb;
    va ← pop; a ← AS_NUMBER va;
    push (valueType a b);;
    continue.

Definition printf (text : string) : M unit :=
  modify (fun s => set_stdout (stdout s ++ [Text text]) s).

(** Modelled from the spec: [printValue] of [value.c] writes the textual form
    of a value to standard output; the model records the value written. *)
Definition printValue (v : Value) : M unit :=
  modify (fun s => set_stdout (stdout s ++ [Printed v]) s).

(** Modelled from the spec: [disassembleInstruction] of [debug.c], the
    disassembler that the specification names as an external collaborator,
    writes the listing of the instruction at [offset] of the chunk to
    standard output; the model records the chunk and the offset. *)
Definition disassembleInstruction (c : Chunk) (offset : Z) : M unit :=
  modify (fun s => set_stdout (stdout s ++ [Disassembled c offset]) s).

(** The [for] loop of [PRINT_TRACE], at [slot] with [n] slots to go:
    [vm.stackTop] does not change while it runs. *)
Fixpoint PRINT_TRACE_loop (n : nat) (slot : Z) : M unit :=
  match n with
  | O => mret tt
  | S n' =>
      printf "[ ";;
      v ← stack_get slot;
      printValue v;;
      printf " ]";;
      PRINT_TRACE_loop n' (slot + 1)
  end.

(** [PRINT_TRACE()] as [DEBUG_TRACE_EXECUTION] of [common.h] defines it, for
    the local [frame] of [run].  A [vm.stackTop] below [vm.stack] cannot be
    compared with the loop pointer. *)
Definition PRINT_TRACE (frame : Z) : M unit :=
  printf "          ";;
  top ← gets stackTop;
  (if decide (0 <= top) then PRINT_TRACE_loop (Z.to_nat top) 0 else undefined);;
  printf newline;;
  fr ← frames_get frame;
  cl ← loadClosure (closure fr);
  fn ← loadFunction (function cl);
  disassembleInstruction (chunk fn) (ip fr).

Section handlers.
(** [fuel] bounds the walks over the open-upvalue list; [frame] is the
    local variable of [run]. *)
Variable fuel : nat.
Variable frame : Z.

Definition instr_op_constant : M Next :=
  constant ← READ_CONSTANT frame;
  push constant;;
  mret (Continue frame).

Definition instr_op_nil : M Next :=
  push NIL_VAL;; mret (Continue frame).

Definition instr_op_true : M Next :=
  push (BOOL_VAL true);; mret (Continue frame).

Definition instr_op_false : M Next :=
  push (BOOL_VAL false);; mret (Continue frame).

Definition instr_op_pop : M Next :=
  pop;; mret (Continue frame).

Definition instr_op_get_local : M Next :=
  slot ← READ_BYTE frame;
  fr ← frames_get frame;
  v ← stack_get (slots fr + slot);
  push v;;
  mret (Continue frame).

Definition instr_op_set_local : M Next :=
  slot ← READ_BYTE frame;
  v ← peek 0;
  fr ← frames_get frame;
  stack_put (slots fr + slot) v;;
  mret (Continue frame).

Definition instr_op_get_global : M Next :=
  name ← READ_STRING frame;
  g ← gets globals;
  match tableGet g name with
  | None =>
      str ← loadString name;
      runtimeError ("Undefined variable '" +:+ cString (chars str) +:+ "'.");;
      mret (Return INTERPRET_RUNTIME_ERROR)
  | Some value =>
      push value;;
      mret (Continue frame)
  end.

Definition instr_op_define_global : M Next :=
  name ← READ_STRING frame;
  v ← peek 0;
  modify (fun s => set_globals (fst (tableSet (globals s) name v)) s);;
  pop;;
  mret (Continue frame).

Definition instr_op_set_global : M Next :=
  name ← READ_STRING frame;
  v ← peek 0;
  g ← gets globals;
  let '(g', isNewKey) := tableSet g name v in
  modify (set_globals g');;
  if (isNewKey : bool) then
    modify (fun s => set_globals (tableDelete (globals s) name) s);;
    str ← loadString name;
    runtimeError ("Undefined variable '" +:+ cString (chars str) +:+ "'.");;
    mret (Return INTERPRET_RUNTIME_ERROR)
  else mret (Continue frame).

Definition instr_op_set_upvalue : M Next :=
  slot ← READ_BYTE frame;
  v ← peek 0;
  fr ← frames_get frame;
  cl ← loadClosure (closure fr);
  entry ← lift (index (upvalues cl) slot);
  up ← lift entry;
  uv ← loadUpvalue up;
  assign (location uv) v;;
  mret (Continue frame).

Definition instr_op_get_property : M Next :=
  v ← peek 0;
  isInst ← IS_INSTANCE v;
  if negb isInst then
    runtimeError "Only instances have properties.";;
    mret (Return INTERPRET_RUNTIME_ERROR)
  else
    i ← AS_OBJ v;
    instance ← loadInstance i;
    name ← READ_STRING frame;
    match tableGet (fields instance) name with
    | Some value =>
        pop;;
        push value;;
        mret (Continue frame)
    | None =>
        bound ← bindMethod (klass instance) name;
        if negb bound then mret (Return INTERPRET_RUNTIME_ERROR)
        else mret (Continue frame)
    end.

Definition instr_op_set_property : M Next :=
  v1 ← peek 1;
  isInst ← IS_INSTANCE v1;
  if negb isInst then
    runtimeError "Only instances have fields.";;
    mret (Return INTERPRET_RUNTIME_ERROR)
  else
    i ← AS_OBJ v1;
    name ← READ_STRING frame;
    v0 ← peek 0;
    setField i name v0;;
    value ← pop;
    pop;;
    push value;;
    mret (Continue frame).

Definition instr_op_get_super : M Next :=
  name ← READ_STRING frame;
  v ← pop;
  superclass ← AS_OBJ v;
  bound ← bindMethod superclass name;
  if negb bound then mret (Return INTERPRET_RUNTIME_ERROR)
  else mret (Continue frame).

Definition instr_op_equal : M Next :=
  b ← pop;
  a ← pop;
  push (BOOL_VAL (valuesEqual a b));;
  mret (Continue frame).

Definition instr_op_get_upvalue : M Next :=
  slot ← READ_BYTE frame;
  fr ← frames_get frame;
  cl ← loadClosure (closure fr);
  entry ← lift (index (upvalues cl) slot);
  up ← lift entry;
  uv ← loadUpvalue up;
  v ← deref (location uv);
  push v;;
  mret (Continue frame).

Definition instr_op_greater : M Next :=
  BINARY_OP (fun a b => BOOL_VAL (PrimFloat.ltb b a)) (mret (Continue frame)).

Definition instr_op_less : M Next :=
  BINARY_OP (fun a b => BOOL_VAL (PrimFloat.ltb a b)) (mret (Continue frame)).

Definition instr_op_add : M Next :=
  v0 ← peek 0;
  s0 ← IS_STRING v0;
  s1 ← (if (s0 : bool) then v1 ← peek 1; IS_STRING v1 else mret false);
  if (s1 : bool) then
    concatenate;;
    mret (Continue frame)
  else
    v0 ← peek 0;
    n1 ← (if IS_NUMBER v0 then v1 ← peek 1; mret (IS_NUMBER v1) else mret false);
    if (n1 : bool) then
      vb ← pop; b ← AS_NUMBER vb;
      va ← pop; a ← AS_NUMBER va;
      push (NUMBER_VAL (PrimFloat.add a b));;
      mret (Continue frame)
    else
      runtimeError "Operands must be two numbers or two strings.";;
      mret (Return INTERPRET_RUNTIME_ERROR).

Definition instr_op_subtract : M Next :=
  BINARY_OP (fun a b => NUMBER_VAL (PrimFloat.sub a b)) (mret (Continue frame)).

Definition instr_op_multiply : M Next :=
  BINARY_OP (fun a b => NUMBER_VAL (PrimFloat.mul a b)) (mret (Continue frame)).

Definition instr_op_divide : M Next :=
  BINARY_OP (fun a b => NUMBER_VAL (PrimFloat.div a b)) (mret (Continue frame)).

Definition instr_op_not : M Next :=
  v ← pop;
  push (BOOL_VAL (isFalsey v));;
  mret (Continue frame).

Definition instr_op_negate : M Next :=
  v ← peek 0;
  if negb (IS_NUMBER v) then
    runtimeError "Operand must be a number.";;
    mret (Return INTERPRET_RUNTIME_ERROR)
  else
    v ← pop;
    d ← AS_NUMBER v;
    push (NUMBER_VAL (PrimFloat.opp d));;
    mret (Continue frame).

Definition instr_op_print : M Next :=
  v ← pop;
  printValue v;;
  printf newline;;
  mret (Continue frame).

Definition instr_op_jump : M Next :=
  offset ← READ_SHORT frame;
  ip_add frame offset;;
  mret (Continue frame).

Definition instr_op_jump_if_false : M Next :=
  offset ← READ_SHORT frame;
  v ← peek 0;
  (if isFalsey v then ip_add frame offset else mret tt);;
  mret (Continue frame).

Definition instr_op_loop : M Next :=
  offset ← READ_SHORT frame;
  ip_add frame (- offset);;
  mret (Continue frame).

(** [frame = &vm.frames[vm.frameCount - 1]; DISPATCH();] *)
Definition reload_frame : M Next :=
  fc ← gets frameCount;
  mret (Continue (fc - 1)).

Definition instr_op_call : M Next :=
  argCount ← READ_BYTE frame;
  callee ← peek argCount;
  ok ← callValue callee argCount;
  if negb ok then mret (Return INTERPRET_RUNTIME_ERROR)
  else reload_frame.

Definition instr_op_invoke : M Next :=
  method ← READ_STRING frame;
  argCount ← READ_BYTE frame;
  ok ← invoke method argCount;
  if negb ok then mret (Return INTERPRET_RUNTIME_ERROR)
  else reload_frame.

Definition instr_op_super_invoke : M Next :=
  method ← READ_STRING frame;
  argCount ← READ_BYTE frame;
  v ← pop;
  superclass ← AS_OBJ v;
  ok ← invokeFromClass superclass method argCount;
  if negb ok then mret (Return INTERPRET_RUNTIME_ERROR)
  else reload_frame.

(** [closure->upvalues[i] = up]. *)
Definition setUpvalue (cl : addr) (i : Z) (up : option addr) : M unit :=
  c ← loadClosure cl;
  ups ← lift (update (upvalues c) i up);
  storeObj cl (OBJ_CLOSURE (mkClosure (function c) ups (closure_upvalueCount c))).

(** The [for] loop of [OP_CLOSURE], at index [i] with [n] rounds to go; the
    bound [closure->upvalueCount] does not change while it runs. *)
Fixpoint instr_op_closure_loop (n : nat) (cl : addr) (i : Z) : M unit :=
  match n with
  | O => mret tt
  | S n' =>
      isLocal ← READ_BYTE frame;
      idx ← READ_BYTE frame;
      (if decide (isLocal ≠ 0) then
         fr ← frames_get frame;
         up ← captureUpvalue fuel (slots fr + idx);
         setUpvalue cl i (Some up)
       else
         fr ← frames_get frame;
         enclosing ← loadClosure (closure fr);
         up ← lift (index (upvalues enclosing) idx);
         setUpvalue cl i up);;
      instr_op_closure_loop n' cl (i + 1)
  end.

Definition instr_op_closure : M Next :=
  v ← READ_CONSTANT frame;
  function ← AS_OBJ v;
  cl ← newClosure function;
  push (OBJ_VAL cl);;
  c ← loadClosure cl;
  instr_op_closure_loop (Z.to_nat (closure_upvalueCount c)) cl 0;;
  mret (Continue frame).

Definition instr_op_close_upvalue : M Next :=
  top ← gets stackTop;
  closeUpvalues fuel (top - 1);;
  pop;;
  mret (Continue frame).

Definition instr_op_return : M Next :=
  result ← pop;
  fr ← frames_get frame;
  closeUpvalues fuel (slots fr);;
  fc ← gets frameCount;
  modify (set_frameCount (fc - 1));;
  if decide (fc - 1 = 0) then
    pop;;
    mret (Return INTERPRET_OK)
  else
    fr ← frames_get frame;
    modify (set_stackTop (slots fr));;
    push result;;
    reload_frame.

Definition instr_op_class : M Next :=
  name ← READ_STRING frame;
  k ← newClass name;
  push (OBJ_VAL k);;
  mret (Continue frame).

Definition instr_op_inherit : M Next :=
  superclass ← peek 1;
  isClass ← IS_CLASS superclass;
  if negb isClass then
    runtimeError "Superclass must be a class.";;
    mret (Return INTERPRET_RUNTIME_ERROR)
  else
    v ← peek 0;
    subclass ← AS_OBJ v;
    sup ← AS_OBJ superclass;
    from ← loadClass sup;
    to ← loadClass subclass;
    storeObj subclass
      (OBJ_CLASS (mkClass (klass_name to) (tableAddAll (methods from) (methods to))));;
    pop;;
    mret (Continue frame).

Definition instr_op_method : M Next :=
  name ← READ_STRING frame;
  defineMethod name;;
  mret (Continue frame).

Definition dispatchTable : list (M Next) :=
  [ instr_op_constant;      instr_op_nil;
    instr_op_true;          instr_op_false;
    instr_op_get_upvalue;   instr_op_set_upvalue;
    instr_op_get_property;  instr_op_set_property;
    instr_op_get_super;     instr_op_equal;
    instr_op_pop;           instr_op_get_local;
    instr_op_set_local;     instr_op_get_global;
    instr_op_define_global; instr_op_set_global;
    instr_op_greater;       instr_op_less;
    instr_op_add;           instr_op_subtract;
    instr_op_multiply;      instr_op_divide;
    instr_op_not;           instr_op_negate;
    instr_op_print;         instr_op_jump;
    instr_op_jump_if_false; instr_op_loop;
    instr_op_call;          instr_op_invoke;
    instr_op_super_invoke;  instr_op_closure;
    instr_op_close_upvalue; instr_op_return;
    instr_op_class;         instr_op_inherit;
    instr_op_method ].

(** [DISPATCH()]: the trace, [goto *dispatchTable[*frame->ip++]] and the
    handler it reaches, up to the next [DISPATCH()] or [return]. *)
Definition DISPATCH : M Next :=
  PRINT_TRACE frame;;
  op ← READ_BYTE frame;
  handler ← lift (index dispatchTable op);
  handler.
End handlers.

(** [run]: the chain of dispatches, at most [steps] of them. *)
Fixpoint run_from (steps fuel : nat) (frame : Z) : M InterpretResult :=
  match steps with
  | O => out_of_fuel
  | S steps' =>
      next ← DISPATCH fuel frame;
      match next with
      | Continue frame' => run_from steps' fuel frame'
      | Return r => mret r
      end
  end.

Definition run (steps fuel : nat) : M InterpretResult :=
  fc ← gets frameCount;
  run_from steps fuel (fc - 1).

(** [interpret], given what [compile(source)] returned: a null pointer or the
    function object of the script. *)
Definition interpret (steps fuel : nat) (compiled : option addr) : M InterpretResult :=
  match compiled with
  | None => mret INTERPRET_COMPILE_ERROR
  | Some function =>
      push (OBJ_VAL function);;
      cl ← newClosure function;
      pop;;
      push (OBJ_VAL cl);;
      call cl 0;;
      run steps fuel
  end.

(** * Specification vocabulary *)

(** The line that [runtimeError] prints for one frame. *)
Definition frameLine (h : gmap positive Obj) (f : CallFrame) : option string :=
  match h !! closure f with
  | Some (OBJ_CLOSURE cl) =>
      match h !! function cl with
      | Some (OBJ_FUNCTION func) =>
          match index (lines (chunk func)) (ip f - 1), name func with
          | Some line, None =>
              Some ("[line " +:+ pretty line +:+ "] in " +:+ "script" +:+ newline)
          | Some line, Some n =>
              match h !! n with
              | Some (OBJ_STRING str) =>
                  Some ("[line " +:+ pretty line +:+ "] in " +:+ cString (chars str) +:+ "()"
                        +:+ newline)
              | _ => None
              end
          | None, _ => None
          end
      | _ => None
      end
  | _ => None
  end.

(** The lines of a list of frames, in the order of the list. *)
Fixpoint traceLines (h : gmap positive Obj) (fs : list CallFrame) : option string :=
  match fs with
  | [] => Some EmptyString
  | f :: rest =>
      match frameLine h f, traceLines h rest with
      | Some l, Some t => Some (l +:+ t)
      | _, _ => None
      end
  end.

(** The stack trace of a machine: its live frames, innermost first. *)
Definition stackTrace (s : VM) : option string :=
  traceLines (heap s) (reverse (take (Z.to_nat (frameCount s)) (frames s))).

(** The machine after [runtimeError message] when the trace is [trace]. *)
Definition afterError (message trace : string) (s : VM) : VM :=
  set_openUpvalues None
    (set_frameCount 0
      (set_stackTop 0
        (set_stderr (stderr s +:+ message +:+ newline +:+ trace) s))).

(** The text of the arity error of [call]. *)
Definition arityMessage (expected got : Z) : string :=
  "Expected " +:+ pretty expected +:+ " arguments but got " +:+ pretty got +:+ ".".

(** The machine after [call] has pushed a frame for [cl]. *)
Definition afterCall (cl : addr) (argCount : Z) (s : VM) : VM :=
  set_frames (<[Z.to_nat (frameCount s) := mkFrame cl 0 (stackTop s - argCount - 1)]> (frames s))
    (set_frameCount (frameCount s + 1) s).

(** ** Example machines *)

(** A script (closure 3 of function 2), a one-parameter function [f]
    (closure 6 of function 5), two strings, a class [A] without methods, and a
    closure [inner] (14) that has captured the local in stack slot 1 through
    the open upvalue 15. *)
Definition exHeap : gmap positive Obj :=
  list_to_map
    [ (1%positive, OBJ_STRING (mkString "init"));
      (2%positive, OBJ_FUNCTION (mkFunction 0 0
          (mkChunk [x1c; x00; x0f; x01; x21] [7; 7; 8; 8; 9]
                   [OBJ_VAL 6%positive; OBJ_VAL 11%positive]) None));
      (3%positive, OBJ_CLOSURE (mkClosure 2%positive [] 0));
      (4%positive, OBJ_STRING (mkString "f"));
      (5%positive, OBJ_FUNCTION (mkFunction 1 0
          (mkChunk [x01; x21] [3; 3] []) (Some 4%positive)));
      (6%positive, OBJ_CLOSURE (mkClosure 5%positive [] 0));
      (7%positive, OBJ_STRING (mkString "he"));
      (8%positive, OBJ_STRING (mkString "llo"));
      (9%positive, OBJ_CLASS (mkClass 10%positive ∅));
      (10%positive, OBJ_STRING (mkString "A"));
      (11%positive, OBJ_STRING (mkString "x"));
      (12%positive, OBJ_FUNCTION (mkFunction 0 1
          (mkChunk [x04; x00; x05; x00; x21] [4; 4; 5; 5; 6] []) (Some 13%positive)));
      (13%positive, OBJ_STRING (mkString "inner"));
      (14%positive, OBJ_CLOSURE (mkClosure 12%positive [Some 15%positive] 1));
      (15%positive, OBJ_UPVALUE (mkUpvalue (StackSlot 1) NIL_VAL None)) ].

Definition exStrings : gmap string positive :=
  list_to_map [ ("init", 1%positive); ("f", 4%positive); ("he", 7%positive);
                ("llo", 8%positive); ("A", 10%positive); ("x", 11%positive);
                ("inner", 13%positive) ].

(** A machine whose only live frame runs the script at offset [pc], over the
    given stack contents. *)
Definition exScript (pc : Z) (st : list Value) (top : Z) : VM :=
  mkVM (mkFrame 3%positive pc 0 :: replicate 63 (mkFrame 3%positive 0 0)) 1
       st top ∅ exStrings 1%positive None exHeap "" [].

(** The script is about to read the operand of [OP_CALL 0], with [f] on top
    of the stack. *)
Definition exCall : VM :=
  exScript 1 [OBJ_VAL 3%positive; OBJ_VAL 6%positive; NIL_VAL; NIL_VAL] 2.

(** The frame array is full: 64 live frames. *)
Definition exDeep : VM :=
  mkVM (replicate 64 (mkFrame 3%positive 2 0)) 64
       [OBJ_VAL 3%positive; OBJ_VAL 6%positive; NIL_VAL; NIL_VAL] 2
       ∅ exStrings 1%positive None exHeap "" [].

(** The class [A] is called without arguments. *)
Definition exClass : VM :=
  exScript 2 [OBJ_VAL 3%positive; OBJ_VAL 9%positive; NIL_VAL; NIL_VAL] 2.

(** The class [A], now with the one-parameter closure [f] as its [init]
    method, is called with one argument. *)
Definition exInit : VM :=
  mkVM (mkFrame 3%positive 2 0 :: replicate 63 (mkFrame 3%positive 0 0)) 1
       [OBJ_VAL 3%positive; OBJ_VAL 9%positive; BOOL_VAL true; NIL_VAL; NIL_VAL] 3
       ∅ exStrings 1%positive None
       (<[9%positive := OBJ_CLASS (mkClass 10%positive {[ 1%positive := OBJ_VAL 6%positive ]})]>
        exHeap)
       "" [].

(** The script is about to read the operand of [OP_SET_GLOBAL x], with a
    number on top of the stack; no global is defined. *)
Definition exSetGlobal : VM :=
  exScript 3 [OBJ_VAL 3%positive; NUMBER_VAL 1; NIL_VAL; NIL_VAL] 2.

(** The two strings are about to be added. *)
Definition exAdd : VM :=
  exScript 0 [OBJ_VAL 3%positive; OBJ_VAL 7%positive; OBJ_VAL 8%positive; NIL_VAL] 3.

(** [inner] runs in frame 1, called from the script whose local in slot 1
    holds [false]; it is about to read the operand of [OP_SET_UPVALUE 0], with
    [true] on top of the stack. *)
Definition exInner : VM :=
  mkVM (mkFrame 3%positive 2 0 :: mkFrame 14%positive 3 2 :: replicate 62 (mkFrame 3%positive 0 0)) 2
       [OBJ_VAL 3%positive; BOOL_VAL false; OBJ_VAL 14%positive; BOOL_VAL true; NIL_VAL] 4
       ∅ exStrings 1%positive (Some 15%positive) exHeap "" [].

(** ** Reading the instruction stream *)

(** The function whose code frame [frame] executes. *)
Definition frameFunction (s : VM) (frame : Z) : option ObjFunction :=
  match index (frames s) frame with
  | Some fr =>
      match heap s !! closure fr with
      | Some (OBJ_CLOSURE cl) =>
          match heap s !! function cl with
          | Some (OBJ_FUNCTION fn) => Some fn
          | _ => None
          end
      | _ => None
      end
  | None => None
  end.

(** The byte [frame->ip[k]]. *)
Definition codeAt (s : VM) (frame k : Z) : option Z :=
  match index (frames s) frame, frameFunction s frame with
  | Some fr, Some fn => byte_to_Z <$> index (code (chunk fn)) (ip fr + k)
  | _, _ => None
  end.

(** Constant [i] of the chunk that frame [frame] executes. *)
Definition constAt (s : VM) (frame i : Z) : option Value :=
  match frameFunction s frame with
  | Some fn => index (constants (chunk fn)) i
  | None => None
  end.

(** The machine after [frame->ip += k]. *)
Definition advance (frame k : Z) (s : VM) : VM :=
  match index (frames s) frame with
  | Some fr =>
      set_frames (<[Z.to_nat frame := mkFrame (closure fr) (ip fr + k) (slots fr)]> (frames s)) s
  | None => s
  end.

(** What [PRINT_TRACE] writes for the stack slots that hold [vs]. *)
Definition slotsTrace (vs : list Value) : list Output :=
  vs ≫= fun v => [Text "[ "; Printed v; Text " ]"].

(** What one [PRINT_TRACE()] writes on machine [s] for frame [frame]: the
    live stack slots from the bottom, then the instruction at [frame->ip]. *)
Definition traceOf (s : VM) (frame : Z) : list Output :=
  Text "          " ::
  slotsTrace (take (Z.to_nat (stackTop s)) (stack s)) ++
  Text newline ::
  match index (frames s) frame, frameFunction s frame with
  | Some fr, Some fn => [Disassembled (chunk fn) (ip fr)]
  | _, _ => []
  end.

(** The machine after [PRINT_TRACE()]. *)
Definition traced (frame : Z) (s : VM) : VM :=
  set_stdout (stdout s ++ traceOf s frame) s.

(** The values that [OP_PRINT] wrote, read off standard output: [OP_PRINT]
    follows a value by a newline, the trace follows it by [" ]"]. *)
Fixpoint printedLines (out : list Output) : list Value :=
  match out with
  | [] => []
  | Printed v :: rest =>
      match rest with
      | Text t :: _ =>
          if decide (t = newline) then v :: printedLines rest else printedLines rest
      | _ => printedLines rest
      end
  | _ :: rest => printedLines rest
  end.

(** The spec's wording "little-endian byte pair": the byte stored first is the
    least significant one. *)
Definition littleEndian16 (first second : Z) : Z := first + 256 * second.

(** A frame of the script about to read the operand [01 02] of a jump, with
    [nil] on top of the stack. *)
Definition exJumpHeap : gmap positive Obj :=
  list_to_map
    [ (2%positive, OBJ_FUNCTION (mkFunction 0 0
          (mkChunk [x1a; x01; x02; x21] [1; 1; 1; 2] []) None));
      (3%positive, OBJ_CLOSURE (mkClosure 2%positive [] 0)) ].

Definition exJump : VM :=
  mkVM (mkFrame 3%positive 1 0 :: replicate 63 (mkFrame 3%positive 0 0)) 1
       [OBJ_VAL 3%positive; NIL_VAL; NIL_VAL; NIL_VAL] 2
       ∅ ∅ 1%positive None exJumpHeap "" [].

(** ** Stack effects *)

(** The machine after [push v]. *)
Definition pushed (v : Value) (s : VM) : VM :=
  set_stackTop (stackTop s + 1) (set_stack (<[Z.to_nat (stackTop s) := v]> (stack s)) s).

(** The machine after two values were popped and [r] pushed. *)
Definition replaceTop2 (r : Value) (s : VM) : VM :=
  set_stackTop (stackTop s - 1) (set_stack (<[Z.to_nat (stackTop s - 2) := r]> (stack s)) s).

(** The machine after [callValue] has put a new instance of class [k] in the
    slot of the callee. *)
Definition instantiated (k : addr) (argCount : Z) (s : VM) : VM :=
  let inst := fresh (dom (heap s)) in
  set_stack (<[Z.to_nat (stackTop s - argCount - 1) := OBJ_VAL inst]> (stack s))
    (set_heap (<[inst := OBJ_INSTANCE (mkInstance k ∅)]> (heap s)) s).

(** An object value points to an object. *)
Definition liveValue (s : VM) (v : Value) : Prop :=
  match v with OBJ_VAL p => is_Some (heap s !! p) | _ => True end.

(** The type test of [IS_STRING], on a heap. *)
Definition isString (h : gmap positive Obj) (v : Value) : bool :=
  match v with
  | OBJ_VAL p => match h !! p with Some (OBJ_STRING _) => true | _ => false end
  | _ => false
  end.

(** Every entry of the intern table points to the string it stands for. *)
Definition internTable_ok (s : VM) : Prop :=
  forall cs r, strings s !! cs = Some r -> heap s !! r = Some (OBJ_STRING (mkString cs)).

(** The result of [takeString cs] and the machine it leaves. *)
Definition interned (cs : string) (s : VM) : addr :=
  match strings s !! cs with
  | Some r => r
  | None => fresh (dom (heap s))
  end.
Definition afterTake (cs : string) (s : VM) : VM :=
  match strings s !! cs with
  | Some _ => s
  | None =>
      let a := fresh (dom (heap s)) in
      set_strings (<[cs := a]> (strings s))
        (set_heap (<[a := OBJ_STRING (mkString cs)]> (heap s)) s)
  end.

(** ** Upvalues, classes *)

(** The value that a [Value *] points to. *)
Definition target (s : VM) (p : ValuePtr) : option Value :=
  match p with
  | StackSlot i => index (stack s) i
  | ClosedField u =>
      match heap s !! u with
      | Some (OBJ_UPVALUE x) => Some (closed x)
      | _ => None
      end
  end.

(** The type test of [IS_CLASS], on a heap. *)
Definition isClass (h : gmap positive Obj) (v : Value) : bool :=
  match v with
  | OBJ_VAL p => match h !! p with Some (OBJ_CLASS _) => true | _ => false end
  | _ => false
  end.

(** The class body that follows [OP_INHERIT] in compiled code: each method
    closure is pushed and [OP_METHOD] stores it under its name. *)
Fixpoint defineMethods (defs : list (positive * Value)) : M unit :=
  match defs with
  | [] => mret tt
  | (n, m) :: rest => push m;; defineMethod n;; defineMethods rest
  end.

(** The table that a sequence of method definitions describes: a later
    definition of a name replaces an earlier one. *)
Definition ownMethods (defs : list (positive * Value)) : gmap positive Value :=
  foldl (fun t d => <[d.1 := d.2]> t) ∅ defs.

(** A class [B] (17, named by 18) freshly made by [OP_CLASS] sits on top of
    its superclass [A], which has a method named by string 4. *)
Definition exInherit : VM :=
  mkVM (mkFrame 3%positive 4 0 :: replicate 63 (mkFrame 3%positive 0 0)) 1
       [OBJ_VAL 3%positive; OBJ_VAL 9%positive; OBJ_VAL 17%positive; NIL_VAL; NIL_VAL] 3
       ∅ exStrings 1%positive None
       (<[9%positive := OBJ_CLASS (mkClass 10%positive {[ 4%positive := OBJ_VAL 6%positive ]})]>
        (<[17%positive := OBJ_CLASS (mkClass 18%positive ∅)]>
         (<[18%positive := OBJ_STRING (mkString "B")]> exHeap)))
       "" [].

(** ** The open-upvalue list *)

(** [openSeg h from to l]: following [next] from [from] in heap [h] one meets
    the upvalue objects [l.*1], each open on the stack slot paired with it,
    and arrives at [to]. *)
Inductive openSeg (h : gmap positive Obj) :
  option positive -> option positive -> list (positive * Z) -> Prop :=
| openSeg_nil x : openSeg h x x []
| openSeg_cons u k c nx to l :
    h !! u = Some (OBJ_UPVALUE (mkUpvalue (StackSlot k) c nx)) ->
    openSeg h nx to l ->
    openSeg h (Some u) to ((u, k) :: l).

(** The whole list, from [vm.openUpvalues] to the null pointer. *)
Definition openList (s : VM) (l : list (positive * Z)) : Prop :=
  openSeg (heap s) (openUpvalues s) None l.

(** Strictly decreasing stack slots along the list. *)
Definition decreasing (l : list (positive * Z)) : Prop :=
  StronglySorted (fun p q => p.2 > q.2) l.

(** The invariant of the open-upvalue list. *)
Definition openUpvalues_sorted (s : VM) : Prop :=
  exists l, openList s l /\ decreasing l.

(** Frame 1 runs [f] on the slots from 2 on; its local in slot 3 is captured
    by the open upvalue 19 of closure 20, which it is about to return.  The
    local of the script in slot 1 is captured by the open upvalue 15.  The
    list order is 19, 15. *)
Definition exOpenHeap : gmap positive Obj :=
  <[20%positive := OBJ_CLOSURE (mkClosure 12%positive [Some 19%positive] 1)]>
  (<[19%positive := OBJ_UPVALUE (mkUpvalue (StackSlot 3) NIL_VAL (Some 15%positive))]> exHeap).

Definition exOpen : VM :=
  mkVM (mkFrame 3%positive 2 0 :: mkFrame 6%positive 2 2 :: replicate 62 (mkFrame 3%positive 0 0)) 2
       [OBJ_VAL 3%positive; BOOL_VAL true; OBJ_VAL 6%positive; BOOL_VAL false;
        OBJ_VAL 20%positive; NIL_VAL; NIL_VAL; NIL_VAL] 5
       ∅ exStrings 1%positive (Some 19%positive) exOpenHeap "" [].

(** [prevUpvalue] after the walk of [captureUpvalue] has passed the nodes
    [l1], starting from [prev]. *)
Definition lastNode (prev : option positive) (l1 : list (positive * Z)) : option positive :=
  match last l1 with Some p => Some p.1 | None => prev end.

(** The machine after a new upvalue for slot [local] was linked in behind
    the nodes [l1], in front of [mid]. *)
Definition afterCapture (local : Z) (l1 : list (positive * Z)) (mid : option positive)
    (s : VM) : VM :=
  let c := fresh (dom (heap s)) in
  let h := <[c := OBJ_UPVALUE (mkUpvalue (StackSlot local) NIL_VAL mid)]> (heap s) in
  match last l1 with
  | None => set_openUpvalues (Some c) (set_heap h s)
  | Some (p, kp) =>
      match heap s !! p with
      | Some (OBJ_UPVALUE pu) =>
          set_heap (<[p := OBJ_UPVALUE (mkUpvalue (location pu) (closed pu) (Some c))]> h) s
      | _ => s
      end
  end.

(** Upvalue [p.1], open on slot [p.2] of the stack of [s], is closed in [s']:
    it owns the value the slot held in [s] and its [location] points to its
    own [closed] field. *)
Definition closedAt (s s' : VM) (p : positive * Z) : Prop :=
  exists v nx,
    index (stack s) p.2 = Some v /\
    heap s' !! p.1 = Some (OBJ_UPVALUE (mkUpvalue (ClosedField p.1) v nx)).

(** ** Preservation of the invariant *)

(** A computation keeps the invariant of the open-upvalue list. *)
Definition preserves {A} (m : M A) : Prop :=
  forall s a s', openUpvalues_sorted s -> m s = Done a s' -> openUpvalues_sorted s'.

(** The list head and every open upvalue object keep their place, slot and
    link from [s] to [s']. *)
Definition upvalues_stable (s s' : VM) : Prop :=
  openUpvalues s' = openUpvalues s /\
  forall u k c nx,
    heap s !! u = Some (OBJ_UPVALUE (mkUpvalue (StackSlot k) c nx)) ->
    exists c', heap s' !! u = Some (OBJ_UPVALUE (mkUpvalue (StackSlot k) c' nx)).

(** [closeUpvalues base] took the machine from [s], whose open-upvalue list
    is [l], to [s']: every node at or above [base] is closed, the nodes below
    [base] form the open list of [s'], and no other object has changed. *)
Definition closedFrom (base : Z) (l : list (positive * Z)) (s s' : VM) : Prop :=
  (forall p, p ∈ l -> p.2 >= base -> closedAt s s' p) /\
  (exists l2, openList s' l2 /\ decreasing l2 /\
              forall p, p ∈ l2 <-> p ∈ l /\ p.2 < base) /\
  (forall a, (forall k, (a, k) ∈ l -> k < base) -> heap s' !! a = heap s !! a).

(** ** Two programs *)

#[local] Set Warnings "-inexact-float".

(** The chunk that [main.c] assembles: [-((1.2 + 3.4) / 5.6)], then return. *)
Definition mainChunk : Chunk :=
  mkChunk [x00; x00; x00; x01; x12; x00; x02; x15; x17; x21]
          (replicate 10 123)
          [NUMBER_VAL 1.2; NUMBER_VAL 3.4; NUMBER_VAL 5.6].

(** A machine as [initVM] leaves it, with the given objects. *)
Definition bootVM (h : gmap positive Obj) : VM :=
  mkVM (replicate 64 (mkFrame 1%positive 0 0)) 0 (replicate 16 NIL_VAL) 0
       ∅ {[ "init" := 1%positive ]} 1%positive None h "" [].

Definition exMain : VM :=
  bootVM (list_to_map
    [ (1%positive, OBJ_STRING (mkString "init"));
      (2%positive, OBJ_FUNCTION (mkFunction 0 0 mainChunk None)) ]).

(** What the compiler makes of
    [fun make() { var x = true; fun get() { return x; } return get; }
     print make()();]
    with the opcode numbers of the dispatch table: the script (2) builds the
    closure of [make] (3), calls it, calls the closure of [get] (4) that it
    returns, and prints the result. *)
Definition exClosures : VM :=
  bootVM (list_to_map
    [ (1%positive, OBJ_STRING (mkString "init"));
      (2%positive, OBJ_FUNCTION (mkFunction 0 0
          (mkChunk [x1f; x00; x1c; x00; x1c; x00; x18; x01; x21] (replicate 9 1)
                   [OBJ_VAL 3%positive]) None));
      (3%positive, OBJ_FUNCTION (mkFunction 0 0
          (mkChunk [x02; x1f; x00; x01; x01; x21] (replicate 6 1)
                   [OBJ_VAL 4%positive]) (Some 5%positive)));
      (4%positive, OBJ_FUNCTION (mkFunction 0 1
          (mkChunk [x04; x00; x21] (replicate 3 1) []) (Some 6%positive)));
      (5%positive, OBJ_STRING (mkString "make"));
      (6%positive, OBJ_STRING (mkString "get")) ]).

(** * Vocabulary for the rest of the interpreter *)

(** The values that [callValue] accepts: objects of the four types its
    [switch] has a case for. *)
Definition callable (h : gmap positive Obj) (v : Value) : bool :=
  match v with
  | OBJ_VAL o =>
      match h !! o with
      | Some (OBJ_BOUND_METHOD _ | OBJ_CLASS _ | OBJ_CLOSURE _ | OBJ_NATIVE _) => true
      | _ => false
      end
  | _ => false
  end.

(** The type test of [IS_INSTANCE], on a heap. *)
Definition isInstance (h : gmap positive Obj) (v : Value) : bool :=
  match v with
  | OBJ_VAL p => match h !! p with Some (OBJ_INSTANCE _) => true | _ => false end
  | _ => false
  end.

(** The machine after [popped] values were taken off the stack and [r] was
    pushed. *)
Definition replaceTop (popped : Z) (r : Value) (s : VM) : VM :=
  set_stackTop (stackTop s - popped + 1)
    (set_stack (<[Z.to_nat (stackTop s - popped) := r]> (stack s)) s).

(** The text of the errors for a name that is not defined. *)
Definition undefinedProperty (str : ObjString) : string :=
  "Undefined property '" +:+ cString (chars str) +:+ "'.".
Definition undefinedVariable (str : ObjString) : string :=
  "Undefined variable '" +:+ cString (chars str) +:+ "'.".

(** ** More example machines *)

(** [exHeap] with an instance (21) of class [C] (24), whose field [x] holds
    [true]; the method [f] of [C] is the one-parameter closure 6; 22 is that
    method bound to the instance, 23 a native that returns its first
    argument. *)
Definition exHeap2 : gmap positive Obj :=
  <[21%positive := OBJ_INSTANCE (mkInstance 24%positive {[ 11%positive := BOOL_VAL true ]})]>
  (<[22%positive := OBJ_BOUND_METHOD (mkBoundMethod (OBJ_VAL 21%positive) 6%positive)]>
  (<[23%positive := OBJ_NATIVE (fun _ args => default NIL_VAL (head args))]>
  (<[24%positive := OBJ_CLASS (mkClass 10%positive {[ 4%positive := OBJ_VAL 6%positive ]})]>
   exHeap))).

(** The script frame at offset [pc] over the objects of [exHeap2]. *)
Definition exScript2 (pc : Z) (st : list Value) (top : Z) : VM :=
  mkVM (mkFrame 3%positive pc 0 :: replicate 63 (mkFrame 3%positive 0 0)) 1
       st top ∅ exStrings 1%positive None exHeap2 "" [].

(** Instance 25 of class [C] has no fields; it sits under one argument. *)
Definition exInvoke : VM :=
  mkVM (mkFrame 3%positive 2 0 :: replicate 63 (mkFrame 3%positive 0 0)) 1
       [OBJ_VAL 3%positive; OBJ_VAL 25%positive; BOOL_VAL true; NIL_VAL; NIL_VAL] 3
       ∅ exStrings 1%positive None
       (<[25%positive := OBJ_INSTANCE (mkInstance 24%positive ∅)]> exHeap2) "" [].

(** The argument pushes between a property access and the call. *)
Fixpoint pushAll (args : list Value) : M unit :=
  match args with
  | [] => mret tt
  | a :: rest => push a;; pushAll rest
  end.

(** The machine after [bindMethod] has replaced the receiver on top of the
    stack by a new bound method of the closure [cl]. *)
Definition afterBind (recv : Value) (cl : addr) (s : VM) : VM :=
  let b := fresh (dom (heap s)) in
  replaceTop 1 (OBJ_VAL b)
    (set_heap (<[b := OBJ_BOUND_METHOD (mkBoundMethod recv cl)]> (heap s)) s).

(** The machine after [tableSet(&instance->fields, name, value)]. *)
Definition afterSetField (i : addr) (inst : ObjInstance) (name : addr) (value : Value) (s : VM)
  : VM :=
  set_heap (<[i := OBJ_INSTANCE (mkInstance (klass inst) (<[name := value]> (fields inst)))]>
              (heap s)) s.

(** The stack after the values [args] were written from slot [i] upwards. *)
Fixpoint writeAll (i : Z) (args : list Value) (st : list Value) : list Value :=
  match args with
  | [] => st
  | a :: rest => writeAll (i + 1) rest (<[Z.to_nat i := a]> st)
  end.

(** The machine after the values [args] were pushed. *)
Definition pushedAll (args : list Value) (s : VM) : VM :=
  set_stackTop (stackTop s + Z.of_nat (length args))
    (set_stack (writeAll (stackTop s) args (stack s)) s).

(** Instance 21 with its field on top of the stack, and a frame of the script
    about to read the operand [00]; constant 0 names the string 11, constant 1
    the method name 4. *)
Definition exPropHeap : gmap positive Obj :=
  <[2%positive := OBJ_FUNCTION (mkFunction 0 0
      (mkChunk [x06; x00; x06; x01] [7; 7; 8; 8]
               [OBJ_VAL 11%positive; OBJ_VAL 4%positive; OBJ_VAL 10%positive]) None)]> exHeap2.

Definition exProp (pc : Z) (st : list Value) (top : Z) : VM :=
  mkVM (mkFrame 3%positive pc 0 :: replicate 63 (mkFrame 3%positive 0 0)) 1
       st top ∅ exStrings 1%positive None exPropHeap "" [].

(** Instance 25 on top of the stack, before the argument is pushed. *)
Definition exBind : VM :=
  mkVM (mkFrame 3%positive 2 0 :: replicate 63 (mkFrame 3%positive 0 0)) 1
       [OBJ_VAL 3%positive; OBJ_VAL 25%positive; NIL_VAL; NIL_VAL; NIL_VAL] 2
       ∅ exStrings 1%positive None
       (<[25%positive := OBJ_INSTANCE (mkInstance 24%positive ∅)]> exHeap2) "" [].

(** The script [OP_SET_LOCAL 1; OP_GET_LOCAL 1; OP_DEFINE_GLOBAL 0;
    OP_GET_GLOBAL 0; OP_SUBTRACT; OP_NOT; OP_NEGATE], where constant 0 names
    the string 11. *)
Definition exProgHeap : gmap positive Obj :=
  <[2%positive := OBJ_FUNCTION (mkFunction 0 0
      (mkChunk [x0c; x01; x0b; x01; x0e; x00; x0d; x00; x13; x16; x17]
               [1; 1; 1; 1; 2; 2; 2; 2; 3; 3; 3]
               [OBJ_VAL 11%positive]) None)]> exHeap2.

Definition exProg (pc : Z) (st : list Value) (top : Z) : VM :=
  mkVM (mkFrame 3%positive pc 0 :: replicate 63 (mkFrame 3%positive 0 0)) 1
       st top ∅ exStrings 1%positive None exProgHeap "" [].

(** No NUL character among [cs]. *)
Fixpoint nulFree (cs : string) : bool :=
  match cs with
  | EmptyString => true
  | String c rest => negb (Ascii.eqb c Ascii.zero) && nulFree rest
  end.

(** [exProg] about to read the operand of [OP_GET_GLOBAL 0], where the
    string 11 that constant 0 names now holds [a], a NUL character and [b]. *)
Definition exNul : VM :=
  set_heap (<[11%positive := OBJ_STRING (mkString ("a" +:+ String Ascii.zero "b"))]> exProgHeap)
    (exProg 7 [OBJ_VAL 3%positive; NIL_VAL] 1).

(** The test of [isFalsey], in words: nil and false, nothing else. *)
Definition nilOrFalse (v : Value) : Prop := v = NIL_VAL \/ v = BOOL_VAL false.

(** ** What a run keeps of the heap *)

(** [objExt o o']: [o'] is what the object [o] may have become.  The type tag
    is the same; strings, functions, natives and bound methods are the same
    object; a closure keeps its function and the size of its upvalue array, a
    class its name and every method name, an instance its class and every
    field name; a closed upvalue stays closed. *)
Definition objExt (o o' : Obj) : Prop :=
  match o, o' with
  | OBJ_BOUND_METHOD a, OBJ_BOUND_METHOD b => a = b
  | OBJ_CLASS a, OBJ_CLASS b =>
      klass_name a = klass_name b /\ dom (methods a) ⊆ dom (methods b)
  | OBJ_CLOSURE a, OBJ_CLOSURE b =>
      function a = function b /\ closure_upvalueCount a = closure_upvalueCount b /\
      length (upvalues a) = length (upvalues b)
  | OBJ_FUNCTION a, OBJ_FUNCTION b => a = b
  | OBJ_INSTANCE a, OBJ_INSTANCE b =>
      klass a = klass b /\ dom (fields a) ⊆ dom (fields b)
  | OBJ_NATIVE a, OBJ_NATIVE b => a = b
  | OBJ_STRING a, OBJ_STRING b => a = b
  | OBJ_UPVALUE a, OBJ_UPVALUE b =>
      forall u, location a = ClosedField u -> location b = ClosedField u
  | _, _ => False
  end.

(** Every object of [h] is still there in [h'], changed at most as [objExt]
    allows. *)
Definition heapExt (h h' : gmap positive Obj) : Prop :=
  forall a o, h !! a = Some o -> exists o', h' !! a = Some o' /\ objExt o o'.

(** A computation that, when it returns, has kept the heap in that sense. *)
Definition respects {A} (m : M A) : Prop :=
  forall s a s', m s = Done a s' -> heapExt (heap s) (heap s').

(** ** What a computation leaves alone *)

(** A computation that, when it returns, has not changed the part [proj] of
    the machine. *)
Definition keeps {T A} (proj : VM -> T) (m : M A) : Prop :=
  forall s a s', m s = Done a s' -> proj s' = proj s.

(** A handler run with [frame] the index of the topmost call frame hands on
    the index of the frame that is topmost then. *)
Definition tracksFrame (frame : Z) (h : M Next) : Prop :=
  forall s n s',
    h s = Done n s' -> frame = frameCount s - 1 ->
    match n with Continue frame' => frame' = frameCount s' - 1 | Return _ => True end.

(** The same for a handler that reloads [frame] whatever it was. *)
Definition reloadsFrame (h : M Next) : Prop :=
  forall s n s',
    h s = Done n s' ->
    match n with Continue frame' => frame' = frameCount s' - 1 | Return _ => True end.

(** The machine as [resetStack] leaves it. *)
Definition stacksReset (s : VM) : Prop :=
  stackTop s = 0 /\ frameCount s = 0 /\ openUpvalues s = None.

(** What holds of the machine when [run] returns [r]. *)
Definition outcome (r : InterpretResult) (s : VM) : Prop :=
  match r with
  | INTERPRET_OK => frameCount s = 0
  | INTERPRET_RUNTIME_ERROR => stacksReset s
  | INTERPRET_COMPILE_ERROR => False
  end.

(** A handler whose every [return] is as [outcome] says. *)
Definition returnsOutcome (h : M Next) : Prop :=
  forall s n s',
    h s = Done n s' -> match n with Continue _ => True | Return r => outcome r s' end.

(** A function of [vm.c] that returns [false] only after [runtimeError]. *)
Definition failsReset (m : M bool) : Prop :=
  forall s b s', m s = Done b s' -> b = false -> stacksReset s'.

(** A handler that writes to [stderr] only when it returns
    [INTERPRET_RUNTIME_ERROR], and a function of [vm.c] that does only when it
    returns [false]. *)
Definition quietUnlessError (h : M Next) : Prop :=
  forall s n s',
    h s = Done n s' -> n ≠ Return INTERPRET_RUNTIME_ERROR -> stderr s' = stderr s.
Definition quietWhenTrue (m : M bool) : Prop :=
  forall s b s', m s = Done b s' -> b = true -> stderr s' = stderr s.

(** ** [memory.c] *)

(** [freeObject].  The [switch] on the type tag has a case for closures,
    functions, natives, strings and upvalues, each ending in [FREE], and none
    for classes, instances and bound methods.  After [FREE] the address holds
    no object. *)
Definition freeObject (object : addr) : M unit :=
  o ← load object;
  match o with
  | OBJ_CLOSURE _ | OBJ_FUNCTION _ | OBJ_NATIVE _ | OBJ_STRING _ | OBJ_UPVALUE _ =>
      modify (fun s => set_heap (delete object (heap s)) s)
  | OBJ_BOUND_METHOD _ | OBJ_CLASS _ | OBJ_INSTANCE _ => mret tt
  end.

(** [freeObjects]: the walk along the [next] links from [vm.objects]; the
    chain is given as the list of the objects on it, and [next] is read
    before the object is freed. *)
Fixpoint freeObjects (objects : list addr) : M unit :=
  match objects with
  | [] => mret tt
  | object :: next => freeObject object;; freeObjects next
  end.

(** The objects that [freeObject] has no case for. *)
Definition notFreed (o : Obj) : bool :=
  match o with
  | OBJ_BOUND_METHOD _ | OBJ_CLASS _ | OBJ_INSTANCE _ => true
  | _ => false
  end.

(** ** [defineNative] *)

(** Modelled from the spec: [copyString] of [object.c] returns the canonical
    string object for the characters, as [takeString] does; who owns the
    character buffer is not visible here.  [newNative] is the constructor of
    [object.c]. *)
Definition copyString (cs : string) : M addr := takeString cs.
Definition newNative (f : NativeFn) : M addr := allocateObject (OBJ_NATIVE f).

(** [name] is a C string: [strlen] counts the characters before its first
    NUL, and those are what [copyString] is given. *)
Definition defineNative (name : string) (func : NativeFn) : M unit :=
  n ← copyString (cString name);
  push (OBJ_VAL n);;
  f ← newNative func;
  push (OBJ_VAL f);;
  k ← stack_get 0;
  key ← AS_OBJ k;
  value ← stack_get 1;
  modify (fun s => set_globals (fst (tableSet (globals s) key value)) s);;
  pop;;
  pop;;
  mret tt.

(** A heap with one object of every type but upvalues, all on the chain. *)
Definition exChain : list addr :=
  [24%positive; 23%positive; 22%positive; 21%positive; 6%positive; 5%positive; 4%positive].

(** The machine in which [interpret] starts [run]: the closure [cl] made of
    the script function is on the stack and its frame is pushed. *)
Definition scriptEntered (f : addr) (fn : ObjFunction) (s : VM) : VM :=
  let cl := fresh (dom (heap s)) in
  afterCall cl 0
    (pushed (OBJ_VAL cl)
       (set_heap (<[cl := OBJ_CLOSURE
                     (mkClosure f (replicate (Z.to_nat (upvalueCount fn)) None)
                        (upvalueCount fn))]> (heap s)) s)).

(** ** The stack effect of the instructions *)

(** A computation that moves [stackTop] by [d], and a handler that does when
    execution goes on. *)
Definition shifts {A} (d : Z) (m : M A) : Prop :=
  forall s a s', m s = Done a s' -> stackTop s' = stackTop s + d.
Definition contShifts (d : Z) (h : M Next) : Prop :=
  forall s n s',
    h s = Done n s' ->
    match n with Continue _ => stackTop s' = stackTop s + d | Return _ => True end.

(** By how much each instruction moves [stackTop], in the order of
    [dispatchTable]; the calls and the return depend on their operands. *)
Definition stackEffects : list (option Z) :=
  [ Some 1;    Some 1;    (* constant, nil *)
    Some 1;    Some 1;    (* true, false *)
    Some 1;    Some 0;    (* get_upvalue, set_upvalue *)
    Some 0;    Some (-1); (* get_property, set_property *)
    Some (-1); Some (-1); (* get_super, equal *)
    Some (-1); Some 1;    (* pop, get_local *)
    Some 0;    Some 1;    (* set_local, get_global *)
    Some (-1); Some 0;    (* define_global, set_global *)
    Some (-1); Some (-1); (* greater, less *)
    Some (-1); Some (-1); (* add, subtract *)
    Some (-1); Some (-1); (* multiply, divide *)
    Some 0;    Some 0;    (* not, negate *)
    Some (-1); Some 0;    (* print, jump *)
    Some 0;    Some 0;    (* jump_if_false, loop *)
    None;      None;      (* call, invoke *)
    None;      Some 1;    (* super_invoke, closure *)
    Some (-1); None;      (* close_upvalue, return *)
    Some 1;    Some (-1); (* class, inherit *)
    Some (-1) ].          (* method *)

(** ** The operands of [OP_CLOSURE] *)

Definition isUpvalue (o : Obj) : bool :=
  match o with OBJ_UPVALUE _ => true | _ => false end.

(** The byte pairs [(isLocal, index)] that follow at [frame->ip]. *)
Definition closureOperands (s : VM) (frame : Z) (ops : list (Z * Z)) : Prop :=
  forall j p, ops !! j = Some p ->
    codeAt s frame (2 * Z.of_nat j) = Some p.1 /\
    codeAt s frame (2 * Z.of_nat j + 1) = Some p.2.

(** What the pair [p] asks for, in a frame with base slot [base] that runs
    the closure [enc]: an upvalue that is open on the local [base + index]
    (a node of the open list [l]), or the entry [index] of the upvalues of
    [enc] itself. *)
Definition capturedAs (enc : ObjClosure) (base : Z) (l : list (positive * Z))
    (p : Z * Z) (entry : option addr) : Prop :=
  if decide (p.1 ≠ 0) then exists u, entry = Some u /\ (u, base + p.2) ∈ l
  else index (upvalues enc) p.2 = Some entry.

(** [make] of [exClosures] is running in frame 1, about to read the operands
    of its [OP_CLOSURE]; its local in slot 2 holds [true]. *)
Definition exMake : VM :=
  mkVM (mkFrame 7%positive 4 0 :: mkFrame 8%positive 2 1 :: replicate 62 (mkFrame 1%positive 0 0))
       2 ([OBJ_VAL 7%positive; OBJ_VAL 8%positive; BOOL_VAL true] ++ replicate 13 NIL_VAL) 3
       ∅ {[ "init" := 1%positive ]} 1%positive None
       (<[7%positive := OBJ_CLOSURE (mkClosure 2%positive [] 0)]>
        (<[8%positive := OBJ_CLOSURE (mkClosure 3%positive [] 0)]> (heap exClosures)))
       "" [].

(** ** Interned strings *)

(** The string objects of the heap are exactly the entries of the intern
    table [vm.strings]. *)
Definition interning (s : VM) : Prop :=
  forall a cs, heap s !! a = Some (OBJ_STRING (mkString cs)) <-> strings s !! cs = Some a.

(** A computation that keeps the heap and the intern table in step. *)
Definition keepsInterning {A} (m : M A) : Prop :=
  forall s a s', m s = Done a s' -> interning s -> interning s'.

Definition isStringObj (o : Obj) : bool :=
  match o with OBJ_STRING _ => true | _ => false end.

(** * Reasoning about machine computations *)

Ltac vm_proj :=
  cbn [frames frameCount stack stackTop globals strings initString openUpvalues
       heap stderr stdout set_frames set_frameCount set_stack set_stackTop
       set_globals set_strings set_openUpvalues set_heap set_stderr set_stdout] in *.

Section monad_laws.
Context {A B : Type}.
Implicit Types (s : VM).

Lemma bind_unfold (m : M A) (f : A -> M B) s :
  (m ≫= f) s =
  match m s with Done a s' => f a s' | Undef => Undef | OutOfFuel => OutOfFuel end.
Proof. reflexivity. Qed.

Lemma bind_Done (m : M A) (f : A -> M B) s a s1 :
  m s = Done a s1 -> (m ≫= f) s = f a s1.
Proof. intros H. rewrite bind_unfold, H. reflexivity. Qed.

Lemma bind_inv (m : M A) (f : A -> M B) s b s' :
  (m ≫= f) s = Done b s' -> exists a s1, m s = Done a s1 /\ f a s1 = Done b s'.
Proof. rewrite bind_unfold. destruct (m s) as [a s1| |]; [eauto|done..]. Qed.

Lemma lift_inv (o : option A) s a s' : lift o s = Done a s' -> o = Some a /\ s' = s.
Proof. destruct o; cbv; [|done]. by intros [= -> ->]. Qed.
End monad_laws.

(** One step of forward execution: the head computation of a bind is known
    to finish, by [H] or by evaluation. *)
Ltac mdo H := erewrite (bind_Done _ _ _ _ _ H); cbv beta iota; vm_proj.
Ltac mstep := erewrite bind_Done; [|reflexivity]; cbv beta iota; vm_proj.

Section arrays.
Context {A : Type}.
Implicit Types (a : list A) (i : Z).

Lemma index_Some a i x : index a i = Some x <-> 0 <= i /\ a !! Z.to_nat i = Some x.
Proof.
  unfold index. case_decide; [tauto|]. split; [done|]. by intros [? _].
Qed.

Lemma index_lt a i x : index a i = Some x -> 0 <= i < Z.of_nat (length a).
Proof. intros [? H%lookup_lt_Some]%index_Some. lia. Qed.

Lemma index_is_Some a i : 0 <= i < Z.of_nat (length a) -> is_Some (index a i).
Proof.
  intros H. unfold index. rewrite decide_True by lia.
  apply lookup_lt_is_Some. lia.
Qed.

Lemma update_Some a i x :
  0 <= i < Z.of_nat (length a) -> update a i x = Some (<[Z.to_nat i := x]> a).
Proof. intros H. unfold update. by rewrite decide_True. Qed.

Lemma index_insert_eq a i x :
  0 <= i < Z.of_nat (length a) -> index (<[Z.to_nat i := x]> a) i = Some x.
Proof.
  intros H. apply index_Some. split; [lia|].
  apply list_lookup_insert_eq. lia.
Qed.

Lemma index_insert_ne a i j x :
  0 <= i -> i ≠ j -> index (<[Z.to_nat i := x]> a) j = index a j.
Proof.
  intros Hi Hne. unfold index. case_decide; [|done].
  apply list_lookup_insert_ne. lia.
Qed.
End arrays.

Implicit Types (s : VM) (v : Value).

Lemma stack_get_eq i s v : index (stack s) i = Some v -> stack_get i s = Done v s.
Proof. intros H. unfold stack_get. mstep. by rewrite H. Qed.

Lemma stack_put_eq i s v :
  0 <= i < Z.of_nat (length (stack s)) ->
  stack_put i v s = Done tt (set_stack (<[Z.to_nat i := v]> (stack s)) s).
Proof. intros H. unfold stack_put. mstep. by rewrite update_Some. Qed.

Lemma frames_get_eq i s f : index (frames s) i = Some f -> frames_get i s = Done f s.
Proof. intros H. unfold frames_get. mstep. by rewrite H. Qed.

Lemma frames_put_eq i s f :
  0 <= i < Z.of_nat (length (frames s)) ->
  frames_put i f s = Done tt (set_frames (<[Z.to_nat i := f]> (frames s)) s).
Proof. intros H. unfold frames_put. mstep. by rewrite update_Some. Qed.

Lemma load_eq a s o : heap s !! a = Some o -> load a s = Done o s.
Proof. intros H. unfold load. mstep. by rewrite H. Qed.

Lemma loadString_eq a s x : heap s !! a = Some (OBJ_STRING x) -> loadString a s = Done x s.
Proof. intros H. unfold loadString. by mdo (load_eq _ _ _ H). Qed.
Lemma loadFunction_eq a s x : heap s !! a = Some (OBJ_FUNCTION x) -> loadFunction a s = Done x s.
Proof. intros H. unfold loadFunction. by mdo (load_eq _ _ _ H). Qed.
Lemma loadClosure_eq a s x : heap s !! a = Some (OBJ_CLOSURE x) -> loadClosure a s = Done x s.
Proof. intros H. unfold loadClosure. by mdo (load_eq _ _ _ H). Qed.
Lemma loadUpvalue_eq a s x : heap s !! a = Some (OBJ_UPVALUE x) -> loadUpvalue a s = Done x s.
Proof. intros H. unfold loadUpvalue. by mdo (load_eq _ _ _ H). Qed.
Lemma loadClass_eq a s x : heap s !! a = Some (OBJ_CLASS x) -> loadClass a s = Done x s.
Proof. intros H. unfold loadClass. by mdo (load_eq _ _ _ H). Qed.
Lemma loadInstance_eq a s x : heap s !! a = Some (OBJ_INSTANCE x) -> loadInstance a s = Done x s.
Proof. intros H. unfold loadInstance. by mdo (load_eq _ _ _ H). Qed.

Lemma peek_eq d s v : index (stack s) (stackTop s - 1 - d) = Some v -> peek d s = Done v s.
Proof. intros H. unfold peek. mstep. by apply stack_get_eq. Qed.

Lemma pop_eq s v :
  index (stack s) (stackTop s - 1) = Some v ->
  pop s = Done v (set_stackTop (stackTop s - 1) s).
Proof. intros H. unfold pop. mstep. mstep. by apply stack_get_eq. Qed.

Lemma push_eq s v :
  0 <= stackTop s < Z.of_nat (length (stack s)) ->
  push v s =
  Done tt (set_stackTop (stackTop s + 1) (set_stack (<[Z.to_nat (stackTop s) := v]> (stack s)) s)).
Proof. intros H. unfold push. mstep. by mdo (stack_put_eq _ _ v H). Qed.

(** ** [runtimeError] *)

Lemma string_app_assoc (a b c : string) : (a +:+ b) +:+ c = a +:+ (b +:+ c).
Proof.
  induction a as [|x a IH]; [done|].
  change (String x ((a +:+ b) +:+ c) = String x (a +:+ b +:+ c)). by f_equal.
Qed.

Lemma string_app_nil_r (a : string) : a +:+ "" = a.
Proof.
  induction a as [|x a IH]; [done|].
  change (String x (a +:+ "") = String x a). by f_equal.
Qed.

Lemma fputs_eq text s : fputs text s = Done tt (set_stderr (stderr s +:+ text) s).
Proof. reflexivity. Qed.

Lemma traceFrame_eq i s f l :
  index (frames s) i = Some f ->
  frameLine (heap s) f = Some l ->
  traceFrame i s = Done tt (set_stderr (stderr s +:+ l) s).
Proof.
  intros Hf Hl. unfold frameLine in Hl.
  destruct (heap s !! closure f) as [[| |cl| | | | |]|] eqn:Hcl; try done.
  destruct (heap s !! function cl) as [[| | |func| | | |]|] eqn:Hfn; try done.
  destruct (index (lines (chunk func)) (ip f - 1)) as [line|] eqn:Hline; [|done].
  unfold traceFrame.
  mdo (frames_get_eq _ _ _ Hf). mdo (loadClosure_eq _ _ _ Hcl).
  mdo (loadFunction_eq _ _ _ Hfn). rewrite Hline. mstep. mstep.
  destruct (name func) as [n|] eqn:Hn.
  - destruct (heap s !! n) as [[| | | | | |str|]|] eqn:Hstr; try done.
    injection Hl as <-.
    erewrite (bind_Done (loadString n)); [|by apply loadString_eq].
    cbv beta. rewrite fputs_eq. vm_proj. by rewrite !string_app_assoc.
  - injection Hl as <-. rewrite fputs_eq. vm_proj. by rewrite !string_app_assoc.
Qed.

Lemma traceFrames_eq n s t :
  (n <= length (frames s))%nat ->
  traceLines (heap s) (reverse (take n (frames s))) = Some t ->
  traceFrames n s = Done tt (set_stderr (stderr s +:+ t) s).
Proof.
  revert s t. induction n as [|n IH]; intros s t Hn Ht.
  - cbn in Ht. injection Ht as <-. cbn. rewrite string_app_nil_r. by destruct s.
  - destruct (lookup_lt_is_Some_2 (frames s) n) as [f Hf]; [lia|].
    rewrite (take_S_r _ _ _ Hf), reverse_snoc in Ht. cbn in Ht.
    destruct (frameLine (heap s) f) as [l|] eqn:Hl; [|done].
    destruct (traceLines _ _) as [t'|] eqn:Ht'; [|done]. injection Ht as <-.
    cbn [traceFrames].
    erewrite (bind_Done (traceFrame _)); [|apply (traceFrame_eq _ _ f l); [|done]].
    + rewrite (IH _ t'); vm_proj; [|lia|done]. by rewrite string_app_assoc.
    + apply index_Some. split; [lia|]. by rewrite Nat2Z.id.
Qed.

Lemma runtimeError_eq message s t :
  frameCount s <= Z.of_nat (length (frames s)) ->
  stackTrace s = Some t ->
  runtimeError message s = Done tt (afterError message t s).
Proof.
  intros Hfc Ht. unfold runtimeError, stackTrace in *.
  mstep. mstep. mstep.
  erewrite (bind_Done (traceFrames _)); [|apply (traceFrames_eq _ _ t); vm_proj; [lia|done]].
  vm_proj. unfold afterError. by rewrite !string_app_assoc.
Qed.

(** ** The execution trace *)

Lemma set_stdout_set_stdout x y s : set_stdout x (set_stdout y s) = set_stdout x s.
Proof. reflexivity. Qed.

Lemma index_drop_cons {A} (a : list A) i x :
  index a i = Some x -> drop (Z.to_nat i) a = x :: drop (S (Z.to_nat i)) a.
Proof. intros [_ H]%index_Some. by apply drop_S. Qed.

Lemma PRINT_TRACE_loop_inv n : forall slot s a s',
  0 <= slot ->
  PRINT_TRACE_loop n slot s = Done a s' ->
  s' = set_stdout (stdout s ++ slotsTrace (take n (drop (Z.to_nat slot) (stack s)))) s.
Proof.
  induction n as [|n IH]; intros slot s a s' Hslot H.
  - injection H as _ <-. cbn. rewrite app_nil_r. by destruct s.
  - cbn [PRINT_TRACE_loop] in H.
    apply bind_inv in H as ([] & s1 & [= <-] & H).
    apply bind_inv in H as (v & s2 & H2 & H).
    unfold stack_get in H2. apply bind_inv in H2 as (st & s3 & [= <- <-] & H2).
    apply lift_inv in H2 as [Hv ->]. vm_proj.
    apply bind_inv in H as ([] & s4 & [= <-] & H).
    apply bind_inv in H as ([] & s5 & [= <-] & H).
    apply IH in H; [|lia]. vm_proj. rewrite H.
    rewrite (index_drop_cons _ _ _ Hv), firstn_cons.
    replace (Z.to_nat (slot + 1)) with (S (Z.to_nat slot)) by lia.
    rewrite !set_stdout_set_stdout. f_equal. cbn. by rewrite <-!app_assoc.
Qed.

Lemma PRINT_TRACE_loop_eq n : forall slot s,
  0 <= slot -> (Z.to_nat slot + n <= length (stack s))%nat ->
  PRINT_TRACE_loop n slot s =
  Done tt (set_stdout (stdout s ++ slotsTrace (take n (drop (Z.to_nat slot) (stack s)))) s).
Proof.
  induction n as [|n IH]; intros slot s Hslot Hn.
  - cbn. rewrite app_nil_r. by destruct s.
  - destruct (index_is_Some (stack s) slot) as [v Hv]; [lia|].
    cbn [PRINT_TRACE_loop]. mstep.
    erewrite bind_Done; [|by apply stack_get_eq]. cbv beta. mstep. mstep.
    rewrite IH; vm_proj; [|lia|lia].
    rewrite (index_drop_cons _ _ _ Hv), firstn_cons.
    replace (Z.to_nat (slot + 1)) with (S (Z.to_nat slot)) by lia.
    rewrite !set_stdout_set_stdout. f_equal. f_equal. cbn. by rewrite <-!app_assoc.
Qed.

Lemma PRINT_TRACE_eq frame s :
  is_Some (codeAt s frame 0) ->
  0 <= stackTop s <= Z.of_nat (length (stack s)) ->
  PRINT_TRACE frame s = Done tt (traced frame s).
Proof.
  intros [op Hop] Htop. unfold codeAt in Hop. unfold traced, traceOf.
  destruct (index (frames s) frame) as [fr|] eqn:Hfr; [|done].
  destruct (frameFunction s frame) as [fn|] eqn:Hfn; [|done].
  unfold frameFunction in Hfn. rewrite Hfr in Hfn.
  destruct (heap s !! closure fr) as [[| |cl| | | | |]|] eqn:Hcl; try done.
  destruct (heap s !! function cl) as [[| | |fn'| | | |]|] eqn:Hfn'; try done.
  injection Hfn as ->.
  unfold PRINT_TRACE. mstep. mstep. rewrite decide_True by lia.
  erewrite bind_Done; [|apply PRINT_TRACE_loop_eq; vm_proj; lia]. cbv beta. mstep.
  erewrite bind_Done; [|by apply frames_get_eq]. cbv beta.
  erewrite bind_Done; [|by apply loadClosure_eq]. cbv beta.
  erewrite bind_Done; [|by apply loadFunction_eq]. cbv beta.
  unfold disassembleInstruction, modify. vm_proj.
  rewrite !set_stdout_set_stdout. do 2 f_equal.
  cbn [Z.to_nat drop]. rewrite <-!app_assoc. reflexivity.
Qed.

Lemma loadClosure_inv a s x s' :
  loadClosure a s = Done x s' -> s' = s /\ heap s !! a = Some (OBJ_CLOSURE x).
Proof.
  intros (o & s0 & Ho & Hx)%bind_inv.
  apply bind_inv in Ho as (h & ? & [= <- <-] & [Ha ->]%lift_inv).
  destruct o; try done. by injection Hx as <- <-.
Qed.

Lemma loadFunction_inv a s x s' :
  loadFunction a s = Done x s' -> s' = s /\ heap s !! a = Some (OBJ_FUNCTION x).
Proof.
  intros (o & s0 & Ho & Hx)%bind_inv.
  apply bind_inv in Ho as (h & ? & [= <- <-] & [Ha ->]%lift_inv).
  destruct o; try done. by injection Hx as <- <-.
Qed.

Lemma PRINT_TRACE_inv frame s a s' :
  PRINT_TRACE frame s = Done a s' ->
  s' = traced frame s /\ 0 <= stackTop s.
Proof.
  unfold PRINT_TRACE. intros H.
  apply bind_inv in H as ([] & s1 & [= <-] & H).
  apply bind_inv in H as (top & s2 & [= <- <-] & H). vm_proj.
  apply bind_inv in H as ([] & s3 & H3 & H).
  case_decide as Htop; [|done].
  apply PRINT_TRACE_loop_inv in H3; [|lia]. vm_proj. subst s3.
  apply bind_inv in H as ([] & s4 & [= <-] & H). vm_proj.
  apply bind_inv in H as (fr & s5 & H5 & H).
  unfold frames_get in H5. apply bind_inv in H5 as (fs & s6 & [= <- <-] & H5).
  apply lift_inv in H5 as [Hfr ->]. vm_proj.
  apply bind_inv in H as (cl & s7 & [-> Hcl]%loadClosure_inv & H). vm_proj.
  apply bind_inv in H as (fn & s8 & [-> Hfn]%loadFunction_inv & H). vm_proj.
  injection H as _ <-. split; [|done].
  unfold traced, traceOf, frameFunction. rewrite Hfr, Hcl, Hfn.
  vm_proj. rewrite !set_stdout_set_stdout. f_equal.
  cbn [Z.to_nat drop]. rewrite <-!app_assoc. reflexivity.
Qed.

Lemma bind_OutOfFuel {A B} (m : M A) (f : A -> M B) s :
  (m ≫= f) s = OutOfFuel ->
  m s = OutOfFuel \/ exists a s1, m s = Done a s1 /\ f a s1 = OutOfFuel.
Proof. rewrite bind_unfold. destruct (m s) as [a s1| |]; [eauto|done|by left]. Qed.

Lemma PRINT_TRACE_loop_fuel n : forall slot s, PRINT_TRACE_loop n slot s ≠ OutOfFuel.
Proof.
  induction n as [|n IH]; intros slot s H; [done|].
  cbn [PRINT_TRACE_loop] in H.
  apply bind_OutOfFuel in H as [H|(? & ? & _ & H)]; [done|].
  apply bind_OutOfFuel in H as [H|(? & ? & _ & H)].
  { unfold stack_get in H. apply bind_OutOfFuel in H as [H|(? & ? & _ & H)]; [done|].
    unfold lift in H. by destruct (index _ _). }
  apply bind_OutOfFuel in H as [H|(? & ? & _ & H)]; [done|].
  apply bind_OutOfFuel in H as [H|(? & ? & _ & H)]; [done|].
  by apply IH in H.
Qed.

Lemma load_fuel a s : load a s ≠ OutOfFuel.
Proof.
  intros H. unfold load in H. apply bind_OutOfFuel in H as [H|(? & ? & _ & H)]; [done|].
  unfold lift in H. by destruct (_ !! _).
Qed.

Lemma PRINT_TRACE_cases frame s :
  PRINT_TRACE frame s = Undef \/ PRINT_TRACE frame s = Done tt (traced frame s).
Proof.
  destruct (PRINT_TRACE frame s) as [[] s'| |] eqn:H.
  - right. by apply PRINT_TRACE_inv in H as [-> _].
  - by left.
  - exfalso. unfold PRINT_TRACE in H.
    apply bind_OutOfFuel in H as [H|(? & ? & _ & H)]; [done|].
    apply bind_OutOfFuel in H as [H|(? & ? & _ & H)]; [done|].
    apply bind_OutOfFuel in H as [H|(? & ? & _ & H)].
    { case_decide; [|done]. by apply PRINT_TRACE_loop_fuel in H. }
    apply bind_OutOfFuel in H as [H|(? & ? & _ & H)]; [done|].
    apply bind_OutOfFuel in H as [H|(? & ? & _ & H)].
    { unfold frames_get in H. apply bind_OutOfFuel in H as [H|(? & ? & _ & H)]; [done|].
      unfold lift in H. by destruct (index _ _). }
    apply bind_OutOfFuel in H as [H|(? & ? & _ & H)].
    { unfold loadClosure in H. apply bind_OutOfFuel in H as [H|(o & ? & _ & H)].
      - by apply load_fuel in H.
      - by destruct o. }
    apply bind_OutOfFuel in H as [H|(? & ? & _ & H)]; [|done].
    unfold loadFunction in H. apply bind_OutOfFuel in H as [H|(o & ? & _ & H)].
    + by apply load_fuel in H.
    + by destruct o.
Qed.

(** ** The call protocol *)

Lemma call_arity_mismatch cl c fn argCount s t :
  heap s !! cl = Some (OBJ_CLOSURE c) ->
  heap s !! function c = Some (OBJ_FUNCTION fn) ->
  frameCount s <= Z.of_nat (length (frames s)) ->
  stackTrace s = Some t ->
  argCount ≠ arity fn ->
  call cl argCount s = Done false (afterError (arityMessage (arity fn) argCount) t s).
Proof.
  intros Hcl Hfn Hfc Ht Hne. unfold call.
  mdo (loadClosure_eq _ _ _ Hcl). mdo (loadFunction_eq _ _ _ Hfn).
  rewrite decide_True by done.
  by mdo (runtimeError_eq (arityMessage (arity fn) argCount) s t Hfc Ht).
Qed.

Lemma call_overflow cl c fn s t :
  heap s !! cl = Some (OBJ_CLOSURE c) ->
  heap s !! function c = Some (OBJ_FUNCTION fn) ->
  frameCount s <= Z.of_nat (length (frames s)) ->
  stackTrace s = Some t ->
  frameCount s = FRAMES_MAX ->
  call cl (arity fn) s = Done false (afterError "Stack overflow." t s).
Proof.
  intros Hcl Hfn Hfc Ht Hmax. unfold call.
  mdo (loadClosure_eq _ _ _ Hcl). mdo (loadFunction_eq _ _ _ Hfn).
  rewrite decide_False by (intros H; by apply H). mstep.
  rewrite decide_True by done.
  by mdo (runtimeError_eq "Stack overflow." s t Hfc Ht).
Qed.

Lemma call_enter cl c fn s :
  heap s !! cl = Some (OBJ_CLOSURE c) ->
  heap s !! function c = Some (OBJ_FUNCTION fn) ->
  0 <= frameCount s < Z.of_nat (length (frames s)) ->
  frameCount s ≠ FRAMES_MAX ->
  call cl (arity fn) s = Done true (afterCall cl (arity fn) s).
Proof.
  intros Hcl Hfn Hfc Hmax. unfold call.
  mdo (loadClosure_eq _ _ _ Hcl). mdo (loadFunction_eq _ _ _ Hfn).
  rewrite decide_False by (intros H; by apply H). mstep.
  rewrite decide_False by done. mstep. mstep.
  erewrite bind_Done; [|by apply frames_put_eq]. done.
Qed.

Lemma arityMessage_not_overflow a b : arityMessage a b ≠ "Stack overflow.".
Proof. intros H. apply (f_equal (String.get 0)) in H. vm_compute in H. discriminate. Qed.

(** C9: [call] tests the arity before the depth of the frame stack.  A call
    with [argCount] different from the arity reports the arity mismatch,
    also when [FRAMES_MAX] frames are live; "Stack overflow." is reported only
    for a call of the right arity at full depth, and a call of the right
    arity below full depth pushes a frame and reports nothing. *)
Theorem call_arity_check_first cl c fn argCount s t :
  heap s !! cl = Some (OBJ_CLOSURE c) ->
  heap s !! function c = Some (OBJ_FUNCTION fn) ->
  0 <= frameCount s <= Z.of_nat (length (frames s)) ->
  Z.of_nat (length (frames s)) = FRAMES_MAX ->
  stackTrace s = Some t ->
  (argCount ≠ arity fn ->
     call cl argCount s = Done false (afterError (arityMessage (arity fn) argCount) t s)
     /\ arityMessage (arity fn) argCount ≠ "Stack overflow.") /\
  (argCount = arity fn -> frameCount s = FRAMES_MAX ->
     call cl argCount s = Done false (afterError "Stack overflow." t s)) /\
  (argCount = arity fn -> frameCount s ≠ FRAMES_MAX ->
     call cl argCount s = Done true (afterCall cl argCount s)
     /\ stderr (afterCall cl argCount s) = stderr s).
Proof.
  intros Hcl Hfn Hfc Hlen Ht. split; [|split].
  - intros Hne. split; [|apply arityMessage_not_overflow].
    eapply call_arity_mismatch; eauto. lia.
  - intros -> Hmax. eapply call_overflow; eauto. lia.
  - intros -> Hmax. split; [|done]. eapply call_enter; eauto. lia.
Qed.

Lemma call_arity_check_first_witness :
  frameCount exDeep = FRAMES_MAX /\
  call 6%positive 0 exDeep =
    Done false (afterError "Expected 1 arguments but got 0."
      (String.concat "" (replicate 64 ("[line 7] in script" +:+ newline))) exDeep).
Proof.
  split; [reflexivity|].
  refine (proj1 (proj1 (call_arity_check_first 6%positive (mkClosure 5%positive [] 0)
    (mkFunction 1 0 (mkChunk [x01; x21] [3; 3] []) (Some 4%positive)) 0 exDeep _
    _ _ _ _ _) _)); try (vm_compute; reflexivity).
  - vm_compute. split; discriminate.
  - discriminate.
Defined.

(** ** Operand fetch *)

Lemma frameFunction_inv s frame fn :
  frameFunction s frame = Some fn ->
  exists fr cl, index (frames s) frame = Some fr /\
    heap s !! closure fr = Some (OBJ_CLOSURE cl) /\
    heap s !! function cl = Some (OBJ_FUNCTION fn).
Proof.
  unfold frameFunction. intros H.
  destruct (index (frames s) frame) as [fr|]; [|done].
  destruct (heap s !! closure fr) as [[| |cl| | | | |]|] eqn:Hcl; try done.
  destruct (heap s !! function cl) as [[| | |fn'| | | |]|] eqn:Hfn; try done.
  injection H as ->. eauto.
Qed.

Lemma codeAt_inv s frame k b :
  codeAt s frame k = Some b ->
  exists fr fn, index (frames s) frame = Some fr /\ frameFunction s frame = Some fn /\
    byte_to_Z <$> index (code (chunk fn)) (ip fr + k) = Some b.
Proof.
  unfold codeAt. intros H.
  destruct (index (frames s) frame) as [fr|]; [|done].
  destruct (frameFunction s frame) as [fn|]; [|done]. eauto.
Qed.

Lemma heap_advance frame k s : heap (advance frame k s) = heap s.
Proof. unfold advance. by destruct (index (frames s) frame). Qed.

Lemma stack_advance frame k s : stack (advance frame k s) = stack s.
Proof. unfold advance. by destruct (index (frames s) frame). Qed.

Lemma stackTop_advance frame k s : stackTop (advance frame k s) = stackTop s.
Proof. unfold advance. by destruct (index (frames s) frame). Qed.

Lemma globals_advance frame k s : globals (advance frame k s) = globals s.
Proof. unfold advance. by destruct (index (frames s) frame). Qed.

Lemma frameCount_advance frame k s : frameCount (advance frame k s) = frameCount s.
Proof. unfold advance. by destruct (index (frames s) frame). Qed.

Lemma openUpvalues_advance frame k s : openUpvalues (advance frame k s) = openUpvalues s.
Proof. unfold advance. by destruct (index (frames s) frame). Qed.

Lemma initString_advance frame k s : initString (advance frame k s) = initString s.
Proof. unfold advance. by destruct (index (frames s) frame). Qed.

Lemma length_frames_advance frame k s :
  length (frames (advance frame k s)) = length (frames s).
Proof.
  unfold advance. destruct (index (frames s) frame); [|done].
  vm_proj. apply length_insert.
Qed.

Lemma index_frames_advance frame k s fr :
  index (frames s) frame = Some fr ->
  index (frames (advance frame k s)) frame = Some (mkFrame (closure fr) (ip fr + k) (slots fr)).
Proof.
  intros H. unfold advance. rewrite H. vm_proj.
  apply index_insert_eq. by eapply index_lt.
Qed.

Lemma index_frames_advance_ne frame k s j :
  frame ≠ j -> index (frames (advance frame k s)) j = index (frames s) j.
Proof.
  intros Hne. unfold advance. destruct (index (frames s) frame) eqn:H; [|done].
  vm_proj. apply index_insert_ne; [|done]. apply index_lt in H. lia.
Qed.

Lemma frameFunction_advance frame k s j :
  frameFunction (advance frame k s) j = frameFunction s j.
Proof.
  unfold frameFunction. rewrite heap_advance.
  destruct (decide (frame = j)) as [<-|Hne].
  - destruct (index (frames s) frame) as [fr|] eqn:H.
    + by rewrite (index_frames_advance _ _ _ _ H).
    + unfold advance. rewrite H. by rewrite H.
  - by rewrite index_frames_advance_ne.
Qed.

Lemma constAt_advance frame k s j i : constAt (advance frame k s) j i = constAt s j i.
Proof. unfold constAt. by rewrite frameFunction_advance. Qed.

Lemma codeAt_advance frame k s j :
  codeAt (advance frame k s) frame j = codeAt s frame (k + j).
Proof.
  unfold codeAt. rewrite frameFunction_advance.
  destruct (index (frames s) frame) as [fr|] eqn:H.
  - rewrite (index_frames_advance _ _ _ _ H). cbn [ip].
    destruct (frameFunction s frame); [|done]. by rewrite Z.add_assoc.
  - unfold advance. by rewrite H, H.
Qed.

Lemma advance_advance frame j k s :
  advance frame k (advance frame j s) = advance frame (j + k) s.
Proof.
  destruct (index (frames s) frame) as [fr|] eqn:H.
  - unfold advance at 1. rewrite (index_frames_advance _ _ _ _ H).
    unfold advance. rewrite H. vm_proj. cbn [closure ip slots].
    unfold set_frames. vm_proj. f_equal.
    rewrite list_insert_insert_eq. by rewrite Z.add_assoc.
  - unfold advance. by rewrite H, H.
Qed.

Lemma ip_get_eq frame k s b : codeAt s frame k = Some b -> ip_get frame k s = Done b s.
Proof.
  intros (fr & fn & Hfr & (fr' & cl & Hfr' & Hcl & Hfn)%frameFunction_inv & Hb)%codeAt_inv.
  assert (fr' = fr) as -> by congruence.
  unfold ip_get. mdo (frames_get_eq _ _ _ Hfr). mdo (loadClosure_eq _ _ _ Hcl).
  mdo (loadFunction_eq _ _ _ Hfn).
  destruct (index (code (chunk fn)) (ip fr + k)) as [x|]; [|done].
  injection Hb as <-. by mstep.
Qed.

Lemma ip_add_eq frame k s :
  is_Some (index (frames s) frame) -> ip_add frame k s = Done tt (advance frame k s).
Proof.
  intros [fr Hfr]. unfold ip_add. mdo (frames_get_eq _ _ _ Hfr).
  rewrite frames_put_eq by (by eapply index_lt). unfold advance. by rewrite Hfr.
Qed.

Lemma codeAt_frame s frame k b : codeAt s frame k = Some b -> is_Some (index (frames s) frame).
Proof. intros (fr & ? & ? & _)%codeAt_inv. eauto. Qed.

Lemma READ_BYTE_eq frame s b :
  codeAt s frame 0 = Some b -> READ_BYTE frame s = Done b (advance frame 1 s).
Proof.
  intros Hb. unfold READ_BYTE. mdo (ip_get_eq _ _ _ _ Hb).
  erewrite bind_Done; [done|]. apply ip_add_eq. by eapply codeAt_frame.
Qed.

Lemma READ_CONSTANT_eq frame s i c :
  codeAt s frame 0 = Some i -> constAt s frame i = Some c ->
  READ_CONSTANT frame s = Done c (advance frame 1 s).
Proof.
  intros Hb Hc. unfold READ_CONSTANT. mdo (READ_BYTE_eq _ _ _ Hb).
  rewrite <-(constAt_advance frame 1) in Hc. unfold constAt in Hc.
  destruct (frameFunction _ _) as [fn|] eqn:Hff; [|done].
  apply frameFunction_inv in Hff as (fr & cl & Hfr & Hcl & Hfn).
  mdo (frames_get_eq _ _ _ Hfr). mdo (loadClosure_eq _ _ _ Hcl).
  mdo (loadFunction_eq _ _ _ Hfn). by rewrite Hc.
Qed.

Lemma READ_STRING_eq frame s i n :
  codeAt s frame 0 = Some i -> constAt s frame i = Some (OBJ_VAL n) ->
  READ_STRING frame s = Done n (advance frame 1 s).
Proof.
  intros Hb Hc. unfold READ_STRING. by mdo (READ_CONSTANT_eq _ _ _ _ Hb Hc).
Qed.

Lemma READ_SHORT_eq frame s hi lo :
  codeAt s frame 0 = Some hi -> codeAt s frame 1 = Some lo ->
  READ_SHORT frame s = Done (uint16_t (Z.lor (Z.shiftl hi 8) lo)) (advance frame 2 s).
Proof.
  intros Hhi Hlo. unfold READ_SHORT.
  erewrite bind_Done; [|apply ip_add_eq; by eapply codeAt_frame]. cbv beta.
  erewrite bind_Done; [|apply ip_get_eq; by rewrite codeAt_advance]. cbv beta.
  erewrite bind_Done; [|apply ip_get_eq; by rewrite codeAt_advance]. done.
Qed.

(** The trace leaves everything but standard output as it is. *)
Lemma frames_traced f s : frames (traced f s) = frames s.
Proof. reflexivity. Qed.
Lemma frameCount_traced f s : frameCount (traced f s) = frameCount s.
Proof. reflexivity. Qed.
Lemma stack_traced f s : stack (traced f s) = stack s.
Proof. reflexivity. Qed.
Lemma stackTop_traced f s : stackTop (traced f s) = stackTop s.
Proof. reflexivity. Qed.
Lemma heap_traced f s : heap (traced f s) = heap s.
Proof. reflexivity. Qed.
Lemma globals_traced f s : globals (traced f s) = globals s.
Proof. reflexivity. Qed.
Lemma stderr_traced f s : stderr (traced f s) = stderr s.
Proof. reflexivity. Qed.

Lemma codeAt_traced f s frame k : codeAt (traced f s) frame k = codeAt s frame k.
Proof. reflexivity. Qed.

Lemma constAt_traced f s frame k : constAt (traced f s) frame k = constAt s frame k.
Proof. reflexivity. Qed.

Lemma advance_traced f k frame s :
  advance f k (traced frame s) = set_stdout (stdout s ++ traceOf s frame) (advance f k s).
Proof. unfold advance, traced. vm_proj. by destruct (index (frames s) f). Qed.


(** ** Jumps *)

Lemma byte_to_Z_range b : 0 <= byte_to_Z b < 256.
Proof. unfold byte_to_Z. pose proof (Byte.to_N_bounded b). lia. Qed.

Lemma codeAt_range s frame k b : codeAt s frame k = Some b -> 0 <= b < 256.
Proof.
  intros (fr & fn & _ & _ & H)%codeAt_inv.
  destruct (index _ _) as [x|]; [|done]. injection H as <-. apply byte_to_Z_range.
Qed.

Lemma short_decode hi lo :
  0 <= hi < 256 -> 0 <= lo < 256 ->
  uint16_t (Z.lor (Z.shiftl hi 8) lo) = 256 * hi + lo.
Proof.
  intros Hhi Hlo.
  assert (Z.land (Z.shiftl hi 8) lo = 0) as Hland.
  { apply Z.bits_inj'. intros n Hn. rewrite Z.land_spec, Z.bits_0.
    destruct (decide (n < 8)) as [Hlt|Hge].
    - by rewrite Z.shiftl_spec_low.
    - rewrite (Z.bits_above_log2 lo n), andb_false_r; [done|lia|].
      destruct (decide (lo = 0)) as [->|]; [cbn; lia|].
      apply Z.log2_lt_pow2; [lia|].
      apply Z.lt_le_trans with (2 ^ 8); [lia|]. apply Z.pow_le_mono_r; lia. }
  pose proof (Z.add_lor_land (Z.shiftl hi 8) lo) as Hadd.
  rewrite Hland, Z.add_0_r in Hadd.
  unfold uint16_t. rewrite Hadd, Z.shiftl_mul_pow2 by lia.
  change (2 ^ 8) with 256. rewrite Z.mod_small by lia. lia.
Qed.

Lemma instr_op_jump_eq frame s hi lo :
  codeAt s frame 0 = Some hi -> codeAt s frame 1 = Some lo ->
  instr_op_jump frame s = Done (Continue frame) (advance frame (2 + (256 * hi + lo)) s).
Proof.
  intros Hhi Hlo. unfold instr_op_jump. mdo (READ_SHORT_eq _ _ _ _ Hhi Hlo).
  rewrite short_decode by (by eapply codeAt_range).
  erewrite bind_Done; [|apply ip_add_eq]; cbv beta.
  - by rewrite advance_advance.
  - destruct (codeAt_frame _ _ _ _ Hhi) as [fr Hfr].
    rewrite (index_frames_advance _ _ _ _ Hfr). eauto.
Qed.

Lemma instr_op_loop_eq frame s hi lo :
  codeAt s frame 0 = Some hi -> codeAt s frame 1 = Some lo ->
  instr_op_loop frame s = Done (Continue frame) (advance frame (2 - (256 * hi + lo)) s).
Proof.
  intros Hhi Hlo. unfold instr_op_loop. mdo (READ_SHORT_eq _ _ _ _ Hhi Hlo).
  rewrite short_decode by (by eapply codeAt_range).
  erewrite bind_Done; [|apply ip_add_eq]; cbv beta.
  - by rewrite advance_advance.
  - destruct (codeAt_frame _ _ _ _ Hhi) as [fr Hfr].
    rewrite (index_frames_advance _ _ _ _ Hfr). eauto.
Qed.

Lemma instr_op_jump_if_false_eq frame s hi lo v :
  codeAt s frame 0 = Some hi -> codeAt s frame 1 = Some lo ->
  index (stack s) (stackTop s - 1) = Some v ->
  instr_op_jump_if_false frame s =
  Done (Continue frame)
       (advance frame (if isFalsey v then 2 + (256 * hi + lo) else 2) s).
Proof.
  intros Hhi Hlo Hv. unfold instr_op_jump_if_false. mdo (READ_SHORT_eq _ _ _ _ Hhi Hlo).
  rewrite short_decode by (by eapply codeAt_range).
  erewrite bind_Done; [|apply peek_eq]; cbv beta.
  2:{ rewrite stack_advance, stackTop_advance, Z.sub_0_r. done. }
  destruct (isFalsey v).
  - erewrite bind_Done; [|apply ip_add_eq]; cbv beta.
    + by rewrite advance_advance.
    + destruct (codeAt_frame _ _ _ _ Hhi) as [fr Hfr].
      rewrite (index_frames_advance _ _ _ _ Hfr). eauto.
  - by mstep.
Qed.

(** C8, as stated, fails: the operand bytes [01 02] decode to 258, while the
    little-endian reading of that byte pair is 513. *)
Lemma jump_offset_not_little_endian :
  codeAt exJump 0 0 = Some 1 /\ codeAt exJump 0 1 = Some 2 /\
  READ_SHORT 0 exJump = Done 258 (advance 0 2 exJump) /\
  littleEndian16 1 2 = 513 /\ 258 ≠ littleEndian16 1 2.
Proof. repeat split; try (vm_compute; reflexivity). vm_compute. discriminate. Qed.

(** C8, amended: a jump offset is the 16-bit value of a byte pair stored
    high byte first (big-endian), decoded as [hi << 8 | lo] from the two
    operand bytes in order; [OP_JUMP] adds it to [ip], [OP_LOOP] subtracts it,
    and [OP_JUMP_IF_FALSE] adds it exactly when the top of the stack is falsey;
    none of the three pushes or pops. *)
Theorem jump_offsets_big_endian frame s hi lo v :
  codeAt s frame 0 = Some hi ->
  codeAt s frame 1 = Some lo ->
  index (stack s) (stackTop s - 1) = Some v ->
  let offset := 256 * hi + lo in
  0 <= offset < 65536 /\
  READ_SHORT frame s = Done offset (advance frame 2 s) /\
  instr_op_jump frame s = Done (Continue frame) (advance frame (2 + offset) s) /\
  instr_op_loop frame s = Done (Continue frame) (advance frame (2 - offset) s) /\
  instr_op_jump_if_false frame s =
    Done (Continue frame) (advance frame (if isFalsey v then 2 + offset else 2) s) /\
  (forall k, stack (advance frame k s) = stack s /\
             stackTop (advance frame k s) = stackTop s /\
             index (stack (advance frame k s)) (stackTop (advance frame k s) - 1) = Some v).
Proof.
  intros Hhi Hlo Hv offset.
  pose proof (codeAt_range _ _ _ _ Hhi). pose proof (codeAt_range _ _ _ _ Hlo).
  split; [unfold offset; lia|]. split.
  { rewrite (READ_SHORT_eq _ _ _ _ Hhi Hlo). by rewrite short_decode. }
  split; [by apply instr_op_jump_eq|]. split; [by apply instr_op_loop_eq|].
  split; [by apply instr_op_jump_if_false_eq|].
  intros k. by rewrite stack_advance, stackTop_advance.
Qed.

Lemma jump_offsets_big_endian_witness :
  instr_op_jump_if_false 0 exJump = Done (Continue 0) (advance 0 260 exJump).
Proof.
  refine (proj1 (proj2 (proj2 (proj2 (proj2
    (jump_offsets_big_endian 0 exJump 1 2 NIL_VAL _ _ _)))))); vm_compute; reflexivity.
Defined.

(** ** Runtime errors *)

Lemma callValue_closure cl c argCount s :
  heap s !! cl = Some (OBJ_CLOSURE c) ->
  callValue (OBJ_VAL cl) argCount s = call cl argCount s.
Proof. intros Hcl. unfold callValue. by mdo (load_eq _ _ _ Hcl). Qed.

Lemma instr_op_call_eq frame s argCount callee :
  codeAt s frame 0 = Some argCount ->
  index (stack s) (stackTop s - 1 - argCount) = Some callee ->
  instr_op_call frame s =
  (ok ← callValue callee argCount;
   if negb ok then mret (Return INTERPRET_RUNTIME_ERROR) else reload_frame)
    (advance frame 1 s).
Proof.
  intros Hb Hv. unfold instr_op_call. mdo (READ_BYTE_eq _ _ _ Hb).
  erewrite bind_Done; [done|]. apply peek_eq.
  by rewrite stack_advance, stackTop_advance.
Qed.

(** C6: a closure called with [argCount] different from the arity of its
    function makes [call], [callValue] and [OP_CALL] fail with a runtime
    error; and every [runtimeError] appends to the diagnostic stream its
    message, a newline and the stack trace (the live frames, innermost
    first), then leaves the value stack, the frame stack and the open-upvalue
    list empty. *)
Theorem runtime_error_resets_stacks message s t :
  frameCount s <= Z.of_nat (length (frames s)) ->
  stackTrace s = Some t ->
  (exists s',
      runtimeError message s = Done tt s' /\
      stderr s' = stderr s +:+ message +:+ newline +:+ t /\
      stackTop s' = 0 /\ frameCount s' = 0 /\ openUpvalues s' = None) /\
  (forall cl c fn argCount,
      heap s !! cl = Some (OBJ_CLOSURE c) ->
      heap s !! function c = Some (OBJ_FUNCTION fn) ->
      argCount ≠ arity fn ->
      exists s',
        call cl argCount s = Done false s' /\
        callValue (OBJ_VAL cl) argCount s = Done false s' /\
        stderr s' = stderr s +:+ arityMessage (arity fn) argCount +:+ newline +:+ t /\
        stackTop s' = 0 /\ frameCount s' = 0 /\ openUpvalues s' = None) /\
  (forall frame s0 cl c fn argCount,
      s = advance frame 1 s0 ->
      codeAt s0 frame 0 = Some argCount ->
      index (stack s0) (stackTop s0 - 1 - argCount) = Some (OBJ_VAL cl) ->
      heap s !! cl = Some (OBJ_CLOSURE c) ->
      heap s !! function c = Some (OBJ_FUNCTION fn) ->
      argCount ≠ arity fn ->
      exists s',
        instr_op_call frame s0 = Done (Return INTERPRET_RUNTIME_ERROR) s' /\
        stackTop s' = 0 /\ frameCount s' = 0 /\ openUpvalues s' = None).
Proof.
  intros Hfc Ht. split; [|split].
  - exists (afterError message t s). by rewrite (runtimeError_eq _ _ _ Hfc Ht).
  - intros cl c fn argCount Hcl Hfn Hne.
    exists (afterError (arityMessage (arity fn) argCount) t s).
    rewrite (callValue_closure _ _ _ _ Hcl).
    by rewrite (call_arity_mismatch _ _ _ _ _ _ Hcl Hfn Hfc Ht Hne).
  - intros frame s0 cl c fn argCount -> Hb Hv Hcl Hfn Hne.
    exists (afterError (arityMessage (arity fn) argCount) t (advance frame 1 s0)).
    rewrite (instr_op_call_eq _ _ _ _ Hb Hv).
    erewrite bind_Done;
      [|rewrite (callValue_closure _ _ _ _ Hcl); by eapply call_arity_mismatch].
    done.
Qed.

Lemma runtime_error_resets_stacks_witness :
  exists s',
    instr_op_call 0 exCall = Done (Return INTERPRET_RUNTIME_ERROR) s' /\
    stackTop s' = 0 /\ frameCount s' = 0 /\ openUpvalues s' = None.
Proof.
  refine (proj2 (proj2 (runtime_error_resets_stacks "" (advance 0 1 exCall)
    ("[line 7] in script" +:+ newline) _ _)) 0 exCall 6%positive
    (mkClosure 5%positive [] 0)
    (mkFunction 1 0 (mkChunk [x01; x21] [3; 3] []) (Some 4%positive)) 0 _ _ _ _ _ _);
    try (vm_compute; reflexivity); vm_compute; discriminate.
Defined.

(** ** Calling a class *)

Lemma allocateObject_eq o s :
  allocateObject o s =
  Done (fresh (dom (heap s))) (set_heap (<[fresh (dom (heap s)) := o]> (heap s)) s).
Proof. reflexivity. Qed.

Lemma fresh_heap s : heap s !! fresh (dom (heap s)) = None.
Proof. apply not_elem_of_dom, is_fresh. Qed.

Lemma callValue_class k klass argCount s :
  heap s !! k = Some (OBJ_CLASS klass) ->
  0 <= stackTop s - argCount - 1 < Z.of_nat (length (stack s)) ->
  callValue (OBJ_VAL k) argCount s =
  match tableGet (methods klass) (initString s) with
  | Some initializer => (cl ← AS_OBJ initializer; call cl argCount) (instantiated k argCount s)
  | None =>
      if decide (argCount ≠ 0) then
        (runtimeError ("Expected 0 arguments but got " +:+ pretty argCount +:+ ".");;
         mret false) (instantiated k argCount s)
      else Done true (instantiated k argCount s)
  end.
Proof.
  intros Hk Htop. unfold callValue. mdo (load_eq _ _ _ Hk).
  unfold newInstance. mdo (allocateObject_eq (OBJ_INSTANCE (mkInstance k ∅)) s).
  mstep. erewrite bind_Done; [|by apply stack_put_eq]. cbv beta. vm_proj.
  mstep. fold (instantiated k argCount s).
  destruct (tableGet _ _); [done|]. by case_decide.
Qed.

Lemma instantiated_heap_other k argCount s a :
  is_Some (heap s !! a) -> heap (instantiated k argCount s) !! a = heap s !! a.
Proof.
  intros Ha. unfold instantiated. vm_proj. apply lookup_insert_ne.
  intros <-. rewrite fresh_heap in Ha. by destruct Ha.
Qed.

(** C5: calling a class with [argCount] arguments stores a new instance of
    the class in the slot of the callee, [stackTop[-argCount - 1]]; when the
    method table of the class has an entry for the [init] string, that
    closure is called with the same [argCount]: with [argCount] equal to its
    arity a frame for the initializer is pushed whose slot 0 is the slot of
    the new instance (or "Stack overflow." is reported at full depth), with
    another [argCount] the call is the arity error of the initializer.
    Without an initializer the call succeeds when [argCount] is 0 and is a
    runtime error for every other [argCount]. *)
Theorem call_class_instantiates k klass argCount s :
  heap s !! k = Some (OBJ_CLASS klass) ->
  0 <= stackTop s - argCount - 1 < Z.of_nat (length (stack s)) ->
  let inst := fresh (dom (heap s)) in
  let s1 := instantiated k argCount s in
  heap s !! inst = None /\
  heap s1 !! inst = Some (OBJ_INSTANCE (mkInstance k ∅)) /\
  index (stack s1) (stackTop s1 - argCount - 1) = Some (OBJ_VAL inst) /\
  stackTop s1 = stackTop s /\
  (forall init, tableGet (methods klass) (initString s) = Some (OBJ_VAL init) ->
     callValue (OBJ_VAL k) argCount s = call init argCount s1) /\
  (forall init c fn,
     tableGet (methods klass) (initString s) = Some (OBJ_VAL init) ->
     heap s !! init = Some (OBJ_CLOSURE c) ->
     heap s !! function c = Some (OBJ_FUNCTION fn) ->
     0 <= frameCount s <= Z.of_nat (length (frames s)) ->
     (argCount = arity fn -> frameCount s < Z.of_nat (length (frames s)) ->
      frameCount s ≠ FRAMES_MAX ->
        let s2 := afterCall init argCount s1 in
        callValue (OBJ_VAL k) argCount s = Done true s2 /\
        frameCount s2 = frameCount s + 1 /\
        index (frames s2) (frameCount s) =
          Some (mkFrame init 0 (stackTop s - argCount - 1)) /\
        index (stack s2) (stackTop s - argCount - 1) = Some (OBJ_VAL inst) /\
        stackTop s2 = stackTop s /\ stderr s2 = stderr s) /\
     (argCount = arity fn -> frameCount s = FRAMES_MAX ->
      forall t, stackTrace s1 = Some t ->
        callValue (OBJ_VAL k) argCount s =
        Done false (afterError "Stack overflow." t s1)) /\
     (argCount ≠ arity fn ->
      forall t, stackTrace s1 = Some t ->
        callValue (OBJ_VAL k) argCount s =
        Done false (afterError (arityMessage (arity fn) argCount) t s1))) /\
  (tableGet (methods klass) (initString s) = None -> argCount = 0 ->
     callValue (OBJ_VAL k) argCount s = Done true s1) /\
  (tableGet (methods klass) (initString s) = None -> argCount ≠ 0 ->
     forall t, frameCount s <= Z.of_nat (length (frames s)) -> stackTrace s1 = Some t ->
     callValue (OBJ_VAL k) argCount s =
     Done false (afterError ("Expected 0 arguments but got " +:+ pretty argCount +:+ ".") t s1)).
Proof.
  intros Hk Htop inst s1.
  assert (index (stack s1) (stackTop s1 - argCount - 1) = Some (OBJ_VAL inst)) as Hslot.
  { unfold s1, instantiated. vm_proj. by apply index_insert_eq. }
  split; [apply fresh_heap|]. split.
  { unfold s1, instantiated. vm_proj. apply lookup_insert_eq. }
  split; [done|]. split; [done|]. split; [|split; [|split]].
  - intros init Hinit. rewrite (callValue_class _ _ _ _ Hk Htop), Hinit. done.
  - intros init c fn Hinit Hc Hfn Hfc.
    assert (callValue (OBJ_VAL k) argCount s = call init argCount s1) as ->.
    { rewrite (callValue_class _ _ _ _ Hk Htop), Hinit. done. }
    assert (heap s1 !! init = Some (OBJ_CLOSURE c)) as Hc1.
    { unfold s1. by rewrite instantiated_heap_other. }
    assert (heap s1 !! function c = Some (OBJ_FUNCTION fn)) as Hfn1.
    { unfold s1. by rewrite instantiated_heap_other. }
    split; [|split].
    + intros -> Hlt Hmax s2. split.
      { apply (call_enter _ _ _ _ Hc1 Hfn1); [|done]. unfold s1, instantiated. vm_proj. lia. }
      unfold s2, afterCall. vm_proj. split; [done|].
      split. { unfold s1, instantiated. vm_proj. apply index_insert_eq. lia. }
      split; [|done]. exact Hslot.
    + intros -> Hmax t Ht. apply (call_overflow _ _ _ _ _ Hc1 Hfn1); [|done..].
      unfold s1, instantiated. vm_proj. lia.
    + intros Hne t Ht. apply (call_arity_mismatch _ _ _ _ _ _ Hc1 Hfn1); [|done..].
      unfold s1, instantiated. vm_proj. lia.
  - intros Hnone ->. rewrite (callValue_class _ _ _ _ Hk Htop), Hnone. done.
  - intros Hnone Hne t Hfc Ht. rewrite (callValue_class _ _ _ _ Hk Htop), Hnone.
    rewrite decide_True by done. erewrite bind_Done; [|by apply runtimeError_eq]. done.
Qed.

Lemma call_class_instantiates_witness :
  callValue (OBJ_VAL 9%positive) 1 exInit =
    Done true (afterCall 6%positive 1 (instantiated 9%positive 1 exInit)) /\
  index (frames (afterCall 6%positive 1 (instantiated 9%positive 1 exInit))) 1 =
    Some (mkFrame 6%positive 0 1) /\
  index (stack (afterCall 6%positive 1 (instantiated 9%positive 1 exInit))) 1 =
    Some (OBJ_VAL 16%positive) /\
  callValue (OBJ_VAL 9%positive) 0 exClass = Done true (instantiated 9%positive 0 exClass).
Proof.
  pose proof (call_class_instantiates 9%positive
    (mkClass 10%positive {[ 1%positive := OBJ_VAL 6%positive ]}) 1 exInit) as H.
  cbv zeta in H.
  destruct H as (_ & _ & _ & _ & _ & H & _);
    [vm_compute; reflexivity|vm_compute; split; [discriminate|reflexivity]|].
  destruct (H 6%positive (mkClosure 5%positive [] 0)
    (mkFunction 1 0 (mkChunk [x01; x21] [3; 3] []) (Some 4%positive)))
    as ((Hcall & _ & Hframe & Hinst & _) & _);
    try (vm_compute; reflexivity).
  { vm_compute. split; discriminate. }
  { vm_compute. discriminate. }
  split; [exact Hcall|]. split; [exact Hframe|]. split; [exact Hinst|].
  pose proof (call_class_instantiates 9%positive (mkClass 10%positive ∅) 0 exClass) as H0.
  cbv zeta in H0. apply H0; try (vm_compute; reflexivity).
  vm_compute. split; [discriminate|reflexivity].
Defined.

(** ** Assigning to a global *)

Lemma set_globals_same s : set_globals (globals s) s = s.
Proof. by destruct s. Qed.

(** C4: [OP_SET_GLOBAL] on a name that is not in the globals table is a
    runtime error, and before the error is raised the entry that [tableSet]
    has just made is deleted, so the table is as it was; on a name that is in
    the table the entry gets the value and the value stays on the stack. *)
Theorem set_global_undefined_restores_table frame s i name str v :
  codeAt s frame 0 = Some i ->
  constAt s frame i = Some (OBJ_VAL name) ->
  index (stack s) (stackTop s - 1) = Some v ->
  heap s !! name = Some (OBJ_STRING str) ->
  let s1 := advance frame 1 s in
  (globals s !! name = None ->
     tableDelete (fst (tableSet (globals s) name v)) name = globals s /\
     forall t, frameCount s <= Z.of_nat (length (frames s)) -> stackTrace s1 = Some t ->
     exists s',
       instr_op_set_global frame s = Done (Return INTERPRET_RUNTIME_ERROR) s' /\
       s' = afterError ("Undefined variable '" +:+ cString (chars str) +:+ "'.") t s1 /\
       globals s' = globals s) /\
  (is_Some (globals s !! name) ->
     exists s',
       instr_op_set_global frame s = Done (Continue frame) s' /\
       globals s' = <[name := v]> (globals s) /\
       stack s' = stack s /\ stackTop s' = stackTop s /\
       index (stack s') (stackTop s' - 1) = Some v).
Proof.
  intros Hi Hc Hv Hname s1. subst s1.
  assert (instr_op_set_global frame s =
    (g ← gets globals;
     let '(g', isNewKey) := tableSet g name v in
     modify (set_globals g');;
     if (isNewKey : bool) then
       modify (fun s => set_globals (tableDelete (globals s) name) s);;
       str ← loadString name;
       runtimeError ("Undefined variable '" +:+ cString (chars str) +:+ "'.");;
       mret (Return INTERPRET_RUNTIME_ERROR)
     else mret (Continue frame)) (advance frame 1 s)) as ->.
  { unfold instr_op_set_global. mdo (READ_STRING_eq _ _ _ _ Hi Hc).
    erewrite bind_Done;
      [|apply peek_eq; rewrite stack_advance, stackTop_advance, Z.sub_0_r; exact Hv].
    done. }
  mstep. rewrite globals_advance. unfold tableSet. cbv beta iota. split.
  - intros Hnone. split; [by apply delete_insert_id|].
    intros t Hfc Ht. eexists. split; [|split; [reflexivity|]].
    + rewrite bool_decide_true by done. mstep. mstep.
      unfold tableDelete. rewrite delete_insert_id by done.
      change (set_globals ?x (set_globals ?y ?s0)) with (set_globals x s0).
      rewrite <-(globals_advance frame 1 s), set_globals_same.
      erewrite bind_Done; [|apply loadString_eq; by rewrite heap_advance].
      cbv beta. erewrite bind_Done; [done|]. apply runtimeError_eq; [|done].
      by rewrite frameCount_advance, length_frames_advance.
    + unfold afterError. vm_proj. apply globals_advance.
  - intros [old Hold]. eexists. split.
    + rewrite bool_decide_false by (by rewrite Hold). by mstep.
    + vm_proj. by rewrite stack_advance, stackTop_advance.
Qed.

Lemma set_global_undefined_restores_table_witness :
  exists s',
    instr_op_set_global 0 exSetGlobal = Done (Return INTERPRET_RUNTIME_ERROR) s' /\
    s' = afterError "Undefined variable 'x'." ("[line 8] in script" +:+ newline)
           (advance 0 1 exSetGlobal) /\
    globals s' = globals exSetGlobal.
Proof.
  refine (proj2 (proj1 (set_global_undefined_restores_table 0 exSetGlobal 1 11%positive
    (mkString "x") (NUMBER_VAL 1) _ _ _ _) _) _ _ _); try (vm_compute; reflexivity).
  vm_compute. discriminate.
Defined.

(** ** Addition *)

Lemma IS_STRING_eq s v : liveValue s v -> IS_STRING v s = Done (isString (heap s) v) s.
Proof.
  destruct v as [| | |p]; try done. intros [o Ho]. cbn [IS_STRING isString].
  mdo (load_eq _ _ _ Ho). by rewrite Ho.
Qed.

Lemma takeString_eq cs s : takeString cs s = Done (interned cs s) (afterTake cs s).
Proof.
  unfold takeString, interned, afterTake. mstep.
  destruct (strings s !! cs); [done|].
  mdo (allocateObject_eq (OBJ_STRING (mkString cs)) s). by mstep.
Qed.

Lemma stack_afterTake cs s : stack (afterTake cs s) = stack s.
Proof. unfold afterTake. by destruct (strings s !! cs). Qed.

Lemma stackTop_afterTake cs s : stackTop (afterTake cs s) = stackTop s.
Proof. unfold afterTake. by destruct (strings s !! cs). Qed.

Lemma heap_interned cs s :
  internTable_ok s ->
  heap (afterTake cs s) !! interned cs s = Some (OBJ_STRING (mkString cs)).
Proof.
  intros Hok. unfold afterTake, interned.
  destruct (strings s !! cs) as [r|] eqn:Hr; [by apply Hok|].
  vm_proj. apply lookup_insert_eq.
Qed.

Lemma strings_interned cs s : strings (afterTake cs s) !! cs = Some (interned cs s).
Proof.
  unfold afterTake, interned.
  destruct (strings s !! cs) as [r|] eqn:Hr; [done|]. vm_proj. apply lookup_insert_eq.
Qed.

Lemma heap_afterTake_mono cs s a o :
  heap s !! a = Some o -> heap (afterTake cs s) !! a = Some o.
Proof.
  intros Ha. unfold afterTake. destruct (strings s !! cs); [done|]. vm_proj.
  rewrite lookup_insert_ne; [done|]. intros <-. by rewrite fresh_heap in Ha.
Qed.

Lemma interned_fresh cs s : strings s !! cs = None -> heap s !! interned cs s = None.
Proof. intros H. unfold interned. rewrite H. apply fresh_heap. Qed.

Lemma pop_pop_push_eq s v0 v1 r :
  index (stack s) (stackTop s - 1) = Some v0 ->
  index (stack s) (stackTop s - 2) = Some v1 ->
  (pop;; pop;; push r) s = Done tt (replaceTop2 r s).
Proof.
  intros H0 H1. mdo (pop_eq _ _ H0).
  erewrite bind_Done; [|apply pop_eq; vm_proj; by replace (stackTop s - 1 - 1) with (stackTop s - 2) by lia].
  cbv beta. rewrite push_eq; vm_proj.
  - unfold replaceTop2, set_stackTop, set_stack. vm_proj.
    replace (stackTop s - 1 - 1) with (stackTop s - 2) by lia.
    by replace (stackTop s - 2 + 1) with (stackTop s - 1) by lia.
  - apply index_lt in H1. lia.
Qed.

Lemma concatenate_eq s pa pb a b :
  index (stack s) (stackTop s - 1) = Some (OBJ_VAL pb) ->
  index (stack s) (stackTop s - 2) = Some (OBJ_VAL pa) ->
  heap s !! pa = Some (OBJ_STRING a) ->
  heap s !! pb = Some (OBJ_STRING b) ->
  strlen a + strlen b + 1 <= INT_MAX ->
  concatenate s =
  Done tt (replaceTop2 (OBJ_VAL (interned (chars a +:+ chars b) s))
                       (afterTake (chars a +:+ chars b) s)).
Proof.
  intros H0 H1 Ha Hb Hlen. unfold concatenate.
  erewrite bind_Done; [|apply peek_eq; by rewrite Z.sub_0_r]. cbv beta. mstep.
  mdo (loadString_eq _ _ _ Hb).
  erewrite bind_Done; [|apply peek_eq; by replace (stackTop s - 1 - 1) with (stackTop s - 2) by lia].
  cbv beta. mstep. mdo (loadString_eq _ _ _ Ha).
  rewrite decide_True by done. mdo (takeString_eq (chars a +:+ chars b) s).
  eapply pop_pop_push_eq; by rewrite stack_afterTake, stackTop_afterTake.
Qed.

Lemma instr_op_add_eq frame s v0 v1 :
  index (stack s) (stackTop s - 1) = Some v0 ->
  index (stack s) (stackTop s - 2) = Some v1 ->
  liveValue s v0 -> liveValue s v1 ->
  instr_op_add frame s =
  if isString (heap s) v0 && isString (heap s) v1 then
    (concatenate;; mret (Continue frame)) s
  else if IS_NUMBER v0 && IS_NUMBER v1 then
    (vb ← pop; b ← AS_NUMBER vb;
     va ← pop; a ← AS_NUMBER va;
     push (NUMBER_VAL (PrimFloat.add a b));;
     mret (Continue frame)) s
  else
    (runtimeError "Operands must be two numbers or two strings.";;
     mret (Return INTERPRET_RUNTIME_ERROR)) s.
Proof.
  intros H0 H1 Hl0 Hl1.
  assert (Hp0 : peek 0 s = Done v0 s) by (apply peek_eq; by rewrite Z.sub_0_r).
  assert (Hp1 : peek 1 s = Done v1 s).
  { apply peek_eq. by replace (stackTop s - 1 - 1) with (stackTop s - 2) by lia. }
  unfold instr_op_add. mdo Hp0. mdo (IS_STRING_eq _ _ Hl0).
  assert ((if isString (heap s) v0 then v2 ← peek 1; IS_STRING v2 else mret false) s
          = Done (isString (heap s) v0 && isString (heap s) v1) s) as Hs1.
  { destruct (isString (heap s) v0); [|done]. mdo Hp1. by rewrite (IS_STRING_eq _ _ Hl1). }
  mdo Hs1. destruct (isString (heap s) v0 && isString (heap s) v1); [done|].
  mdo Hp0.
  assert ((if IS_NUMBER v0 then v2 ← peek 1; mret (IS_NUMBER v2) else mret false) s
          = Done (IS_NUMBER v0 && IS_NUMBER v1) s) as Hn1.
  { destruct (IS_NUMBER v0); [|done]. by mdo Hp1. }
  mdo Hn1. by destruct (IS_NUMBER v0 && IS_NUMBER v1).
Qed.

(** C3: with two strings on top of the stack [OP_ADD] leaves their
    concatenation, the interned string of those characters (a new object
    when no equal string was interned before; no existing object is
    changed); with two numbers it leaves their IEEE double sum; in both cases
    the two operands are popped and the one result is pushed.  Every other
    pair of operands is a runtime error. *)
Theorem add_strings_or_numbers frame s v0 v1 :
  index (stack s) (stackTop s - 1) = Some v0 ->
  index (stack s) (stackTop s - 2) = Some v1 ->
  liveValue s v0 -> liveValue s v1 ->
  (forall pa pb a b,
     v1 = OBJ_VAL pa -> v0 = OBJ_VAL pb ->
     heap s !! pa = Some (OBJ_STRING a) -> heap s !! pb = Some (OBJ_STRING b) ->
     strlen a + strlen b + 1 <= INT_MAX -> internTable_ok s ->
     let cs := chars a +:+ chars b in
     let r := interned cs s in
     let s' := replaceTop2 (OBJ_VAL r) (afterTake cs s) in
     instr_op_add frame s = Done (Continue frame) s' /\
     heap s' !! r = Some (OBJ_STRING (mkString cs)) /\
     strings s' !! cs = Some r /\
     (strings s !! cs = None -> heap s !! r = None) /\
     (forall a o, heap s !! a = Some o -> heap s' !! a = Some o) /\
     stackTop s' = stackTop s - 1 /\
     index (stack s') (stackTop s' - 1) = Some (OBJ_VAL r) /\
     (forall i, i ≠ stackTop s - 2 -> index (stack s') i = index (stack s) i)) /\
  (forall a b,
     v1 = NUMBER_VAL a -> v0 = NUMBER_VAL b ->
     let s' := replaceTop2 (NUMBER_VAL (a + b)%float) s in
     instr_op_add frame s = Done (Continue frame) s' /\
     stackTop s' = stackTop s - 1 /\
     index (stack s') (stackTop s' - 1) = Some (NUMBER_VAL (a + b)%float) /\
     (forall i, i ≠ stackTop s - 2 -> index (stack s') i = index (stack s) i)) /\
  (isString (heap s) v0 && isString (heap s) v1 = false ->
   IS_NUMBER v0 && IS_NUMBER v1 = false ->
   instr_op_add frame s =
   (runtimeError "Operands must be two numbers or two strings.";;
    mret (Return INTERPRET_RUNTIME_ERROR)) s).
Proof.
  intros H0 H1 Hl0 Hl1.
  pose proof (index_lt _ _ _ H1) as Hrange.
  rewrite (instr_op_add_eq frame _ _ _ H0 H1 Hl0 Hl1).
  split; [|split].
  - intros pa pb a b -> -> Ha Hb Hlen Hok cs r s'.
    split; [|split; [|split; [|split; [|split; [|split; [|split]]]]]].
    + cbn [isString]. rewrite Ha, Hb. cbn [andb].
      by mdo (concatenate_eq _ _ _ _ _ H0 H1 Ha Hb Hlen).
    + unfold s', replaceTop2. vm_proj. by apply heap_interned.
    + unfold s', replaceTop2. vm_proj. apply strings_interned.
    + apply interned_fresh.
    + intros x o Hx. unfold s', replaceTop2. vm_proj. by apply heap_afterTake_mono.
    + unfold s', replaceTop2. vm_proj. by rewrite stackTop_afterTake.
    + unfold s', replaceTop2. vm_proj. rewrite stackTop_afterTake, stack_afterTake.
      replace (stackTop s - 1 - 1) with (stackTop s - 2) by lia. by apply index_insert_eq.
    + intros i Hi. unfold s', replaceTop2. vm_proj.
      rewrite stackTop_afterTake, stack_afterTake. apply index_insert_ne; [lia|done].
  - intros a b -> -> s'. split; [|split; [|split]].
    + cbn [isString IS_NUMBER andb]. mdo (pop_eq _ _ H0). mstep.
      erewrite bind_Done; [|apply pop_eq; vm_proj; by replace (stackTop s - 1 - 1) with (stackTop s - 2) by lia].
      cbv beta. mstep. erewrite bind_Done; [|apply push_eq; vm_proj; lia]. cbv beta.
      vm_proj. unfold s', replaceTop2, set_stackTop, set_stack. vm_proj.
      replace (stackTop s - 1 - 1) with (stackTop s - 2) by lia.
      by replace (stackTop s - 2 + 1) with (stackTop s - 1) by lia.
    + done.
    + unfold s', replaceTop2. vm_proj.
      replace (stackTop s - 1 - 1) with (stackTop s - 2) by lia. by apply index_insert_eq.
    + intros i Hi. unfold s', replaceTop2. vm_proj. apply index_insert_ne; [lia|done].
  - by intros -> ->.
Qed.

Lemma add_strings_or_numbers_witness :
  instr_op_add 0 exAdd =
  Done (Continue 0)
    (replaceTop2 (OBJ_VAL 16%positive) (afterTake "hello" exAdd)) /\
  heap (replaceTop2 (OBJ_VAL 16%positive) (afterTake "hello" exAdd)) !! 16%positive =
  Some (OBJ_STRING (mkString "hello")).
Proof.
  assert (internTable_ok exAdd) as Hok.
  { assert (Forall (fun e => heap exAdd !! e.2 = Some (OBJ_STRING (mkString e.1)))
                    (map_to_list (strings exAdd))) as HF.
    { vm_compute. repeat constructor. }
    intros cs r H%elem_of_map_to_list. rewrite Forall_forall in HF. apply (HF _ H). }
  pose proof (proj1 (add_strings_or_numbers 0 exAdd (OBJ_VAL 8%positive) (OBJ_VAL 7%positive)
    eq_refl eq_refl (ex_intro _ (OBJ_STRING (mkString "llo")) eq_refl)
    (ex_intro _ (OBJ_STRING (mkString "he")) eq_refl))
    7%positive 8%positive (mkString "he") (mkString "llo") eq_refl eq_refl eq_refl eq_refl) as H.
  cbv zeta in H.
  destruct (H ltac:(vm_compute; discriminate) Hok) as (H1 & H2 & _).
  split; [exact H1|exact H2].
Defined.

(** ** Upvalue access *)

Lemma deref_eq s p v : target s p = Some v -> deref p s = Done v s.
Proof.
  destruct p as [i|u]; cbn [target deref]; [apply stack_get_eq|].
  destruct (heap s !! u) as [[| | | | | | |x]|] eqn:Hu; try done.
  intros [= <-]. by mdo (loadUpvalue_eq _ _ _ Hu).
Qed.

Lemma upvalue_operand_eq {A} frame s slot fr cl up uv (k : ObjUpvalue -> M A) :
  index (frames s) frame = Some fr ->
  heap s !! closure fr = Some (OBJ_CLOSURE cl) ->
  index (upvalues cl) slot = Some (Some up) ->
  heap s !! up = Some (OBJ_UPVALUE uv) ->
  (fr ← frames_get frame;
   cl ← loadClosure (closure fr);
   entry ← lift (index (upvalues cl) slot);
   up ← lift entry;
   uv ← loadUpvalue up;
   k uv) (advance frame 1 s) = k uv (advance frame 1 s).
Proof.
  intros Hfr Hcl Hup Huv.
  mdo (frames_get_eq _ _ _ (index_frames_advance frame 1 _ _ Hfr)). cbn [closure].
  erewrite bind_Done; [|apply loadClosure_eq; by rewrite heap_advance]. cbv beta.
  rewrite Hup. mstep. mstep.
  erewrite bind_Done; [|apply loadUpvalue_eq; by rewrite heap_advance]. done.
Qed.

Lemma instr_op_get_upvalue_eq frame s slot fr cl up uv v :
  codeAt s frame 0 = Some slot ->
  index (frames s) frame = Some fr ->
  heap s !! closure fr = Some (OBJ_CLOSURE cl) ->
  index (upvalues cl) slot = Some (Some up) ->
  heap s !! up = Some (OBJ_UPVALUE uv) ->
  target s (location uv) = Some v ->
  0 <= stackTop s < Z.of_nat (length (stack s)) ->
  instr_op_get_upvalue frame s = Done (Continue frame) (pushed v (advance frame 1 s)).
Proof.
  intros Hb Hfr Hcl Hup Huv Hv Htop. unfold instr_op_get_upvalue.
  mdo (READ_BYTE_eq _ _ _ Hb).
  rewrite (upvalue_operand_eq frame s slot fr cl up uv) by done.
  erewrite bind_Done; [|apply deref_eq].
  2:{ destruct (location uv); cbn [target] in *;
        by rewrite ?stack_advance, ?heap_advance. }
  cbv beta. erewrite bind_Done; [|apply push_eq; by rewrite stack_advance, stackTop_advance].
  done.
Qed.

Lemma instr_op_set_upvalue_eq frame s slot fr cl up uv v :
  codeAt s frame 0 = Some slot ->
  index (frames s) frame = Some fr ->
  heap s !! closure fr = Some (OBJ_CLOSURE cl) ->
  index (upvalues cl) slot = Some (Some up) ->
  heap s !! up = Some (OBJ_UPVALUE uv) ->
  index (stack s) (stackTop s - 1) = Some v ->
  instr_op_set_upvalue frame s =
  (assign (location uv) v;; mret (Continue frame)) (advance frame 1 s).
Proof.
  intros Hb Hfr Hcl Hup Huv Hv. unfold instr_op_set_upvalue.
  mdo (READ_BYTE_eq _ _ _ Hb).
  erewrite bind_Done; [|apply peek_eq; by rewrite stack_advance, stackTop_advance, Z.sub_0_r].
  cbv beta. by rewrite (upvalue_operand_eq frame s slot fr cl up uv).
Qed.

(** C10: the stack effects of the upvalue instructions.  [OP_GET_UPVALUE]
    pushes one value, the current target of the upvalue's [location].
    [OP_SET_UPVALUE] writes [peek(0)] through the upvalue's [location]
    without popping: the value stack keeps its height and the assigned value
    stays on top of it, the effect of an assignment.  The write lands in the
    upvalue's own [closed] field when the upvalue is closed, and the array
    [vm.stack] is then untouched; when the upvalue is open it lands in the
    captured slot, as the write of [OP_SET_LOCAL] lands in its slot, and
    every other slot is unchanged. *)
Theorem upvalue_access_stack_effect frame s slot fr cl up uv :
  codeAt s frame 0 = Some slot ->
  index (frames s) frame = Some fr ->
  heap s !! closure fr = Some (OBJ_CLOSURE cl) ->
  index (upvalues cl) slot = Some (Some up) ->
  heap s !! up = Some (OBJ_UPVALUE uv) ->
  (forall v,
     target s (location uv) = Some v ->
     0 <= stackTop s < Z.of_nat (length (stack s)) ->
     exists s',
       instr_op_get_upvalue frame s = Done (Continue frame) s' /\
       stackTop s' = stackTop s + 1 /\
       index (stack s') (stackTop s) = Some v /\
       (forall i, i ≠ stackTop s -> index (stack s') i = index (stack s) i)) /\
  (forall v,
     index (stack s) (stackTop s - 1) = Some v ->
     (location uv = ClosedField up ->
      exists s',
        instr_op_set_upvalue frame s = Done (Continue frame) s' /\
        target s' (ClosedField up) = Some v /\
        stackTop s' = stackTop s /\ stack s' = stack s) /\
     (forall k,
        location uv = StackSlot k ->
        0 <= k < Z.of_nat (length (stack s)) ->
        exists s',
          instr_op_set_upvalue frame s = Done (Continue frame) s' /\
          target s' (StackSlot k) = Some v /\
          stackTop s' = stackTop s /\
          index (stack s') (stackTop s' - 1) = Some v /\
          (forall i, i ≠ k -> index (stack s') i = index (stack s) i))).
Proof.
  intros Hb Hfr Hcl Hup Huv. split.
  - intros v Hv Htop. eexists. split; [by eapply instr_op_get_upvalue_eq|].
    unfold pushed. vm_proj. rewrite stack_advance, stackTop_advance.
    split; [done|]. split; [by apply index_insert_eq|].
    intros i Hi. apply index_insert_ne; [lia|done].
  - intros v Hv. rewrite (instr_op_set_upvalue_eq _ _ _ _ _ _ _ _ Hb Hfr Hcl Hup Huv Hv).
    split.
    + intros ->. eexists. split.
      * cbn [assign].
        erewrite bind_Done; [|erewrite bind_Done; [reflexivity|]].
        2:{ apply loadUpvalue_eq. by rewrite heap_advance. }
        reflexivity.
      * cbn [target]. vm_proj. rewrite lookup_insert_eq. cbn [closed].
        by rewrite stack_advance, stackTop_advance.
    + intros k -> Hk. eexists. split.
      * cbn [assign]. erewrite bind_Done; [|apply stack_put_eq; by rewrite stack_advance].
        reflexivity.
      * cbn [target]. vm_proj. rewrite stack_advance, stackTop_advance.
        split; [by apply index_insert_eq|]. split; [done|].
        split.
        -- destruct (decide (k = stackTop s - 1)) as [->|Hne].
           ++ by apply index_insert_eq.
           ++ rewrite index_insert_ne by lia. done.
        -- intros i Hi. apply index_insert_ne; [lia|done].
Qed.

Lemma upvalue_access_stack_effect_witness :
  exists s',
    instr_op_set_upvalue 1 exInner = Done (Continue 1) s' /\
    target s' (StackSlot 1) = Some (BOOL_VAL true) /\
    stackTop s' = stackTop exInner /\
    index (stack s') (stackTop s' - 1) = Some (BOOL_VAL true) /\
    (forall i, i ≠ 1 -> index (stack s') i = index (stack exInner) i).
Proof.
  refine (proj2 (proj2 (upvalue_access_stack_effect 1 exInner 0 (mkFrame 14%positive 3 2)
    (mkClosure 12%positive [Some 15%positive] 1) 15%positive
    (mkUpvalue (StackSlot 1) NIL_VAL None) _ _ _ _ _) (BOOL_VAL true) _) 1 _ _);
    try (vm_compute; reflexivity).
  vm_compute. split; [discriminate|reflexivity].
Defined.

(** ** Inheritance *)

Lemma tableAddAll_union (from to : gmap positive Value) : tableAddAll from to = from ∪ to.
Proof.
  unfold tableAddAll.
  apply (map_fold_weak_ind (fun r m => r = m ∪ to)).
  - by rewrite (left_id_L ∅ (∪)).
  - intros k x m r Hk ->. cbn. by rewrite insert_union_l.
Qed.

Lemma foldl_insert_union (defs : list (positive * Value)) (B A : gmap positive Value) :
  foldl (fun t d => <[d.1 := d.2]> t) (B ∪ A) defs
  = foldl (fun t d => <[d.1 := d.2]> t) B defs ∪ A.
Proof.
  revert B. induction defs as [|d defs IH]; intros B; [done|].
  cbn [foldl]. by rewrite insert_union_l, IH.
Qed.

Lemma foldl_insert_ownMethods defs (A : gmap positive Value) :
  foldl (fun t d => <[d.1 := d.2]> t) A defs = ownMethods defs ∪ A.
Proof.
  unfold ownMethods. rewrite <-foldl_insert_union. by rewrite (left_id_L ∅ (∪)).
Qed.

Lemma IS_CLASS_eq s v : liveValue s v -> IS_CLASS v s = Done (isClass (heap s) v) s.
Proof.
  destruct v as [| | |p]; try done. intros [o Ho]. cbn [IS_CLASS isClass].
  mdo (load_eq _ _ _ Ho). by rewrite Ho.
Qed.

Lemma defineMethod_eq s n m k c :
  index (stack s) (stackTop s - 1) = Some m ->
  index (stack s) (stackTop s - 2) = Some (OBJ_VAL k) ->
  heap s !! k = Some (OBJ_CLASS c) ->
  defineMethod n s =
  Done tt (set_stackTop (stackTop s - 1)
            (set_heap (<[k := OBJ_CLASS (mkClass (klass_name c) (<[n := m]> (methods c)))]>
                         (heap s)) s)).
Proof.
  intros Hm Hk Hc. unfold defineMethod.
  erewrite bind_Done; [|apply peek_eq; by rewrite Z.sub_0_r]. cbv beta.
  erewrite bind_Done;
    [|apply peek_eq; by replace (stackTop s - 1 - 1) with (stackTop s - 2) by lia].
  cbv beta. mstep. unfold setMethod.
  erewrite bind_Done; [|erewrite bind_Done; [reflexivity|by apply loadClass_eq]].
  erewrite bind_Done; [|by apply pop_eq]. done.
Qed.

Lemma defineMethods_eq defs : forall s sub c,
  index (stack s) (stackTop s - 1) = Some (OBJ_VAL sub) ->
  stackTop s < Z.of_nat (length (stack s)) ->
  heap s !! sub = Some (OBJ_CLASS c) ->
  exists s',
    defineMethods defs s = Done tt s' /\
    heap s' !! sub =
      Some (OBJ_CLASS (mkClass (klass_name c)
                         (foldl (fun t d => <[d.1 := d.2]> t) (methods c) defs))) /\
    (forall a, a ≠ sub -> heap s' !! a = heap s !! a) /\
    stackTop s' = stackTop s /\
    index (stack s') (stackTop s' - 1) = Some (OBJ_VAL sub).
Proof.
  induction defs as [|[n m] defs IH]; intros s sub c Hsub Htop Hc.
  - exists s. by destruct c.
  - pose proof (index_lt _ _ _ Hsub) as Hrange.
    set (s1 := pushed m s).
    assert (push m s = Done tt s1) as Hpush by (apply push_eq; lia).
    assert (index (stack s1) (stackTop s1 - 1) = Some m) as Hm.
    { unfold s1, pushed. vm_proj. replace (stackTop s + 1 - 1) with (stackTop s) by lia.
      apply index_insert_eq. lia. }
    assert (index (stack s1) (stackTop s1 - 2) = Some (OBJ_VAL sub)) as Hk.
    { unfold s1, pushed. vm_proj. replace (stackTop s + 1 - 2) with (stackTop s - 1) by lia.
      rewrite index_insert_ne by lia. done. }
    pose proof (defineMethod_eq s1 n m sub c Hm Hk Hc) as Hdef.
    set (s2 := set_stackTop _ _) in Hdef.
    destruct (IH s2 sub (mkClass (klass_name c) (<[n := m]> (methods c)))) as (s' & Hrun & Hh & Hfr & Ht & Hi).
    + unfold s2, s1, pushed. vm_proj. replace (stackTop s + 1 - 1 - 1) with (stackTop s - 1) by lia.
      rewrite index_insert_ne by lia. done.
    + unfold s2, s1, pushed. vm_proj. rewrite length_insert. lia.
    + unfold s2. vm_proj. apply lookup_insert_eq.
    + exists s'. cbn [defineMethods]. mdo Hpush. mdo Hdef. split; [done|].
      split; [done|]. split.
      * intros a Ha. rewrite (Hfr a Ha). unfold s2, s1, pushed. vm_proj.
        by rewrite lookup_insert_ne.
      * rewrite Ht. unfold s2, s1, pushed. vm_proj. split; [lia|].
        rewrite Ht in Hi. unfold s2, s1, pushed in Hi. vm_proj. exact Hi.
Qed.

Lemma instr_op_inherit_eq frame s vsup sub :
  index (stack s) (stackTop s - 2) = Some vsup ->
  index (stack s) (stackTop s - 1) = Some (OBJ_VAL sub) ->
  liveValue s vsup ->
  instr_op_inherit frame s =
  if isClass (heap s) vsup then
    (sup ← AS_OBJ vsup;
     from ← loadClass sup;
     to ← loadClass sub;
     storeObj sub
       (OBJ_CLASS (mkClass (klass_name to) (tableAddAll (methods from) (methods to))));;
     pop;;
     mret (Continue frame)) s
  else
    (runtimeError "Superclass must be a class.";;
     mret (Return INTERPRET_RUNTIME_ERROR)) s.
Proof.
  intros Hsup Hsub Hl. unfold instr_op_inherit.
  erewrite bind_Done;
    [|apply peek_eq; by replace (stackTop s - 1 - 1) with (stackTop s - 2) by lia].
  cbv beta. mdo (IS_CLASS_eq _ _ Hl). destruct (isClass (heap s) vsup); [|done].
  cbn [negb]. erewrite bind_Done; [|apply peek_eq; by rewrite Z.sub_0_r]. cbv beta.
  by mstep.
Qed.

(** C7: [OP_INHERIT] with a superclass value that is not a class is a runtime
    error.  Otherwise every entry of the method table of the superclass is
    copied into the table of the subclass and the subclass is popped, which
    leaves the superclass on top of the stack.  The [OP_METHOD]s of the class
    body run afterwards, so that the final table of the subclass is the union
    of the inherited and its own methods, its own definition winning where a
    name collides, and the table of the superclass is as it was. *)
Theorem inherit_copies_methods frame s vsup sub klass :
  index (stack s) (stackTop s - 2) = Some vsup ->
  index (stack s) (stackTop s - 1) = Some (OBJ_VAL sub) ->
  liveValue s vsup ->
  heap s !! sub = Some (OBJ_CLASS klass) ->
  (isClass (heap s) vsup = false ->
     instr_op_inherit frame s =
     (runtimeError "Superclass must be a class.";;
      mret (Return INTERPRET_RUNTIME_ERROR)) s) /\
  (forall sup super,
     vsup = OBJ_VAL sup ->
     heap s !! sup = Some (OBJ_CLASS super) ->
     exists s1,
       instr_op_inherit frame s = Done (Continue frame) s1 /\
       heap s1 !! sub =
         Some (OBJ_CLASS (mkClass (klass_name klass) (methods super ∪ methods klass))) /\
       (forall n m, methods super !! n = Some m ->
                    (methods super ∪ methods klass) !! n = Some m) /\
       stackTop s1 = stackTop s - 1 /\
       stack s1 = stack s /\
       index (stack s1) (stackTop s1 - 1) = Some (OBJ_VAL sup) /\
       (forall defs,
          sub ≠ sup ->
          methods klass = ∅ ->
          stackTop s < Z.of_nat (length (stack s)) ->
          exists s2,
            (push (OBJ_VAL sub);; defineMethods defs) s1 = Done tt s2 /\
            heap s2 !! sub =
              Some (OBJ_CLASS (mkClass (klass_name klass)
                                 (ownMethods defs ∪ methods super))) /\
            heap s2 !! sup = Some (OBJ_CLASS super))).
Proof.
  intros Hsup Hsub Hl Hklass.
  rewrite (instr_op_inherit_eq frame _ _ _ Hsup Hsub Hl). split; [by intros ->|].
  intros sup super -> Hsuper. cbn [isClass]. rewrite Hsuper.
  set (s1 := set_stackTop (stackTop s - 1)
    (set_heap (<[sub := OBJ_CLASS (mkClass (klass_name klass)
                                     (methods super ∪ methods klass))]> (heap s)) s)).
  exists s1. split; [|split; [|split; [|split; [|split; [|split]]]]].
  - mstep. mdo (loadClass_eq _ _ _ Hsuper). mdo (loadClass_eq _ _ _ Hklass).
    rewrite tableAddAll_union. mstep.
    erewrite bind_Done; [|by apply pop_eq]. done.
  - unfold s1. vm_proj. apply lookup_insert_eq.
  - intros n m Hn. by apply lookup_union_Some_l.
  - done.
  - done.
  - unfold s1. vm_proj. by replace (stackTop s - 1 - 1) with (stackTop s - 2) by lia.
  - intros defs Hne Hempty Htop.
    pose proof (index_lt _ _ _ Hsub) as Hrange.
    set (s1' := pushed (OBJ_VAL sub) s1).
    assert (push (OBJ_VAL sub) s1 = Done tt s1') as Hpush.
    { apply push_eq. unfold s1. vm_proj. lia. }
    destruct (defineMethods_eq defs s1' sub
      (mkClass (klass_name klass) (methods super ∪ methods klass)))
      as (s2 & Hrun & Hh & Hfr & _).
    + unfold s1', pushed, s1. vm_proj.
      replace (stackTop s - 1 + 1 - 1) with (stackTop s - 1) by lia.
      apply index_insert_eq. lia.
    + unfold s1', pushed, s1. vm_proj. rewrite length_insert. lia.
    + unfold s1', pushed, s1. vm_proj. apply lookup_insert_eq.
    + exists s2. mdo Hpush. split; [done|]. split.
      * rewrite Hh. cbn [klass_name methods].
        by rewrite foldl_insert_ownMethods, Hempty, (right_id_L ∅ (∪)).
      * rewrite Hfr by done. unfold s1', pushed, s1. vm_proj.
        by rewrite lookup_insert_ne.
Qed.

Lemma inherit_copies_methods_witness :
  exists s1 s2,
    instr_op_inherit 0 exInherit = Done (Continue 0) s1 /\
    index (stack s1) (stackTop s1 - 1) = Some (OBJ_VAL 9%positive) /\
    (push (OBJ_VAL 17%positive);; defineMethods [(4%positive, OBJ_VAL 14%positive)]) s1
      = Done tt s2 /\
    heap s2 !! 17%positive =
      Some (OBJ_CLASS (mkClass 18%positive
              (ownMethods [(4%positive, OBJ_VAL 14%positive)]
               ∪ {[ 4%positive := OBJ_VAL 6%positive ]}))) /\
    heap s2 !! 9%positive =
      Some (OBJ_CLASS (mkClass 10%positive {[ 4%positive := OBJ_VAL 6%positive ]})).
Proof.
  destruct (proj2 (inherit_copies_methods 0 exInherit (OBJ_VAL 9%positive) 17%positive
    (mkClass 18%positive ∅) eq_refl eq_refl
    (ex_intro _ (OBJ_CLASS (mkClass 10%positive {[ 4%positive := OBJ_VAL 6%positive ]})) eq_refl)
    eq_refl) 9%positive (mkClass 10%positive {[ 4%positive := OBJ_VAL 6%positive ]})
    eq_refl eq_refl) as (s1 & H1 & _ & _ & _ & _ & H3 & Hdefs).
  destruct (Hdefs [(4%positive, OBJ_VAL 14%positive)]) as (s2 & H4 & H5 & H6);
    [discriminate|reflexivity|vm_compute; reflexivity|].
  exists s1, s2. by repeat split.
Defined.

(** ** The open-upvalue list *)

Section open_list.
Implicit Types (h : gmap positive Obj) (l : list (positive * Z)).

Lemma openSeg_nil_inv h a b : openSeg h a b [] -> a = b.
Proof. by inversion 1. Qed.

Lemma openSeg_cons_inv h a b u k l :
  openSeg h a b ((u, k) :: l) ->
  a = Some u /\ exists c nx,
    h !! u = Some (OBJ_UPVALUE (mkUpvalue (StackSlot k) c nx)) /\ openSeg h nx b l.
Proof. inversion 1; subst. eauto. Qed.

Lemma openSeg_app h a b c l1 l2 :
  openSeg h a b l1 -> openSeg h b c l2 -> openSeg h a c (l1 ++ l2).
Proof. induction 1; intros; [done|]. cbn. econstructor; eauto. Qed.

Lemma openSeg_app_inv h a c l1 l2 :
  openSeg h a c (l1 ++ l2) -> exists b, openSeg h a b l1 /\ openSeg h b c l2.
Proof.
  revert a. induction l1 as [|[u k] l1 IH]; intros a H.
  - exists a. split; [constructor|done].
  - apply openSeg_cons_inv in H as (-> & c' & nx & Hu & H).
    destruct (IH _ H) as (b & H1 & H2). exists b. split; [|done]. econstructor; eauto.
Qed.

Lemma openSeg_elem_of h a b l u k :
  openSeg h a b l -> (u, k) ∈ l ->
  exists c nx, h !! u = Some (OBJ_UPVALUE (mkUpvalue (StackSlot k) c nx)).
Proof.
  induction 1 as [|u' k' c nx to l Hu _ IH]; intros Hin; [by apply elem_of_nil in Hin|].
  apply elem_of_cons in Hin as [[= -> ->]|Hin]; eauto.
Qed.

Lemma openSeg_dom h a b l u : openSeg h a b l -> u ∈ l.*1 -> is_Some (h !! u).
Proof.
  intros H ([u' k] & -> & Hin)%list_elem_of_fmap. cbn.
  destruct (openSeg_elem_of _ _ _ _ _ _ H Hin) as (c & nx & Hu). rewrite Hu. eauto.
Qed.

(** A node carries one slot, so strictly decreasing slots make the nodes
    pairwise distinct. *)
Lemma openSeg_NoDup h a b l : openSeg h a b l -> decreasing l -> NoDup l.*1.
Proof.
  induction 1 as [|u k c nx to l Hu Hseg IH]; intros Hdec; [constructor|].
  apply StronglySorted_cons in Hdec as [Hall Hdec]. cbn. constructor; [|by apply IH].
  intros ((u' & k') & Hfst & Hin)%list_elem_of_fmap. cbn in Hfst. subst u'.
  destruct (openSeg_elem_of _ _ _ _ _ _ Hseg Hin) as (c' & nx' & Hu').
  rewrite Forall_forall in Hall. specialize (Hall _ Hin). cbn in Hall.
  rewrite Hu in Hu'. injection Hu' as ? _ _. lia.
Qed.

Lemma decreasing_NoDup_slots l : decreasing l -> NoDup l.*2.
Proof.
  induction 1 as [|[u k] l _ IH Hall]; [constructor|]. cbn. constructor; [|done].
  intros ((u' & k') & Hsnd & Hin)%list_elem_of_fmap. cbn in Hsnd. subst k'.
  rewrite Forall_forall in Hall. specialize (Hall _ Hin). cbn in Hall. lia.
Qed.

(** Stores outside the nodes of a segment leave it in place. *)
Lemma openSeg_insert h a b l u o :
  openSeg h a b l -> u ∉ l.*1 -> openSeg (<[u := o]> h) a b l.
Proof.
  induction 1 as [|u' k c nx to l Hu _ IH]; intros Hnot; [constructor|].
  cbn in Hnot. apply not_elem_of_cons in Hnot as [Hne Hnot].
  econstructor; [|by apply IH]. by rewrite lookup_insert_ne.
Qed.

(** The split of a decreasing list around a slot. *)
Lemma decreasing_split l (local : Z) :
  decreasing l ->
  exists l1 l2, l = l1 ++ l2 /\
    Forall (fun p => p.2 > local) l1 /\ Forall (fun p => p.2 <= local) l2.
Proof.
  induction 1 as [|[u k] l _ IH Hall].
  - exists [], []. by repeat constructor.
  - destruct (decide (k > local)) as [Hgt|Hle].
    + destruct IH as (l1 & l2 & -> & H1 & H2).
      exists ((u, k) :: l1), l2. split; [done|]. split; [by constructor|done].
    + exists [], ((u, k) :: l). split; [done|]. split; [constructor|].
      constructor; [cbn; lia|]. eapply Forall_impl; [exact Hall|]. cbn. lia.
Qed.
End open_list.

(** ** [captureUpvalue] *)

Section capture.
Implicit Types (l : list (positive * Z)).
Variable local : Z.

Lemma lastNode_cons prev u k l1 : lastNode prev ((u, k) :: l1) = lastNode (Some u) l1.
Proof. unfold lastNode. rewrite last_cons. by destruct (last l1). Qed.

Lemma captureUpvalue_walk_eq l1 : forall fuel prev cur mid l2 s,
  openSeg (heap s) cur mid l1 ->
  openSeg (heap s) mid None l2 ->
  Forall (fun p => p.2 > local) l1 ->
  Forall (fun p => p.2 <= local) l2 ->
  (length l1 < fuel)%nat ->
  captureUpvalue_walk fuel local prev cur s = Done (lastNode prev l1, mid) s.
Proof.
  induction l1 as [|[u k] l1 IH]; intros fuel prev cur mid l2 s H1 H2 Hgt Hle Hfuel.
  - apply openSeg_nil_inv in H1 as ->. destruct fuel as [|fuel]; [cbn in Hfuel; lia|].
    cbn [captureUpvalue_walk]. destruct l2 as [|[u k] l2].
    + by apply openSeg_nil_inv in H2 as ->.
    + apply openSeg_cons_inv in H2 as (-> & c & nx & Hu & _).
      apply Forall_cons_1 in Hle as [Hk _]. cbn in Hk.
      mdo (loadUpvalue_eq _ _ _ Hu). cbn [location ptr_gt]. mstep.
      by rewrite bool_decide_false by lia.
  - apply openSeg_cons_inv in H1 as (-> & c & nx & Hu & H1).
    apply Forall_cons_1 in Hgt as [Hk Hgt]. cbn in Hk.
    destruct fuel as [|fuel]; [cbn in Hfuel; lia|]. cbn [captureUpvalue_walk].
    mdo (loadUpvalue_eq _ _ _ Hu). cbn [location ptr_gt next]. mstep.
    rewrite bool_decide_true by lia. rewrite lastNode_cons.
    eapply IH; eauto. cbn in Hfuel. lia.
Qed.

Lemma captureUpvalue_walk_short l1 : forall fuel prev cur mid s,
  openSeg (heap s) cur mid l1 ->
  Forall (fun p => p.2 > local) l1 ->
  (fuel <= length l1)%nat ->
  captureUpvalue_walk fuel local prev cur s = OutOfFuel.
Proof.
  induction l1 as [|[u k] l1 IH]; intros fuel prev cur mid s H1 Hgt Hfuel.
  - by replace fuel with 0%nat by (cbn in Hfuel; lia).
  - destruct fuel as [|fuel]; [done|].
    apply openSeg_cons_inv in H1 as (-> & c & nx & Hu & H1).
    apply Forall_cons_1 in Hgt as [Hk Hgt]. cbn in Hk. cbn [captureUpvalue_walk].
    mdo (loadUpvalue_eq _ _ _ Hu). cbn [location ptr_gt next]. mstep.
    rewrite bool_decide_true by lia. eapply IH; eauto. cbn in Hfuel. lia.
Qed.

(** The slot is already captured: the upvalue is shared. *)
Lemma captureUpvalue_found fuel s l1 u r :
  openList s (l1 ++ (u, local) :: r) ->
  decreasing (l1 ++ (u, local) :: r) ->
  (length l1 < fuel)%nat ->
  captureUpvalue fuel local s = Done u s.
Proof.
  intros Hl Hdec Hfuel. unfold openList in Hl.
  apply openSeg_app_inv in Hl as (mid & H1 & H2).
  apply StronglySorted_app in Hdec as (Hcross & _ & Hr).
  apply StronglySorted_cons in Hr as [Hr _].
  unfold captureUpvalue. mstep.
  erewrite bind_Done; [|eapply (captureUpvalue_walk_eq l1); eauto].
  - cbv beta iota. apply openSeg_cons_inv in H2 as (-> & c & nx & Hu & _).
    mdo (loadUpvalue_eq _ _ _ Hu). cbn [location ptr_eq]. mstep.
    by rewrite bool_decide_true.
  - apply Forall_forall. intros p Hp. apply (Hcross p (u, local)); [done|]. apply elem_of_cons. auto.
  - constructor; [cbn; lia|]. eapply Forall_impl; [exact Hr|]. cbn. lia.
Qed.

Lemma captureUpvalue_create_eq s l1 mid prev :
  (forall p, last l1 = Some p -> exists pu, heap s !! p.1 = Some (OBJ_UPVALUE pu)) ->
  (last l1 = None -> prev = None) ->
  captureUpvalue_create local (lastNode prev l1) mid s
  = Done (fresh (dom (heap s))) (afterCapture local l1 mid s).
Proof.
  intros Hlast Hprev. unfold captureUpvalue_create, newUpvalue, afterCapture, lastNode.
  mdo (allocateObject_eq (OBJ_UPVALUE (mkUpvalue (StackSlot local) NIL_VAL None)) s).
  erewrite bind_Done; [|apply loadUpvalue_eq; vm_proj; apply lookup_insert_eq].
  cbv beta. cbn [location closed]. mstep. rewrite insert_insert_eq.
  destruct (last l1) as [[p kp]|] eqn:El.
  - destruct (Hlast _ eq_refl) as (pu & Hp). cbn in Hp. rewrite Hp.
    assert (p ≠ fresh (dom (heap s))) as Hne.
    { intros ->. by rewrite fresh_heap in Hp. }
    erewrite bind_Done; [|erewrite bind_Done; [reflexivity|]].
    2:{ apply loadUpvalue_eq. vm_proj. by rewrite lookup_insert_ne. }
    done.
  - rewrite Hprev by done. by mstep.
Qed.

Lemma openSeg_relink h a l1 mid c :
  openSeg h a mid l1 ->
  NoDup l1.*1 ->
  c ∉ l1.*1 ->
  openSeg
    (match last l1 with
     | None => h
     | Some (p, kp) =>
         match h !! p with
         | Some (OBJ_UPVALUE pu) =>
             <[p := OBJ_UPVALUE (mkUpvalue (location pu) (closed pu) (Some c))]> h
         | _ => h
         end
     end)
    (match last l1 with None => a | Some _ => a end)
    (match last l1 with None => mid | Some _ => Some c end) l1.
Proof.
  induction 1 as [x|u k cl nx to l Hu Hseg IH]; intros Hnd Hc; [constructor|].
  cbn in Hnd, Hc. apply NoDup_cons in Hnd as [Hu_l Hnd].
  apply not_elem_of_cons in Hc as [Hcu Hc]. rewrite last_cons.
  destruct (last l) as [[p kp]|] eqn:El.
  - specialize (IH Hnd Hc).
    assert (p ∈ l.*1) as Hp.
    { apply list_elem_of_fmap. exists (p, kp). split; [done|]. by apply last_Some_elem_of. }
    assert (p ≠ u) as Hne by (intros ->; done).
    destruct (h !! p) as [[| | | | | | |pu]|] eqn:Hhp;
      try (econstructor; [exact Hu|exact IH]).
    econstructor; [|exact IH]. by rewrite lookup_insert_ne.
  - apply last_None in El as ->. apply openSeg_nil_inv in Hseg as ->.
    rewrite Hu. cbn [location closed]. econstructor; [apply lookup_insert_eq|constructor].
Qed.

(** The slot is not captured yet: a new upvalue is spliced in. *)
Lemma captureUpvalue_new fuel s l1 l2 :
  openList s (l1 ++ l2) ->
  decreasing (l1 ++ l2) ->
  Forall (fun p => p.2 > local) l1 ->
  Forall (fun p => p.2 < local) l2 ->
  (length l1 < fuel)%nat ->
  exists mid,
    captureUpvalue fuel local s = Done (fresh (dom (heap s))) (afterCapture local l1 mid s) /\
    openList (afterCapture local l1 mid s) (l1 ++ (fresh (dom (heap s)), local) :: l2) /\
    decreasing (l1 ++ (fresh (dom (heap s)), local) :: l2).
Proof.
  intros Hl Hdec Hgt Hlt Hfuel. unfold openList in Hl.
  pose proof (openSeg_NoDup _ _ _ _ Hl Hdec) as Hnd.
  pose proof (fun u => openSeg_dom _ _ _ _ u Hl) as Hdom.
  apply openSeg_app_inv in Hl as (mid & H1 & H2). exists mid.
  set (c := fresh (dom (heap s))).
  assert (c ∉ (l1 ++ l2).*1) as Hc.
  { intros [o Ho]%Hdom. unfold c in Ho. by rewrite fresh_heap in Ho. }
  rewrite fmap_app in Hc, Hnd. apply not_elem_of_app in Hc as [Hc1 Hc2].
  apply NoDup_app in Hnd as (Hnd1 & Hdisj & Hnd2).
  split; [|split].
  - unfold captureUpvalue. mstep.
    erewrite bind_Done; [|eapply (captureUpvalue_walk_eq l1); eauto].
    2:{ eapply Forall_impl; [exact Hlt|]. cbn. lia. }
    cbv beta iota.
    assert (captureUpvalue_create local (lastNode None l1) mid s
            = Done c (afterCapture local l1 mid s)) as Hcreate.
    { apply captureUpvalue_create_eq; [|done].
      intros [p kp] Hlast. apply last_Some_elem_of in Hlast.
      destruct (openSeg_elem_of _ _ _ _ _ _ H1 Hlast) as (cl & nx & Hp). eauto. }
    destruct mid as [u|]; [|done]. destruct l2 as [|[u' k'] l2].
    { by apply openSeg_nil_inv in H2. }
    apply openSeg_cons_inv in H2 as ([= <-] & cl & nx & Hu & _).
    apply Forall_cons_1 in Hlt as [Hk _]. cbn in Hk.
    mdo (loadUpvalue_eq _ _ _ Hu). cbn [location ptr_eq]. mstep.
    by rewrite bool_decide_false by lia.
  - unfold openList, afterCapture. fold c.
    set (h := <[c := OBJ_UPVALUE (mkUpvalue (StackSlot local) NIL_VAL mid)]> (heap s)).
    assert (openSeg h (openUpvalues s) mid l1) as H1' by (by apply openSeg_insert).
    assert (openSeg h mid None l2) as H2' by (by apply openSeg_insert).
    assert (h !! c = Some (OBJ_UPVALUE (mkUpvalue (StackSlot local) NIL_VAL mid))) as Hhc.
    { apply lookup_insert_eq. }
    pose proof (openSeg_relink _ _ _ _ c H1' Hnd1 Hc1) as Hre.
    destruct (last l1) as [[p kp]|] eqn:El.
    + assert ((p, kp) ∈ l1) as Hp by (by apply last_Some_elem_of).
      destruct (openSeg_elem_of _ _ _ _ _ _ H1 Hp) as (cl & nx & Hhp).
      assert (p ≠ c) as Hne. { intros ->. unfold c in Hhp. by rewrite fresh_heap in Hhp. }
      assert (h !! p = Some (OBJ_UPVALUE (mkUpvalue (StackSlot kp) cl nx))) as Hhp'.
      { unfold h. by rewrite lookup_insert_ne. }
      rewrite Hhp' in Hre. rewrite Hhp. vm_proj. cbn [location closed] in *.
      eapply openSeg_app; [exact Hre|].
      assert (p ∉ l2.*1) as Hp2.
      { intros Hin. apply (Hdisj p); [|done].
        apply list_elem_of_fmap. by exists (p, kp). }
      econstructor; [by rewrite lookup_insert_ne|]. by apply openSeg_insert.
    + apply last_None in El as ->. vm_proj.
      cbn [app]. econstructor; [exact Hhc|done].
  - apply StronglySorted_app in Hdec as (Hcross & Hd1 & Hd2).
    apply StronglySorted_app. split; [|split; [done|]].
    + intros p q Hp [->|Hq]%elem_of_cons.
      * rewrite Forall_forall in Hgt. by apply Hgt.
      * by apply Hcross.
    + apply StronglySorted_cons. split; [|done].
      eapply Forall_impl; [exact Hlt|]. cbn. lia.
Qed.
End capture.

(** ** [closeUpvalues] *)

Lemma set_heap_openUpvalues_same s :
  s = set_openUpvalues (openUpvalues s) (set_heap (heap s) s).
Proof. by destruct s. Qed.

Lemma closeUpvalues_eq last l1 : forall fuel l2 s,
  openList s (l1 ++ l2) ->
  NoDup (l1 ++ l2).*1 ->
  Forall (fun p => p.2 >= last) l1 ->
  Forall (fun p => p.2 < last) l2 ->
  Forall (fun p => is_Some (index (stack s) p.2)) l1 ->
  (length l1 < fuel)%nat ->
  exists s',
    closeUpvalues fuel last s = Done tt s' /\
    openList s' l2 /\
    s' = set_openUpvalues (openUpvalues s') (set_heap (heap s') s) /\
    Forall (closedAt s s') l1 /\
    (forall a, a ∉ l1.*1 -> heap s' !! a = heap s !! a).
Proof.
  induction l1 as [|[u k] l1 IH]; intros fuel l2 s Hl Hnd Hge Hlt Hin Hfuel.
  - destruct fuel as [|fuel]; [cbn in Hfuel; lia|]. exists s.
    split; [|split; [done|split; [apply set_heap_openUpvalues_same|by split]]].
    cbn [closeUpvalues]. mstep. unfold openList in Hl. cbn [app] in Hl.
    destruct l2 as [|[u k] l2].
    + by apply openSeg_nil_inv in Hl as ->.
    + apply openSeg_cons_inv in Hl as (-> & c & nx & Hu & _).
      apply Forall_cons_1 in Hlt as [Hk _]. cbn in Hk.
      mdo (loadUpvalue_eq _ _ _ Hu). cbn [location ptr_ge]. mstep.
      by rewrite bool_decide_false by lia.
  - destruct fuel as [|fuel]; [cbn in Hfuel; lia|].
    unfold openList in Hl. cbn [app] in Hl.
    apply openSeg_cons_inv in Hl as (Hhead & c & nx & Hu & Hl).
    apply Forall_cons_1 in Hge as [Hk Hge]. cbn in Hk.
    apply Forall_cons_1 in Hin as [[v Hv] Hin]. cbn in Hv.
    cbn in Hnd. apply NoDup_cons in Hnd as [Hu_l Hnd].
    set (s1 := set_openUpvalues nx
      (set_heap (<[u := OBJ_UPVALUE (mkUpvalue (ClosedField u) v nx)]> (heap s)) s)).
    destruct (IH fuel l2 s1) as (s' & Hrun & Hl' & Hs' & Hcl & Hfr);
      [ | done | done | done | done | cbn in Hfuel; lia | ].
    { unfold openList, s1. vm_proj. by apply openSeg_insert. }
    exists s'. split; [|split; [done|split; [|split]]].
    + cbn [closeUpvalues]. mstep. rewrite Hhead.
      mdo (loadUpvalue_eq _ _ _ Hu). cbn [location ptr_ge next]. mstep.
      rewrite bool_decide_true by lia. cbn [deref].
      mdo (stack_get_eq _ _ _ Hv). mstep. mstep. mstep.
      rewrite insert_insert_eq. exact Hrun.
    + rewrite Hs' at 1. done.
    + constructor.
      * exists v, nx. split; [done|]. cbn. rewrite Hfr.
        -- unfold s1. vm_proj. apply lookup_insert_eq.
        -- rewrite fmap_app in Hu_l. by apply not_elem_of_app in Hu_l as [? _].
      * done.
    + intros a Ha. cbn in Ha. apply not_elem_of_cons in Ha as [Hne Ha].
      rewrite (Hfr a Ha). unfold s1. vm_proj. by rewrite lookup_insert_ne.
Qed.

(** ** Every instruction keeps the open-upvalue list sorted *)

Create HintDb pres discriminated.

Lemma openSeg_stable h h' a b l :
  (forall u k c nx,
     h !! u = Some (OBJ_UPVALUE (mkUpvalue (StackSlot k) c nx)) ->
     exists c', h' !! u = Some (OBJ_UPVALUE (mkUpvalue (StackSlot k) c' nx))) ->
  openSeg h a b l -> openSeg h' a b l.
Proof.
  intros Hst. induction 1 as [|u k c nx to l Hu _ IH]; [constructor|].
  destruct (Hst _ _ _ _ Hu) as [c' Hu']. econstructor; eauto.
Qed.

Lemma upvalues_stable_sorted s s' :
  upvalues_stable s s' -> openUpvalues_sorted s -> openUpvalues_sorted s'.
Proof.
  intros [Hhead Hst] (l & Hl & Hdec). exists l. split; [|done].
  unfold openList in *. rewrite Hhead. by eapply openSeg_stable.
Qed.

Lemma upvalues_stable_same s s' :
  heap s' = heap s -> openUpvalues s' = openUpvalues s -> upvalues_stable s s'.
Proof. intros Hh Ho. split; [done|]. rewrite Hh. eauto. Qed.

Lemma upvalues_stable_store s a o :
  match heap s !! a with Some (OBJ_UPVALUE _) => False | _ => True end ->
  upvalues_stable s (set_heap (<[a := o]> (heap s)) s).
Proof.
  intros Ha. split; [done|]. intros u k c nx Hu. exists c. vm_proj.
  rewrite lookup_insert_ne; [done|]. intros ->. by rewrite Hu in Ha.
Qed.

Section preserves.
Context {A B : Type}.

Lemma preserves_ret (a : A) : preserves (mret a).
Proof. intros s a' s' Hs [= <- <-]. done. Qed.

Lemma preserves_bind (m : M A) (f : A -> M B) :
  preserves m -> (forall a, preserves (f a)) -> preserves (m ≫= f).
Proof.
  intros Hm Hf s b s' Hs (a & s1 & H1 & H2)%bind_inv. eapply Hf; [|exact H2]. eauto.
Qed.

Lemma preserves_gets (f : VM -> A) : preserves (gets f).
Proof. intros s a s' Hs [= <- <-]. done. Qed.

Lemma preserves_lift (o : option A) : preserves (lift o).
Proof. intros s a s' Hs [_ ->]%lift_inv. done. Qed.

Lemma preserves_undefined : preserves (undefined (A:=A)).
Proof. intros s a s' _ [=]. Qed.

Lemma preserves_out_of_fuel : preserves (out_of_fuel (A:=A)).
Proof. intros s a s' _ [=]. Qed.
End preserves.

Lemma preserves_modify (f : VM -> VM) :
  (forall s, heap (f s) = heap s /\ openUpvalues (f s) = openUpvalues s) ->
  preserves (modify f).
Proof.
  intros Hf s a s' Hs [= _ <-]. destruct (Hf s).
  eapply upvalues_stable_sorted; [|exact Hs]. by apply upvalues_stable_same.
Qed.

#[local] Hint Resolve preserves_ret preserves_gets preserves_lift preserves_undefined
  preserves_out_of_fuel : pres.

Ltac head_of t := lazymatch t with ?f _ => head_of f | _ => t end.

(** Structural descent through a computation, down to the store sites. *)
Ltac pres :=
  lazymatch goal with
  | |- preserves (_ ≫= _) => apply preserves_bind; [pres | intros; pres]
  | |- preserves (if ?b then _ else _) => destruct b; pres
  | |- preserves (match ?x with _ => _ end) => destruct x; pres
  | |- preserves (modify _) => apply preserves_modify; intros; split; reflexivity
  | |- preserves ?m =>
      first [ solve [auto with pres]
            | let h := head_of m in progress unfold h; pres ]
  end.

Lemma preserves_resetStack : preserves resetStack.
Proof.
  intros s a s' _ [= _ <-]. exists []. split; [constructor|constructor].
Qed.
#[local] Hint Resolve preserves_resetStack : pres.

Lemma preserves_allocateObject o : preserves (allocateObject o).
Proof.
  intros s a s' Hs [= _ <-]. eapply upvalues_stable_sorted; [|exact Hs].
  apply upvalues_stable_store. by rewrite fresh_heap.
Qed.
#[local] Hint Resolve preserves_allocateObject : pres.

Lemma preserves_setMethod k n m : preserves (setMethod k n m).
Proof.
  intros s a s' Hs (c & s1 & (o & s0 & Ho & Hc)%bind_inv & Hst)%bind_inv.
  apply bind_inv in Ho as (h & ? & [= <- <-] & [Hk ->]%lift_inv).
  destruct o; try done. injection Hc as <- <-. injection Hst as _ <-.
  eapply upvalues_stable_sorted; [|exact Hs]. apply upvalues_stable_store. by rewrite Hk.
Qed.

Lemma preserves_setField i n x : preserves (setField i n x).
Proof.
  intros s a s' Hs (c & s1 & (o & s0 & Ho & Hc)%bind_inv & Hst)%bind_inv.
  apply bind_inv in Ho as (h & ? & [= <- <-] & [Hk ->]%lift_inv).
  destruct o; try done. injection Hc as <- <-. injection Hst as _ <-.
  eapply upvalues_stable_sorted; [|exact Hs]. apply upvalues_stable_store. by rewrite Hk.
Qed.

Lemma preserves_setUpvalue cl i up : preserves (setUpvalue cl i up).
Proof.
  intros s a s' Hs (c & s1 & (o & s0 & Ho & Hc)%bind_inv & Hst)%bind_inv.
  apply bind_inv in Ho as (h & ? & [= <- <-] & [Hk ->]%lift_inv).
  destruct o; try done. injection Hc as <- <-.
  apply bind_inv in Hst as (ups & ? & [_ ->]%lift_inv & [= _ <-]).
  eapply upvalues_stable_sorted; [|exact Hs]. apply upvalues_stable_store. by rewrite Hk.
Qed.

Lemma preserves_assign p x : preserves (assign p x).
Proof.
  destruct p as [i|u]; cbn [assign]; [pres|].
  intros s a s' Hs (c & s1 & (o & s0 & Ho & Hc)%bind_inv & Hst)%bind_inv.
  apply bind_inv in Ho as (h & ? & [= <- <-] & [Hk ->]%lift_inv).
  destruct o; try done. injection Hc as <- <-. injection Hst as _ <-.
  eapply upvalues_stable_sorted; [|exact Hs]. split; [done|].
  intros u' k c' nx Hu'. vm_proj. destruct (decide (u = u')) as [<-|Hne].
  - rewrite Hk in Hu'. injection Hu' as ->. cbn. rewrite lookup_insert_eq. eauto.
  - rewrite lookup_insert_ne by done. eauto.
Qed.
#[local] Hint Resolve preserves_setMethod preserves_setField preserves_setUpvalue
  preserves_assign : pres.

Lemma preserves_loadClass_store {A} a (g : ObjClass -> ObjClass) (k : M A) :
  preserves k ->
  preserves (loadClass a ≫= fun to => storeObj a (OBJ_CLASS (g to)) ≫= fun _ => k).
Proof.
  intros Hk s r s' Hs (c & s1 & (o & s0 & Ho & Hc)%bind_inv & Hst)%bind_inv.
  apply bind_inv in Ho as (h & ? & [= <- <-] & [Ha ->]%lift_inv).
  destruct o; try done. injection Hc as <- <-.
  apply bind_inv in Hst as ([] & s2 & [= <-] & Hrun).
  eapply Hk; [|exact Hrun]. eapply upvalues_stable_sorted; [|exact Hs].
  apply upvalues_stable_store. by rewrite Ha.
Qed.

Lemma preserves_traceFrames n : preserves (traceFrames n).
Proof. induction n; cbn [traceFrames]; pres. Qed.
#[local] Hint Resolve preserves_traceFrames : pres.

Lemma preserves_runtimeError msg : preserves (runtimeError msg).
Proof. pres. Qed.
#[local] Hint Resolve preserves_runtimeError : pres.

Lemma preserves_push x : preserves (push x).
Proof. pres. Qed.
Lemma preserves_pop : preserves pop.
Proof. pres. Qed.
Lemma preserves_peek d : preserves (peek d).
Proof. pres. Qed.
Lemma preserves_load a : preserves (load a).
Proof. pres. Qed.
#[local] Hint Resolve preserves_push preserves_pop preserves_peek preserves_load : pres.

Lemma preserves_call cl argCount : preserves (call cl argCount).
Proof. pres. Qed.
#[local] Hint Resolve preserves_call : pres.

Lemma preserves_callValue callee argCount : preserves (callValue callee argCount).
Proof. pres. Qed.
#[local] Hint Resolve preserves_callValue : pres.

Lemma preserves_invokeFromClass k n argCount : preserves (invokeFromClass k n argCount).
Proof. pres. Qed.
Lemma preserves_invoke n argCount : preserves (invoke n argCount).
Proof. pres. Qed.
Lemma preserves_bindMethod k n : preserves (bindMethod k n).
Proof. pres. Qed.
Lemma preserves_defineMethod n : preserves (defineMethod n).
Proof. pres. Qed.
Lemma preserves_concatenate : preserves concatenate.
Proof. pres. Qed.
#[local] Hint Resolve preserves_invokeFromClass preserves_invoke preserves_bindMethod
  preserves_defineMethod preserves_concatenate : pres.

Lemma preserves_READ_BYTE frame : preserves (READ_BYTE frame).
Proof. pres. Qed.
Lemma preserves_READ_CONSTANT frame : preserves (READ_CONSTANT frame).
Proof. pres. Qed.
Lemma preserves_READ_SHORT frame : preserves (READ_SHORT frame).
Proof. pres. Qed.
Lemma preserves_READ_STRING frame : preserves (READ_STRING frame).
Proof. pres. Qed.
#[local] Hint Resolve preserves_READ_BYTE preserves_READ_CONSTANT preserves_READ_SHORT
  preserves_READ_STRING : pres.

Lemma preserves_BINARY_OP valueType k : preserves k -> preserves (BINARY_OP valueType k).
Proof. intros Hk. pres. Qed.

Lemma loadUpvalue_inv a s x s' :
  loadUpvalue a s = Done x s' -> s' = s /\ heap s !! a = Some (OBJ_UPVALUE x).
Proof.
  intros (o & s0 & Ho & Hx)%bind_inv.
  apply bind_inv in Ho as (h & ? & [= <- <-] & [Ha ->]%lift_inv).
  destruct o; try done. by injection Hx as <- <-.
Qed.

Lemma ptr_ge_inv p q s b s' :
  ptr_ge p q s = Done b s' -> s' = s /\ exists k, p = StackSlot k /\ b = bool_decide (k >= q).
Proof. destruct p; [|done]. intros [= <- <-]. eauto. Qed.

Lemma deref_inv p s x s' : deref p s = Done x s' -> s' = s.
Proof.
  destruct p as [i|u]; cbn [deref].
  - intros (st & ? & [= <- <-] & [_ ->]%lift_inv)%bind_inv. done.
  - intros (uv & s1 & [-> _]%loadUpvalue_inv & [= _ <-])%bind_inv. done.
Qed.

Lemma preserves_closeUpvalues fuel last : preserves (closeUpvalues fuel last).
Proof.
  induction fuel as [|fuel IH]; [intros s a s' _ [=]|].
  intros s a s' Hs H. cbn [closeUpvalues] in H.
  apply bind_inv in H as (head & s0 & [= <- <-] & H).
  destruct (openUpvalues s) as [u|] eqn:Hhead; [|by injection H as _ <-].
  apply bind_inv in H as (uv & s1 & [-> Hu]%loadUpvalue_inv & H).
  apply bind_inv in H as (b & s1 & [-> (k & Hloc & ->)]%ptr_ge_inv & H).
  case_bool_decide; [|by injection H as _ <-].
  apply bind_inv in H as (x & s1 & ->%deref_inv & H).
  apply bind_inv in H as ([] & s1 & [= <-] & H).
  apply bind_inv in H as ([] & s1 & [= <-] & H).
  apply bind_inv in H as ([] & s1 & [= <-] & H).
  vm_proj. eapply IH; [|exact H].
  destruct Hs as (l & Hl & Hdec). unfold openList in Hl. rewrite Hhead in Hl.
  pose proof (openSeg_NoDup _ _ _ _ Hl Hdec) as Hnd.
  destruct l as [|[u' k'] l]; [by apply openSeg_nil_inv in Hl|].
  apply openSeg_cons_inv in Hl as ([= <-] & c & nx & Hu' & Hl).
  rewrite Hu in Hu'. injection Hu' as ->. cbn [next] in *.
  apply StronglySorted_cons in Hdec as [_ Hdec].
  cbn in Hnd. apply NoDup_cons in Hnd as [Hnot _].
  exists l. split; [|done]. unfold openList. vm_proj.
  rewrite insert_insert_eq. by apply openSeg_insert.
Qed.

Lemma decreasing_below_head (u : positive) (k local : Z) l :
  decreasing ((u, k) :: l) -> k < local -> Forall (fun p => p.2 < local) ((u, k) :: l).
Proof.
  intros [Hall _]%StronglySorted_cons Hk. constructor; [done|].
  eapply Forall_impl; [exact Hall|]. cbn. lia.
Qed.

Lemma preserves_captureUpvalue fuel local : preserves (captureUpvalue fuel local).
Proof.
  intros s a s' (l & Hl & Hdec) H.
  destruct (decreasing_split l local Hdec) as (l1 & l2 & -> & Hgt & Hle).
  destruct (decide (length l1 < fuel)%nat) as [Hfuel|Hfuel].
  - assert (Forall (fun p => p.2 < local) l2 \/ exists u r, l2 = (u, local) :: r) as [Hlt|(u & r & ->)].
    { destruct l2 as [|[u k] r]; [by left|].
      apply Forall_cons_1 in Hle as [Hk _]. cbn in Hk.
      destruct (decide (k = local)) as [->|Hne]; [right; eauto|left].
      apply (decreasing_below_head u k); [|lia].
      by apply StronglySorted_app in Hdec as (_ & _ & ?). }
    + destruct (captureUpvalue_new local fuel s l1 l2 Hl Hdec Hgt Hlt Hfuel)
        as (mid & Hrun & Hl' & Hdec').
      rewrite Hrun in H. injection H as _ <-. eexists. eauto.
    + rewrite (captureUpvalue_found local fuel s l1 u r Hl Hdec Hfuel) in H.
      injection H as _ <-. eexists. eauto.
  - exfalso. unfold openList in Hl. apply openSeg_app_inv in Hl as (mid & H1 & _).
    unfold captureUpvalue in H. apply bind_inv in H as (head & s0 & [= <- <-] & H).
    rewrite bind_unfold in H.
    rewrite (captureUpvalue_walk_short local l1 fuel None _ mid s H1 Hgt) in H by lia.
    done.
Qed.
#[local] Hint Resolve preserves_closeUpvalues preserves_captureUpvalue : pres.

Lemma preserves_instr_op_closure_loop fuel frame n : forall cl i,
  preserves (instr_op_closure_loop fuel frame n cl i).
Proof. induction n as [|n IH]; intros cl i; cbn [instr_op_closure_loop]; pres. Qed.
#[local] Hint Resolve preserves_instr_op_closure_loop : pres.

Lemma preserves_instr_op_inherit frame : preserves (instr_op_inherit frame).
Proof.
  unfold instr_op_inherit.
  apply preserves_bind; [pres|intros superclass].
  apply preserves_bind; [pres|intros isClass].
  destruct (negb isClass); [pres|].
  apply preserves_bind; [pres|intros v0].
  apply preserves_bind; [pres|intros subclass].
  apply preserves_bind; [pres|intros sup].
  apply preserves_bind; [pres|intros from].
  apply (preserves_loadClass_store subclass
    (fun to => mkClass (klass_name to) (tableAddAll (methods from) (methods to)))).
  pres.
Qed.

#[local] Hint Extern 1 (preserves (BINARY_OP _ _)) =>
  apply preserves_BINARY_OP; pres : pres.
#[local] Hint Resolve preserves_instr_op_inherit : pres.

Lemma preserves_dispatchTable fuel frame : Forall preserves (dispatchTable fuel frame).
Proof.
  unfold dispatchTable.
  repeat (apply Forall_cons_2; [pres|]).
  constructor.
Qed.

Lemma preserves_PRINT_TRACE frame : preserves (PRINT_TRACE frame).
Proof. intros s a s' Hs [-> _]%PRINT_TRACE_inv. exact Hs. Qed.

Lemma preserves_DISPATCH fuel frame : preserves (DISPATCH fuel frame).
Proof.
  unfold DISPATCH. apply preserves_bind; [apply preserves_PRINT_TRACE|intros _].
  apply preserves_bind; [pres|intros op].
  intros s a s' Hs (handler & s1 & [Hh ->]%lift_inv & H)%bind_inv.
  apply index_Some in Hh as [_ Hh%list_elem_of_lookup_2].
  pose proof (preserves_dispatchTable fuel frame) as Hall.
  rewrite Forall_forall in Hall. by eapply (Hall handler Hh).
Qed.

Lemma preserves_run_from fuel steps : forall frame, preserves (run_from steps fuel frame).
Proof.
  induction steps as [|steps IH]; intros frame; cbn [run_from]; [pres|].
  apply preserves_bind; [apply preserves_DISPATCH|]. intros [frame'|r]; [apply IH|pres].
Qed.

(** ** The invariant of the open-upvalue list *)

Lemma stack_afterCapture local l1 mid s : stack (afterCapture local l1 mid s) = stack s.
Proof.
  unfold afterCapture. destruct (last l1) as [[p kp]|]; [|done].
  by destruct (heap s !! p) as [[]|].
Qed.

Lemma stackTop_afterCapture local l1 mid s :
  stackTop (afterCapture local l1 mid s) = stackTop s.
Proof.
  unfold afterCapture. destruct (last l1) as [[p kp]|]; [|done].
  by destruct (heap s !! p) as [[]|].
Qed.

(** C2: the open-upvalue list is sorted by strictly decreasing stack slot, so
    that no two of its nodes refer to one slot: the invariant holds for the
    empty list that [resetStack] leaves and every instruction keeps it.
    [captureUpvalue] keeps it: when the list has an upvalue for the slot,
    that upvalue is returned and the machine is unchanged (closures that
    capture one live slot share one upvalue); otherwise a new open upvalue at
    an unused address is linked in behind the nodes of higher slots and in
    front of those of lower slots. *)
Theorem open_upvalues_stay_sorted s l fuel local :
  openList s l ->
  decreasing l ->
  (length l < fuel)%nat ->
  NoDup l.*2 /\ NoDup l.*1 /\
  (forall u, (u, local) ∈ l -> captureUpvalue fuel local s = Done u s) /\
  (local ∉ l.*2 ->
     exists l1 l2 s',
       l = l1 ++ l2 /\
       Forall (fun p => p.2 > local) l1 /\ Forall (fun p => p.2 < local) l2 /\
       heap s !! fresh (dom (heap s)) = None /\
       captureUpvalue fuel local s = Done (fresh (dom (heap s))) s' /\
       openList s' (l1 ++ (fresh (dom (heap s)), local) :: l2) /\
       decreasing (l1 ++ (fresh (dom (heap s)), local) :: l2) /\
       stack s' = stack s /\ stackTop s' = stackTop s) /\
  (forall r s', captureUpvalue fuel local s = Done r s' -> openUpvalues_sorted s') /\
  (forall s0 s1, resetStack s0 = Done tt s1 -> openUpvalues_sorted s1) /\
  (forall f frame next s', DISPATCH f frame s = Done next s' -> openUpvalues_sorted s') /\
  (forall steps f frame r s',
     run_from steps f frame s = Done r s' -> openUpvalues_sorted s').
Proof.
  intros Hl Hdec Hfuel.
  assert (openUpvalues_sorted s) as Hs by (exists l; done).
  split; [by apply decreasing_NoDup_slots|].
  split; [by eapply openSeg_NoDup|].
  split; [|split; [|split; [|split; [|split]]]].
  - intros u (l1 & r & ->)%list_elem_of_split.
    eapply captureUpvalue_found; eauto. rewrite length_app in Hfuel. lia.
  - intros Hnot. destruct (decreasing_split l local Hdec) as (l1 & l2 & -> & Hgt & Hle).
    assert (Forall (fun p => p.2 < local) l2) as Hlt.
    { apply Forall_forall. intros [u k] Hin. rewrite Forall_forall in Hle.
      specialize (Hle _ Hin). cbn in *.
      assert (k ≠ local); [|lia]. intros ->. apply Hnot.
      apply list_elem_of_fmap. exists (u, local). split; [done|].
      apply elem_of_app. by right. }
    destruct (captureUpvalue_new local fuel s l1 l2 Hl Hdec Hgt Hlt)
      as (mid & Hrun & Hl' & Hdec').
    { rewrite length_app in Hfuel. lia. }
    exists l1, l2, (afterCapture local l1 mid s).
    split; [done|]. split; [done|]. split; [done|]. split; [apply fresh_heap|].
    split; [done|]. split; [done|]. split; [done|].
    by rewrite stack_afterCapture, stackTop_afterCapture.
  - intros r s'. by apply preserves_captureUpvalue.
  - intros s0 s1 [= <-]. exists []. split; constructor.
  - intros f frame next s'. by apply preserves_DISPATCH.
  - intros steps f frame r s'. by apply preserves_run_from.
Qed.

Lemma open_upvalues_stay_sorted_witness :
  exists l1 l2 s',
    [(19%positive, 3); (15%positive, 1)] = l1 ++ l2 /\
    Forall (fun p => p.2 > 2) l1 /\ Forall (fun p => p.2 < 2) l2 /\
    heap exOpen !! fresh (dom (heap exOpen)) = None /\
    captureUpvalue 3 2 exOpen = Done (fresh (dom (heap exOpen))) s' /\
    openList s' (l1 ++ (fresh (dom (heap exOpen)), 2) :: l2) /\
    decreasing (l1 ++ (fresh (dom (heap exOpen)), 2) :: l2) /\
    stack s' = stack exOpen /\ stackTop s' = stackTop exOpen.
Proof.
  refine (proj1 (proj2 (proj2 (proj2
    (open_upvalues_stay_sorted exOpen [(19%positive, 3); (15%positive, 1)] 3 2 _ _ _)))) _).
  - unfold openList. econstructor; [vm_compute; reflexivity|].
    econstructor; [vm_compute; reflexivity|]. constructor.
  - repeat constructor.
  - cbn. lia.
  - cbn. intros [?|[?|?%elem_of_nil]%elem_of_cons]%elem_of_cons; done.
Defined.

(** ** [OP_RETURN] *)

Lemma closeUpvalues_closedFrom fuel base s l :
  openList s l ->
  decreasing l ->
  (length l < fuel)%nat ->
  (forall p, p ∈ l -> p.2 >= base -> is_Some (index (stack s) p.2)) ->
  exists h1 o1,
    closeUpvalues fuel base s = Done tt (set_openUpvalues o1 (set_heap h1 s)) /\
    closedFrom base l s (set_openUpvalues o1 (set_heap h1 s)).
Proof.
  intros Hl Hdec Hfuel Hin.
  pose proof (openSeg_NoDup _ _ _ _ Hl Hdec) as Hnd.
  destruct (decreasing_split l (base - 1) Hdec) as (l1 & l2 & -> & Hgt & Hle).
  destruct (closeUpvalues_eq base l1 fuel l2 s Hl Hnd) as (s' & Hrun & Hl' & Hs' & Hcl & Hfr).
  { eapply Forall_impl; [exact Hgt|]. cbn. lia. }
  { eapply Forall_impl; [exact Hle|]. cbn. lia. }
  { apply Forall_forall. intros p Hp. apply Hin; [apply elem_of_app; by left|].
    rewrite Forall_forall in Hgt. specialize (Hgt _ Hp). cbn in Hgt. lia. }
  { rewrite length_app in Hfuel. lia. }
  rewrite Forall_forall in Hgt, Hle, Hcl.
  exists (heap s'), (openUpvalues s'). rewrite <-Hs'. split; [done|]. split; [|split].
  - intros p [Hp|Hp]%elem_of_app Hge; [by apply Hcl|].
    specialize (Hle _ Hp). cbn in Hle. lia.
  - exists l2. split; [done|]. split; [by apply StronglySorted_app in Hdec as (_ & _ & ?)|].
    intros p. split.
    + intros Hp. split; [apply elem_of_app; by right|]. specialize (Hle _ Hp). cbn in Hle. lia.
    + intros [[Hp|Hp]%elem_of_app Hlt]; [|done]. specialize (Hgt _ Hp). cbn in Hgt. lia.
  - intros a Ha. apply Hfr. intros ([a' k] & -> & Hp)%list_elem_of_fmap. cbn in Ha.
    specialize (Ha k (proj2 (elem_of_app _ _ _) (or_introl Hp))).
    specialize (Hgt _ Hp). cbn in Hgt. lia.
Qed.

Lemma closedFrom_ext base l s0 s1 s s' :
  stack s = stack s0 -> heap s = heap s0 ->
  heap s' = heap s1 -> openUpvalues s' = openUpvalues s1 ->
  closedFrom base l s0 s1 -> closedFrom base l s s'.
Proof.
  unfold closedFrom, closedAt, openList. by intros -> -> -> ->.
Qed.

(** C1: [OP_RETURN] closes every open upvalue whose stack slot is at or above
    the base slot of the returning frame: the value of the slot moves into the
    [closed] field of the upvalue and [location] is redirected to that field;
    the upvalues below the base stay open.  The frame is popped; when no frame
    remains the top value is discarded and the interpreter halts with
    [INTERPRET_OK], otherwise [stackTop] is reset to the base of the frame and
    the result is pushed.  Consequently, reading a variable captured from the
    returned frame through any closure that holds its upvalue yields the value
    the slot held when the frame was popped, for as long as the upvalue object
    is as the return left it. *)
Theorem return_closes_upvalues fuel frame s fr result l :
  index (frames s) frame = Some fr ->
  index (stack s) (stackTop s - 1) = Some result ->
  openList s l ->
  decreasing l ->
  (length l < fuel)%nat ->
  (forall p, p ∈ l -> p.2 >= slots fr -> is_Some (index (stack s) p.2)) ->
  (frameCount s - 1 = 0 ->
   is_Some (index (stack s) (stackTop s - 2)) ->
   exists s',
     instr_op_return fuel frame s = Done (Return INTERPRET_OK) s' /\
     closedFrom (slots fr) l s s' /\
     frameCount s' = 0 /\
     stackTop s' = stackTop s - 2 /\ stack s' = stack s) /\
  (frameCount s - 1 ≠ 0 ->
   0 <= slots fr < Z.of_nat (length (stack s)) ->
   exists s',
     instr_op_return fuel frame s = Done (Continue (frameCount s - 2)) s' /\
     closedFrom (slots fr) l s s' /\
     frameCount s' = frameCount s - 1 /\
     stackTop s' = slots fr + 1 /\
     stack s' = <[Z.to_nat (slots fr) := result]> (stack s)) /\
  (forall s' u k x,
     closedFrom (slots fr) l s s' ->
     (u, k) ∈ l -> k >= slots fr ->
     index (stack s) k = Some x ->
     target s' (ClosedField u) = Some x /\
     forall t reader slot fr' cl,
       heap t !! u = heap s' !! u ->
       codeAt t reader 0 = Some slot ->
       index (frames t) reader = Some fr' ->
       heap t !! closure fr' = Some (OBJ_CLOSURE cl) ->
       index (upvalues cl) slot = Some (Some u) ->
       0 <= stackTop t < Z.of_nat (length (stack t)) ->
       instr_op_get_upvalue reader t
       = Done (Continue reader) (pushed x (advance reader 1 t))).
Proof.
  intros Hfr Hres Hl Hdec Hfuel Hin.
  assert (Hpop : pop s = Done result (set_stackTop (stackTop s - 1) s)) by (by apply pop_eq).
  destruct (closeUpvalues_closedFrom fuel (slots fr) (set_stackTop (stackTop s - 1) s) l)
    as (h1 & o1 & Hclose & Hcf); [done..|].
  split; [|split].
  - intros Hfc [top Htop].
    exists (set_stackTop (stackTop s - 2) (set_frameCount 0
              (set_openUpvalues o1 (set_heap h1 s)))).
    split; [|split; [by eapply closedFrom_ext; [..|exact Hcf]|done]].
    unfold instr_op_return. mdo Hpop.
    erewrite bind_Done; [|apply frames_get_eq; vm_proj; exact Hfr]. cbv beta.
    mdo Hclose. mstep. mstep. rewrite decide_True by done.
    erewrite bind_Done; [|apply pop_eq; vm_proj].
    2:{ replace (stackTop s - 1 - 1) with (stackTop s - 2) by lia. exact Htop. }
    vm_proj. rewrite Hfc. by replace (stackTop s - 1 - 1) with (stackTop s - 2) by lia.
  - intros Hfc Hbase.
    exists (pushed result (set_stackTop (slots fr) (set_frameCount (frameCount s - 1)
              (set_openUpvalues o1 (set_heap h1 s))))).
    split; [|split; [by eapply closedFrom_ext; [..|exact Hcf]|done]].
    unfold instr_op_return. mdo Hpop.
    erewrite bind_Done; [|apply frames_get_eq; vm_proj; exact Hfr]. cbv beta.
    mdo Hclose. mstep. mstep. rewrite decide_False by done.
    erewrite bind_Done; [|apply frames_get_eq; vm_proj; exact Hfr]. cbv beta. mstep.
    erewrite bind_Done; [|apply push_eq; vm_proj; exact Hbase]. cbv beta.
    unfold reload_frame. mstep. vm_proj.
    by replace (frameCount s - 1 - 1) with (frameCount s - 2) by lia.
  - intros s' u k x (Hclosed & _ & _) Hu Hk Hx.
    destruct (Hclosed (u, k) Hu Hk) as (x' & nx & Hx' & Hu').
    cbn in Hx', Hu'. rewrite Hx in Hx'. injection Hx' as <-.
    split; [cbn [target]; by rewrite Hu'|].
    intros t reader slot fr' cl Hsame Hb Hfr' Hcl Hup Htop.
    rewrite Hu' in Hsame.
    eapply instr_op_get_upvalue_eq; eauto. cbn [location target]. by rewrite Hsame.
Qed.

Lemma return_closes_upvalues_witness :
  exists s',
    instr_op_return 3 1 exOpen = Done (Continue 0) s' /\
    closedFrom 2 [(19%positive, 3); (15%positive, 1)] exOpen s' /\
    frameCount s' = 1 /\
    stackTop s' = 3 /\
    stack s' = <[2%nat := OBJ_VAL 20%positive]> (stack exOpen).
Proof.
  refine (proj1 (proj2 (return_closes_upvalues 3 1 exOpen (mkFrame 6%positive 2 2)
    (OBJ_VAL 20%positive) [(19%positive, 3); (15%positive, 1)] _ _ _ _ _ _)) _ _);
    try (vm_compute; reflexivity).
  - unfold openList. econstructor; [vm_compute; reflexivity|].
    econstructor; [vm_compute; reflexivity|]. constructor.
  - repeat constructor.
  - intros p [->|[->|?%elem_of_nil]%elem_of_cons]%elem_of_cons Hp; done.
  - vm_compute. discriminate.
  - vm_compute. split; [discriminate|reflexivity].
Defined.

(** ** The interpreter at work *)

#[local] Set Warnings "-inexact-float".

(** The chunk of [main.c] runs to [INTERPRET_OK]; the value it computed is
    left above the emptied stack. *)
Example interpret_main :
  exists s',
    interpret 10 1 (Some 2%positive) exMain = Done INTERPRET_OK s' /\
    stackTop s' = 0 /\ frameCount s' = 0 /\
    index (stack s') 1 = Some (NUMBER_VAL (- ((1.2 + 3.4) / 5.6))%float).
Proof. eexists. split; [vm_compute; reflexivity|]. repeat split. Qed.

(** The closure returned by [make] reads the captured local after the frame
    of [make] is gone: [true] is printed, and the machine ends with no open
    upvalue. *)
Example interpret_closures :
  exists s',
    interpret 12 2 (Some 2%positive) exClosures = Done INTERPRET_OK s' /\
    printedLines (stdout s') = [BOOL_VAL true] /\ stderr s' = "" /\
    stackTop s' = 0 /\ openUpvalues s' = None.
Proof. eexists. split; [vm_compute; reflexivity|]. repeat split. Qed.

(** With too few arguments the same call is a runtime error with a trace. *)
Example interpret_arity_error :
  exists s',
    instr_op_call 0 exCall = Done (Return INTERPRET_RUNTIME_ERROR) s' /\
    stderr s' = "Expected 1 arguments but got 0." +:+ newline
                +:+ "[line 7] in script" +:+ newline.
Proof. eexists. split; [vm_compute; reflexivity|]. reflexivity. Qed.

(** * The rest of the interpreter *)

Lemma bind_Undef {A B} (m : M A) (f : A -> M B) s : m s = Undef -> (m ≫= f) s = Undef.
Proof. intros H. by rewrite bind_unfold, H. Qed.

Lemma VM_ext s1 s2 :
  frames s1 = frames s2 -> frameCount s1 = frameCount s2 ->
  stack s1 = stack s2 -> stackTop s1 = stackTop s2 ->
  globals s1 = globals s2 -> strings s1 = strings s2 ->
  initString s1 = initString s2 -> openUpvalues s1 = openUpvalues s2 ->
  heap s1 = heap s2 -> stderr s1 = stderr s2 -> stdout s1 = stdout s2 ->
  s1 = s2.
Proof. destruct s1, s2. cbn. intros. by subst. Qed.

(** ** The value stack *)

Lemma replaceTop_stack_other popped r s i :
  0 <= stackTop s - popped ->
  i ≠ stackTop s - popped -> index (stack (replaceTop popped r s)) i = index (stack s) i.
Proof. intros Hp Hi. unfold replaceTop. vm_proj. apply index_insert_ne; [lia|done]. Qed.

Lemma replaceTop_top popped r s :
  0 <= stackTop s - popped < Z.of_nat (length (stack s)) ->
  index (stack (replaceTop popped r s)) (stackTop (replaceTop popped r s) - 1) = Some r.
Proof.
  intros Hp. unfold replaceTop. vm_proj.
  replace (stackTop s - popped + 1 - 1) with (stackTop s - popped) by lia.
  by apply index_insert_eq.
Qed.

(** X1: [push] then [pop] is a round trip: the value pushed is the value that
    [peek(0)] and [pop] return, [stackTop] is back where it was, and only the
    slot that was written differs from the stack before. *)
Theorem push_pop_roundtrip s v :
  0 <= stackTop s < Z.of_nat (length (stack s)) ->
  exists s1 s2,
    push v s = Done tt s1 /\
    peek 0 s1 = Done v s1 /\
    pop s1 = Done v s2 /\
    stackTop s1 = stackTop s + 1 /\
    stackTop s2 = stackTop s /\
    s2 = set_stack (<[Z.to_nat (stackTop s) := v]> (stack s)) s /\
    (forall i, i ≠ stackTop s -> index (stack s2) i = index (stack s) i).
Proof.
  intros Htop.
  assert (index (stack (pushed v s)) (stackTop (pushed v s) - 1) = Some v) as Hv.
  { unfold pushed. vm_proj. replace (stackTop s + 1 - 1) with (stackTop s) by lia.
    by apply index_insert_eq. }
  exists (pushed v s), (set_stack (<[Z.to_nat (stackTop s) := v]> (stack s)) s).
  split; [by apply push_eq|]. split; [apply peek_eq; by rewrite Z.sub_0_r|].
  split.
  { rewrite (pop_eq _ _ Hv). unfold pushed, set_stackTop, set_stack. vm_proj.
    by replace (stackTop s + 1 - 1) with (stackTop s) by lia. }
  split; [done|]. split; [done|]. split; [done|].
  intros i Hi. vm_proj. apply index_insert_ne; [lia|done].
Qed.

Lemma push_pop_roundtrip_witness :
  exists s1 s2,
    push (BOOL_VAL true) exCall = Done tt s1 /\
    peek 0 s1 = Done (BOOL_VAL true) s1 /\
    pop s1 = Done (BOOL_VAL true) s2 /\
    stackTop s1 = stackTop exCall + 1 /\
    stackTop s2 = stackTop exCall /\
    s2 = set_stack (<[Z.to_nat (stackTop exCall) := BOOL_VAL true]> (stack exCall)) exCall /\
    (forall i, i ≠ stackTop exCall -> index (stack s2) i = index (stack exCall) i).
Proof. apply push_pop_roundtrip. vm_compute. split; [discriminate|reflexivity]. Defined.

Lemma stack_put_out s i v :
  i < 0 \/ Z.of_nat (length (stack s)) <= i -> stack_put i v s = Undef.
Proof.
  intros Hi. unfold stack_put. mstep. unfold update. by rewrite decide_False by lia.
Qed.

Lemma stack_get_out s i :
  i < 0 \/ Z.of_nat (length (stack s)) <= i -> stack_get i s = Undef.
Proof.
  intros Hi. unfold stack_get. mstep. unfold index. case_decide; [|done].
  rewrite lookup_ge_None_2; [done|lia].
Qed.

(** X2: the value stack has no bounds check: [push] on a full stack and [pop]
    or [peek(0)] on an empty one go outside [vm.stack], which is undefined
    behaviour, not a runtime error of the interpreter. *)
Theorem stack_bounds_unchecked s v :
  (Z.of_nat (length (stack s)) <= stackTop s -> push v s = Undef) /\
  (stackTop s <= 0 -> pop s = Undef /\ peek 0 s = Undef).
Proof.
  split.
  - intros H. unfold push. mstep. apply bind_Undef, stack_put_out. lia.
  - intros H. split.
    + unfold pop. mstep. mstep. apply stack_get_out. vm_proj. lia.
    + unfold peek. mstep. apply stack_get_out. lia.
Qed.

Lemma stack_bounds_unchecked_witness :
  push NIL_VAL (exScript 0 [NIL_VAL; NIL_VAL] 2) = Undef /\
  pop (exScript 0 [NIL_VAL; NIL_VAL] 0) = Undef /\
  peek 0 (exScript 0 [NIL_VAL; NIL_VAL] 0) = Undef.
Proof.
  split.
  - apply (proj1 (stack_bounds_unchecked (exScript 0 [NIL_VAL; NIL_VAL] 2) NIL_VAL)).
    vm_compute. discriminate.
  - apply (proj2 (stack_bounds_unchecked (exScript 0 [NIL_VAL; NIL_VAL] 0) NIL_VAL)).
    vm_compute. discriminate.
Defined.

(** ** [callValue] *)

(** X3: a callee that is not a closure, a class, a bound method or a native
    (nil, a boolean, a number, a string, an instance, a bare function) makes
    [callValue] fail with the runtime error "Can only call functions and
    classes."; no call frame is pushed. *)
Theorem callValue_not_callable callee argCount s t :
  liveValue s callee ->
  callable (heap s) callee = false ->
  frameCount s <= Z.of_nat (length (frames s)) ->
  stackTrace s = Some t ->
  callValue callee argCount s
  = Done false (afterError "Can only call functions and classes." t s).
Proof.
  intros Hl Hc Hfc Ht.
  assert ((runtimeError "Can only call functions and classes.";; mret false) s
          = Done false (afterError "Can only call functions and classes." t s)) as Herr.
  { by mdo (runtimeError_eq "Can only call functions and classes." s t Hfc Ht). }
  destruct callee as [| | |o]; try exact Herr.
  destruct Hl as [obj Ho]. cbn [callable] in Hc. rewrite Ho in Hc.
  unfold callValue. mdo (load_eq _ _ _ Ho). by destruct obj.
Qed.

Lemma callValue_not_callable_witness :
  callValue (OBJ_VAL 7%positive) 0 exCall
  = Done false (afterError "Can only call functions and classes."
                  ("[line 7] in script" +:+ newline) exCall).
Proof.
  apply callValue_not_callable; try (vm_compute; reflexivity).
  - by eexists.
  - vm_compute. discriminate.
Defined.

(** X4: calling a bound method stores its receiver in the slot of the callee
    and then calls the method closure; when the arity matches, the new frame
    starts at that slot, so that slot 0 of the callee (what [this] reads) is
    the receiver. *)
Theorem call_bound_method_binds_receiver b bound c fn argCount s :
  heap s !! b = Some (OBJ_BOUND_METHOD bound) ->
  heap s !! method bound = Some (OBJ_CLOSURE c) ->
  heap s !! function c = Some (OBJ_FUNCTION fn) ->
  0 <= stackTop s - argCount - 1 < Z.of_nat (length (stack s)) ->
  let s1 := set_stack (<[Z.to_nat (stackTop s - argCount - 1) := receiver bound]> (stack s)) s in
  callValue (OBJ_VAL b) argCount s = call (method bound) argCount s1 /\
  (argCount = arity fn ->
   0 <= frameCount s < Z.of_nat (length (frames s)) ->
   frameCount s ≠ FRAMES_MAX ->
   callValue (OBJ_VAL b) argCount s = Done true (afterCall (method bound) argCount s1) /\
   index (frames (afterCall (method bound) argCount s1)) (frameCount s)
     = Some (mkFrame (method bound) 0 (stackTop s - argCount - 1)) /\
   index (stack (afterCall (method bound) argCount s1)) (stackTop s - argCount - 1)
     = Some (receiver bound) /\
   frameCount (afterCall (method bound) argCount s1) = frameCount s + 1).
Proof.
  intros Hb Hc Hfn Hslot s1.
  assert (callValue (OBJ_VAL b) argCount s = call (method bound) argCount s1) as Hcv.
  { unfold callValue. mdo (load_eq _ _ _ Hb). mstep.
    by erewrite bind_Done; [|by apply stack_put_eq]. }
  split; [done|]. intros -> Hfc Hmax. rewrite Hcv.
  split; [by eapply (call_enter _ c fn s1)|].
  unfold afterCall, s1. vm_proj. split; [by apply index_insert_eq|].
  split; [by apply index_insert_eq|done].
Qed.

Lemma call_bound_method_binds_receiver_witness :
  let s1 := set_stack (<[1%nat := OBJ_VAL 21%positive]>
              [OBJ_VAL 3%positive; OBJ_VAL 22%positive; NIL_VAL; NIL_VAL])
              (exScript2 2 [OBJ_VAL 3%positive; OBJ_VAL 22%positive; NIL_VAL; NIL_VAL] 3) in
  callValue (OBJ_VAL 22%positive) 1
    (exScript2 2 [OBJ_VAL 3%positive; OBJ_VAL 22%positive; NIL_VAL; NIL_VAL] 3)
  = Done true (afterCall 6%positive 1 s1) /\
  index (frames (afterCall 6%positive 1 s1)) 1 = Some (mkFrame 6%positive 0 1) /\
  index (stack (afterCall 6%positive 1 s1)) 1 = Some (OBJ_VAL 21%positive) /\
  frameCount (afterCall 6%positive 1 s1) = 2.
Proof.
  refine (proj2 (call_bound_method_binds_receiver 22%positive
    (mkBoundMethod (OBJ_VAL 21%positive) 6%positive) (mkClosure 5%positive [] 0)
    (mkFunction 1 0 (mkChunk [x01; x21] [3; 3] []) (Some 4%positive)) 1
    (exScript2 2 [OBJ_VAL 3%positive; OBJ_VAL 22%positive; NIL_VAL; NIL_VAL] 3)
    _ _ _ _) _ _ _); try (vm_compute; reflexivity);
    vm_compute; try discriminate; split; (discriminate || reflexivity).
Defined.

Lemma nativeArgs_eq argCount s :
  0 <= argCount -> 0 <= stackTop s - argCount ->
  stackTop s <= Z.of_nat (length (stack s)) ->
  nativeArgs argCount s
  = Done (take (Z.to_nat argCount) (drop (Z.to_nat (stackTop s - argCount)) (stack s))) s.
Proof. intros. unfold nativeArgs. mstep. mstep. by rewrite decide_True. Qed.

(** X5: calling a native runs it on the [argCount] values on top of the
    stack and replaces the callee and the arguments by its result: no frame
    is pushed and [stackTop] drops by [argCount]. *)
Theorem call_native_replaces_callee_and_args n native argCount s :
  heap s !! n = Some (OBJ_NATIVE native) ->
  0 <= argCount ->
  0 <= stackTop s - argCount - 1 ->
  stackTop s <= Z.of_nat (length (stack s)) ->
  let args := take (Z.to_nat argCount) (drop (Z.to_nat (stackTop s - argCount)) (stack s)) in
  let s' := replaceTop (argCount + 1) (native argCount args) s in
  callValue (OBJ_VAL n) argCount s = Done true s' /\
  length args = Z.to_nat argCount /\
  stackTop s' = stackTop s - argCount /\
  index (stack s') (stackTop s' - 1) = Some (native argCount args) /\
  frameCount s' = frameCount s /\ frames s' = frames s.
Proof.
  intros Hn Hargc Hlow Hhigh args s'.
  split; [|split; [|split; [|split; [|done]]]].
  - unfold callValue. mdo (load_eq _ _ _ Hn).
    erewrite bind_Done; [|apply nativeArgs_eq; lia]. cbv beta. mstep. mstep.
    erewrite bind_Done; [|apply push_eq; vm_proj; lia]. cbv beta. vm_proj.
    unfold s', replaceTop, set_stackTop, set_stack. vm_proj.
    replace (stackTop s - (argCount + 1) + 1) with (stackTop s - argCount) by lia.
    done.
  - unfold args. rewrite length_take, length_drop. lia.
  - unfold s', replaceTop. vm_proj. lia.
  - apply replaceTop_top. lia.
Qed.

Lemma call_native_replaces_callee_and_args_witness :
  callValue (OBJ_VAL 23%positive) 2
    (exScript2 2 [OBJ_VAL 3%positive; OBJ_VAL 23%positive; BOOL_VAL true; BOOL_VAL false] 4)
  = Done true
      (replaceTop 3 (BOOL_VAL true)
         (exScript2 2 [OBJ_VAL 3%positive; OBJ_VAL 23%positive; BOOL_VAL true; BOOL_VAL false] 4)).
Proof.
  refine (proj1 (call_native_replaces_callee_and_args 23%positive
    (fun _ args => default NIL_VAL (head args)) 2
    (exScript2 2 [OBJ_VAL 3%positive; OBJ_VAL 23%positive; BOOL_VAL true; BOOL_VAL false] 4)
    _ _ _ _)); try (vm_compute; reflexivity); vm_compute; discriminate.
Defined.

(** ** Method invocation *)

Lemma IS_INSTANCE_eq s v : liveValue s v -> IS_INSTANCE v s = Done (isInstance (heap s) v) s.
Proof.
  destruct v as [| | |p]; try done. intros [o Ho]. cbn [IS_INSTANCE isInstance].
  mdo (load_eq _ _ _ Ho). by rewrite Ho.
Qed.

Lemma invokeFromClass_found k kc name cl argCount s :
  heap s !! k = Some (OBJ_CLASS kc) ->
  methods kc !! name = Some (OBJ_VAL cl) ->
  invokeFromClass k name argCount s = call cl argCount s.
Proof.
  intros Hk Hm. unfold invokeFromClass. mdo (loadClass_eq _ _ _ Hk).
  unfold tableGet. rewrite Hm. by mstep.
Qed.

Lemma invokeFromClass_undefined k kc name str argCount s t :
  heap s !! k = Some (OBJ_CLASS kc) ->
  methods kc !! name = None ->
  heap s !! name = Some (OBJ_STRING str) ->
  frameCount s <= Z.of_nat (length (frames s)) ->
  stackTrace s = Some t ->
  invokeFromClass k name argCount s = Done false (afterError (undefinedProperty str) t s).
Proof.
  intros Hk Hm Hname Hfc Ht. unfold invokeFromClass. mdo (loadClass_eq _ _ _ Hk).
  unfold tableGet. rewrite Hm. mdo (loadString_eq _ _ _ Hname).
  by mdo (runtimeError_eq (undefinedProperty str) s t Hfc Ht).
Qed.

Lemma invoke_eq name argCount s recv :
  index (stack s) (stackTop s - 1 - argCount) = Some recv ->
  liveValue s recv ->
  invoke name argCount s =
  if isInstance (heap s) recv then
    (i ← AS_OBJ recv;
     instance ← loadInstance i;
     match tableGet (fields instance) name with
     | Some value =>
         top ← gets stackTop;
         stack_put (top - argCount - 1) value;;
         callValue value argCount
     | None => invokeFromClass (klass instance) name argCount
     end) s
  else (runtimeError "Only instances have methods.";; mret false) s.
Proof.
  intros Hr Hl. unfold invoke. mdo (peek_eq _ _ _ Hr). mdo (IS_INSTANCE_eq _ _ Hl).
  by destruct (isInstance (heap s) recv).
Qed.

(** X6: [invoke] looks at the receiver [argCount] slots below the top.  A
    receiver that is not an instance is the runtime error "Only instances
    have methods.".  A field of that name shadows the method: its value is
    stored in the receiver's slot and called as a value.  Otherwise the method
    closure of the class is called directly, with no bound method allocated
    (the heap is unchanged); a name that is neither is the runtime error
    "Undefined property". *)
Theorem invoke_field_shadows_method name argCount s recv :
  index (stack s) (stackTop s - 1 - argCount) = Some recv ->
  liveValue s recv ->
  (isInstance (heap s) recv = false ->
   forall t, frameCount s <= Z.of_nat (length (frames s)) -> stackTrace s = Some t ->
   invoke name argCount s = Done false (afterError "Only instances have methods." t s)) /\
  (forall i inst,
     recv = OBJ_VAL i -> heap s !! i = Some (OBJ_INSTANCE inst) ->
     (forall value,
        fields inst !! name = Some value ->
        invoke name argCount s =
        callValue value argCount
          (set_stack (<[Z.to_nat (stackTop s - argCount - 1) := value]> (stack s)) s)) /\
     (forall kc,
        fields inst !! name = None ->
        heap s !! klass inst = Some (OBJ_CLASS kc) ->
        (forall cl c fn,
           methods kc !! name = Some (OBJ_VAL cl) ->
           heap s !! cl = Some (OBJ_CLOSURE c) ->
           heap s !! function c = Some (OBJ_FUNCTION fn) ->
           argCount = arity fn ->
           0 <= frameCount s < Z.of_nat (length (frames s)) ->
           frameCount s ≠ FRAMES_MAX ->
           invoke name argCount s = Done true (afterCall cl argCount s) /\
           heap (afterCall cl argCount s) = heap s /\
           index (stack (afterCall cl argCount s)) (stackTop s - argCount - 1)
             = Some (OBJ_VAL i)) /\
        (forall str t,
           methods kc !! name = None ->
           heap s !! name = Some (OBJ_STRING str) ->
           frameCount s <= Z.of_nat (length (frames s)) -> stackTrace s = Some t ->
           invoke name argCount s = Done false (afterError (undefinedProperty str) t s)))).
Proof.
  intros Hr Hl. rewrite (invoke_eq _ _ _ _ Hr Hl). split.
  - intros -> t Hfc Ht. by mdo (runtimeError_eq "Only instances have methods." s t Hfc Ht).
  - intros i inst -> Hi. cbn [isInstance]. rewrite Hi. mstep. mdo (loadInstance_eq _ _ _ Hi).
    unfold tableGet. split.
    + intros value ->. mstep.
      erewrite bind_Done; [done|]. apply stack_put_eq.
      apply index_lt in Hr. lia.
    + intros kc -> Hk. split.
      * intros cl c fn Hm Hcl Hfn -> Hfc Hmax.
        rewrite (invokeFromClass_found _ _ _ _ _ _ Hk Hm).
        split; [by eapply call_enter|]. split; [done|].
        unfold afterCall. vm_proj.
        by replace (stackTop s - arity fn - 1) with (stackTop s - 1 - arity fn) by lia.
      * intros str t Hm Hname Hfc Ht. by eapply invokeFromClass_undefined.
Qed.

Lemma invoke_field_shadows_method_witness :
  invoke 4%positive 1 exInvoke = Done true (afterCall 6%positive 1 exInvoke) /\
  heap (afterCall 6%positive 1 exInvoke) = heap exInvoke /\
  index (stack (afterCall 6%positive 1 exInvoke)) 1 = Some (OBJ_VAL 25%positive).
Proof.
  refine (proj1 (proj2 (proj2 (invoke_field_shadows_method 4%positive 1 exInvoke
    (OBJ_VAL 25%positive) _ _) 25%positive (mkInstance 24%positive ∅) eq_refl _)
    (mkClass 10%positive {[ 4%positive := OBJ_VAL 6%positive ]}) _ _)
    6%positive (mkClosure 5%positive [] 0)
    (mkFunction 1 0 (mkChunk [x01; x21] [3; 3] []) (Some 4%positive)) _ _ _ _ _ _);
    try (vm_compute; reflexivity).
  - by eexists.
  - vm_compute. split; [discriminate|reflexivity].
  - vm_compute. discriminate.
Defined.

(** ** Properties and bound methods *)

Lemma pop_push_then {B} (k : M B) s v0 r :
  index (stack s) (stackTop s - 1) = Some v0 ->
  (pop;; push r;; k) s = k (replaceTop 1 r s).
Proof.
  intros H0. mdo (pop_eq _ _ H0).
  erewrite bind_Done; [done|]. rewrite push_eq; vm_proj.
  - done.
  - apply index_lt in H0. lia.
Qed.

Lemma bindMethod_found k kc name cl recv s :
  heap s !! k = Some (OBJ_CLASS kc) ->
  methods kc !! name = Some (OBJ_VAL cl) ->
  index (stack s) (stackTop s - 1) = Some recv ->
  bindMethod k name s = Done true (afterBind recv cl s).
Proof.
  intros Hk Hm Hr. unfold bindMethod. mdo (loadClass_eq _ _ _ Hk).
  unfold tableGet. rewrite Hm.
  erewrite bind_Done; [|apply peek_eq; by rewrite Z.sub_0_r]. cbv beta. mstep.
  unfold newBoundMethod. mdo (allocateObject_eq (OBJ_BOUND_METHOD (mkBoundMethod recv cl)) s).
  by erewrite pop_push_then.
Qed.

Lemma bindMethod_undefined k kc name str s t :
  heap s !! k = Some (OBJ_CLASS kc) ->
  methods kc !! name = None ->
  heap s !! name = Some (OBJ_STRING str) ->
  frameCount s <= Z.of_nat (length (frames s)) ->
  stackTrace s = Some t ->
  bindMethod k name s = Done false (afterError (undefinedProperty str) t s).
Proof.
  intros Hk Hm Hname Hfc Ht. unfold bindMethod. mdo (loadClass_eq _ _ _ Hk).
  unfold tableGet. rewrite Hm. mdo (loadString_eq _ _ _ Hname).
  by mdo (runtimeError_eq (undefinedProperty str) s t Hfc Ht).
Qed.

Lemma length_frames_advance_le frame k s :
  frameCount s <= Z.of_nat (length (frames s)) ->
  frameCount (advance frame k s) <= Z.of_nat (length (frames (advance frame k s))).
Proof. by rewrite frameCount_advance, length_frames_advance. Qed.

Lemma instr_op_get_property_instance frame s c name i inst :
  codeAt s frame 0 = Some c ->
  constAt s frame c = Some (OBJ_VAL name) ->
  index (stack s) (stackTop s - 1) = Some (OBJ_VAL i) ->
  heap s !! i = Some (OBJ_INSTANCE inst) ->
  instr_op_get_property frame s =
  match fields inst !! name with
  | Some value => (pop;; push value;; mret (Continue frame)) (advance frame 1 s)
  | None =>
      (bound ← bindMethod (klass inst) name;
       if negb bound then mret (Return INTERPRET_RUNTIME_ERROR)
       else mret (Continue frame)) (advance frame 1 s)
  end.
Proof.
  intros Hc Hn Hr Hi. unfold instr_op_get_property.
  erewrite bind_Done; [|apply peek_eq; by rewrite Z.sub_0_r]. cbv beta.
  erewrite bind_Done; [|apply IS_INSTANCE_eq; by eexists]. cbv beta.
  cbn [isInstance]. rewrite Hi. cbn [negb]. mstep.
  mdo (loadInstance_eq _ _ _ Hi). mdo (READ_STRING_eq _ _ _ _ Hc Hn).
  unfold tableGet. by destruct (fields inst !! name).
Qed.

(** X7: [OP_GET_PROPERTY] reads the receiver on top of the stack.  A receiver
    that is not an instance is the runtime error "Only instances have
    properties.", raised before the operand is read.  A field of the operand's
    name replaces the receiver by the field's value, also when the class has a
    method of that name; otherwise a method of the class replaces it by a new
    bound method that holds the receiver and the method's closure; a name that
    is neither is the runtime error "Undefined property". *)
Theorem get_property_field_then_method frame s c name recv :
  codeAt s frame 0 = Some c ->
  constAt s frame c = Some (OBJ_VAL name) ->
  index (stack s) (stackTop s - 1) = Some recv ->
  liveValue s recv ->
  frameCount s <= Z.of_nat (length (frames s)) ->
  (isInstance (heap s) recv = false ->
   forall t, stackTrace s = Some t ->
   instr_op_get_property frame s =
   Done (Return INTERPRET_RUNTIME_ERROR) (afterError "Only instances have properties." t s)) /\
  (forall i inst,
     recv = OBJ_VAL i -> heap s !! i = Some (OBJ_INSTANCE inst) ->
     (forall value,
        fields inst !! name = Some value ->
        instr_op_get_property frame s =
        Done (Continue frame) (replaceTop 1 value (advance frame 1 s))) /\
     (forall kc,
        fields inst !! name = None ->
        heap s !! klass inst = Some (OBJ_CLASS kc) ->
        (forall cl,
           methods kc !! name = Some (OBJ_VAL cl) ->
           instr_op_get_property frame s =
           Done (Continue frame) (afterBind (OBJ_VAL i) cl (advance frame 1 s))) /\
        (forall str t,
           methods kc !! name = None ->
           heap s !! name = Some (OBJ_STRING str) ->
           stackTrace (advance frame 1 s) = Some t ->
           instr_op_get_property frame s =
           Done (Return INTERPRET_RUNTIME_ERROR)
                (afterError (undefinedProperty str) t (advance frame 1 s))))).
Proof.
  intros Hc Hn Hr Hl Hfc. split.
  - intros Hni t Ht. unfold instr_op_get_property.
    erewrite bind_Done; [|apply peek_eq; by rewrite Z.sub_0_r]. cbv beta.
    mdo (IS_INSTANCE_eq _ _ Hl). rewrite Hni. cbn [negb].
    by mdo (runtimeError_eq "Only instances have properties." s t Hfc Ht).
  - intros i inst -> Hi. rewrite (instr_op_get_property_instance _ _ _ _ _ _ Hc Hn Hr Hi). split.
    + intros value ->. erewrite pop_push_then; [done|].
      by rewrite stack_advance, stackTop_advance.
    + intros kc -> Hk. split.
      * intros cl Hm. erewrite bind_Done; cycle 1.
        { eapply bindMethod_found; [by rewrite heap_advance|done|].
          by rewrite stack_advance, stackTop_advance. }
        done.
      * intros str t Hm Hname Ht. erewrite bind_Done; cycle 1.
        { eapply bindMethod_undefined;
            [by rewrite heap_advance|done|by rewrite heap_advance| |done].
          by apply length_frames_advance_le. }
        done.
Qed.

Lemma get_property_field_then_method_witness :
  instr_op_get_property 0
    (exProp 3 [OBJ_VAL 3%positive; OBJ_VAL 21%positive; NIL_VAL; NIL_VAL] 2) =
  Done (Continue 0)
    (afterBind (OBJ_VAL 21%positive) 6%positive
       (advance 0 1 (exProp 3 [OBJ_VAL 3%positive; OBJ_VAL 21%positive; NIL_VAL; NIL_VAL] 2))).
Proof.
  refine (proj1 (proj2 (proj2 (get_property_field_then_method 0
    (exProp 3 [OBJ_VAL 3%positive; OBJ_VAL 21%positive; NIL_VAL; NIL_VAL] 2)
    1 4%positive (OBJ_VAL 21%positive) _ _ _ _ _) 21%positive
    (mkInstance 24%positive {[ 11%positive := BOOL_VAL true ]}) eq_refl _)
    (mkClass 10%positive {[ 4%positive := OBJ_VAL 6%positive ]}) _ _) 6%positive _);
    try (vm_compute; reflexivity).
  - by eexists.
  - vm_compute. discriminate.
Defined.

Lemma setField_eq i inst name value s :
  heap s !! i = Some (OBJ_INSTANCE inst) ->
  setField i name value s = Done tt (afterSetField i inst name value s).
Proof. intros Hi. unfold setField. by mdo (loadInstance_eq _ _ _ Hi). Qed.

(** X8: [OP_SET_PROPERTY] stores the value on top of the stack in the field
    named by its operand, of the instance below it, and leaves the value in
    place of the two; no other object changes.  An [OP_GET_PROPERTY] of the
    same name on that instance, in any later machine where the instance is
    unchanged, yields the value stored.  A target that is not an instance is
    the runtime error "Only instances have fields.". *)
Theorem set_property_then_get frame s c name value target :
  codeAt s frame 0 = Some c ->
  constAt s frame c = Some (OBJ_VAL name) ->
  index (stack s) (stackTop s - 1) = Some value ->
  index (stack s) (stackTop s - 2) = Some target ->
  liveValue s target ->
  frameCount s <= Z.of_nat (length (frames s)) ->
  (isInstance (heap s) target = false ->
   forall t, stackTrace s = Some t ->
   instr_op_set_property frame s =
   Done (Return INTERPRET_RUNTIME_ERROR) (afterError "Only instances have fields." t s)) /\
  (forall i inst,
     target = OBJ_VAL i -> heap s !! i = Some (OBJ_INSTANCE inst) ->
     let s1 := replaceTop2 value (afterSetField i inst name value (advance frame 1 s)) in
     instr_op_set_property frame s = Done (Continue frame) s1 /\
     (forall a, a ≠ i -> heap s1 !! a = heap s !! a) /\
     (forall frame' s2 c',
        codeAt s2 frame' 0 = Some c' ->
        constAt s2 frame' c' = Some (OBJ_VAL name) ->
        index (stack s2) (stackTop s2 - 1) = Some (OBJ_VAL i) ->
        heap s2 !! i = heap s1 !! i ->
        frameCount s2 <= Z.of_nat (length (frames s2)) ->
        instr_op_get_property frame' s2 =
        Done (Continue frame') (replaceTop 1 value (advance frame' 1 s2)))).
Proof.
  intros Hc Hn H0 H1 Hl Hfc.
  assert (index (stack s) (stackTop s - 1 - 1) = Some target) as H1'
    by (by replace (stackTop s - 1 - 1) with (stackTop s - 2) by lia).
  split.
  - intros Hni t Ht. unfold instr_op_set_property.
    mdo (peek_eq _ _ _ H1'). mdo (IS_INSTANCE_eq _ _ Hl). rewrite Hni. cbn [negb].
    by mdo (runtimeError_eq "Only instances have fields." s t Hfc Ht).
  - intros i inst -> Hi s1. unfold instr_op_set_property.
    erewrite bind_Done; [|exact (peek_eq _ _ _ H1')]. cbv beta.
    erewrite bind_Done; [|exact (IS_INSTANCE_eq _ _ Hl)]. cbv beta.
    cbn [isInstance]. rewrite Hi. cbn [negb]. erewrite bind_Done; [|reflexivity]. cbv beta.
    mdo (READ_STRING_eq _ _ _ _ Hc Hn).
    erewrite bind_Done;
      [|apply peek_eq; by rewrite Z.sub_0_r, stack_advance, stackTop_advance]. cbv beta.
    erewrite bind_Done; [|apply setField_eq; by rewrite heap_advance]. cbv beta.
    assert (heap s1 !! i =
      Some (OBJ_INSTANCE (mkInstance (klass inst) (<[name := value]> (fields inst))))) as Hs1.
    { unfold s1, replaceTop2, afterSetField. vm_proj. apply lookup_insert_eq. }
    split; [|split].
    + erewrite bind_Done; cycle 1.
      { apply pop_eq. unfold afterSetField. vm_proj.
        by rewrite stack_advance, stackTop_advance. }
      cbv beta. erewrite bind_Done; cycle 1.
      { apply pop_eq. unfold afterSetField. vm_proj.
        by rewrite stack_advance, stackTop_advance. }
      cbv beta. erewrite bind_Done; [done|].
      rewrite push_eq; unfold afterSetField; vm_proj.
      * unfold s1, replaceTop2, afterSetField, set_stackTop, set_stack. vm_proj.
        rewrite !stackTop_advance.
        replace (stackTop s - 1 - 1) with (stackTop s - 2) by lia.
        by replace (stackTop s - 2 + 1) with (stackTop s - 1) by lia.
      * rewrite stack_advance, stackTop_advance. apply index_lt in H1. lia.
    + intros a Ha. unfold s1, replaceTop2, afterSetField. vm_proj.
      rewrite lookup_insert_ne by done. by rewrite heap_advance.
    + intros frame' s2 c' Hc' Hn' Hr' Hh Hfc'. rewrite Hs1 in Hh.
      rewrite (instr_op_get_property_instance _ _ _ _ _ _ Hc' Hn' Hr' Hh). cbn [fields].
      rewrite lookup_insert_eq. erewrite pop_push_then; [done|].
      by rewrite stack_advance, stackTop_advance.
Qed.

Lemma set_property_then_get_witness :
  instr_op_set_property 0
    (exProp 1 [OBJ_VAL 3%positive; OBJ_VAL 21%positive; NIL_VAL; NIL_VAL] 3) =
  Done (Continue 0)
    (replaceTop2 NIL_VAL
       (afterSetField 21%positive (mkInstance 24%positive {[ 11%positive := BOOL_VAL true ]})
          11%positive NIL_VAL
          (advance 0 1 (exProp 1 [OBJ_VAL 3%positive; OBJ_VAL 21%positive; NIL_VAL; NIL_VAL] 3)))).
Proof.
  refine (proj1 (proj2 (set_property_then_get 0
    (exProp 1 [OBJ_VAL 3%positive; OBJ_VAL 21%positive; NIL_VAL; NIL_VAL] 3)
    0 11%positive NIL_VAL (OBJ_VAL 21%positive) _ _ _ _ _ _) 21%positive
    (mkInstance 24%positive {[ 11%positive := BOOL_VAL true ]}) eq_refl _));
    try (vm_compute; reflexivity).
  - by eexists.
  - vm_compute. discriminate.
Defined.

(** ** [OP_INVOKE] against [OP_GET_PROPERTY] and [OP_CALL] *)

Lemma writeAll_length i args st : length (writeAll i args st) = length st.
Proof.
  revert i st. induction args as [|a args IH]; intros i st; [done|].
  cbn [writeAll]. by rewrite IH, length_insert.
Qed.

Lemma writeAll_lookup_lt i args st j :
  (j < Z.to_nat i)%nat -> 0 <= i -> writeAll i args st !! j = st !! j.
Proof.
  revert i st. induction args as [|a args IH]; intros i st Hj Hi; [done|].
  cbn [writeAll]. rewrite IH by lia. apply list_lookup_insert_ne. lia.
Qed.

Lemma writeAll_insert_commute i args st j x :
  (j < Z.to_nat i)%nat -> 0 <= i ->
  writeAll i args (<[j := x]> st) = <[j := x]> (writeAll i args st).
Proof.
  revert i st. induction args as [|a args IH]; intros i st Hj Hi; [done|].
  cbn [writeAll]. rewrite <-IH by lia. f_equal. apply list_insert_insert_ne. lia.
Qed.

Lemma pushedAll_nil s : pushedAll [] s = s.
Proof.
  destruct s. unfold pushedAll, set_stackTop, set_stack. cbn [length writeAll]. vm_proj.
  by rewrite Z.add_0_r.
Qed.

Lemma pushedAll_cons a args s : pushedAll (a :: args) s = pushedAll args (pushed a s).
Proof.
  destruct s. unfold pushedAll, pushed, set_stackTop, set_stack. cbn [length writeAll]. vm_proj.
  f_equal. lia.
Qed.

Lemma pushAll_eq args s :
  0 <= stackTop s ->
  stackTop s + Z.of_nat (length args) <= Z.of_nat (length (stack s)) ->
  pushAll args s = Done tt (pushedAll args s).
Proof.
  revert s. induction args as [|a args IH]; intros s H0 Hlen.
  - by rewrite pushedAll_nil.
  - cbn [pushAll]. cbn [length] in Hlen. erewrite bind_Done; [|apply push_eq; lia]. cbv beta.
    rewrite pushedAll_cons. apply IH; unfold pushed; vm_proj; [lia|].
    rewrite length_insert. lia.
Qed.

Lemma pushedAll_below args s j :
  0 <= j < stackTop s -> index (stack (pushedAll args s)) j = index (stack s) j.
Proof.
  intros Hj. unfold pushedAll. vm_proj. unfold index.
  case_decide; [|done]. apply writeAll_lookup_lt; lia.
Qed.

(** X9: [invoke] is [bindMethod] followed by [callValue] without the bound
    method.  From a machine with an instance on top of the stack whose class
    has the method [name], pushing the arguments and invoking [name] enters the
    same frame, over the same stack, as binding the method first, pushing the
    arguments and calling the bound method; the two final machines differ only
    in the bound-method object that the second one allocated. *)
Theorem invoke_is_bind_then_call name args s i inst kc cl c fn :
  index (stack s) (stackTop s - 1) = Some (OBJ_VAL i) ->
  heap s !! i = Some (OBJ_INSTANCE inst) ->
  fields inst !! name = None ->
  heap s !! klass inst = Some (OBJ_CLASS kc) ->
  methods kc !! name = Some (OBJ_VAL cl) ->
  heap s !! cl = Some (OBJ_CLOSURE c) ->
  heap s !! function c = Some (OBJ_FUNCTION fn) ->
  arity fn = Z.of_nat (length args) ->
  stackTop s + Z.of_nat (length args) <= Z.of_nat (length (stack s)) ->
  0 <= frameCount s < Z.of_nat (length (frames s)) ->
  frameCount s ≠ FRAMES_MAX ->
  (pushAll args;; invoke name (Z.of_nat (length args))) s =
    Done true (afterCall cl (Z.of_nat (length args)) (pushedAll args s)) /\
  (bindMethod (klass inst) name;;
   pushAll args;;
   callee ← peek (Z.of_nat (length args));
   callValue callee (Z.of_nat (length args))) s =
    Done true
      (set_heap (<[fresh (dom (heap s)) := OBJ_BOUND_METHOD (mkBoundMethod (OBJ_VAL i) cl)]>
                   (heap s))
         (afterCall cl (Z.of_nat (length args)) (pushedAll args s))).
Proof.
  intros Hr Hi Hf Hk Hm Hcl Hfn Har Hlen Hfc Hmax.
  pose proof (index_lt _ _ _ Hr) as Hr'.
  pose proof (fresh_heap s) as Hb. set (b := fresh (dom (heap s))) in *.
  set (n := Z.of_nat (length args)) in *.
  split.
  - erewrite bind_Done; [|apply pushAll_eq; lia]. cbv beta.
    rewrite (invoke_eq _ _ _ (OBJ_VAL i)); cycle 1.
    { unfold pushedAll at 2. vm_proj. fold n.
      replace (stackTop s + n - 1 - n) with (stackTop s - 1) by lia.
      rewrite pushedAll_below by lia. done. }
    { by eexists. }
    cbn [isInstance]. unfold pushedAll at 1. vm_proj. rewrite Hi. mstep.
    erewrite bind_Done; [|by apply loadInstance_eq]. cbv beta.
    unfold tableGet. rewrite Hf.
    erewrite invokeFromClass_found; [|done..].
    rewrite <-Har. by eapply call_enter.
  - erewrite bind_Done; [|by eapply bindMethod_found]. cbv beta.
    assert (stackTop (afterBind (OBJ_VAL i) cl s) = stackTop s) as Htop
      by (unfold afterBind, replaceTop; vm_proj; lia).
    assert (length (stack (afterBind (OBJ_VAL i) cl s)) = length (stack s)) as Hlen'
      by (unfold afterBind, replaceTop; vm_proj; by rewrite length_insert).
    erewrite bind_Done; [|apply pushAll_eq; rewrite ?Htop, ?Hlen'; lia]. cbv beta.
    erewrite bind_Done; cycle 1.
    { apply peek_eq. unfold pushedAll at 2. vm_proj. fold n. rewrite Htop.
      replace (stackTop s + n - 1 - n) with (stackTop s - 1) by lia.
      rewrite pushedAll_below by (rewrite Htop; lia).
      unfold afterBind, replaceTop. vm_proj. fold b.
      replace (stackTop s - 1) with (stackTop s - 1 + 0) at 2 by lia.
      rewrite Z.add_0_r. apply index_insert_eq. lia. }
    cbv beta. unfold callValue.
    erewrite bind_Done; cycle 1.
    { apply load_eq. unfold pushedAll, afterBind, replaceTop. vm_proj. fold b.
      apply lookup_insert_eq. }
    cbv beta iota. mstep.
    erewrite bind_Done; cycle 1.
    { apply stack_put_eq. unfold pushedAll. vm_proj. rewrite writeAll_length, Htop, Hlen'.
      fold n. lia. }
    cbv beta. cbn [receiver method].
    assert (cl ≠ b) as Hclb by (intros ->; by rewrite Hb in Hcl).
    assert (function c ≠ b) as Hfnb by (intros Heq; by rewrite Heq, Hb in Hfn).
    rewrite <-Har. erewrite call_enter; cycle 1.
    { unfold pushedAll, afterBind, replaceTop. vm_proj. fold b.
      rewrite lookup_insert_ne by done. exact Hcl. }
    { unfold pushedAll, afterBind, replaceTop. vm_proj. fold b.
      rewrite lookup_insert_ne by done. exact Hfn. }
    { unfold pushedAll, afterBind, replaceTop. vm_proj. done. }
    { unfold pushedAll, afterBind, replaceTop. vm_proj. done. }
    f_equal. rewrite Har. fold n.
    apply VM_ext; unfold afterCall, pushedAll, afterBind, replaceTop; fold b; fold n; vm_proj;
      try done.
    + do 3 f_equal. lia.
    + replace (stackTop s - 1 + 1) with (stackTop s) by lia.
      replace (stackTop s + n - n - 1) with (stackTop s - 1) by lia.
      rewrite writeAll_insert_commute by lia.
      rewrite list_insert_insert_eq. apply list_insert_id.
      rewrite writeAll_lookup_lt by lia.
      by apply index_Some in Hr as [_ Hr].
    + lia.
Qed.

Lemma invoke_is_bind_then_call_witness :
  (pushAll [BOOL_VAL true];; invoke 4%positive 1) exBind =
    Done true (afterCall 6%positive 1 (pushedAll [BOOL_VAL true] exBind)) /\
  (bindMethod 24%positive 4%positive;;
   pushAll [BOOL_VAL true];;
   callee ← peek 1;
   callValue callee 1) exBind =
    Done true
      (set_heap (<[fresh (dom (heap exBind)) :=
                     OBJ_BOUND_METHOD (mkBoundMethod (OBJ_VAL 25%positive) 6%positive)]>
                   (heap exBind))
         (afterCall 6%positive 1 (pushedAll [BOOL_VAL true] exBind))).
Proof.
  refine (invoke_is_bind_then_call 4%positive [BOOL_VAL true] exBind 25%positive
    (mkInstance 24%positive ∅)
    (mkClass 10%positive {[ 4%positive := OBJ_VAL 6%positive ]}) 6%positive
    (mkClosure 5%positive [] 0)
    (mkFunction 1 0 (mkChunk [x01; x21] [3; 3] []) (Some 4%positive)) _ _ _ _ _ _ _ _ _ _ _);
    try (vm_compute; reflexivity).
  - vm_compute. discriminate.
  - vm_compute. split; [discriminate|reflexivity].
  - vm_compute. discriminate.
Defined.

(** ** Superclass access *)

(** X10: [OP_GET_SUPER] and [OP_SUPER_INVOKE] pop the class on top of the
    stack and look the method up there: what the receiver below it is, and
    which class it has, plays no part.  [OP_GET_SUPER] replaces the receiver by
    a new bound method of the closure found; [OP_SUPER_INVOKE] calls the
    closure on the receiver and the arguments above it and goes on in the new
    frame. *)
Theorem super_lookup_in_popped_class frame s c name k kc cl :
  codeAt s frame 0 = Some c ->
  constAt s frame c = Some (OBJ_VAL name) ->
  index (stack s) (stackTop s - 1) = Some (OBJ_VAL k) ->
  heap s !! k = Some (OBJ_CLASS kc) ->
  methods kc !! name = Some (OBJ_VAL cl) ->
  (forall recv,
     index (stack s) (stackTop s - 2) = Some recv ->
     instr_op_get_super frame s =
     Done (Continue frame)
       (afterBind recv cl (set_stackTop (stackTop s - 1) (advance frame 1 s)))) /\
  (forall cc fn,
     codeAt s frame 1 = Some (arity fn) ->
     heap s !! cl = Some (OBJ_CLOSURE cc) ->
     heap s !! function cc = Some (OBJ_FUNCTION fn) ->
     0 <= frameCount s < Z.of_nat (length (frames s)) ->
     frameCount s ≠ FRAMES_MAX ->
     instr_op_super_invoke frame s =
     Done (Continue (frameCount s))
       (afterCall cl (arity fn) (set_stackTop (stackTop s - 1) (advance frame 2 s)))).
Proof.
  intros Hc Hn Hk Hkc Hm. split.
  - intros recv Hr. unfold instr_op_get_super. mdo (READ_STRING_eq _ _ _ _ Hc Hn).
    erewrite bind_Done; [|apply pop_eq; by rewrite stack_advance, stackTop_advance].
    cbv beta. mstep. rewrite stackTop_advance.
    erewrite bind_Done; cycle 1.
    { eapply bindMethod_found; vm_proj; [by rewrite heap_advance|done|].
      rewrite stack_advance. by replace (stackTop s - 1 - 1) with (stackTop s - 2) by lia. }
    done.
  - intros cc fn Ha Hcl Hfn Hfc Hmax. unfold instr_op_super_invoke.
    mdo (READ_STRING_eq _ _ _ _ Hc Hn).
    erewrite bind_Done; [|apply READ_BYTE_eq; by rewrite codeAt_advance]. cbv beta.
    rewrite advance_advance. replace (1 + 1) with 2 by lia.
    erewrite bind_Done; [|apply pop_eq; by rewrite stack_advance, stackTop_advance].
    cbv beta. mstep. rewrite stackTop_advance.
    erewrite bind_Done; cycle 1.
    { erewrite invokeFromClass_found; vm_proj; [|by rewrite heap_advance|done].
      eapply call_enter; vm_proj; rewrite ?heap_advance, ?frameCount_advance,
        ?length_frames_advance; done. }
    cbv beta. cbn [negb]. unfold reload_frame. mstep. unfold afterCall at 1. vm_proj.
    rewrite frameCount_advance. by replace (frameCount s + 1 - 1) with (frameCount s) by lia.
Qed.

Lemma super_lookup_in_popped_class_witness :
  instr_op_get_super 0
    (exProp 3 [OBJ_VAL 3%positive; BOOL_VAL true; OBJ_VAL 24%positive; NIL_VAL] 3) =
  Done (Continue 0)
    (afterBind (BOOL_VAL true) 6%positive
       (set_stackTop 2
          (advance 0 1
             (exProp 3 [OBJ_VAL 3%positive; BOOL_VAL true; OBJ_VAL 24%positive; NIL_VAL] 3)))).
Proof.
  refine (proj1 (super_lookup_in_popped_class 0
    (exProp 3 [OBJ_VAL 3%positive; BOOL_VAL true; OBJ_VAL 24%positive; NIL_VAL] 3)
    1 4%positive 24%positive
    (mkClass 10%positive {[ 4%positive := OBJ_VAL 6%positive ]}) 6%positive _ _ _ _ _)
    (BOOL_VAL true) _); vm_compute; reflexivity.
Defined.

(** ** A call and its return *)

Lemma closeUpvalues_noop fuel base s l :
  openList s l ->
  (forall p, p ∈ l -> p.2 < base) ->
  (0 < fuel)%nat ->
  closeUpvalues fuel base s = Done tt s.
Proof.
  intros Hl Hlt Hfuel. destruct fuel as [|fuel]; [lia|].
  cbn [closeUpvalues]. mstep. unfold openList in Hl.
  destruct l as [|[u k] l].
  - by apply openSeg_nil_inv in Hl as ->.
  - apply openSeg_cons_inv in Hl as (-> & c & nx & Hu & _).
    specialize (Hlt (u, k) (list_elem_of_here _ _)). cbn in Hlt.
    mdo (loadUpvalue_eq _ _ _ Hu). cbn [location ptr_ge]. mstep.
    by rewrite bool_decide_false by lia.
Qed.

(** X11: a call followed by the return of a result is a round trip on the
    frame stack.  From a machine whose open upvalues all lie below the callee,
    entering the closure, pushing [result] and executing [OP_RETURN] goes on
    in the caller's frame with the callee and its arguments replaced by
    [result]: [frameCount] is as before, [stackTop] has dropped by the number
    of arguments, the slots below the callee, the live frames, the heap, the
    globals and the open upvalues are unchanged. *)
Theorem call_then_return fuel cl c fn s result l :
  heap s !! cl = Some (OBJ_CLOSURE c) ->
  heap s !! function c = Some (OBJ_FUNCTION fn) ->
  1 <= frameCount s < Z.of_nat (length (frames s)) ->
  frameCount s ≠ FRAMES_MAX ->
  0 <= stackTop s - arity fn - 1 ->
  0 <= arity fn ->
  stackTop s < Z.of_nat (length (stack s)) ->
  openList s l ->
  (forall p, p ∈ l -> p.2 < stackTop s - arity fn - 1) ->
  (0 < fuel)%nat ->
  exists s',
    (call cl (arity fn);; push result;; instr_op_return fuel (frameCount s)) s
      = Done (Continue (frameCount s - 1)) s' /\
    frameCount s' = frameCount s /\
    stackTop s' = stackTop s - arity fn /\
    index (stack s') (stackTop s' - 1) = Some result /\
    (forall i, i < stackTop s - arity fn - 1 -> index (stack s') i = index (stack s) i) /\
    (forall j, j < frameCount s -> index (frames s') j = index (frames s) j) /\
    heap s' = heap s /\ globals s' = globals s /\ openUpvalues s' = openUpvalues s.
Proof.
  intros Hcl Hfn Hfc Hmax Hbase Har Htop Hl Hlt Hfuel.
  set (base := stackTop s - arity fn - 1) in *.
  set (fr := mkFrame cl 0 base).
  set (s1 := pushed result (afterCall cl (arity fn) s)).
  assert (index (frames s1) (frameCount s) = Some fr) as Hfr.
  { unfold s1, pushed, afterCall. vm_proj. apply index_insert_eq. lia. }
  exists (pushed result (set_stackTop base (set_frameCount (frameCount s) s1))).
  split_and!; [ | done | | | | | done | done | done].
  - erewrite bind_Done; [|eapply call_enter; [done|done|lia|done]]. cbv beta.
    erewrite bind_Done; [|apply push_eq; unfold afterCall; vm_proj; lia]. cbv beta.
    fold (pushed result (afterCall cl (arity fn) s)). fold s1.
    unfold instr_op_return.
    erewrite bind_Done; cycle 1.
    { apply pop_eq. unfold s1, pushed, afterCall. vm_proj.
      replace (stackTop s + 1 - 1) with (stackTop s) by lia. apply index_insert_eq. lia. }
    cbv beta.
    erewrite bind_Done; [|apply frames_get_eq; vm_proj; exact Hfr]. cbv beta.
    erewrite bind_Done; cycle 1.
    { apply (closeUpvalues_noop _ _ _ l); [exact Hl| |done]. cbn [slots fr]. exact Hlt. }
    cbv beta. mstep. mstep.
    assert (frameCount s1 = frameCount s + 1) as Hfc1 by done.
    rewrite Hfc1. replace (frameCount s + 1 - 1) with (frameCount s) by lia.
    rewrite decide_False by lia.
    erewrite bind_Done; [|apply frames_get_eq; vm_proj; exact Hfr]. cbv beta. mstep.
    cbn [slots fr].
    erewrite bind_Done; cycle 1.
    { apply push_eq. vm_proj. unfold s1, pushed, afterCall. vm_proj.
      rewrite length_insert. lia. }
    cbv beta. unfold reload_frame. mstep.
    match goal with |- _ ?t = Done _ ?t' => enough (t = t') as -> by reflexivity end.
    apply VM_ext; unfold pushed; vm_proj; done.
  - unfold pushed at 1. vm_proj. unfold base. lia.
  - unfold pushed at 1 2. vm_proj.
    replace (base + 1 - 1) with base by lia. apply index_insert_eq.
    unfold s1, pushed, afterCall. vm_proj. rewrite length_insert. lia.
  - intros i Hi. unfold pushed at 1. vm_proj.
    destruct (decide (0 <= i)) as [Hi0|Hi0]; [|unfold index; by rewrite !decide_False].
    rewrite index_insert_ne by lia. unfold s1, pushed, afterCall. vm_proj.
    apply index_insert_ne; lia.
  - intros j Hj. unfold pushed at 1. vm_proj. unfold s1, pushed, afterCall. vm_proj.
    destruct (decide (0 <= j)) as [Hj0|Hj0]; [|unfold index; by rewrite !decide_False].
    apply index_insert_ne; lia.
Qed.

Lemma call_then_return_witness :
  exists s',
    (call 6%positive 1;; push NIL_VAL;; instr_op_return 1 1)
      (exScript 2 [OBJ_VAL 3%positive; OBJ_VAL 6%positive; BOOL_VAL true; NIL_VAL; NIL_VAL] 3)
      = Done (Continue 0) s' /\
    frameCount s' = 1 /\
    stackTop s' = 2 /\
    index (stack s') (stackTop s' - 1) = Some NIL_VAL /\
    (forall i, i < 1 -> index (stack s') i =
       index [OBJ_VAL 3%positive; OBJ_VAL 6%positive; BOOL_VAL true; NIL_VAL; NIL_VAL] i) /\
    (forall j, j < 1 ->
       index (frames s') j =
       index (mkFrame 3%positive 2 0 :: replicate 63 (mkFrame 3%positive 0 0)) j) /\
    heap s' = exHeap /\ globals s' = ∅ /\ openUpvalues s' = None.
Proof.
  refine (call_then_return 1 6%positive (mkClosure 5%positive [] 0)
    (mkFunction 1 0 (mkChunk [x01; x21] [3; 3] []) (Some 4%positive))
    (exScript 2 [OBJ_VAL 3%positive; OBJ_VAL 6%positive; BOOL_VAL true; NIL_VAL; NIL_VAL] 3)
    NIL_VAL [] _ _ _ _ _ _ _ _ _ _); try (vm_compute; reflexivity).
  - vm_compute. split; [discriminate|reflexivity].
  - vm_compute. discriminate.
  - vm_compute. discriminate.
  - vm_compute. discriminate.
  - constructor.
  - by intros p ?%elem_of_nil.
Defined.

(** ** Decoding an instruction *)

Lemma DISPATCH_eq fuel frame s op h :
  codeAt s frame 0 = Some op ->
  0 <= stackTop s <= Z.of_nat (length (stack s)) ->
  index (dispatchTable fuel frame) op = Some h ->
  DISPATCH fuel frame s = h (advance frame 1 (traced frame s)).
Proof.
  intros Hop Htop Hh. unfold DISPATCH.
  erewrite bind_Done; [|by apply PRINT_TRACE_eq]. cbv beta.
  erewrite bind_Done; [|apply READ_BYTE_eq; by rewrite codeAt_traced]. cbv beta.
  rewrite Hh. by mstep.
Qed.

(** X12: [DISPATCH] prints the trace (the live stack slots and the
    instruction at [frame->ip]), reads the byte at [frame->ip], moves [ip]
    past it and jumps to the entry of [dispatchTable] with that index.  The
    table has 37 entries and the index is not checked: a byte of 37 or more
    makes the jump read past the table, which is undefined behaviour. *)
Theorem dispatch_opcode_unchecked fuel frame s op :
  codeAt s frame 0 = Some op ->
  (forall h, index (dispatchTable fuel frame) op = Some h ->
             0 <= stackTop s <= Z.of_nat (length (stack s)) ->
             DISPATCH fuel frame s = h (advance frame 1 (traced frame s)) /\
             stdout (advance frame 1 (traced frame s)) = stdout s ++ traceOf s frame) /\
  (op < 37 -> is_Some (index (dispatchTable fuel frame) op)) /\
  (37 <= op -> DISPATCH fuel frame s = Undef).
Proof.
  intros Hop. split; [|split].
  - intros h Hh Htop. split; [by eapply DISPATCH_eq|]. by rewrite advance_traced.
  - intros Hlt. apply index_is_Some. apply codeAt_range in Hop.
    cbn [dispatchTable length]. lia.
  - intros Hge. unfold DISPATCH.
    destruct (PRINT_TRACE_cases frame s) as [H|H]; [by rewrite (bind_Undef _ _ _ H)|].
    rewrite (bind_Done _ _ _ _ _ H).
    erewrite bind_Done; [|apply READ_BYTE_eq; by rewrite codeAt_traced]. cbv beta.
    unfold index. case_decide; [|done].
    rewrite lookup_ge_None_2; [done|]. cbn [dispatchTable length]. lia.
Qed.

Lemma dispatch_opcode_unchecked_witness :
  is_Some (index (dispatchTable 1 0) 12) /\
  DISPATCH 1 0 (exProg 0 [OBJ_VAL 3%positive; NIL_VAL; BOOL_VAL true; NIL_VAL] 3) =
  instr_op_set_local 0
    (advance 0 1
       (traced 0 (exProg 0 [OBJ_VAL 3%positive; NIL_VAL; BOOL_VAL true; NIL_VAL] 3))).
Proof.
  split.
  - refine (proj1 (proj2 (dispatch_opcode_unchecked 1 0
      (exProg 0 [OBJ_VAL 3%positive; NIL_VAL; BOOL_VAL true; NIL_VAL] 3) 12 _)) _);
      [vm_compute; reflexivity|lia].
  - refine (proj1 (proj1 (dispatch_opcode_unchecked 1 0
      (exProg 0 [OBJ_VAL 3%positive; NIL_VAL; BOOL_VAL true; NIL_VAL] 3) 12 _) _ _ _));
      [vm_compute; reflexivity|reflexivity|vm_compute; split; discriminate].
Defined.

(** ** Local variables *)

Lemma codeAt_set_stack x s frame k : codeAt (set_stack x s) frame k = codeAt s frame k.
Proof. reflexivity. Qed.

Lemma codeAt_set_stackTop x s frame k : codeAt (set_stackTop x s) frame k = codeAt s frame k.
Proof. reflexivity. Qed.

Lemma codeAt_set_globals x s frame k : codeAt (set_globals x s) frame k = codeAt s frame k.
Proof. reflexivity. Qed.

Lemma constAt_set_stack x s frame k : constAt (set_stack x s) frame k = constAt s frame k.
Proof. reflexivity. Qed.

Lemma constAt_set_stackTop x s frame k : constAt (set_stackTop x s) frame k = constAt s frame k.
Proof. reflexivity. Qed.

Lemma constAt_set_globals x s frame k : constAt (set_globals x s) frame k = constAt s frame k.
Proof. reflexivity. Qed.

Lemma instr_op_set_local_eq frame s slot v fr :
  codeAt s frame 0 = Some slot ->
  index (stack s) (stackTop s - 1) = Some v ->
  index (frames s) frame = Some fr ->
  0 <= slots fr + slot < Z.of_nat (length (stack s)) ->
  instr_op_set_local frame s =
  Done (Continue frame)
    (set_stack (<[Z.to_nat (slots fr + slot) := v]> (stack s)) (advance frame 1 s)).
Proof.
  intros Hc Hv Hfr Hr. unfold instr_op_set_local. mdo (READ_BYTE_eq _ _ _ Hc).
  erewrite bind_Done;
    [|apply peek_eq; by rewrite Z.sub_0_r, stack_advance, stackTop_advance]. cbv beta.
  erewrite bind_Done; [|apply frames_get_eq; by apply index_frames_advance]. cbv beta.
  cbn [slots].
  erewrite bind_Done; [|apply stack_put_eq; by rewrite stack_advance]. cbv beta.
  by rewrite stack_advance.
Qed.

Lemma instr_op_get_local_eq frame s slot v fr :
  codeAt s frame 0 = Some slot ->
  index (frames s) frame = Some fr ->
  index (stack s) (slots fr + slot) = Some v ->
  0 <= stackTop s < Z.of_nat (length (stack s)) ->
  instr_op_get_local frame s = Done (Continue frame) (pushed v (advance frame 1 s)).
Proof.
  intros Hc Hfr Hv Hr. unfold instr_op_get_local. mdo (READ_BYTE_eq _ _ _ Hc).
  erewrite bind_Done; [|apply frames_get_eq; by apply index_frames_advance]. cbv beta.
  cbn [slots].
  erewrite bind_Done; [|apply stack_get_eq; by rewrite stack_advance]. cbv beta.
  erewrite bind_Done; [|apply push_eq; by rewrite stack_advance, stackTop_advance]. done.
Qed.

(** X13: [OP_SET_LOCAL n] followed by [OP_GET_LOCAL n] is a round trip on slot
    [n] of the current frame, counted from [frame->slots]: the assignment
    copies the top of the stack into the slot without popping it, and the read
    pushes that value again. *)
Theorem set_local_then_get_local fuel frame s slot v fr :
  codeAt s frame 0 = Some 12 ->
  codeAt s frame 1 = Some slot ->
  codeAt s frame 2 = Some 11 ->
  codeAt s frame 3 = Some slot ->
  index (stack s) (stackTop s - 1) = Some v ->
  index (frames s) frame = Some fr ->
  0 <= slots fr + slot < Z.of_nat (length (stack s)) ->
  stackTop s < Z.of_nat (length (stack s)) ->
  let s1 := set_stack (<[Z.to_nat (slots fr + slot) := v]> (stack s))
              (advance frame 2 (traced frame s)) in
  DISPATCH fuel frame s = Done (Continue frame) s1 /\
  stackTop s1 = stackTop s /\
  index (stack s1) (slots fr + slot) = Some v /\
  (forall i, i ≠ slots fr + slot -> index (stack s1) i = index (stack s) i) /\
  (DISPATCH fuel frame;; DISPATCH fuel frame) s =
    Done (Continue frame) (pushed v (advance frame 2 (traced frame s1))).
Proof.
  intros H0 H1 H2 H3 Hv Hfr Hr Htop s1.
  pose proof (index_lt _ _ _ Hv) as Hv'.
  assert (DISPATCH fuel frame s = Done (Continue frame) s1) as Hd1.
  { erewrite DISPATCH_eq; [|exact H0|lia|reflexivity].
    erewrite instr_op_set_local_eq; rewrite ?stack_advance, ?stackTop_advance;
      [|by rewrite codeAt_advance|done|by apply index_frames_advance|done].
    cbn [slots]. by rewrite advance_advance. }
  assert (index (stack s1) (slots fr + slot) = Some v) as Hs1.
  { unfold s1. vm_proj. by apply index_insert_eq. }
  split_and!.
  - done.
  - unfold s1. vm_proj. by rewrite stackTop_advance.
  - done.
  - intros i Hi. unfold s1. vm_proj. rewrite index_insert_ne by lia. done.
  - erewrite bind_Done; [|exact Hd1]. cbv beta.
    assert (codeAt s1 frame 0 = Some 11) as H2' by (unfold s1; by rewrite codeAt_set_stack, codeAt_advance).
    assert (codeAt s1 frame 1 = Some slot) as H3' by (unfold s1; by rewrite codeAt_set_stack, codeAt_advance).
    assert (index (frames s1) frame = Some (mkFrame (closure fr) (ip fr + 2) (slots fr)))
      as Hfr1 by (unfold s1; vm_proj; by apply index_frames_advance).
    erewrite DISPATCH_eq; [|exact H2'| |reflexivity]; cycle 1.
    { unfold s1. vm_proj. rewrite length_insert, stackTop_advance, stackTop_traced. lia. }
    erewrite instr_op_get_local_eq;
      [|by rewrite codeAt_advance|by apply index_frames_advance| |].
    + by rewrite advance_advance.
    + cbn [slots]. by rewrite stack_advance.
    + rewrite stack_advance, stackTop_advance, stack_traced, stackTop_traced.
      unfold s1. vm_proj.
      rewrite length_insert, stackTop_advance, stackTop_traced. lia.
Qed.

Lemma set_local_then_get_local_witness :
  (DISPATCH 1 0;; DISPATCH 1 0)
    (exProg 0 [OBJ_VAL 3%positive; NIL_VAL; BOOL_VAL true; NIL_VAL] 3) =
  Done (Continue 0)
    (pushed (BOOL_VAL true)
       (advance 0 2
          (traced 0
             (set_stack (<[Z.to_nat (0 + 1) := BOOL_VAL true]>
                           [OBJ_VAL 3%positive; NIL_VAL; BOOL_VAL true; NIL_VAL])
                (advance 0 2
                   (traced 0
                      (exProg 0 [OBJ_VAL 3%positive; NIL_VAL; BOOL_VAL true; NIL_VAL]
                         3))))))).
Proof.
  refine (proj2 (proj2 (proj2 (proj2 (set_local_then_get_local 1 0
    (exProg 0 [OBJ_VAL 3%positive; NIL_VAL; BOOL_VAL true; NIL_VAL] 3) 1 (BOOL_VAL true)
    (mkFrame 3%positive 0 0) _ _ _ _ _ _ _ _))))); try (vm_compute; reflexivity).
  vm_compute. split; [discriminate|reflexivity].
Defined.

(** ** Global variables *)

Lemma instr_op_define_global_eq frame s c name v :
  codeAt s frame 0 = Some c ->
  constAt s frame c = Some (OBJ_VAL name) ->
  index (stack s) (stackTop s - 1) = Some v ->
  instr_op_define_global frame s =
  Done (Continue frame)
    (set_stackTop (stackTop s - 1)
       (set_globals (<[name := v]> (globals s)) (advance frame 1 s))).
Proof.
  intros Hc Hn Hv. unfold instr_op_define_global. mdo (READ_STRING_eq _ _ _ _ Hc Hn).
  erewrite bind_Done;
    [|apply peek_eq; by rewrite Z.sub_0_r, stack_advance, stackTop_advance]. cbv beta.
  mstep. cbn [tableSet fst].
  erewrite bind_Done; [|apply pop_eq; vm_proj; by rewrite stack_advance, stackTop_advance].
  cbv beta. vm_proj. by rewrite globals_advance, stackTop_advance.
Qed.

Lemma instr_op_get_global_eq frame s c name :
  codeAt s frame 0 = Some c ->
  constAt s frame c = Some (OBJ_VAL name) ->
  instr_op_get_global frame s =
  match globals s !! name with
  | None =>
      (str ← loadString name;
       runtimeError ("Undefined variable '" +:+ cString (chars str) +:+ "'.");;
       mret (Return INTERPRET_RUNTIME_ERROR)) (advance frame 1 s)
  | Some value => (push value;; mret (Continue frame)) (advance frame 1 s)
  end.
Proof.
  intros Hc Hn. unfold instr_op_get_global. mdo (READ_STRING_eq _ _ _ _ Hc Hn).
  mstep. unfold tableGet. rewrite globals_advance. by destruct (globals s !! name).
Qed.

(** X14: [OP_DEFINE_GLOBAL name] followed by [OP_GET_GLOBAL name] is a round
    trip: the definition pops the value and binds the name to it, whether or
    not the name was bound before, and the read pushes the value again; when
    both have run, the stack is as it was and the table differs in that one
    entry. *)
Theorem define_global_then_get_global fuel frame s c name v :
  codeAt s frame 0 = Some 14 ->
  codeAt s frame 1 = Some c ->
  codeAt s frame 2 = Some 13 ->
  codeAt s frame 3 = Some c ->
  constAt s frame c = Some (OBJ_VAL name) ->
  index (stack s) (stackTop s - 1) = Some v ->
  let s1 := set_stackTop (stackTop s - 1)
              (set_globals (<[name := v]> (globals s)) (advance frame 2 (traced frame s))) in
  DISPATCH fuel frame s = Done (Continue frame) s1 /\
  exists s2,
    (DISPATCH fuel frame;; DISPATCH fuel frame) s = Done (Continue frame) s2 /\
    s2 = pushed v (advance frame 2 (traced frame s1)) /\
    globals s2 = <[name := v]> (globals s) /\
    stack s2 = stack s /\ stackTop s2 = stackTop s /\ heap s2 = heap s.
Proof.
  intros H0 H1 H2 H3 Hn Hv s1.
  pose proof (index_lt _ _ _ Hv) as Hv'.
  assert (DISPATCH fuel frame s = Done (Continue frame) s1) as Hd1.
  { erewrite DISPATCH_eq; [|exact H0|lia|reflexivity].
    erewrite instr_op_define_global_eq; cycle 1.
    { by rewrite codeAt_advance. }
    { by rewrite constAt_advance. }
    { by rewrite stack_advance, stackTop_advance. }
    by rewrite advance_advance, stackTop_advance, globals_advance. }
  split; [done|]. exists (pushed v (advance frame 2 (traced frame s1))).
  split_and!; try done.
  - erewrite bind_Done; [|exact Hd1]. cbv beta.
    erewrite (DISPATCH_eq fuel frame _ 13); [| | |reflexivity]; cycle 1.
    { unfold s1. by rewrite codeAt_set_stackTop, codeAt_set_globals, codeAt_advance. }
    { unfold s1. vm_proj. rewrite stack_advance, stack_traced. lia. }
    erewrite instr_op_get_global_eq; cycle 1.
    { rewrite codeAt_advance, codeAt_traced. unfold s1.
      by rewrite codeAt_set_stackTop, codeAt_set_globals, codeAt_advance. }
    { rewrite constAt_advance, constAt_traced. unfold s1.
      by rewrite constAt_set_stackTop, constAt_set_globals, constAt_advance. }
    rewrite globals_advance, globals_traced. unfold s1 at 1. vm_proj.
    rewrite lookup_insert_eq.
    erewrite bind_Done; cycle 1.
    { apply push_eq. rewrite !stack_advance, !stackTop_advance, stack_traced, stackTop_traced.
      unfold s1. vm_proj. rewrite stack_advance, stack_traced. lia. }
    by rewrite advance_advance.
  - unfold pushed. vm_proj. rewrite globals_advance, globals_traced. done.
  - unfold pushed. vm_proj.
    rewrite stack_advance, stackTop_advance, stack_traced, stackTop_traced.
    unfold s1. vm_proj.
    rewrite stack_advance, stack_traced. apply list_insert_id.
    by apply index_Some in Hv as [_ Hv].
  - unfold pushed. vm_proj. rewrite stackTop_advance, stackTop_traced. unfold s1. vm_proj. lia.
  - unfold pushed. vm_proj. rewrite heap_advance, heap_traced. unfold s1. vm_proj.
    by rewrite heap_advance, heap_traced.
Qed.

Lemma define_global_then_get_global_witness :
  exists s2,
    (DISPATCH 1 0;; DISPATCH 1 0)
      (exProg 4 [OBJ_VAL 3%positive; NIL_VAL; BOOL_VAL true; NIL_VAL] 3) =
      Done (Continue 0) s2 /\
    globals s2 = <[11%positive := BOOL_VAL true]> ∅ /\
    stack s2 = [OBJ_VAL 3%positive; NIL_VAL; BOOL_VAL true; NIL_VAL] /\
    stackTop s2 = 3.
Proof.
  destruct (proj2 (define_global_then_get_global 1 0
    (exProg 4 [OBJ_VAL 3%positive; NIL_VAL; BOOL_VAL true; NIL_VAL] 3) 0 11%positive
    (BOOL_VAL true) eq_refl eq_refl eq_refl eq_refl eq_refl eq_refl))
    as (s2 & Hrun & _ & Hg & Hst & Htop & _).
  exists s2. split_and!; assumption.
Defined.

Lemma cString_nulFree cs : nulFree cs = true -> cString cs = cs.
Proof.
  induction cs as [|c cs IH]; [done|]. cbn [nulFree cString].
  intros [Hc Hcs]%andb_prop. destruct (Ascii.eqb c Ascii.zero); [done|]. by rewrite IH.
Qed.

Lemma cString_nul a b : nulFree a = true -> cString (a +:+ String Ascii.zero b) = a.
Proof.
  induction a as [|c a IH]; [done|]. cbn [nulFree].
  intros [Hc Ha]%andb_prop.
  change (String c a +:+ String Ascii.zero b) with (String c (a +:+ String Ascii.zero b)).
  cbn [cString]. destruct (Ascii.eqb c Ascii.zero); [done|]. by rewrite IH.
Qed.

(** X15: [OP_GET_GLOBAL] of a name that is not in the globals table is the
    runtime error "Undefined variable" with the name as [%s] writes it: all
    of it when it has no NUL character, and the part before the first NUL
    otherwise.  Nothing is pushed, the stacks are reset and the table stays
    as it was. *)
Theorem get_global_undefined frame s c name str t :
  codeAt s frame 0 = Some c ->
  constAt s frame c = Some (OBJ_VAL name) ->
  globals s !! name = None ->
  heap s !! name = Some (OBJ_STRING str) ->
  frameCount s <= Z.of_nat (length (frames s)) ->
  stackTrace (advance frame 1 s) = Some t ->
  (exists s',
     instr_op_get_global frame s = Done (Return INTERPRET_RUNTIME_ERROR) s' /\
     s' = afterError (undefinedVariable str) t (advance frame 1 s) /\
     stackTop s' = 0 /\ frameCount s' = 0 /\ globals s' = globals s) /\
  (nulFree (chars str) = true ->
     undefinedVariable str = "Undefined variable '" +:+ chars str +:+ "'.") /\
  (forall a b, nulFree a = true -> chars str = a +:+ String Ascii.zero b ->
     undefinedVariable str = "Undefined variable '" +:+ a +:+ "'.").
Proof.
  intros Hc Hn Hg Hname Hfc Ht. split; [|split].
  - eexists. split; [|split; [reflexivity|]].
    + rewrite (instr_op_get_global_eq _ _ _ _ Hc Hn), Hg.
      erewrite bind_Done; [|apply loadString_eq; by rewrite heap_advance]. cbv beta.
      erewrite bind_Done; [|by apply runtimeError_eq; [apply length_frames_advance_le|]].
      done.
    + unfold afterError. vm_proj. by rewrite globals_advance.
  - intros Hfree. unfold undefinedVariable. by rewrite cString_nulFree.
  - intros a b Ha Hab. unfold undefinedVariable. by rewrite Hab, cString_nul.
Qed.

Lemma get_global_undefined_witness :
  (exists s',
     instr_op_get_global 0 exNul = Done (Return INTERPRET_RUNTIME_ERROR) s' /\
     s' = afterError "Undefined variable 'a'." ("[line 2] in script" +:+ newline)
            (advance 0 1 exNul) /\
     stackTop s' = 0 /\ frameCount s' = 0 /\ globals s' = ∅) /\
  undefinedVariable (mkString ("a" +:+ String Ascii.zero "b")) = "Undefined variable 'a'.".
Proof.
  pose proof (get_global_undefined 0 exNul 0 11%positive
    (mkString ("a" +:+ String Ascii.zero "b")) ("[line 2] in script" +:+ newline)
    eq_refl eq_refl eq_refl eq_refl) as H.
  destruct H as (H1 & _ & H3); [vm_compute; discriminate|vm_compute; reflexivity|].
  split; [exact H1|]. exact (H3 "a" "b" eq_refl eq_refl).
Defined.

(** ** Arithmetic and comparison *)

Lemma BINARY_OP_numbers valueType (k : M Next) s a b :
  index (stack s) (stackTop s - 1) = Some (NUMBER_VAL b) ->
  index (stack s) (stackTop s - 2) = Some (NUMBER_VAL a) ->
  BINARY_OP valueType k s = k (replaceTop2 (valueType a b) s).
Proof.
  intros Hb Ha. unfold BINARY_OP.
  erewrite bind_Done; [|apply peek_eq; by rewrite Z.sub_0_r]. cbv beta. cbn [IS_NUMBER negb].
  erewrite bind_Done; cycle 1.
  { erewrite bind_Done; [reflexivity|]. apply peek_eq.
    by replace (stackTop s - 1 - 1) with (stackTop s - 2) by lia. }
  cbv beta iota. cbn [IS_NUMBER negb].
  mdo (pop_eq _ _ Hb). mstep.
  erewrite bind_Done; cycle 1.
  { apply pop_eq. vm_proj. by replace (stackTop s - 1 - 1) with (stackTop s - 2) by lia. }
  cbv beta. mstep.
  erewrite bind_Done; cycle 1.
  { apply push_eq. vm_proj. apply index_lt in Ha. lia. }
  cbv beta. f_equal. apply VM_ext; unfold replaceTop2; vm_proj; try done.
  - by replace (stackTop s - 1 - 1) with (stackTop s - 2) by lia.
  - lia.
Qed.

Lemma BINARY_OP_error valueType (k : M Next) s vb t :
  index (stack s) (stackTop s - 1) = Some vb ->
  IS_NUMBER vb = false \/
    (exists va, index (stack s) (stackTop s - 2) = Some va /\ IS_NUMBER va = false) ->
  frameCount s <= Z.of_nat (length (frames s)) ->
  stackTrace s = Some t ->
  BINARY_OP valueType k s =
  Done (Return INTERPRET_RUNTIME_ERROR) (afterError "Operands must be numbers." t s).
Proof.
  intros Hb Hbad Hfc Ht. unfold BINARY_OP.
  erewrite bind_Done; [|apply peek_eq; by rewrite Z.sub_0_r]. cbv beta.
  destruct (IS_NUMBER vb) eqn:Hvb; cbn [negb].
  - destruct Hbad as [?|(va & Ha & Hva)]; [done|].
    erewrite bind_Done; cycle 1.
    { erewrite bind_Done; [reflexivity|]. apply peek_eq.
      by replace (stackTop s - 1 - 1) with (stackTop s - 2) by lia. }
    cbv beta. rewrite Hva. cbn [negb].
    by mdo (runtimeError_eq "Operands must be numbers." s t Hfc Ht).
  - mstep. by mdo (runtimeError_eq "Operands must be numbers." s t Hfc Ht).
Qed.

(** X16: the binary operators take the value on top of the stack as the
    right operand and the one below it as the left operand, and replace the
    two by the result: [a - b], [a * b], [a / b], [a > b], [a < b].  When
    either of the two is not a number all five raise the runtime error
    "Operands must be numbers."; the top of the stack is tested first, so the
    value below is not read when the top is not a number. *)
Theorem binary_operand_order frame s vb :
  index (stack s) (stackTop s - 1) = Some vb ->
  (forall a b,
     vb = NUMBER_VAL b ->
     index (stack s) (stackTop s - 2) = Some (NUMBER_VAL a) ->
     instr_op_subtract frame s
       = Done (Continue frame) (replaceTop2 (NUMBER_VAL (a - b)%float) s) /\
     instr_op_multiply frame s
       = Done (Continue frame) (replaceTop2 (NUMBER_VAL (a * b)%float) s) /\
     instr_op_divide frame s
       = Done (Continue frame) (replaceTop2 (NUMBER_VAL (a / b)%float) s) /\
     instr_op_greater frame s
       = Done (Continue frame) (replaceTop2 (BOOL_VAL (b <? a)%float) s) /\
     instr_op_less frame s
       = Done (Continue frame) (replaceTop2 (BOOL_VAL (a <? b)%float) s)) /\
  (IS_NUMBER vb = false \/
     (exists va, index (stack s) (stackTop s - 2) = Some va /\ IS_NUMBER va = false) ->
   forall t,
     frameCount s <= Z.of_nat (length (frames s)) ->
     stackTrace s = Some t ->
     Forall (fun handler : M Next =>
               handler s = Done (Return INTERPRET_RUNTIME_ERROR)
                             (afterError "Operands must be numbers." t s))
       [instr_op_subtract frame; instr_op_multiply frame; instr_op_divide frame;
        instr_op_greater frame; instr_op_less frame]).
Proof.
  intros Hb. split.
  - intros a b -> Ha.
    unfold instr_op_subtract, instr_op_multiply, instr_op_divide, instr_op_greater,
      instr_op_less.
    split_and!; by erewrite BINARY_OP_numbers.
  - intros Hbad t Hfc Ht.
    unfold instr_op_subtract, instr_op_multiply, instr_op_divide, instr_op_greater,
      instr_op_less.
    repeat (apply Forall_cons_2; [by eapply BINARY_OP_error|]). constructor.
Qed.

#[local] Set Warnings "-inexact-float".

Lemma binary_operand_order_witness :
  instr_op_subtract 0 (exProg 8 [OBJ_VAL 3%positive; NUMBER_VAL 5; NUMBER_VAL 3; NIL_VAL] 3)
    = Done (Continue 0)
        (replaceTop2 (NUMBER_VAL (5 - 3)%float)
           (exProg 8 [OBJ_VAL 3%positive; NUMBER_VAL 5; NUMBER_VAL 3; NIL_VAL] 3)) /\
  (5 - 3)%float = 2%float.
Proof.
  split; [|vm_compute; reflexivity].
  refine (proj1 (proj1 (binary_operand_order 0
    (exProg 8 [OBJ_VAL 3%positive; NUMBER_VAL 5; NUMBER_VAL 3; NIL_VAL] 3) (NUMBER_VAL 3) _)
    5%float 3%float eq_refl _)); vm_compute; reflexivity.
Defined.

(** ** Negation *)

Lemma isFalsey_nilOrFalse v : isFalsey v = true <-> nilOrFalse v.
Proof.
  unfold nilOrFalse. destruct v as [|b| |].
  - split; [by left|done].
  - destruct b; cbn; split; try done.
    + by intros [?|?].
    + by right.
  - split; [done|by intros [?|?]].
  - split; [done|by intros [?|?]].
Qed.

(** X17: [OP_NOT] accepts every value and replaces it by a boolean that is
    true exactly for nil and false: numbers (zero too), strings and all other
    objects count as true.  [OP_NEGATE] replaces a number by its negation and
    raises the runtime error "Operand must be a number." on anything else. *)
Theorem not_and_negate frame s v :
  index (stack s) (stackTop s - 1) = Some v ->
  instr_op_not frame s = Done (Continue frame) (replaceTop 1 (BOOL_VAL (isFalsey v)) s) /\
  (isFalsey v = true <-> nilOrFalse v) /\
  (forall d, v = NUMBER_VAL d ->
     instr_op_negate frame s
       = Done (Continue frame) (replaceTop 1 (NUMBER_VAL (- d)%float) s)) /\
  (IS_NUMBER v = false ->
   forall t,
     frameCount s <= Z.of_nat (length (frames s)) ->
     stackTrace s = Some t ->
     instr_op_negate frame s
       = Done (Return INTERPRET_RUNTIME_ERROR) (afterError "Operand must be a number." t s)).
Proof.
  intros Hv. split_and!.
  - unfold instr_op_not. mdo (pop_eq _ _ Hv).
    erewrite bind_Done; [done|]. rewrite push_eq; vm_proj; [done|].
    apply index_lt in Hv. lia.
  - apply isFalsey_nilOrFalse.
  - intros d ->. unfold instr_op_negate.
    erewrite bind_Done; [|apply peek_eq; by rewrite Z.sub_0_r]. cbv beta.
    cbn [IS_NUMBER negb]. mdo (pop_eq _ _ Hv). mstep.
    erewrite bind_Done; [done|]. rewrite push_eq; vm_proj; [done|].
    apply index_lt in Hv. lia.
  - intros Hn t Hfc Ht. unfold instr_op_negate.
    erewrite bind_Done; [|apply peek_eq; by rewrite Z.sub_0_r]. cbv beta.
    rewrite Hn. cbn [negb].
    by mdo (runtimeError_eq "Operand must be a number." s t Hfc Ht).
Qed.

Lemma not_and_negate_witness :
  instr_op_not 0 (exProg 9 [OBJ_VAL 3%positive; NUMBER_VAL 0; NIL_VAL] 2)
    = Done (Continue 0)
        (replaceTop 1 (BOOL_VAL false) (exProg 9 [OBJ_VAL 3%positive; NUMBER_VAL 0; NIL_VAL] 2)).
Proof.
  refine (proj1 (not_and_negate 0 (exProg 9 [OBJ_VAL 3%positive; NUMBER_VAL 0; NIL_VAL] 2)
    (NUMBER_VAL 0) _)). vm_compute. reflexivity.
Defined.

(** ** Objects outlive the run *)

Create HintDb resp discriminated.

Lemma objExt_refl o : objExt o o.
Proof. destruct o; cbn; auto. Qed.

Lemma objExt_trans o1 o2 o3 : objExt o1 o2 -> objExt o2 o3 -> objExt o1 o3.
Proof.
  destruct o1, o2; try done; destruct o3; try done; cbn.
  - congruence.
  - intros [-> H1] [-> H2]. split; [done|set_solver].
  - intros (-> & -> & ->) (-> & -> & ->). done.
  - congruence.
  - intros [-> H1] [-> H2]. split; [done|set_solver].
  - congruence.
  - congruence.
  - auto.
Qed.

Lemma heapExt_refl h : heapExt h h.
Proof. intros a o Ho. exists o. split; [done|apply objExt_refl]. Qed.

Lemma heapExt_trans h1 h2 h3 : heapExt h1 h2 -> heapExt h2 h3 -> heapExt h1 h3.
Proof.
  intros H12 H23 a o Ho. destruct (H12 a o Ho) as (o2 & Ho2 & He2).
  destruct (H23 a o2 Ho2) as (o3 & Ho3 & He3). exists o3. split; [done|].
  by eapply objExt_trans.
Qed.

Lemma heapExt_store h a o o' :
  h !! a = Some o -> objExt o o' -> heapExt h (<[a := o']> h).
Proof.
  intros Ha He b x Hb. destruct (decide (a = b)) as [<-|Hne].
  - rewrite Ha in Hb. injection Hb as <-. exists o'. by rewrite lookup_insert_eq.
  - exists x. rewrite lookup_insert_ne by done. split; [done|apply objExt_refl].
Qed.

Lemma heapExt_alloc h a o : h !! a = None -> heapExt h (<[a := o]> h).
Proof.
  intros Ha b x Hb. exists x. split; [|apply objExt_refl].
  rewrite lookup_insert_ne; [done|]. intros ->. by rewrite Ha in Hb.
Qed.

Section respects.
Context {A B : Type}.

Lemma respects_ret (a : A) : respects (mret a).
Proof. intros s a' s' [= <- <-]. apply heapExt_refl. Qed.

Lemma respects_bind (m : M A) (f : A -> M B) :
  respects m -> (forall a, respects (f a)) -> respects (m ≫= f).
Proof.
  intros Hm Hf s b s' (a & s1 & H1 & H2)%bind_inv.
  eapply heapExt_trans; [by eapply Hm|by eapply Hf].
Qed.

Lemma respects_gets (f : VM -> A) : respects (gets f).
Proof. intros s a s' [= <- <-]. apply heapExt_refl. Qed.

Lemma respects_lift (o : option A) : respects (lift o).
Proof. intros s a s' [_ ->]%lift_inv. apply heapExt_refl. Qed.

Lemma respects_undefined : respects (undefined (A:=A)).
Proof. intros s a s' [=]. Qed.

Lemma respects_out_of_fuel : respects (out_of_fuel (A:=A)).
Proof. intros s a s' [=]. Qed.
End respects.

Lemma respects_modify (f : VM -> VM) :
  (forall s, heap (f s) = heap s) -> respects (modify f).
Proof. intros Hf s a s' [= _ <-]. rewrite Hf. apply heapExt_refl. Qed.

#[local] Hint Resolve respects_ret respects_gets respects_lift respects_undefined
  respects_out_of_fuel : resp.

(** Structural descent through a computation, down to the store sites. *)
Ltac resp :=
  lazymatch goal with
  | |- respects (_ ≫= _) => apply respects_bind; [resp | intros; resp]
  | |- respects (if ?b then _ else _) => destruct b; resp
  | |- respects (match ?x with _ => _ end) => destruct x; resp
  | |- respects (modify _) => apply respects_modify; intros; reflexivity
  | |- respects ?m =>
      first [ solve [auto with resp]
            | let h := head_of m in progress unfold h; resp ]
  end.

Lemma respects_allocateObject o : respects (allocateObject o).
Proof. intros s a s' [= _ <-]. apply heapExt_alloc, fresh_heap. Qed.
#[local] Hint Resolve respects_allocateObject : resp.

Lemma loadClass_inv a s x s' :
  loadClass a s = Done x s' -> s' = s /\ heap s !! a = Some (OBJ_CLASS x).
Proof.
  intros (o & s0 & Ho & Hx)%bind_inv.
  apply bind_inv in Ho as (h & ? & [= <- <-] & [Ha ->]%lift_inv).
  destruct o; try done. by injection Hx as <- <-.
Qed.

Lemma loadInstance_inv a s x s' :
  loadInstance a s = Done x s' -> s' = s /\ heap s !! a = Some (OBJ_INSTANCE x).
Proof.
  intros (o & s0 & Ho & Hx)%bind_inv.
  apply bind_inv in Ho as (h & ? & [= <- <-] & [Ha ->]%lift_inv).
  destruct o; try done. by injection Hx as <- <-.
Qed.

Lemma respects_setMethod k n m : respects (setMethod k n m).
Proof.
  intros s a s' (c & s1 & [-> Hk]%loadClass_inv & [= _ <-])%bind_inv.
  vm_proj. eapply heapExt_store; [done|]. cbn. split; [done|]. set_solver.
Qed.

Lemma respects_setField i n x : respects (setField i n x).
Proof.
  intros s a s' (c & s1 & [-> Hk]%loadInstance_inv & [= _ <-])%bind_inv.
  vm_proj. eapply heapExt_store; [done|]. cbn. split; [done|]. set_solver.
Qed.

Lemma respects_setUpvalue cl i up : respects (setUpvalue cl i up).
Proof.
  intros s a s' (c & s1 & [-> Hk]%loadClosure_inv & Hst)%bind_inv.
  apply bind_inv in Hst as (ups & ? & [Hups ->]%lift_inv & [= _ <-]).
  vm_proj. eapply heapExt_store; [done|]. cbn. split_and!; [done..|].
  unfold update in Hups. case_decide; [|done]. injection Hups as <-.
  by rewrite length_insert.
Qed.

Lemma respects_assign p x : respects (assign p x).
Proof.
  destruct p as [i|u]; cbn [assign]; [resp|].
  intros s a s' (c & s1 & [-> Hk]%loadUpvalue_inv & [= _ <-])%bind_inv.
  vm_proj. eapply heapExt_store; [done|]. cbn. auto.
Qed.
#[local] Hint Resolve respects_setMethod respects_setField respects_setUpvalue
  respects_assign : resp.

Lemma respects_loadUpvalue_store a (g : ObjUpvalue -> ObjUpvalue) :
  (forall uv, location (g uv) = location uv) ->
  respects (loadUpvalue a ≫= fun uv => storeObj a (OBJ_UPVALUE (g uv))).
Proof.
  intros Hg s r s' (c & s1 & [-> Hk]%loadUpvalue_inv & [= _ <-])%bind_inv.
  vm_proj. eapply heapExt_store; [done|]. cbn. intros u. by rewrite Hg.
Qed.

Lemma respects_loadClass_store {A} a (g : ObjClass -> ObjClass) (k : M A) :
  (forall c, klass_name (g c) = klass_name c /\ dom (methods c) ⊆ dom (methods (g c))) ->
  respects k ->
  respects (loadClass a ≫= fun to => storeObj a (OBJ_CLASS (g to)) ≫= fun _ => k).
Proof.
  intros Hg Hk s r s' (c & s1 & [-> Ha]%loadClass_inv & Hst)%bind_inv.
  apply bind_inv in Hst as ([] & s2 & [= <-] & Hrun).
  eapply heapExt_trans; [|by eapply Hk]. vm_proj.
  eapply heapExt_store; [done|]. cbn. destruct (Hg c). done.
Qed.

Lemma respects_traceFrames n : respects (traceFrames n).
Proof. induction n; cbn [traceFrames]; resp. Qed.
#[local] Hint Resolve respects_traceFrames : resp.

Lemma respects_runtimeError msg : respects (runtimeError msg).
Proof. resp. Qed.
#[local] Hint Resolve respects_runtimeError : resp.

Lemma respects_push x : respects (push x).
Proof. resp. Qed.
Lemma respects_pop : respects pop.
Proof. resp. Qed.
Lemma respects_peek d : respects (peek d).
Proof. resp. Qed.
Lemma respects_load a : respects (load a).
Proof. resp. Qed.
#[local] Hint Resolve respects_push respects_pop respects_peek respects_load : resp.

Lemma respects_call cl argCount : respects (call cl argCount).
Proof. resp. Qed.
#[local] Hint Resolve respects_call : resp.

Lemma respects_callValue callee argCount : respects (callValue callee argCount).
Proof. resp. Qed.
#[local] Hint Resolve respects_callValue : resp.

Lemma respects_invokeFromClass k n argCount : respects (invokeFromClass k n argCount).
Proof. resp. Qed.
Lemma respects_invoke n argCount : respects (invoke n argCount).
Proof. resp. Qed.
Lemma respects_bindMethod k n : respects (bindMethod k n).
Proof. resp. Qed.
Lemma respects_defineMethod n : respects (defineMethod n).
Proof. resp. Qed.
Lemma respects_concatenate : respects concatenate.
Proof. resp. Qed.
#[local] Hint Resolve respects_invokeFromClass respects_invoke respects_bindMethod
  respects_defineMethod respects_concatenate : resp.

Lemma respects_READ_BYTE frame : respects (READ_BYTE frame).
Proof. resp. Qed.
Lemma respects_READ_CONSTANT frame : respects (READ_CONSTANT frame).
Proof. resp. Qed.
Lemma respects_READ_SHORT frame : respects (READ_SHORT frame).
Proof. resp. Qed.
Lemma respects_READ_STRING frame : respects (READ_STRING frame).
Proof. resp. Qed.
#[local] Hint Resolve respects_READ_BYTE respects_READ_CONSTANT respects_READ_SHORT
  respects_READ_STRING : resp.

Lemma respects_BINARY_OP valueType k : respects k -> respects (BINARY_OP valueType k).
Proof. intros Hk. resp. Qed.

Lemma respects_closeUpvalues fuel last : respects (closeUpvalues fuel last).
Proof.
  induction fuel as [|fuel IH]; [intros s a s' [=]|].
  intros s a s' H. cbn [closeUpvalues] in H.
  apply bind_inv in H as (head & s0 & [= <- <-] & H).
  destruct (openUpvalues s) as [u|] eqn:Hhead; [|injection H as _ <-; apply heapExt_refl].
  apply bind_inv in H as (uv & s1 & [-> Hu]%loadUpvalue_inv & H).
  apply bind_inv in H as (b & s1 & [-> (k & Hloc & ->)]%ptr_ge_inv & H).
  case_bool_decide; [|injection H as _ <-; apply heapExt_refl].
  apply bind_inv in H as (x & s1 & ->%deref_inv & H).
  apply bind_inv in H as ([] & s1 & [= <-] & H).
  apply bind_inv in H as ([] & s1 & [= <-] & H).
  apply bind_inv in H as ([] & s1 & [= <-] & H).
  vm_proj. eapply heapExt_trans; [|by eapply IH]. vm_proj.
  rewrite insert_insert_eq. eapply heapExt_store; [done|]. cbn.
  intros u'. by rewrite Hloc.
Qed.

Lemma respects_captureUpvalue_walk fuel local : forall prev up,
  respects (captureUpvalue_walk fuel local prev up).
Proof. induction fuel as [|fuel IH]; intros prev up; cbn [captureUpvalue_walk]; resp. Qed.
#[local] Hint Resolve respects_closeUpvalues respects_captureUpvalue_walk : resp.

Lemma respects_captureUpvalue_create local prev up :
  respects (captureUpvalue_create local prev up).
Proof.
  unfold captureUpvalue_create.
  apply respects_bind; [resp|intros created].
  intros s r s' (cu & s1 & [-> Hcu]%loadUpvalue_inv & H)%bind_inv.
  apply bind_inv in H as ([] & s1 & [= <-] & H).
  eapply heapExt_trans.
  { apply (heapExt_store _ created (OBJ_UPVALUE cu)
             (OBJ_UPVALUE (mkUpvalue (location cu) (closed cu) up))); [exact Hcu|cbn; auto]. }
  apply bind_inv in H as ([] & s2 & H & [= _ <-]).
  destruct prev as [p|].
  - exact (respects_loadUpvalue_store p
      (fun pu => mkUpvalue (location pu) (closed pu) (Some created))
      (fun _ => eq_refl) _ _ _ H).
  - injection H as <-. apply heapExt_refl.
Qed.
#[local] Hint Resolve respects_captureUpvalue_create : resp.

Lemma respects_captureUpvalue fuel local : respects (captureUpvalue fuel local).
Proof. resp. Qed.
#[local] Hint Resolve respects_captureUpvalue : resp.

Lemma respects_instr_op_closure_loop fuel frame n : forall cl i,
  respects (instr_op_closure_loop fuel frame n cl i).
Proof. induction n as [|n IH]; intros cl i; cbn [instr_op_closure_loop]; resp. Qed.
#[local] Hint Resolve respects_instr_op_closure_loop : resp.

Lemma respects_instr_op_inherit frame : respects (instr_op_inherit frame).
Proof.
  unfold instr_op_inherit.
  apply respects_bind; [resp|intros superclass].
  apply respects_bind; [resp|intros isClass].
  destruct (negb isClass); [resp|].
  apply respects_bind; [resp|intros v0].
  apply respects_bind; [resp|intros subclass].
  apply respects_bind; [resp|intros sup].
  apply respects_bind; [resp|intros from].
  apply (respects_loadClass_store subclass
    (fun to => mkClass (klass_name to) (tableAddAll (methods from) (methods to)))).
  - intros c. cbn. split; [done|]. rewrite tableAddAll_union. set_solver.
  - resp.
Qed.

#[local] Hint Extern 1 (respects (BINARY_OP _ _)) =>
  apply respects_BINARY_OP; resp : resp.
#[local] Hint Resolve respects_instr_op_inherit : resp.

Lemma respects_dispatchTable fuel frame : Forall respects (dispatchTable fuel frame).
Proof.
  unfold dispatchTable.
  repeat (apply Forall_cons_2; [resp|]).
  constructor.
Qed.

Lemma respects_PRINT_TRACE frame : respects (PRINT_TRACE frame).
Proof. intros s a s' [-> _]%PRINT_TRACE_inv. apply heapExt_refl. Qed.

Lemma respects_DISPATCH fuel frame : respects (DISPATCH fuel frame).
Proof.
  unfold DISPATCH. apply respects_bind; [apply respects_PRINT_TRACE|intros _].
  apply respects_bind; [resp|intros op].
  intros s a s' (handler & s1 & [Hh ->]%lift_inv & H)%bind_inv.
  apply index_Some in Hh as [_ Hh%list_elem_of_lookup_2].
  pose proof (respects_dispatchTable fuel frame) as Hall.
  rewrite Forall_forall in Hall. by eapply (Hall handler Hh).
Qed.

Lemma respects_run_from fuel steps : forall frame, respects (run_from steps fuel frame).
Proof.
  induction steps as [|steps IH]; intros frame; cbn [run_from]; [resp|].
  apply respects_bind; [apply respects_DISPATCH|]. intros [frame'|r]; [apply IH|resp].
Qed.
#[local] Hint Resolve respects_run_from : resp.

Lemma respects_run steps fuel : respects (run steps fuel).
Proof. resp. Qed.
#[local] Hint Resolve respects_run : resp.

Lemma respects_interpret steps fuel compiled : respects (interpret steps fuel compiled).
Proof. resp. Qed.

(** X18: whatever the program, the interpreter never frees or retags an
    object, nor changes a string, a function (so neither its bytecode nor its
    constants), a native or a bound method: every object that is in the heap
    when [interpret] or [run] starts is there when it returns, with its type;
    a closure keeps its function and the size of its upvalue array, a class
    its name and all its methods' names, an instance its class and all its
    fields' names, and a closed upvalue stays closed. *)
Theorem run_keeps_objects steps fuel compiled s r s' :
  interpret steps fuel compiled s = Done r s' \/ run steps fuel s = Done r s' ->
  heapExt (heap s) (heap s').
Proof.
  intros [H|H].
  - by eapply respects_interpret.
  - by eapply respects_run.
Qed.

Lemma run_keeps_objects_witness :
  exists r s',
    interpret 12 2 (Some 2%positive) exClosures = Done r s' /\
    heapExt (heap exClosures) (heap s').
Proof.
  eexists _, _. split; [vm_compute; reflexivity|].
  apply (run_keeps_objects 12 2 (Some 2%positive) exClosures INTERPRET_OK).
  left. vm_compute. reflexivity.
Defined.

(** ** Leaving a block *)

(** X19: [OP_CLOSE_UPVALUE] closes the open upvalues of the slot on top of
    the stack (and of any slot above it) and then pops that slot: an upvalue
    that captured the top slot ends closed on the value the slot held, the
    upvalues of lower slots stay open, and the stack contents are untouched.
    The instruction has no operand. *)
Theorem close_upvalue_then_pop fuel frame s v l :
  index (stack s) (stackTop s - 1) = Some v ->
  openList s l ->
  decreasing l ->
  (length l < fuel)%nat ->
  (forall p, p ∈ l -> p.2 >= stackTop s - 1 -> is_Some (index (stack s) p.2)) ->
  exists s',
    instr_op_close_upvalue fuel frame s = Done (Continue frame) s' /\
    closedFrom (stackTop s - 1) l s s' /\
    stackTop s' = stackTop s - 1 /\
    stack s' = stack s /\
    frames s' = frames s /\
    (forall u, (u, stackTop s - 1) ∈ l -> target s' (ClosedField u) = Some v).
Proof.
  intros Hv Hl Hdec Hfuel Hin.
  destruct (closeUpvalues_closedFrom fuel (stackTop s - 1) s l)
    as (h1 & o1 & Hclose & Hcf); [done..|].
  exists (set_stackTop (stackTop s - 1) (set_openUpvalues o1 (set_heap h1 s))).
  split_and!; try done.
  - unfold instr_op_close_upvalue. mstep. mdo Hclose.
    erewrite bind_Done; [|apply pop_eq; vm_proj; exact Hv]. done.
  - intros u Hu. destruct Hcf as (Hclosed & _ & _).
    destruct (Hclosed (u, stackTop s - 1) Hu) as (x & nx & Hx & Hu'); [cbn; lia|].
    cbn in Hx, Hu'. rewrite Hv in Hx. injection Hx as <-.
    cbn [target]. vm_proj. by rewrite Hu'.
Qed.

Lemma close_upvalue_then_pop_witness :
  exists s',
    instr_op_close_upvalue 3 1
      (set_stackTop 4 exOpen) = Done (Continue 1) s' /\
    closedFrom 3 [(19%positive, 3); (15%positive, 1)] (set_stackTop 4 exOpen) s' /\
    stackTop s' = 3 /\
    stack s' = stack exOpen /\
    frames s' = frames exOpen /\
    (forall u, (u, 3) ∈ [(19%positive, 3); (15%positive, 1)] ->
               target s' (ClosedField u) = Some (BOOL_VAL false)).
Proof.
  refine (close_upvalue_then_pop 3 1 (set_stackTop 4 exOpen) (BOOL_VAL false)
    [(19%positive, 3); (15%positive, 1)] _ _ _ _ _); try (vm_compute; reflexivity).
  - unfold openList. econstructor; [vm_compute; reflexivity|].
    econstructor; [vm_compute; reflexivity|]. constructor.
  - repeat constructor.
  - intros p [->|[->|?%elem_of_nil]%elem_of_cons]%elem_of_cons Hp; done.
Defined.

(** ** Declaring a method *)

(** X20: [OP_METHOD] stores the closure on top of the stack in the method
    table of the class below it, under the operand's name, replacing any
    method of that name, and pops the closure; the class stays on the stack
    and no other object changes.  From then on, for as long as the class
    object is unchanged, [invoke] of that name on an instance of the class
    without such a field calls that closure: with an argument count equal
    to its arity a frame is pushed that runs it from its first instruction
    over the receiver and the arguments. *)
Theorem method_then_invoke frame s c name m k kc :
  codeAt s frame 0 = Some c ->
  constAt s frame c = Some (OBJ_VAL name) ->
  index (stack s) (stackTop s - 1) = Some (OBJ_VAL m) ->
  index (stack s) (stackTop s - 2) = Some (OBJ_VAL k) ->
  heap s !! k = Some (OBJ_CLASS kc) ->
  let s1 := set_stackTop (stackTop s - 1)
              (set_heap (<[k := OBJ_CLASS (mkClass (klass_name kc)
                                             (<[name := OBJ_VAL m]> (methods kc)))]>
                           (heap s))
                 (advance frame 1 s)) in
  instr_op_method frame s = Done (Continue frame) s1 /\
  index (stack s1) (stackTop s1 - 1) = Some (OBJ_VAL k) /\
  (forall a, a ≠ k -> heap s1 !! a = heap s !! a) /\
  (forall t i inst argCount,
     heap t !! k = heap s1 !! k ->
     index (stack t) (stackTop t - 1 - argCount) = Some (OBJ_VAL i) ->
     heap t !! i = Some (OBJ_INSTANCE inst) ->
     klass inst = k ->
     fields inst !! name = None ->
     invoke name argCount t = call m argCount t /\
     forall mc fn,
       heap t !! m = Some (OBJ_CLOSURE mc) ->
       heap t !! function mc = Some (OBJ_FUNCTION fn) ->
       argCount = arity fn ->
       0 <= frameCount t < Z.of_nat (length (frames t)) ->
       frameCount t ≠ FRAMES_MAX ->
       invoke name argCount t = Done true (afterCall m argCount t) /\
       index (frames (afterCall m argCount t)) (frameCount t) =
         Some (mkFrame m 0 (stackTop t - argCount - 1))).
Proof.
  intros Hc Hn Hm Hk Hkc s1.
  assert (heap s1 !! k =
    Some (OBJ_CLASS (mkClass (klass_name kc) (<[name := OBJ_VAL m]> (methods kc))))) as Hs1.
  { unfold s1. vm_proj. apply lookup_insert_eq. }
  split_and!.
  - unfold instr_op_method. mdo (READ_STRING_eq _ _ _ _ Hc Hn).
    erewrite bind_Done; cycle 1.
    { apply (defineMethod_eq _ name (OBJ_VAL m) k kc);
        by rewrite ?stack_advance, ?stackTop_advance, ?heap_advance. }
    cbv beta. unfold s1. by rewrite stackTop_advance, heap_advance.
  - unfold s1. vm_proj. rewrite stack_advance.
    by replace (stackTop s - 1 - 1) with (stackTop s - 2) by lia.
  - intros a Ha. unfold s1. vm_proj. by rewrite lookup_insert_ne.
  - intros t i inst argCount Ht Hi Hinst Hkl Hf. rewrite Hs1 in Ht.
    assert (invoke name argCount t = call m argCount t) as Hinv.
    { rewrite (invoke_eq _ _ _ (OBJ_VAL i) Hi) by (by eexists).
      cbn [isInstance]. rewrite Hinst. mstep. mdo (loadInstance_eq _ _ _ Hinst).
      unfold tableGet. rewrite Hf, Hkl.
      apply (invokeFromClass_found _ _ _ _ _ _ Ht). cbn. apply lookup_insert_eq. }
    split; [exact Hinv|]. intros mc fn Hmc Hfn -> Hfc Hmax. rewrite Hinv. split.
    + by apply (call_enter _ _ _ _ Hmc Hfn).
    + unfold afterCall. vm_proj. apply index_insert_eq. lia.
Qed.

Lemma method_then_invoke_witness :
  let s := exProp 3 [OBJ_VAL 3%positive; OBJ_VAL 24%positive; OBJ_VAL 14%positive; NIL_VAL] 3 in
  let s1 := set_stackTop 2
       (set_heap (<[24%positive := OBJ_CLASS (mkClass 10%positive
                     (<[4%positive := OBJ_VAL 14%positive]>
                        {[ 4%positive := OBJ_VAL 6%positive ]}))]> exPropHeap)
          (advance 0 1 s)) in
  let t := set_stack [OBJ_VAL 3%positive; OBJ_VAL 25%positive; NIL_VAL; NIL_VAL]
             (set_heap (<[25%positive := OBJ_INSTANCE (mkInstance 24%positive ∅)]> (heap s1))
                s1) in
  instr_op_method 0 s = Done (Continue 0) s1 /\
  invoke 4%positive 0 t = Done true (afterCall 14%positive 0 t).
Proof.
  intros s s1 t.
  pose proof (method_then_invoke 0 s 1 4%positive 14%positive 24%positive
    (mkClass 10%positive {[ 4%positive := OBJ_VAL 6%positive ]})
    eq_refl eq_refl eq_refl eq_refl eq_refl) as H.
  cbv zeta in H. destruct H as (H1 & _ & _ & H4). split; [exact H1|].
  pose proof (H4 t 25%positive (mkInstance 24%positive ∅) 0
    eq_refl eq_refl eq_refl eq_refl eq_refl) as [_ H5].
  refine (proj1 (H5 (mkClosure 12%positive [Some 15%positive] 1)
    (mkFunction 0 1 (mkChunk [x04; x00; x05; x00; x21] [4; 4; 5; 5; 6] []) (Some 13%positive))
    eq_refl eq_refl eq_refl _ _)).
  - vm_compute. split; [discriminate|reflexivity].
  - vm_compute. discriminate.
Defined.

(** ** Parts of the machine that a computation leaves alone *)

Create HintDb keeps discriminated.

Section keeps.
Context {T A B : Type} (proj : VM -> T).

Lemma keeps_ret (a : A) : keeps proj (mret a).
Proof. by intros s a' s' [= <- <-]. Qed.

Lemma keeps_bind (m : M A) (f : A -> M B) :
  keeps proj m -> (forall a, keeps proj (f a)) -> keeps proj (m ≫= f).
Proof.
  intros Hm Hf s b s' (a & s1 & H1 & H2)%bind_inv.
  rewrite (Hf _ _ _ _ H2). by eapply Hm.
Qed.

Lemma keeps_gets (f : VM -> A) : keeps proj (gets f).
Proof. by intros s a s' [= <- <-]. Qed.

Lemma keeps_lift (o : option A) : keeps proj (lift o).
Proof. by intros s a s' [_ ->]%lift_inv. Qed.

Lemma keeps_undefined : keeps proj (undefined (A:=A)).
Proof. intros s a s' [=]. Qed.

Lemma keeps_out_of_fuel : keeps proj (out_of_fuel (A:=A)).
Proof. intros s a s' [=]. Qed.

Lemma keeps_modify (f : VM -> VM) :
  (forall s, proj (f s) = proj s) -> keeps proj (modify f).
Proof. intros Hf s a s' [= _ <-]. apply Hf. Qed.
End keeps.

#[local] Hint Resolve keeps_ret keeps_gets keeps_lift keeps_undefined keeps_out_of_fuel
  : keeps.

(** Structural descent through a computation, down to the assignments. *)
Ltac keeps_tac :=
  lazymatch goal with
  | |- keeps _ (_ ≫= _) => apply keeps_bind; [keeps_tac | intros; keeps_tac]
  | |- keeps _ (if ?b then _ else _) => destruct b; keeps_tac
  | |- keeps _ (match ?x with _ => _ end) => destruct x; keeps_tac
  | |- keeps _ (modify _) => apply keeps_modify; intros; first [reflexivity | solve [auto]]
  | |- keeps _ ?m =>
      first [ solve [auto with keeps]
            | let h := head_of m in progress unfold h; keeps_tac ]
  end.

Section keeps_loops.
Context {T : Type} (proj : VM -> T).
Hypothesis proj_heap : forall h s, proj (set_heap h s) = proj s.
Hypothesis proj_openUpvalues : forall o s, proj (set_openUpvalues o s) = proj s.
Hypothesis proj_frames : forall x s, proj (set_frames x s) = proj s.
Hypothesis proj_stderr : forall x s, proj (set_stderr x s) = proj s.

Lemma keeps_traceFrames n : keeps proj (traceFrames n).
Proof. induction n; cbn [traceFrames]; keeps_tac. Qed.

Lemma keeps_closeUpvalues fuel last : keeps proj (closeUpvalues fuel last).
Proof. induction fuel as [|fuel IH]; cbn [closeUpvalues]; keeps_tac. Qed.

Lemma keeps_captureUpvalue_walk fuel local : forall prev up,
  keeps proj (captureUpvalue_walk fuel local prev up).
Proof. induction fuel as [|fuel IH]; intros prev up; cbn [captureUpvalue_walk]; keeps_tac. Qed.

Lemma keeps_captureUpvalue fuel local : keeps proj (captureUpvalue fuel local).
Proof.
  pose proof (keeps_captureUpvalue_walk fuel local). keeps_tac.
Qed.

Lemma keeps_instr_op_closure_loop fuel frame n : forall cl i,
  keeps proj (instr_op_closure_loop fuel frame n cl i).
Proof.
  pose proof (keeps_captureUpvalue fuel).
  induction n as [|n IH]; intros cl i; cbn [instr_op_closure_loop]; keeps_tac.
Qed.
End keeps_loops.

#[local] Hint Extern 1 (keeps _ (traceFrames _)) =>
  apply keeps_traceFrames; intros; reflexivity : keeps.
#[local] Hint Extern 1 (keeps _ (closeUpvalues _ _)) =>
  apply keeps_closeUpvalues; intros; reflexivity : keeps.
#[local] Hint Extern 1 (keeps _ (captureUpvalue _ _)) =>
  apply keeps_captureUpvalue; intros; reflexivity : keeps.
#[local] Hint Extern 1 (keeps _ (instr_op_closure_loop _ _ _ _ _)) =>
  apply keeps_instr_op_closure_loop; intros; reflexivity : keeps.

(** ** The frame that [run] works on *)

Lemma tracksFrame_bind {A} frame (m : M A) (f : A -> M Next) :
  keeps frameCount m -> (forall a, tracksFrame frame (f a)) ->
  tracksFrame frame (m ≫= f).
Proof.
  intros Hm Hf s n s' (a & s1 & H1 & H2)%bind_inv Hframe.
  eapply Hf; [exact H2|]. by rewrite (Hm _ _ _ H1).
Qed.

Lemma tracksFrame_Continue frame : tracksFrame frame (mret (Continue frame)).
Proof. by intros s n s' [= <- <-] ->. Qed.

Lemma tracksFrame_reloads frame h : reloadsFrame h -> tracksFrame frame h.
Proof. intros Hh s n s' H _. by eapply Hh. Qed.

Lemma reloadsFrame_bind {A} (m : M A) (f : A -> M Next) :
  (forall a, reloadsFrame (f a)) -> reloadsFrame (m ≫= f).
Proof. intros Hf s n s' (a & s1 & H1 & H2)%bind_inv. by eapply Hf. Qed.

Lemma reloadsFrame_Return r : reloadsFrame (mret (Return r)).
Proof. by intros s n s' [= <- <-]. Qed.

Lemma reloadsFrame_reload_frame : reloadsFrame reload_frame.
Proof.
  intros s n s' (fc & s1 & [= <- <-] & [= <- <-])%bind_inv. done.
Qed.

Lemma reloadsFrame_undefined : reloadsFrame undefined.
Proof. intros s n s' [=]. Qed.

(** Every path ends in a [return] or in the reload of [frame]. *)
Ltac reloads_tac :=
  lazymatch goal with
  | |- reloadsFrame (_ ≫= _) => apply reloadsFrame_bind; intros; reloads_tac
  | |- reloadsFrame (if ?b then _ else _) => destruct b; reloads_tac
  | |- reloadsFrame (match ?x with _ => _ end) => destruct x; reloads_tac
  | |- reloadsFrame (mret (Return _)) => apply reloadsFrame_Return
  | |- reloadsFrame reload_frame => apply reloadsFrame_reload_frame
  | |- reloadsFrame undefined => apply reloadsFrame_undefined
  end.

Lemma keeps_frameCount_bindMethod_true k name s s' :
  bindMethod k name s = Done true s' -> frameCount s' = frameCount s.
Proof.
  unfold bindMethod. intros (c & s1 & [-> Hk]%loadClass_inv & H)%bind_inv.
  destruct (tableGet (methods c) name) as [method|].
  - revert H. generalize true. intros b H.
    assert (keeps frameCount
      (recv ← peek 0; cl ← AS_OBJ method; bound ← newBoundMethod recv cl;
       pop;; push (OBJ_VAL bound);; mret b)) as Hkeeps by keeps_tac.
    by eapply Hkeeps.
  - apply bind_inv in H as (str & s2 & _ & H).
    by apply bind_inv in H as ([] & s3 & _ & [=]).
Qed.

Lemma tracksFrame_bindMethod frame k name :
  tracksFrame frame
    (bound ← bindMethod k name;
     if negb bound then mret (Return INTERPRET_RUNTIME_ERROR) else mret (Continue frame)).
Proof.
  intros s n s' (b & s1 & H1 & H2)%bind_inv Hframe. destruct b; cbn [negb] in H2.
  - injection H2 as <- <-. by rewrite (keeps_frameCount_bindMethod_true _ _ _ _ H1).
  - by injection H2 as <- <-.
Qed.

(** A handler keeps [frameCount] and hands [frame] on, or ends in a [return]
    or in the reload of [frame]. *)
Ltac tracks_tac :=
  lazymatch goal with
  | |- tracksFrame _ (mret (Continue _)) => apply tracksFrame_Continue
  | |- tracksFrame _ (bindMethod _ _ ≫= _) => apply tracksFrame_bindMethod
  | |- tracksFrame _ (if ?b then _ else _) => destruct b; tracks_tac
  | |- tracksFrame _ (match ?x with _ => _ end) => destruct x; tracks_tac
  | |- tracksFrame _ (_ ≫= _) =>
      first [ solve [apply tracksFrame_reloads; reloads_tac]
            | apply tracksFrame_bind; [keeps_tac | intros; tracks_tac] ]
  | |- tracksFrame _ ?m =>
      first [ solve [apply tracksFrame_reloads; reloads_tac]
            | let h := head_of m in progress unfold h; tracks_tac ]
  end.

Lemma tracksFrame_dispatchTable fuel frame :
  Forall (tracksFrame frame) (dispatchTable fuel frame).
Proof.
  unfold dispatchTable.
  repeat (apply Forall_cons_2; [tracks_tac|]).
  constructor.
Qed.

(** X21: the local [frame] of [run] always is the topmost call frame.  When
    an instruction is dispatched with [frame] at [vm.frames[vm.frameCount - 1]]
    and execution goes on, [frame] is again at the topmost frame: the handlers
    that push or pop a frame reload it, and no other handler changes
    [vm.frameCount] without returning from [run]. *)
Theorem frame_is_top_frame fuel frame s frame' s' :
  DISPATCH fuel frame s = Done (Continue frame') s' ->
  frame = frameCount s - 1 ->
  frame' = frameCount s' - 1.
Proof.
  intros H Hframe. unfold DISPATCH in H.
  apply bind_inv in H as ([] & s0 & [-> _]%PRINT_TRACE_inv & H).
  apply bind_inv in H as (op & s1 & Hop & H).
  assert (keeps frameCount (READ_BYTE frame)) as Hk by keeps_tac.
  apply Hk in Hop.
  apply bind_inv in H as (handler & s2 & [Hh ->]%lift_inv & H).
  apply index_Some in Hh as [_ Hh%list_elem_of_lookup_2].
  pose proof (tracksFrame_dispatchTable fuel frame) as Hall.
  rewrite Forall_forall in Hall.
  apply (Hall handler Hh _ _ _ H). by rewrite Hop, frameCount_traced.
Qed.

Lemma frame_is_top_frame_witness :
  exists s',
    DISPATCH 1 0 (exScript 0 [OBJ_VAL 3%positive; NIL_VAL; NIL_VAL] 1) = Done (Continue 1) s' /\
    1 = frameCount s' - 1.
Proof.
  eexists. split; [vm_compute; reflexivity|].
  eapply (frame_is_top_frame 1 0 (exScript 0 [OBJ_VAL 3%positive; NIL_VAL; NIL_VAL] 1) 1);
    vm_compute; reflexivity.
Defined.

(** ** How [run] ends *)

Lemma runtimeError_stacksReset message s s' :
  runtimeError message s = Done tt s' -> stacksReset s'.
Proof.
  unfold runtimeError. intros H.
  apply bind_inv in H as ([] & s1 & _ & H).
  apply bind_inv in H as ([] & s2 & _ & H).
  apply bind_inv in H as (fc & s3 & _ & H).
  apply bind_inv in H as ([] & s4 & _ & H).
  unfold resetStack in H.
  apply bind_inv in H as ([] & s5 & [= <-] & H).
  apply bind_inv in H as ([] & s6 & [= <-] & [= <-]).
  done.
Qed.

Lemma failsReset_error message b : failsReset (runtimeError message;; mret b).
Proof.
  intros s b' s' ([] & s1 & H%runtimeError_stacksReset & [= _ <-])%bind_inv _. done.
Qed.

Lemma failsReset_true : failsReset (mret true).
Proof. by intros s b s' [= <- <-]. Qed.

Lemma failsReset_undefined : failsReset undefined.
Proof. intros s b s' [=]. Qed.

Lemma failsReset_bind {A} (m : M A) (f : A -> M bool) :
  (forall a, failsReset (f a)) -> failsReset (m ≫= f).
Proof. intros Hf s b s' (a & s1 & H1 & H2)%bind_inv. by eapply Hf. Qed.

(** A [false] comes only from a path through [runtimeError]. *)
Ltac fails_tac :=
  lazymatch goal with
  | |- failsReset (runtimeError _ ≫= _) => apply failsReset_error
  | |- failsReset (mret true) => apply failsReset_true
  | |- failsReset undefined => apply failsReset_undefined
  | |- failsReset (_ ≫= _) => apply failsReset_bind; intros; fails_tac
  | |- failsReset (if ?b then _ else _) => destruct b; fails_tac
  | |- failsReset (match ?x with _ => _ end) => destruct x; fails_tac
  | |- failsReset ?m =>
      first [ assumption
            | let h := head_of m in progress unfold h; fails_tac ]
  end.

Lemma failsReset_call cl argCount : failsReset (call cl argCount).
Proof. fails_tac. Qed.

Lemma failsReset_callValue callee argCount : failsReset (callValue callee argCount).
Proof. pose proof failsReset_call. fails_tac. Qed.

Lemma failsReset_invokeFromClass k name argCount :
  failsReset (invokeFromClass k name argCount).
Proof. pose proof failsReset_call. fails_tac. Qed.

Lemma failsReset_invoke name argCount : failsReset (invoke name argCount).
Proof. pose proof failsReset_callValue. pose proof failsReset_invokeFromClass. fails_tac. Qed.

Lemma failsReset_bindMethod k name : failsReset (bindMethod k name).
Proof. fails_tac. Qed.

Lemma returnsOutcome_bind {A} (m : M A) (f : A -> M Next) :
  (forall a, returnsOutcome (f a)) -> returnsOutcome (m ≫= f).
Proof. intros Hf s n s' (a & s1 & H1 & H2)%bind_inv. by eapply Hf. Qed.

Lemma returnsOutcome_Continue frame : returnsOutcome (mret (Continue frame)).
Proof. by intros s n s' [= <- <-]. Qed.

Lemma returnsOutcome_reload_frame : returnsOutcome reload_frame.
Proof. intros s n s' (fc & s1 & [= <- <-] & [= <- <-])%bind_inv. done. Qed.

Lemma returnsOutcome_undefined : returnsOutcome undefined.
Proof. intros s n s' [=]. Qed.

Lemma returnsOutcome_error message :
  returnsOutcome (runtimeError message;; mret (Return INTERPRET_RUNTIME_ERROR)).
Proof.
  intros s n s' ([] & s1 & H%runtimeError_stacksReset & [= <- <-])%bind_inv. done.
Qed.

Lemma returnsOutcome_checked (m : M bool) (k : M Next) :
  failsReset m -> returnsOutcome k ->
  returnsOutcome
    (ok ← m; if negb ok then mret (Return INTERPRET_RUNTIME_ERROR) else k).
Proof.
  intros Hm Hk s n s' (b & s1 & H1 & H2)%bind_inv. destruct b; cbn [negb] in H2.
  - by eapply Hk.
  - injection H2 as <- <-. by eapply Hm.
Qed.

Lemma returnsOutcome_instr_op_return fuel frame :
  returnsOutcome (instr_op_return fuel frame).
Proof.
  unfold instr_op_return. intros s n s' H.
  apply bind_inv in H as (result & s1 & _ & H).
  apply bind_inv in H as (fr & s2 & _ & H).
  apply bind_inv in H as ([] & s3 & _ & H).
  apply bind_inv in H as (fc & s4 & [= <- <-] & H).
  apply bind_inv in H as ([] & s5 & [= <-] & H).
  case_decide as Hfc.
  - apply bind_inv in H as (x & s6 & Hpop & [= <- <-]).
    assert (keeps frameCount pop) as Hk by keeps_tac.
    cbn [outcome]. rewrite (Hk _ _ _ Hpop). vm_proj. done.
  - revert H. generalize (set_frameCount (frameCount s3 - 1) s3). intros s5 H.
    assert (returnsOutcome
      (fr ← frames_get frame; modify (set_stackTop (slots fr));; push result;; reload_frame))
      as Hr.
    { do 3 (apply returnsOutcome_bind; intros). apply returnsOutcome_reload_frame. }
    by eapply Hr.
Qed.

(** Every [return] of a handler is one of the two outcomes. *)
Ltac outcome_tac :=
  lazymatch goal with
  | |- returnsOutcome (mret (Continue _)) => apply returnsOutcome_Continue
  | |- returnsOutcome reload_frame => apply returnsOutcome_reload_frame
  | |- returnsOutcome undefined => apply returnsOutcome_undefined
  | |- returnsOutcome (runtimeError _ ≫= _) => apply returnsOutcome_error
  | |- returnsOutcome (instr_op_return _ _) => apply returnsOutcome_instr_op_return
  | |- returnsOutcome (callValue _ _ ≫= _) =>
      apply returnsOutcome_checked; [apply failsReset_callValue | outcome_tac]
  | |- returnsOutcome (invoke _ _ ≫= _) =>
      apply returnsOutcome_checked; [apply failsReset_invoke | outcome_tac]
  | |- returnsOutcome (invokeFromClass _ _ _ ≫= _) =>
      apply returnsOutcome_checked; [apply failsReset_invokeFromClass | outcome_tac]
  | |- returnsOutcome (bindMethod _ _ ≫= _) =>
      apply returnsOutcome_checked; [apply failsReset_bindMethod | outcome_tac]
  | |- returnsOutcome (_ ≫= _) => apply returnsOutcome_bind; intros; outcome_tac
  | |- returnsOutcome (if ?b then _ else _) => destruct b; outcome_tac
  | |- returnsOutcome (match ?x with _ => _ end) => destruct x; outcome_tac
  | |- returnsOutcome ?m => let h := head_of m in progress unfold h; outcome_tac
  end.

Lemma returnsOutcome_dispatchTable fuel frame :
  Forall returnsOutcome (dispatchTable fuel frame).
Proof.
  unfold dispatchTable.
  repeat (apply Forall_cons_2; [outcome_tac|]).
  constructor.
Qed.

Lemma returnsOutcome_DISPATCH fuel frame : returnsOutcome (DISPATCH fuel frame).
Proof.
  unfold DISPATCH. apply returnsOutcome_bind. intros _.
  apply returnsOutcome_bind. intros op.
  intros s a s' (handler & s1 & [Hh ->]%lift_inv & H)%bind_inv.
  apply index_Some in Hh as [_ Hh%list_elem_of_lookup_2].
  pose proof (returnsOutcome_dispatchTable fuel frame) as Hall.
  rewrite Forall_forall in Hall. by eapply (Hall handler Hh).
Qed.

Lemma run_from_outcome fuel steps : forall frame s r s',
  run_from steps fuel frame s = Done r s' -> outcome r s'.
Proof.
  induction steps as [|steps IH]; intros frame s r s' H; cbn [run_from] in H; [done|].
  apply bind_inv in H as (n & s1 & Hd & H).
  apply returnsOutcome_DISPATCH in Hd. destruct n as [frame'|r'].
  - by eapply IH.
  - by injection H as <- <-.
Qed.

(** X22: [run] returns [INTERPRET_OK] or [INTERPRET_RUNTIME_ERROR], never
    [INTERPRET_COMPILE_ERROR].  It returns [INTERPRET_OK] only from the
    [OP_RETURN] that pops the last call frame, so no frame is left; and every
    [INTERPRET_RUNTIME_ERROR] comes after [runtimeError], whatever instruction
    raised it, so the value stack is empty, no frame is left and no upvalue is
    open. *)
Theorem run_outcomes steps fuel s r s' :
  run steps fuel s = Done r s' ->
  r ≠ INTERPRET_COMPILE_ERROR /\
  (r = INTERPRET_OK -> frameCount s' = 0) /\
  (r = INTERPRET_RUNTIME_ERROR ->
   stackTop s' = 0 /\ frameCount s' = 0 /\ openUpvalues s' = None).
Proof.
  unfold run. intros (fc & s1 & [= <- <-] & H%run_from_outcome)%bind_inv.
  destruct r; cbn [outcome] in H; [|done|].
  - split; [done|]. split; [done|]. intros [=].
  - split; [done|]. split; [intros [=]|done].
Qed.

Lemma run_outcomes_witness :
  exists s',
    run 1 1 (exScript 0 [OBJ_VAL 3%positive; OBJ_VAL 6%positive; NIL_VAL; NIL_VAL] 2)
      = Done INTERPRET_RUNTIME_ERROR s' /\
    stackTop s' = 0 /\ frameCount s' = 0 /\ openUpvalues s' = None.
Proof.
  eexists. split; [vm_compute; reflexivity|].
  apply (proj2 (proj2 (run_outcomes 1 1
    (exScript 0 [OBJ_VAL 3%positive; OBJ_VAL 6%positive; NIL_VAL; NIL_VAL] 2)
    INTERPRET_RUNTIME_ERROR _ ltac:(vm_compute; reflexivity))) eq_refl).
Defined.

(** ** Which instruction writes what *)

Lemma keeps_dispatchTable_globals fuel frame op h :
  index (dispatchTable fuel frame) op = Some h ->
  op ≠ 14 -> op ≠ 15 -> keeps globals h.
Proof.
  intros [H0 Hh]%index_Some H14 H15. unfold dispatchTable in Hh.
  remember (Z.to_nat op) as n eqn:Hn.
  do 37 (destruct n as [|n]; [injection Hh as <-; first [exfalso; lia | keeps_tac]|]).
  done.
Qed.

Lemma keeps_dispatchTable_stdout fuel frame op h :
  index (dispatchTable fuel frame) op = Some h -> op ≠ 24 -> keeps stdout h.
Proof.
  intros [H0 Hh]%index_Some H24. unfold dispatchTable in Hh.
  remember (Z.to_nat op) as n eqn:Hn.
  do 37 (destruct n as [|n]; [injection Hh as <-; first [exfalso; lia | keeps_tac]|]).
  done.
Qed.

Lemma keeps_dispatchTable_strings fuel frame op h :
  index (dispatchTable fuel frame) op = Some h -> op ≠ 18 -> keeps strings h.
Proof.
  intros [H0 Hh]%index_Some H18. unfold dispatchTable in Hh.
  remember (Z.to_nat op) as n eqn:Hn.
  do 37 (destruct n as [|n]; [injection Hh as <-; first [exfalso; lia | keeps_tac]|]).
  done.
Qed.

Lemma keeps_PRINT_TRACE {T} (proj : VM -> T) frame :
  (forall x s, proj (set_stdout x s) = proj s) -> keeps proj (PRINT_TRACE frame).
Proof. intros Hp s a s' [-> _]%PRINT_TRACE_inv. apply Hp. Qed.

Lemma instr_op_print_inv frame s n s' :
  instr_op_print frame s = Done n s' ->
  exists v, index (stack s) (stackTop s - 1) = Some v /\
            stdout s' = stdout s ++ [Printed v; Text newline].
Proof.
  unfold instr_op_print, pop. intros H.
  apply bind_inv in H as (v & s1 & H1 & H).
  apply bind_inv in H1 as (top & s2 & [= <- <-] & H1).
  apply bind_inv in H1 as ([] & s3 & [= <-] & H1).
  unfold stack_get in H1. apply bind_inv in H1 as (st & s4 & [= <- <-] & H1).
  apply lift_inv in H1 as [Hv ->]. vm_proj.
  apply bind_inv in H as ([] & s5 & [= <-] & H).
  apply bind_inv in H as ([] & s6 & [= <-] & H).
  injection H as _ <-. exists v. split; [done|]. vm_proj. by rewrite <-app_assoc.
Qed.

(** X23: the writes of the instructions are local.  Every [DISPATCH()] first
    writes its trace to standard output; beyond the trace only [OP_PRINT]
    (24) writes there, the value popped and a newline.  Only
    [OP_DEFINE_GLOBAL] (14) and [OP_SET_GLOBAL] (15) change the globals
    table, and only [OP_ADD] (18) adds to the table of interned strings:
    whatever the machine, every other instruction leaves that part as it
    found it, also when it ends in a runtime error. *)
Theorem writes_are_local fuel frame op s n s' :
  codeAt s frame 0 = Some op ->
  DISPATCH fuel frame s = Done n s' ->
  (op ≠ 14 -> op ≠ 15 -> globals s' = globals s) /\
  (op ≠ 24 -> stdout s' = stdout s ++ traceOf s frame) /\
  (op = 24 ->
     exists v, index (stack s) (stackTop s - 1) = Some v /\
               stdout s' = stdout s ++ traceOf s frame ++ [Printed v; Text newline]) /\
  (op ≠ 18 -> strings s' = strings s).
Proof.
  intros Hop H. unfold DISPATCH in H.
  apply bind_inv in H as ([] & s0 & [-> _]%PRINT_TRACE_inv & H).
  erewrite bind_Done in H; [|apply READ_BYTE_eq; by rewrite codeAt_traced].
  cbv beta in H.
  apply bind_inv in H as (h & s1 & [Hh ->]%lift_inv & H).
  rewrite advance_traced in H. split_and!.
  - intros H14 H15.
    rewrite (keeps_dispatchTable_globals fuel frame op h Hh H14 H15 _ _ _ H).
    vm_proj. apply globals_advance.
  - intros H24. by rewrite (keeps_dispatchTable_stdout fuel frame op h Hh H24 _ _ _ H).
  - intros ->. injection Hh as <-. apply instr_op_print_inv in H as (v & Hv & Hout).
    exists v. vm_proj. rewrite stack_advance, stackTop_advance in Hv. split; [done|].
    by rewrite Hout, <-app_assoc.
  - intros H18.
    rewrite (keeps_dispatchTable_strings fuel frame op h Hh H18 _ _ _ H).
    vm_proj. unfold advance. by destruct (index (frames s) frame).
Qed.

Lemma writes_are_local_witness :
  exists s',
    DISPATCH 1 0 (exScript 0 [OBJ_VAL 3%positive; NIL_VAL; NIL_VAL] 1) = Done (Continue 1) s' /\
    globals s' = ∅ /\
    stdout s' = [ Text "          "; Text "[ "; Printed (OBJ_VAL 3%positive); Text " ]";
                  Text newline;
                  Disassembled (mkChunk [x1c; x00; x0f; x01; x21] [7; 7; 8; 8; 9]
                                  [OBJ_VAL 6%positive; OBJ_VAL 11%positive]) 0 ] /\
    strings s' = exStrings.
Proof.
  eexists. split; [vm_compute; reflexivity|].
  destruct (writes_are_local 1 0 28 (exScript 0 [OBJ_VAL 3%positive; NIL_VAL; NIL_VAL] 1)
    (Continue 1) _ eq_refl ltac:(vm_compute; reflexivity))
    as (Hg & Ho & _ & Hs).
  split_and!; [apply Hg|apply Ho|apply Hs]; discriminate.
Defined.

(** ** A run without error is silent *)

Lemma quietWhenTrue_bind {A} (m : M A) (f : A -> M bool) :
  keeps stderr m -> (forall a, quietWhenTrue (f a)) -> quietWhenTrue (m ≫= f).
Proof.
  intros Hm Hf s b s' (a & s1 & H1 & H2)%bind_inv Hb.
  rewrite (Hf _ _ _ _ H2 Hb). by eapply Hm.
Qed.

Lemma quietWhenTrue_error message : quietWhenTrue (runtimeError message;; mret false).
Proof. by intros s b s' ([] & s1 & _ & [= <- <-])%bind_inv. Qed.

Lemma quietWhenTrue_ret b : quietWhenTrue (mret b).
Proof. by intros s b' s' [= <- <-]. Qed.

Lemma quietWhenTrue_undefined : quietWhenTrue undefined.
Proof. intros s b s' [=]. Qed.

Ltac quietTrue_tac :=
  lazymatch goal with
  | |- quietWhenTrue (runtimeError _ ≫= _) => apply quietWhenTrue_error
  | |- quietWhenTrue (mret _) => apply quietWhenTrue_ret
  | |- quietWhenTrue undefined => apply quietWhenTrue_undefined
  | |- quietWhenTrue (_ ≫= _) =>
      apply quietWhenTrue_bind; [keeps_tac | intros; quietTrue_tac]
  | |- quietWhenTrue (if ?b then _ else _) => destruct b; quietTrue_tac
  | |- quietWhenTrue (match ?x with _ => _ end) => destruct x; quietTrue_tac
  | |- quietWhenTrue ?m =>
      first [ assumption
            | let h := head_of m in progress unfold h; quietTrue_tac ]
  end.

Lemma quietWhenTrue_call cl argCount : quietWhenTrue (call cl argCount).
Proof. quietTrue_tac. Qed.

Lemma quietWhenTrue_callValue callee argCount : quietWhenTrue (callValue callee argCount).
Proof. pose proof quietWhenTrue_call. quietTrue_tac. Qed.

Lemma quietWhenTrue_invokeFromClass k name argCount :
  quietWhenTrue (invokeFromClass k name argCount).
Proof. pose proof quietWhenTrue_call. quietTrue_tac. Qed.

Lemma quietWhenTrue_invoke name argCount : quietWhenTrue (invoke name argCount).
Proof.
  pose proof quietWhenTrue_callValue. pose proof quietWhenTrue_invokeFromClass.
  quietTrue_tac.
Qed.

Lemma quietWhenTrue_bindMethod k name : quietWhenTrue (bindMethod k name).
Proof. quietTrue_tac. Qed.

Lemma quietUnlessError_bind {A} (m : M A) (f : A -> M Next) :
  keeps stderr m -> (forall a, quietUnlessError (f a)) -> quietUnlessError (m ≫= f).
Proof.
  intros Hm Hf s n s' (a & s1 & H1 & H2)%bind_inv Hn.
  rewrite (Hf _ _ _ _ H2 Hn). by eapply Hm.
Qed.

Lemma quietUnlessError_ret n : quietUnlessError (mret n).
Proof. by intros s n' s' [= <- <-]. Qed.

Lemma quietUnlessError_undefined : quietUnlessError undefined.
Proof. intros s n s' [=]. Qed.

Lemma quietUnlessError_error message :
  quietUnlessError (runtimeError message;; mret (Return INTERPRET_RUNTIME_ERROR)).
Proof. by intros s n s' ([] & s1 & _ & [= <- <-])%bind_inv. Qed.

Lemma quietUnlessError_checked (m : M bool) (k : M Next) :
  quietWhenTrue m -> quietUnlessError k ->
  quietUnlessError
    (ok ← m; if negb ok then mret (Return INTERPRET_RUNTIME_ERROR) else k).
Proof.
  intros Hm Hk s n s' (b & s1 & H1 & H2)%bind_inv Hn. destruct b; cbn [negb] in H2.
  - rewrite (Hk _ _ _ H2 Hn). by eapply Hm.
  - by injection H2 as <- <-.
Qed.

Ltac quiet_tac :=
  lazymatch goal with
  | |- quietUnlessError (mret _) => apply quietUnlessError_ret
  | |- quietUnlessError undefined => apply quietUnlessError_undefined
  | |- quietUnlessError (runtimeError _ ≫= _) => apply quietUnlessError_error
  | |- quietUnlessError (callValue _ _ ≫= _) =>
      apply quietUnlessError_checked; [apply quietWhenTrue_callValue | quiet_tac]
  | |- quietUnlessError (invoke _ _ ≫= _) =>
      apply quietUnlessError_checked; [apply quietWhenTrue_invoke | quiet_tac]
  | |- quietUnlessError (invokeFromClass _ _ _ ≫= _) =>
      apply quietUnlessError_checked; [apply quietWhenTrue_invokeFromClass | quiet_tac]
  | |- quietUnlessError (bindMethod _ _ ≫= _) =>
      apply quietUnlessError_checked; [apply quietWhenTrue_bindMethod | quiet_tac]
  | |- quietUnlessError (_ ≫= _) =>
      apply quietUnlessError_bind; [keeps_tac | intros; quiet_tac]
  | |- quietUnlessError (if ?b then _ else _) => destruct b; quiet_tac
  | |- quietUnlessError (match ?x with _ => _ end) => destruct x; quiet_tac
  | |- quietUnlessError ?m => let h := head_of m in progress unfold h; quiet_tac
  end.

Lemma quietUnlessError_dispatchTable fuel frame :
  Forall quietUnlessError (dispatchTable fuel frame).
Proof.
  unfold dispatchTable.
  repeat (apply Forall_cons_2; [quiet_tac|]).
  constructor.
Qed.

Lemma quietUnlessError_DISPATCH fuel frame : quietUnlessError (DISPATCH fuel frame).
Proof.
  unfold DISPATCH.
  apply quietUnlessError_bind; [by apply keeps_PRINT_TRACE|]. intros _.
  apply quietUnlessError_bind; [keeps_tac|]. intros op.
  intros s a s' (handler & s1 & [Hh ->]%lift_inv & H)%bind_inv.
  apply index_Some in Hh as [_ Hh%list_elem_of_lookup_2].
  pose proof (quietUnlessError_dispatchTable fuel frame) as Hall.
  rewrite Forall_forall in Hall. by eapply (Hall handler Hh).
Qed.

Lemma run_from_quiet fuel steps : forall frame s r s',
  run_from steps fuel frame s = Done r s' ->
  r ≠ INTERPRET_RUNTIME_ERROR -> stderr s' = stderr s.
Proof.
  induction steps as [|steps IH]; intros frame s r s' H Hr; cbn [run_from] in H; [done|].
  apply bind_inv in H as (n & s1 & Hd & H).
  apply quietUnlessError_DISPATCH in Hd. destruct n as [frame'|r'].
  - rewrite (IH _ _ _ _ H Hr). by apply Hd.
  - injection H as <- <-. apply Hd. by intros [= ->].
Qed.

(** X24: a run that ends with [INTERPRET_OK] has written nothing to standard
    error: every instruction writes there only through [runtimeError], and
    after [runtimeError] every handler returns [INTERPRET_RUNTIME_ERROR]. *)
Theorem ok_run_is_silent steps fuel s s' :
  run steps fuel s = Done INTERPRET_OK s' -> stderr s' = stderr s.
Proof.
  unfold run. intros (fc & s1 & [= <- <-] & H)%bind_inv.
  by eapply run_from_quiet.
Qed.

Lemma ok_run_is_silent_witness :
  exists s',
    run 1 1 (exScript 4 [OBJ_VAL 3%positive; NIL_VAL] 2) = Done INTERPRET_OK s' /\
    stderr s' = stderr (exScript 4 [OBJ_VAL 3%positive; NIL_VAL] 2).
Proof.
  eexists. split; [vm_compute; reflexivity|].
  apply (ok_run_is_silent 1 1 (exScript 4 [OBJ_VAL 3%positive; NIL_VAL] 2)).
  vm_compute. reflexivity.
Defined.

(** ** The stack effect of the instructions *)

Lemma shifts_keeps {A} (m : M A) : keeps stackTop m -> shifts 0 m.
Proof. intros Hm s a s' H. rewrite (Hm _ _ _ H). lia. Qed.

Lemma shifts_bind {A B} d1 d2 (m : M A) (f : A -> M B) :
  shifts d1 m -> (forall a, shifts d2 (f a)) -> shifts (d1 + d2) (m ≫= f).
Proof.
  intros Hm Hf s b s' (a & s1 & H1 & H2)%bind_inv.
  rewrite (Hf _ _ _ _ H2), (Hm _ _ _ H1). lia.
Qed.

Lemma shifts_push x : shifts 1 (push x).
Proof.
  intros s a s' (top & s1 & [= <- <-] & H)%bind_inv.
  apply bind_inv in H as ([] & s2 & H & [= _ <-]).
  assert (keeps stackTop (stack_put (stackTop s) x)) as Hk by keeps_tac.
  vm_proj. done.
Qed.

Lemma shifts_pop : shifts (-1) pop.
Proof.
  intros s a s' (top & s1 & [= <- <-] & H)%bind_inv.
  apply bind_inv in H as ([] & s2 & [= <-] & H).
  assert (keeps stackTop (stack_get (stackTop s - 1))) as Hk by keeps_tac.
  rewrite (Hk _ _ _ H). vm_proj. lia.
Qed.

Lemma shifts_undefined {A} d : shifts d (undefined (A:=A)).
Proof. intros s a s' [=]. Qed.

Lemma shifts_eq {A} d d' (m : M A) : shifts d' m -> d = d' -> shifts d m.
Proof. by intros H ->. Qed.

(** The moves of [stackTop] add up along a computation. *)
Ltac shift_tac :=
  first
    [ solve [apply shifts_keeps; keeps_tac]
    | lazymatch goal with
      | |- shifts _ (push _) => apply shifts_push
      | |- shifts _ pop => apply shifts_pop
      | |- shifts _ undefined => apply shifts_undefined
      | |- shifts _ (_ ≫= _) =>
          eapply shifts_eq;
          [eapply shifts_bind; [shift_tac | intros; shift_tac] | reflexivity]
      | |- shifts _ (if ?b then _ else _) => destruct b; shift_tac
      | |- shifts _ (match ?x with _ => _ end) => destruct x; shift_tac
      | |- shifts _ ?m => let h := head_of m in progress unfold h; shift_tac
      end ].

Lemma contShifts_bind {A} d d1 (m : M A) (f : A -> M Next) :
  shifts d1 m -> (forall a, contShifts (d - d1) (f a)) -> contShifts d (m ≫= f).
Proof.
  intros Hm Hf s n s' (a & s1 & H1 & H2)%bind_inv.
  specialize (Hf _ _ _ _ H2). destruct n; [|done].
  rewrite Hf, (Hm _ _ _ H1). lia.
Qed.

Lemma contShifts_Continue d frame : d = 0 -> contShifts d (mret (Continue frame)).
Proof. intros -> s n s' [= <- <-]. lia. Qed.

Lemma contShifts_Return d r : contShifts d (mret (Return r)).
Proof. by intros s n s' [= <- <-]. Qed.

Lemma contShifts_undefined d : contShifts d undefined.
Proof. intros s n s' [=]. Qed.

Lemma contShifts_error d message r : contShifts d (runtimeError message;; mret (Return r)).
Proof. by intros s n s' ([] & s1 & _ & [= <- <-])%bind_inv. Qed.

Lemma contShifts_bindMethod d frame k name :
  d = 0 ->
  contShifts d
    (bound ← bindMethod k name;
     if negb bound then mret (Return INTERPRET_RUNTIME_ERROR) else mret (Continue frame)).
Proof.
  intros -> s n s' (b & s1 & H1 & H2)%bind_inv. destruct b; cbn [negb] in H2.
  - injection H2 as <- <-. revert H1. unfold bindMethod.
    intros (c & s2 & [-> Hk]%loadClass_inv & H)%bind_inv.
    destruct (tableGet (methods c) name) as [method|].
    + revert H. generalize true. intros b H.
      assert (shifts (0 + (0 + (0 + (-1 + (1 + 0)))))
        (recv ← peek 0; cl ← AS_OBJ method; bound ← newBoundMethod recv cl;
         pop;; push (OBJ_VAL bound);; mret b)) as Hs by shift_tac.
      rewrite (Hs _ _ _ H). lia.
    + apply bind_inv in H as (str & s3 & _ & H).
      by apply bind_inv in H as ([] & s4 & _ & [=]).
  - by injection H2 as <- <-.
Qed.

Ltac cont_tac :=
  lazymatch goal with
  | |- contShifts _ (mret (Continue _)) =>
      apply contShifts_Continue; vm_compute; reflexivity
  | |- contShifts _ (mret (Return _)) => apply contShifts_Return
  | |- contShifts _ undefined => apply contShifts_undefined
  | |- contShifts _ (runtimeError _ ≫= _) => apply contShifts_error
  | |- contShifts _ (bindMethod _ _ ≫= _) =>
      apply contShifts_bindMethod; vm_compute; reflexivity
  | |- contShifts _ (_ ≫= _) => eapply contShifts_bind; [shift_tac | intros; cont_tac]
  | |- contShifts _ (if ?b then _ else _) => destruct b; cont_tac
  | |- contShifts _ (match ?x with _ => _ end) => destruct x; cont_tac
  | |- contShifts _ ?m => let h := head_of m in progress unfold h; cont_tac
  end.

Lemma contShifts_dispatchTable fuel frame :
  Forall2 (fun h e => match e with Some d => contShifts d h | None => True end)
    (dispatchTable fuel frame) stackEffects.
Proof.
  unfold dispatchTable, stackEffects.
  repeat (apply List.Forall2_cons; [cbv beta iota; first [exact I | cont_tac]|]).
  constructor.
Qed.

(** X28: the stack effect of an instruction is fixed by its opcode.  For
    every handler but those of [OP_CALL], [OP_INVOKE], [OP_SUPER_INVOKE] and
    [OP_RETURN], whenever execution goes on after it, [stackTop] has moved by
    the amount that [stackEffects] lists for the opcode, whatever the machine
    and the operands were. *)
Theorem static_stack_effect fuel frame op h d s frame' s' :
  index (dispatchTable fuel frame) op = Some h ->
  index stackEffects op = Some (Some d) ->
  h s = Done (Continue frame') s' ->
  stackTop s' = stackTop s + d.
Proof.
  intros [_ Hh]%index_Some [_ Hd]%index_Some H.
  pose proof (contShifts_dispatchTable fuel frame) as Hall.
  pose proof (Forall2_lookup_lr _ _ _ _ _ _ Hall Hh Hd) as Hc. cbv beta iota in Hc.
  apply (Hc _ _ _ H).
Qed.

Lemma static_stack_effect_witness :
  exists s',
    instr_op_subtract 0 (exProg 8 [OBJ_VAL 3%positive; NUMBER_VAL 5; NUMBER_VAL 3; NIL_VAL] 3)
      = Done (Continue 0) s' /\
    stackTop s' = 3 + -1.
Proof.
  eexists. split; [vm_compute; reflexivity|].
  refine (static_stack_effect 1 0 19 (instr_op_subtract 0) (-1)
    (exProg 8 [OBJ_VAL 3%positive; NUMBER_VAL 5; NUMBER_VAL 3; NIL_VAL] 3) 0 _ _ _ _);
    vm_compute; reflexivity.
Defined.

(** ** Freeing the objects *)

Lemma freeObject_eq a o s :
  heap s !! a = Some o ->
  freeObject a s = Done tt (if notFreed o then s else set_heap (delete a (heap s)) s).
Proof.
  intros Ha. unfold freeObject. mdo (load_eq _ _ _ Ha). by destruct o.
Qed.

(** X25: [freeObjects] frees the closures, functions, natives, strings and
    upvalues on the object chain and nothing else: [freeObject] has no case
    for classes, instances and bound methods, so these stay allocated after
    the walk, on the chain or not; and an object that is not on the chain
    stays as well.  The rest of the machine is not touched. *)
Theorem freeObjects_leaves_classes_instances objects : forall s,
  NoDup objects ->
  (forall a, a ∈ objects -> is_Some (heap s !! a)) ->
  exists s',
    freeObjects objects s = Done tt s' /\
    s' = set_heap (heap s') s /\
    forall a o,
      heap s' !! a = Some o <->
      heap s !! a = Some o /\ (a ∈ objects -> notFreed o = true).
Proof.
  induction objects as [|x objects IH]; intros s Hnd Hin.
  - exists s. split; [done|]. split; [by destruct s|].
    intros a o. split; [intros H; split; [done|by intros ?%elem_of_nil]|by intros [? _]].
  - apply NoDup_cons in Hnd as [Hx Hnd].
    destruct (Hin x) as [ox Hox]; [apply list_elem_of_here|].
    set (s1 := if notFreed ox then s else set_heap (delete x (heap s)) s).
    assert (forall a, a ≠ x -> heap s1 !! a = heap s !! a) as Hne.
    { intros a Ha. unfold s1. destruct (notFreed ox); [done|]. vm_proj.
      by apply lookup_delete_ne. }
    destruct (IH s1 Hnd) as (s' & Hrun & Hs' & Hheap).
    { intros a Ha. rewrite Hne; [apply Hin; by apply list_elem_of_further|].
      by intros ->. }
    exists s'. split; [|split].
    + cbn [freeObjects]. by mdo (freeObject_eq _ _ _ Hox).
    + rewrite Hs' at 1. unfold s1. by destruct (notFreed ox), s.
    + intros a o. rewrite Hheap. destruct (decide (a = x)) as [->|Ha].
      * unfold s1. destruct (notFreed ox) eqn:Hnf.
        -- split.
           ++ intros [H _]. split; [done|]. intros _. rewrite Hox in H. by injection H as <-.
           ++ intros [H _]. split; [done|]. by intros ?.
        -- vm_proj. rewrite lookup_delete_eq. split; [by intros [? _]|].
           intros [H Hfree]. rewrite Hox in H. injection H as <-.
           rewrite Hfree in Hnf; [done|apply list_elem_of_here].
      * rewrite (Hne a Ha). split.
        -- intros [H Hfree]. split; [done|]. intros [?|?]%elem_of_cons; [done|auto].
        -- intros [H Hfree]. split; [done|]. intros ?. apply Hfree.
           by apply list_elem_of_further.
Qed.

Lemma freeObjects_leaves_classes_instances_witness :
  exists s',
    freeObjects exChain (exScript2 0 [] 0) = Done tt s' /\
    s' = set_heap (heap s') (exScript2 0 [] 0) /\
    forall a o,
      heap s' !! a = Some o <->
      heap (exScript2 0 [] 0) !! a = Some o /\ (a ∈ exChain -> notFreed o = true).
Proof.
  apply freeObjects_leaves_classes_instances.
  - apply (bool_decide_unpack _). vm_compute. reflexivity.
  - intros a Ha. unfold exChain in Ha.
    repeat (apply elem_of_cons in Ha as [->|Ha]; [vm_compute; eauto|]).
    by apply elem_of_nil in Ha.
Defined.

(** ** Defining a native *)

Lemma globals_afterTake cs s : globals (afterTake cs s) = globals s.
Proof. unfold afterTake. by destruct (strings s !! cs). Qed.

Lemma defineNative_eq name func s key value :
  0 <= stackTop s ->
  stackTop s + 2 <= Z.of_nat (length (stack s)) ->
  let s2 := pushed (OBJ_VAL (interned (cString name) s)) (afterTake (cString name) s) in
  let f := fresh (dom (heap s2)) in
  let s3 := pushed (OBJ_VAL f) (set_heap (<[f := OBJ_NATIVE func]> (heap s2)) s2) in
  index (stack s3) 0 = Some (OBJ_VAL key) ->
  index (stack s3) 1 = Some value ->
  exists s',
    defineNative name func s = Done tt s' /\
    globals s' = <[key := value]> (globals s) /\
    stackTop s' = stackTop s /\
    strings s' !! cString name = Some (interned (cString name) s) /\
    heap s' !! f = Some (OBJ_NATIVE func).
Proof.
  intros H0 Hlen s2 f s3 Hkey Hvalue.
  assert (stackTop s2 = stackTop s + 1) as Htop2
    by (unfold s2, pushed; vm_proj; by rewrite stackTop_afterTake).
  assert (length (stack s2) = length (stack s)) as Hlen2
    by (unfold s2, pushed; vm_proj; by rewrite length_insert, stack_afterTake).
  assert (stackTop s3 = stackTop s + 2) as Htop3
    by (unfold s3, pushed; vm_proj; lia).
  assert (length (stack s3) = length (stack s)) as Hlen3
    by (unfold s3, pushed; vm_proj; by rewrite length_insert).
  eexists. split.
  - unfold defineNative, copyString, newNative.
    mdo (takeString_eq (cString name) s).
    erewrite bind_Done; [|apply push_eq; rewrite stackTop_afterTake, stack_afterTake; lia].
    cbv beta. fold (pushed (OBJ_VAL (interned (cString name) s)) (afterTake (cString name) s)). fold s2.
    mdo (allocateObject_eq (OBJ_NATIVE func) s2). fold f.
    erewrite bind_Done; [|apply push_eq; vm_proj; lia]. cbv beta.
    fold (pushed (OBJ_VAL f) (set_heap (<[f := OBJ_NATIVE func]> (heap s2)) s2)). fold s3.
    mdo (stack_get_eq _ _ _ Hkey). mstep. mdo (stack_get_eq _ _ _ Hvalue). mstep.
    cbn [tableSet fst].
    erewrite bind_Done; cycle 1.
    { apply pop_eq. vm_proj. rewrite Htop3.
      replace (stackTop s + 2 - 1) with (stackTop s2) by lia.
      unfold s3, pushed. vm_proj. apply index_insert_eq. lia. }
    cbv beta.
    erewrite bind_Done; cycle 1.
    { apply pop_eq. vm_proj. rewrite Htop3.
      replace (stackTop s + 2 - 1 - 1) with (stackTop s) by lia.
      unfold s3, pushed. vm_proj. rewrite index_insert_ne by lia.
      unfold s2, pushed. vm_proj. rewrite stackTop_afterTake.
      apply index_insert_eq. rewrite stack_afterTake. lia. }
    reflexivity.
  - vm_proj. split_and!.
    + unfold s3, pushed. vm_proj. unfold s2, pushed. vm_proj. by rewrite globals_afterTake.
    + lia.
    + unfold s3, pushed. vm_proj. unfold s2, pushed. vm_proj. apply strings_interned.
    + unfold s3, pushed. vm_proj. apply lookup_insert_eq.
Qed.

(** X26: [defineNative] pushes the name and the native, and then binds
    [vm.stack[0]] to [vm.stack[1]] in the globals table: the bottom of the
    stack, not the two values it has just pushed.  On an empty stack, as in
    [initVM], these are the interned name and the new native object; on a
    stack that already holds two values or more the name is not bound to the
    native, the value in slot 0 is bound to the value in slot 1 instead.  In
    both cases [stackTop] ends where it was.  The name interned is the C
    string [name], its characters up to [strlen(name)]. *)
Theorem defineNative_reads_stack_bottom name func s :
  0 <= stackTop s ->
  stackTop s + 2 <= Z.of_nat (length (stack s)) ->
  (stackTop s = 0 ->
   exists s' f,
     defineNative name func s = Done tt s' /\
     strings s' !! cString name = Some (interned (cString name) s) /\
     heap s' !! f = Some (OBJ_NATIVE func) /\
     globals s' = <[interned (cString name) s := OBJ_VAL f]> (globals s) /\
     stackTop s' = 0) /\
  (2 <= stackTop s ->
   forall k v,
     index (stack s) 0 = Some (OBJ_VAL k) ->
     index (stack s) 1 = Some v ->
     exists s',
       defineNative name func s = Done tt s' /\
       globals s' = <[k := v]> (globals s) /\
       stackTop s' = stackTop s).
Proof.
  intros H0 Hlen. split.
  - intros Htop.
    destruct (defineNative_eq name func s (interned (cString name) s)
                (OBJ_VAL (fresh (dom (heap (pushed (OBJ_VAL (interned (cString name) s))
                                              (afterTake (cString name) s)))))) H0 Hlen)
      as (s' & Hrun & Hg & Ht & Hs & Hh).
    + unfold pushed. vm_proj. rewrite ?stackTop_afterTake, ?stack_afterTake, Htop.
      rewrite index_insert_ne by lia. apply index_insert_eq. lia.
    + unfold pushed. vm_proj. rewrite ?stackTop_afterTake, ?stack_afterTake, Htop.
      apply (index_insert_eq _ (0 + 1)). rewrite length_insert. lia.
    + exists s', (fresh (dom (heap (pushed (OBJ_VAL (interned (cString name) s)) (afterTake (cString name) s))))).
      split_and!; try done. by rewrite Ht.
  - intros Htop k v Hk Hv.
    destruct (defineNative_eq name func s k v H0 Hlen) as (s' & Hrun & Hg & Ht & _).
    + unfold pushed. vm_proj. rewrite ?stackTop_afterTake, ?stack_afterTake.
      by rewrite !index_insert_ne by lia.
    + unfold pushed. vm_proj. rewrite ?stackTop_afterTake, ?stack_afterTake.
      by rewrite !index_insert_ne by lia.
    + by exists s'.
Qed.

Lemma defineNative_reads_stack_bottom_witness :
  exists s',
    defineNative "clock" (fun _ _ => NIL_VAL)
      (exScript 0 [OBJ_VAL 4%positive; BOOL_VAL true; NIL_VAL; NIL_VAL] 2) = Done tt s' /\
    globals s' = <[4%positive := BOOL_VAL true]> ∅ /\
    stackTop s' = 2.
Proof.
  refine (proj2 (defineNative_reads_stack_bottom "clock" (fun _ _ => NIL_VAL)
    (exScript 0 [OBJ_VAL 4%positive; BOOL_VAL true; NIL_VAL; NIL_VAL] 2) _ _) _
    4%positive (BOOL_VAL true) _ _); vm_compute; try reflexivity; discriminate.
Defined.

(** ** [interpret] *)

(** X27: [interpret] returns [INTERPRET_COMPILE_ERROR] without touching the
    machine when the compiler returned no function.  Otherwise it wraps the
    function in a new closure without upvalues, leaves that closure in the
    stack slot where the frame of the script starts, pushes the frame and
    runs.  The result of [call] is not checked: for a function that takes
    parameters, on a machine without frames, [call] reports the arity error
    and resets the stacks, and [run] then reads [vm.frames[-1]], which is
    undefined behaviour. *)
Theorem interpret_enters_script steps fuel f fn s :
  heap s !! f = Some (OBJ_FUNCTION fn) ->
  0 <= stackTop s < Z.of_nat (length (stack s)) ->
  0 <= frameCount s < Z.of_nat (length (frames s)) ->
  frameCount s ≠ FRAMES_MAX ->
  interpret steps fuel None s = Done INTERPRET_COMPILE_ERROR s /\
  (arity fn = 0 ->
   interpret steps fuel (Some f) s = run steps fuel (scriptEntered f fn s) /\
   frameCount (scriptEntered f fn s) = frameCount s + 1 /\
   index (frames (scriptEntered f fn s)) (frameCount s)
     = Some (mkFrame (fresh (dom (heap s))) 0 (stackTop s)) /\
   index (stack (scriptEntered f fn s)) (stackTop s) = Some (OBJ_VAL (fresh (dom (heap s))))) /\
  (arity fn ≠ 0 -> frameCount s = 0 ->
   interpret (S steps) fuel (Some f) s = Undef).
Proof.
  intros Hf Htop Hfc Hmax. split; [done|].
  pose proof (fresh_heap s) as Hfresh. set (cl := fresh (dom (heap s))) in *.
  set (c := mkClosure f (replicate (Z.to_nat (upvalueCount fn)) None) (upvalueCount fn)).
  assert (f ≠ cl) as Hne by (intros ->; by rewrite Hfresh in Hf).
  assert (forall k : M InterpretResult,
    (push (OBJ_VAL f);; cl' ← newClosure f; pop;; push (OBJ_VAL cl');;
     call cl' 0;; k) s =
    (call cl 0;; k)
      (pushed (OBJ_VAL cl) (set_heap (<[cl := OBJ_CLOSURE c]> (heap s)) s))) as Hsetup.
  { intros k.
    erewrite bind_Done; [|by apply push_eq]. cbv beta.
    unfold newClosure. erewrite bind_Done; cycle 1.
    { erewrite bind_Done; [|by apply loadFunction_eq]. cbv beta.
      apply allocateObject_eq. }
    cbv beta. vm_proj. fold cl. fold c.
    erewrite bind_Done; cycle 1.
    { apply pop_eq. vm_proj. replace (stackTop s + 1 - 1) with (stackTop s) by lia.
      by apply index_insert_eq. }
    cbv beta.
    erewrite bind_Done; cycle 1.
    { apply push_eq. vm_proj. rewrite length_insert. lia. }
    cbv beta.
    match goal with |- _ ?a = _ ?b => enough (a = b) as -> by reflexivity end.
    apply VM_ext; unfold pushed; vm_proj; try done.
    - replace (stackTop s + 1 - 1) with (stackTop s) by lia. apply list_insert_insert_eq.
    - lia. }
  split.
  - intros Har. split_and!.
    + unfold interpret. rewrite Hsetup.
      erewrite bind_Done; cycle 1.
      { pose proof (call_enter cl c fn
          (pushed (OBJ_VAL cl) (set_heap (<[cl := OBJ_CLOSURE c]> (heap s)) s))) as Hc.
        rewrite Har in Hc. apply Hc; unfold pushed; vm_proj;
          [apply lookup_insert_eq|by rewrite lookup_insert_ne|done|done]. }
      done.
    + done.
    + unfold scriptEntered, afterCall, pushed. vm_proj. fold cl.
      replace (stackTop s + 1 - 0 - 1) with (stackTop s) by lia.
      apply index_insert_eq. lia.
    + unfold scriptEntered, afterCall, pushed. vm_proj. by apply index_insert_eq.
  - intros Har Hfc0. unfold interpret. rewrite Hsetup.
    erewrite bind_Done; cycle 1.
    { apply (call_arity_mismatch cl c fn 0 _ ""); unfold pushed; vm_proj;
        [apply lookup_insert_eq|by rewrite lookup_insert_ne|lia| |congruence].
      unfold stackTrace. vm_proj. by rewrite Hfc0. }
    cbv beta. unfold run. mstep. cbn [run_from]. reflexivity.
Qed.

Lemma interpret_enters_script_witness :
  interpret 10 1 (Some 2%positive) exMain
    = run 10 1 (scriptEntered 2%positive (mkFunction 0 0 mainChunk None) exMain).
Proof.
  refine (proj1 (proj1 (proj2 (interpret_enters_script 10 1 2%positive
    (mkFunction 0 0 mainChunk None) exMain _ _ _ _)) eq_refl));
    vm_compute; try reflexivity; try discriminate; split; try discriminate; reflexivity.
Defined.

(** ** Making a closure *)

Lemma afterCapture_frame local l1 mid s :
  afterCapture local l1 mid s
  = set_openUpvalues (openUpvalues (afterCapture local l1 mid s))
      (set_heap (heap (afterCapture local l1 mid s)) s).
Proof.
  unfold afterCapture. destruct (last l1) as [[p kp]|]; [|by destruct s].
  destruct (heap s !! p) as [[]|]; by destruct s.
Qed.

Lemma afterCapture_heap_other local l1 mid s a o :
  heap s !! a = Some o -> isUpvalue o = false ->
  heap (afterCapture local l1 mid s) !! a = Some o.
Proof.
  intros Ha Ho.
  assert (a ≠ fresh (dom (heap s))) as Hne by (intros ->; by rewrite fresh_heap in Ha).
  unfold afterCapture. destruct (last l1) as [[p kp]|].
  - destruct (heap s !! p) as [[]|] eqn:Hp; try done. vm_proj.
    rewrite lookup_insert_ne; [by rewrite lookup_insert_ne|].
    intros ->. rewrite Hp in Ha. by injection Ha as <-.
  - vm_proj. by rewrite lookup_insert_ne.
Qed.

Lemma captureUpvalue_spec fuel local s l :
  openList s l ->
  decreasing l ->
  (length l < fuel)%nat ->
  exists u s' l',
    captureUpvalue fuel local s = Done u s' /\
    openList s' l' /\ decreasing l' /\
    (u, local) ∈ l' /\
    (forall p, p ∈ l -> p ∈ l') /\
    (length l' <= S (length l))%nat /\
    s' = set_openUpvalues (openUpvalues s') (set_heap (heap s') s) /\
    (forall a o, heap s !! a = Some o -> isUpvalue o = false -> heap s' !! a = Some o).
Proof.
  intros Hl Hdec Hfuel.
  destruct (decreasing_split l local Hdec) as (l1 & l2 & -> & Hgt & Hle).
  rewrite length_app in Hfuel.
  assert (Forall (fun p => p.2 < local) l2 \/ exists u r, l2 = (u, local) :: r)
    as [Hlt|(u & r & ->)].
  { destruct l2 as [|[u k] r]; [by left|].
    apply Forall_cons_1 in Hle as [Hk _]. cbn in Hk.
    destruct (decide (k = local)) as [->|Hne]; [right; eauto|left].
    apply (decreasing_below_head u k); [|lia].
    by apply StronglySorted_app in Hdec as (_ & _ & ?). }
  - destruct (captureUpvalue_new local fuel s l1 l2 Hl Hdec Hgt Hlt)
      as (mid & Hrun & Hl' & Hdec'); [lia|].
    exists (fresh (dom (heap s))), (afterCapture local l1 mid s),
      (l1 ++ (fresh (dom (heap s)), local) :: l2).
    split_and!; try done.
    + apply elem_of_app. right. apply list_elem_of_here.
    + intros p [?|?]%elem_of_app; apply elem_of_app; [by left|right].
      by apply list_elem_of_further.
    + rewrite !length_app. cbn. lia.
    + apply afterCapture_frame.
    + intros a o. apply afterCapture_heap_other.
  - exists u, s, (l1 ++ (u, local) :: r). split_and!; try done.
    + eapply captureUpvalue_found; eauto. lia.
    + apply elem_of_app. right. apply list_elem_of_here.
    + lia.
    + by destruct s.
Qed.

Lemma openList_not_node s l a o :
  openList s l -> heap s !! a = Some o -> isUpvalue o = false -> a ∉ l.*1.
Proof.
  intros Hl Ha Ho ([u k] & -> & Hin)%list_elem_of_fmap. cbn in Ha.
  destruct (openSeg_elem_of _ _ _ _ _ _ Hl Hin) as (c & nx & Hu).
  rewrite Hu in Ha. by injection Ha as <-.
Qed.

Lemma codeAt_same s s' frame k fr c fn :
  index (frames s) frame = Some fr ->
  heap s !! closure fr = Some (OBJ_CLOSURE c) ->
  heap s !! function c = Some (OBJ_FUNCTION fn) ->
  index (frames s') frame = Some fr ->
  heap s' !! closure fr = Some (OBJ_CLOSURE c) ->
  heap s' !! function c = Some (OBJ_FUNCTION fn) ->
  codeAt s' frame k = codeAt s frame k.
Proof.
  intros Hfr Hc Hfn Hfr' Hc' Hfn'. unfold codeAt, frameFunction.
  by rewrite Hfr, Hfr', Hc, Hc', Hfn, Hfn'.
Qed.

Lemma frames_advance_same frame k s s' :
  frames s' = frames s -> frames (advance frame k s') = frames (advance frame k s).
Proof.
  intros H. unfold advance. rewrite H.
  destruct (index (frames s) frame); vm_proj; by rewrite ?H.
Qed.

Lemma advance_0 frame s : advance frame 0 s = s.
Proof.
  unfold advance. destruct (index (frames s) frame) as [fr|] eqn:Hfr; [|done].
  apply index_Some in Hfr as [_ Hfr]. destruct s, fr. unfold set_frames. vm_proj. f_equal.
  apply list_insert_id. cbn in *. by rewrite Z.add_0_r.
Qed.

Lemma capturedAs_mono enc base l l' p e :
  (forall q, q ∈ l -> q ∈ l') -> capturedAs enc base l p e -> capturedAs enc base l' p e.
Proof.
  intros Hsub. unfold capturedAs. case_decide; [|done]. intros (u & -> & Hin). eauto.
Qed.

(** One round of the loop of [OP_CLOSURE], after its two operand bytes. *)
Lemma closure_round_spec fuel frame cl f cnt encA enc base isLocal idx i s l ups ipx :
  heap s !! cl = Some (OBJ_CLOSURE (mkClosure f ups cnt)) ->
  0 <= i < Z.of_nat (length ups) ->
  openList s l -> decreasing l -> (length l < fuel)%nat ->
  index (frames s) frame = Some (mkFrame encA ipx base) ->
  heap s !! encA = Some (OBJ_CLOSURE enc) ->
  (isLocal = 0 -> is_Some (index (upvalues enc) idx)) ->
  exists s' l' e,
    (if decide (isLocal ≠ 0) then
       fr ← frames_get frame;
       up ← captureUpvalue fuel (slots fr + idx);
       setUpvalue cl i (Some up)
     else
       fr ← frames_get frame;
       enclosing ← loadClosure (closure fr);
       up ← lift (index (upvalues enclosing) idx);
       setUpvalue cl i up) s = Done tt s' /\
    heap s' !! cl = Some (OBJ_CLOSURE (mkClosure f (<[Z.to_nat i := e]> ups) cnt)) /\
    capturedAs enc base l' (isLocal, idx) e /\
    openList s' l' /\ decreasing l' /\
    (forall p, p ∈ l -> p ∈ l') /\
    (length l' <= S (length l))%nat /\
    s' = set_openUpvalues (openUpvalues s') (set_heap (heap s') s) /\
    (forall a o, heap s !! a = Some o -> a ≠ cl -> isUpvalue o = false ->
                 heap s' !! a = Some o).
Proof.
  intros Hcl Hi Hl Hdec Hfuel Hfr Henc Hidx.
  case_decide as Hloc.
  - destruct (captureUpvalue_spec fuel (base + idx) s l Hl Hdec Hfuel)
      as (u & s1 & l1 & Hrun & Hl1 & Hdec1 & Hu & Hsub & Hlen & Hs1 & Hheap).
    pose proof (Hheap _ _ Hcl eq_refl) as Hcl1.
    exists (set_heap (<[cl := OBJ_CLOSURE (mkClosure f (<[Z.to_nat i := Some u]> ups) cnt)]>
                        (heap s1)) s1), l1, (Some u).
    split_and!.
    + mdo (frames_get_eq _ _ _ Hfr). cbn [slots]. mdo Hrun.
      unfold setUpvalue. mdo (loadClosure_eq _ _ _ Hcl1). cbn [upvalues function
        closure_upvalueCount]. rewrite update_Some by done. by mstep.
    + vm_proj. apply lookup_insert_eq.
    + unfold capturedAs. cbn [fst snd]. rewrite decide_True by done. eauto.
    + unfold openList. vm_proj. apply openSeg_insert; [done|].
      by eapply openList_not_node.
    + done.
    + done.
    + done.
    + apply VM_ext; vm_proj; try done; by rewrite Hs1.
    + intros a o Ha Hne Ho. vm_proj. rewrite lookup_insert_ne by done. by apply Hheap.
  - assert (isLocal = 0) as -> by (destruct (decide (isLocal = 0)); [done|by destruct Hloc]).
    destruct (Hidx eq_refl) as [e He].
    exists (set_heap (<[cl := OBJ_CLOSURE (mkClosure f (<[Z.to_nat i := e]> ups) cnt)]>
                        (heap s)) s), l, e.
    split_and!.
    + mdo (frames_get_eq _ _ _ Hfr). cbn [closure]. mdo (loadClosure_eq _ _ _ Henc).
      rewrite He. mstep.
      unfold setUpvalue. mdo (loadClosure_eq _ _ _ Hcl). cbn [upvalues function
        closure_upvalueCount]. rewrite update_Some by done. by mstep.
    + vm_proj. apply lookup_insert_eq.
    + unfold capturedAs. cbn [fst snd]. by rewrite decide_False by (by intros ?).
    + unfold openList. vm_proj. apply openSeg_insert; [done|].
      by eapply openList_not_node.
    + done.
    + done.
    + lia.
    + by destruct s.
    + intros a o Ha Hne Ho. vm_proj. by rewrite lookup_insert_ne.
Qed.

Lemma closure_loop_spec fuel frame cl f cnt encA enc fenc base : forall ops i s l ups ipx,
  heap s !! cl = Some (OBJ_CLOSURE (mkClosure f ups cnt)) ->
  0 <= i ->
  (Z.to_nat i + length ops <= length ups)%nat ->
  openList s l -> decreasing l -> (length l + length ops < fuel)%nat ->
  index (frames s) frame = Some (mkFrame encA ipx base) ->
  heap s !! encA = Some (OBJ_CLOSURE enc) ->
  encA ≠ cl ->
  heap s !! function enc = Some (OBJ_FUNCTION fenc) ->
  closureOperands s frame ops ->
  (forall p, p ∈ ops -> p.1 = 0 -> is_Some (index (upvalues enc) p.2)) ->
  exists s' l' ups',
    instr_op_closure_loop fuel frame (length ops) cl i s = Done tt s' /\
    heap s' !! cl = Some (OBJ_CLOSURE (mkClosure f ups' cnt)) /\
    length ups' = length ups /\
    (forall j, (j < Z.to_nat i)%nat -> ups' !! j = ups !! j) /\
    (forall j p, ops !! j = Some p ->
       exists e, ups' !! (Z.to_nat i + j)%nat = Some e /\ capturedAs enc base l' p e) /\
    openList s' l' /\ decreasing l' /\
    (forall p, p ∈ l -> p ∈ l') /\
    stack s' = stack s /\ stackTop s' = stackTop s /\
    frameCount s' = frameCount s /\ globals s' = globals s /\
    frames s' = frames (advance frame (2 * Z.of_nat (length ops)) s) /\
    (forall a o, heap s !! a = Some o -> a ≠ cl -> isUpvalue o = false ->
                 heap s' !! a = Some o).
Proof.
  induction ops as [|[isLocal idx] ops IH];
    intros i s l ups ipx Hcl Hi Hlen Hl Hdec Hfuel Hfr Henc Hne1 Hfenc Hops Hidx.
  - exists s, l, ups. cbn [length instr_op_closure_loop]. split_and!; try done.
    change (2 * Z.of_nat 0) with 0. by rewrite advance_0.
  - cbn [length] in *.
    assert (function enc ≠ cl) as Hne2 by (intros Heq; by rewrite Heq, Hcl in Hfenc).
    destruct (Hops 0%nat (isLocal, idx) eq_refl) as [Hb0 Hb1]. cbn [fst snd] in Hb0, Hb1.
    change (2 * Z.of_nat 0) with 0 in Hb0. change (2 * Z.of_nat 0 + 1) with 1 in Hb1.
    set (s2 := advance frame 2 s).
    assert (index (frames s2) frame = Some (mkFrame encA (ipx + 2) base)) as Hfr2.
    { unfold s2. by rewrite (index_frames_advance _ _ _ _ Hfr). }
    destruct (closure_round_spec fuel frame cl f cnt encA enc base isLocal idx i s2 l ups
                (ipx + 2)) as (s4 & l4 & e & Hround & Hcl4 & Hcap & Hl4 & Hdec4 & Hsub4 &
                               Hlen4 & Hs4 & Hheap4).
    { unfold s2. by rewrite heap_advance. }
    { lia. }
    { unfold openList, s2. by rewrite heap_advance, openUpvalues_advance. }
    { done. }
    { lia. }
    { done. }
    { unfold s2. by rewrite heap_advance. }
    { intros ->. apply (Hidx (0, idx)); [apply list_elem_of_here|done]. }
    assert (heap s4 !! encA = Some (OBJ_CLOSURE enc)) as Henc4.
    { apply Hheap4; [unfold s2; by rewrite heap_advance|done|done]. }
    assert (heap s4 !! function enc = Some (OBJ_FUNCTION fenc)) as Hfenc4.
    { apply Hheap4; [unfold s2; by rewrite heap_advance|done|done]. }
    assert (frames s4 = frames s2) as Hframes4 by (by rewrite Hs4).
    assert (index (frames s4) frame = Some (mkFrame encA (ipx + 2) base)) as Hfr4
      by (by rewrite Hframes4).
    assert (forall k, codeAt s4 frame k = codeAt s frame (2 + k)) as Hcode.
    { intros k. unfold s2 in *. rewrite <-codeAt_advance.
      apply (codeAt_same _ _ _ _ (mkFrame encA (ipx + 2) base) enc fenc);
        rewrite ?heap_advance; done. }
    destruct (IH (i + 1) s4 l4 (<[Z.to_nat i := e]> ups) (ipx + 2))
      as (s' & l' & ups' & Hrun & Hcl' & Hlen' & Hkeep & Hentries & Hl' & Hdec' & Hsub' &
          Hstack & Htop & Hfc & Hglob & Hframes & Hheap'); try done.
    { lia. }
    { rewrite length_insert. lia. }
    { lia. }
    { intros j p Hp. destruct (Hops (S j) p Hp) as [H0 H1]. rewrite !Hcode.
      split; [rewrite <-H0|rewrite <-H1]; f_equal; lia. }
    { intros p Hp. apply Hidx. by apply list_elem_of_further. }
    exists s', l', ups'. split_and!.
    + cbn [instr_op_closure_loop].
      mdo (READ_BYTE_eq _ _ _ Hb0).
      erewrite bind_Done; [|apply READ_BYTE_eq; by rewrite codeAt_advance]. cbv beta.
      rewrite advance_advance. change (1 + 1) with 2. fold s2.
      erewrite bind_Done; [|exact Hround]. cbv beta. exact Hrun.
    + done.
    + by rewrite Hlen', length_insert.
    + intros j Hj. rewrite Hkeep by lia. apply list_lookup_insert_ne. lia.
    + intros [|j] p Hp.
      * injection Hp as <-. exists e. split; [|by eapply capturedAs_mono].
        rewrite Nat.add_0_r, Hkeep by lia. apply list_lookup_insert_eq. lia.
      * destruct (Hentries j p Hp) as (e' & He' & Hcap'). exists e'. split; [|done].
        rewrite <-He'. f_equal. lia.
    + done.
    + done.
    + auto.
    + rewrite Hstack, Hs4. unfold s2. vm_proj. apply stack_advance.
    + rewrite Htop, Hs4. unfold s2. vm_proj. apply stackTop_advance.
    + rewrite Hfc, Hs4. unfold s2. vm_proj. apply frameCount_advance.
    + rewrite Hglob, Hs4. unfold s2. vm_proj. apply globals_advance.
    + rewrite Hframes. rewrite (frames_advance_same _ _ s2 s4 Hframes4).
      unfold s2. rewrite advance_advance. do 2 f_equal. lia.
    + intros a o Ha Hne Ho. apply Hheap'; [|done|done].
      apply Hheap4; [unfold s2; by rewrite heap_advance|done|done].
Qed.

(** X29: [OP_CLOSURE] allocates a closure of the function named by its first
    operand, pushes it, and fills every one of its [upvalueCount] upvalue
    slots from the operand pairs that follow: a pair with [isLocal] set gets
    an upvalue that is open on the local [frame->slots + index], a node of the
    sorted open list (one that was there, or a new one), and a pair without
    gets the very upvalue object that the running closure holds at [index],
    which the two closures then share.  The open list stays sorted and keeps
    its nodes, [ip] moves past all the operands, and no object other than
    upvalues is changed. *)
Theorem closure_captures fuel frame s c f fn ops fr enc fenc l :
  codeAt s frame 0 = Some c ->
  constAt s frame c = Some (OBJ_VAL f) ->
  heap s !! f = Some (OBJ_FUNCTION fn) ->
  upvalueCount fn = Z.of_nat (length ops) ->
  closureOperands (advance frame 1 s) frame ops ->
  index (frames s) frame = Some fr ->
  heap s !! closure fr = Some (OBJ_CLOSURE enc) ->
  heap s !! function enc = Some (OBJ_FUNCTION fenc) ->
  (forall p, p ∈ ops -> p.1 = 0 -> is_Some (index (upvalues enc) p.2)) ->
  0 <= stackTop s < Z.of_nat (length (stack s)) ->
  openList s l -> decreasing l -> (length l + length ops < fuel)%nat ->
  exists s' ups l',
    instr_op_closure fuel frame s = Done (Continue frame) s' /\
    heap s' !! fresh (dom (heap s))
      = Some (OBJ_CLOSURE (mkClosure f ups (upvalueCount fn))) /\
    length ups = length ops /\
    (forall j p, ops !! j = Some p ->
       exists e, ups !! j = Some e /\ capturedAs enc (slots fr) l' p e) /\
    openList s' l' /\ decreasing l' /\
    (forall p, p ∈ l -> p ∈ l') /\
    stackTop s' = stackTop s + 1 /\
    index (stack s') (stackTop s) = Some (OBJ_VAL (fresh (dom (heap s)))) /\
    frames s' = frames (advance frame (1 + 2 * Z.of_nat (length ops)) s) /\
    (forall a o, heap s !! a = Some o -> isUpvalue o = false -> heap s' !! a = Some o).
Proof.
  intros Hc Hconst Hf Hcount Hops Hfr Henc Hfenc Hidx Htop Hl Hdec Hfuel.
  pose proof (fresh_heap s) as Hfresh. set (cl := fresh (dom (heap s))) in *.
  set (s1 := advance frame 1 s).
  set (c0 := mkClosure f (replicate (Z.to_nat (upvalueCount fn)) None) (upvalueCount fn)).
  set (s2 := pushed (OBJ_VAL cl) (set_heap (<[cl := OBJ_CLOSURE c0]> (heap s1)) s1)).
  assert (heap s1 = heap s) as Hh1 by apply heap_advance.
  assert (closure fr ≠ cl) as Hne1 by (intros Heq; by rewrite Heq, Hfresh in Henc).
  assert (function enc ≠ cl) as Hne2 by (intros Heq; by rewrite Heq, Hfresh in Hfenc).
  assert (index (frames s1) frame = Some (mkFrame (closure fr) (ip fr + 1) (slots fr)))
    as Hfr1 by (by apply index_frames_advance).
  assert (heap s2 !! cl = Some (OBJ_CLOSURE c0)) as Hcl2.
  { unfold s2, pushed. vm_proj. apply lookup_insert_eq. }
  assert (forall a, a ≠ cl -> heap s2 !! a = heap s !! a) as Hh2.
  { intros a Ha. unfold s2, pushed. vm_proj. by rewrite lookup_insert_ne, Hh1. }
  destruct (closure_loop_spec fuel frame cl f (upvalueCount fn) (closure fr) enc fenc
              (slots fr) ops 0 s2 l (replicate (Z.to_nat (upvalueCount fn)) None)
              (ip fr + 1))
    as (s' & l' & ups' & Hrun & Hcl' & Hlen' & _ & Hentries & Hl' & Hdec' & Hsub' &
        Hstack & Htop' & _ & _ & Hframes & Hheap'); try done.
  { rewrite length_replicate, Hcount, Nat2Z.id. lia. }
  { unfold openList, s2, pushed. vm_proj. rewrite Hh1.
    unfold s1. rewrite openUpvalues_advance. apply openSeg_insert; [done|].
    intros [o Ho]%(openSeg_dom _ _ _ _ _ Hl). fold cl in Ho. by rewrite Hfresh in Ho. }
  { by rewrite Hh2. }
  { by rewrite Hh2. }
  { intros j p Hp. destruct (Hops j p Hp) as [H0 H1].
    rewrite <-H0, <-H1.
    split; apply (codeAt_same _ _ _ _ (mkFrame (closure fr) (ip fr + 1) (slots fr)) enc fenc);
      rewrite ?heap_advance, ?Hh1, ?Hh2; done. }
  exists s', ups', l'. split_and!.
  - unfold instr_op_closure. mdo (READ_CONSTANT_eq _ _ _ _ Hc Hconst). mstep.
    unfold newClosure. fold s1.
    erewrite bind_Done; cycle 1.
    { erewrite bind_Done; [|apply loadFunction_eq; by rewrite Hh1]. cbv beta.
      apply allocateObject_eq. }
    cbv beta. rewrite Hh1. fold cl. fold c0.
    erewrite bind_Done; cycle 1.
    { apply push_eq. vm_proj. unfold s1. by rewrite stackTop_advance, stack_advance. }
    cbv beta.
    fold (pushed (OBJ_VAL cl) (set_heap (<[cl := OBJ_CLOSURE c0]> (heap s)) s1)).
    rewrite <-Hh1. fold s2.
    mdo (loadClosure_eq _ _ _ Hcl2). cbn [closure_upvalueCount c0].
    rewrite Hcount, Nat2Z.id.
    erewrite bind_Done; [|exact Hrun]. done.
  - done.
  - by rewrite Hlen', length_replicate, Hcount, Nat2Z.id.
  - intros j p Hp. destruct (Hentries j p Hp) as (e & He & Hcap). by exists e.
  - done.
  - done.
  - done.
  - rewrite Htop'. unfold s2, pushed. vm_proj. unfold s1. by rewrite stackTop_advance.
  - rewrite Hstack. unfold s2, pushed. vm_proj. unfold s1.
    rewrite stackTop_advance, stack_advance. by apply index_insert_eq.
  - rewrite Hframes.
    rewrite (frames_advance_same _ _ s1 s2) by done.
    unfold s1. by rewrite advance_advance.
  - intros a o Ha Ho. apply Hheap'; [|by intros ->; rewrite Hfresh in Ha|done].
    rewrite Hh2; [done|]. intros ->. by rewrite Hfresh in Ha.
Qed.

Lemma closure_captures_witness :
  exists s' ups l',
    instr_op_closure 2 1 exMake = Done (Continue 1) s' /\
    heap s' !! fresh (dom (heap exMake)) = Some (OBJ_CLOSURE (mkClosure 4%positive ups 1)) /\
    length ups = 1%nat /\
    (forall j p, [(1, 1)] !! j = Some p ->
       exists e, ups !! j = Some e /\ capturedAs (mkClosure 3%positive [] 0) 1 l' p e) /\
    openList s' l' /\ decreasing l' /\
    (forall p, p ∈ [] -> p ∈ l') /\
    stackTop s' = 3 + 1 /\
    index (stack s') 3 = Some (OBJ_VAL (fresh (dom (heap exMake)))) /\
    frames s' = frames (advance 1 (1 + 2 * 1) exMake) /\
    (forall a o, heap exMake !! a = Some o -> isUpvalue o = false -> heap s' !! a = Some o).
Proof.
  refine (closure_captures 2 1 exMake 0 4%positive
    (mkFunction 0 1 (mkChunk [x04; x00; x21] (replicate 3 1) []) (Some 6%positive))
    [(1, 1)] (mkFrame 8%positive 2 1) (mkClosure 3%positive [] 0)
    (mkFunction 0 0 (mkChunk [x02; x1f; x00; x01; x01; x21] (replicate 6 1)
                       [OBJ_VAL 4%positive]) (Some 5%positive))
    [] _ _ _ _ _ _ _ _ _ _ _ _ _); try (vm_compute; reflexivity).
  - intros [|[|j]] p Hp; [|done..]. injection Hp as <-. split; vm_compute; reflexivity.
  - intros p [->|?%elem_of_nil]%elem_of_cons; done.
  - vm_compute. split; [discriminate|reflexivity].
  - constructor.
  - constructor.
Defined.

(** ** Strings stay interned *)

Create HintDb intern discriminated.

Lemma interning_same s s' :
  heap s' = heap s -> strings s' = strings s -> interning s -> interning s'.
Proof. unfold interning. by intros -> ->. Qed.

Lemma interning_store s a o o' :
  heap s !! a = Some o -> isStringObj o = false -> isStringObj o' = false ->
  interning s -> interning (set_heap (<[a := o']> (heap s)) s).
Proof.
  intros Ha Ho Ho' Hs b cs. vm_proj. rewrite <-(Hs b cs).
  destruct (decide (a = b)) as [<-|Hne].
  - rewrite lookup_insert_eq, Ha. split; intros [= ->]; cbn in *; done.
  - by rewrite lookup_insert_ne.
Qed.

Lemma interning_alloc s o :
  isStringObj o = false ->
  interning s -> interning (set_heap (<[fresh (dom (heap s)) := o]> (heap s)) s).
Proof.
  intros Ho Hs b cs. vm_proj. rewrite <-(Hs b cs).
  destruct (decide (fresh (dom (heap s)) = b)) as [<-|Hne].
  - rewrite lookup_insert_eq, fresh_heap. split; [intros [= ->]; cbn in *; done|done].
  - by rewrite lookup_insert_ne.
Qed.

Section keepsInterning.
Context {A B : Type}.

Lemma keepsInterning_ret (a : A) : keepsInterning (mret a).
Proof. by intros s a' s' [= <- <-]. Qed.

Lemma keepsInterning_bind (m : M A) (f : A -> M B) :
  keepsInterning m -> (forall a, keepsInterning (f a)) -> keepsInterning (m ≫= f).
Proof.
  intros Hm Hf s b s' (a & s1 & H1 & H2)%bind_inv Hs. eapply Hf; [exact H2|]. eauto.
Qed.

Lemma keepsInterning_gets (f : VM -> A) : keepsInterning (gets f).
Proof. by intros s a s' [= <- <-]. Qed.

Lemma keepsInterning_lift (o : option A) : keepsInterning (lift o).
Proof. by intros s a s' [_ ->]%lift_inv. Qed.

Lemma keepsInterning_undefined : keepsInterning (undefined (A:=A)).
Proof. intros s a s' [=]. Qed.

Lemma keepsInterning_out_of_fuel : keepsInterning (out_of_fuel (A:=A)).
Proof. intros s a s' [=]. Qed.
End keepsInterning.

Lemma keepsInterning_modify (f : VM -> VM) :
  (forall s, heap (f s) = heap s /\ strings (f s) = strings s) ->
  keepsInterning (modify f).
Proof.
  intros Hf s a s' [= _ <-]. destruct (Hf s). by apply interning_same.
Qed.

#[local] Hint Resolve keepsInterning_ret keepsInterning_gets keepsInterning_lift
  keepsInterning_undefined keepsInterning_out_of_fuel : intern.

(** Structural descent through a computation, down to the store sites. *)
Ltac intern_tac :=
  lazymatch goal with
  | |- keepsInterning (_ ≫= _) => apply keepsInterning_bind; [intern_tac | intros; intern_tac]
  | |- keepsInterning (if ?b then _ else _) => destruct b; intern_tac
  | |- keepsInterning (match ?x with _ => _ end) => destruct x; intern_tac
  | |- keepsInterning (modify _) => apply keepsInterning_modify; intros; split; reflexivity
  | |- keepsInterning ?m =>
      first [ solve [auto with intern]
            | let h := head_of m in progress unfold h; intern_tac ]
  end.

Lemma keepsInterning_allocateObject o :
  isStringObj o = false -> keepsInterning (allocateObject o).
Proof. intros Ho s a s' [= _ <-]. by apply interning_alloc. Qed.

Lemma keepsInterning_newInstance k : keepsInterning (newInstance k).
Proof. by apply keepsInterning_allocateObject. Qed.
Lemma keepsInterning_newClass n : keepsInterning (newClass n).
Proof. by apply keepsInterning_allocateObject. Qed.
Lemma keepsInterning_newBoundMethod r m : keepsInterning (newBoundMethod r m).
Proof. by apply keepsInterning_allocateObject. Qed.
Lemma keepsInterning_newUpvalue slot : keepsInterning (newUpvalue slot).
Proof. by apply keepsInterning_allocateObject. Qed.
Lemma keepsInterning_newClosure f : keepsInterning (newClosure f).
Proof.
  unfold newClosure. apply keepsInterning_bind; [intern_tac|]. intros fn.
  by apply keepsInterning_allocateObject.
Qed.
#[local] Hint Resolve keepsInterning_newInstance keepsInterning_newClass
  keepsInterning_newBoundMethod keepsInterning_newUpvalue keepsInterning_newClosure : intern.

Lemma keepsInterning_takeString cs : keepsInterning (takeString cs).
Proof.
  intros s a s' H Hs. rewrite takeString_eq in H. injection H as _ <-.
  unfold afterTake. destruct (strings s !! cs) as [r|] eqn:Hr; [done|].
  intros b cs'. vm_proj. set (c := fresh (dom (heap s))).
  destruct (decide (c = b)) as [<-|Hne].
  - rewrite lookup_insert_eq. destruct (decide (cs = cs')) as [<-|Hcs].
    + by rewrite lookup_insert_eq.
    + rewrite lookup_insert_ne by done. split; [intros [= ->]; done|].
      intros Hb%Hs. unfold c in Hb. by rewrite fresh_heap in Hb.
  - rewrite lookup_insert_ne by done. rewrite (Hs b cs').
    destruct (decide (cs = cs')) as [<-|Hcs].
    + rewrite lookup_insert_eq, Hr. split; [done|by intros [= ->]].
    + by rewrite lookup_insert_ne.
Qed.
#[local] Hint Resolve keepsInterning_takeString : intern.

Lemma keepsInterning_setMethod k n m : keepsInterning (setMethod k n m).
Proof.
  intros s a s' (c & s1 & [-> Hk]%loadClass_inv & [= _ <-])%bind_inv Hs.
  by eapply interning_store.
Qed.

Lemma keepsInterning_setField i n x : keepsInterning (setField i n x).
Proof.
  intros s a s' (c & s1 & [-> Hk]%loadInstance_inv & [= _ <-])%bind_inv Hs.
  by eapply interning_store.
Qed.

Lemma keepsInterning_setUpvalue cl i up : keepsInterning (setUpvalue cl i up).
Proof.
  intros s a s' (c & s1 & [-> Hk]%loadClosure_inv & Hst)%bind_inv Hs.
  apply bind_inv in Hst as (ups & ? & [Hups ->]%lift_inv & [= _ <-]).
  by eapply interning_store.
Qed.

Lemma keepsInterning_assign p x : keepsInterning (assign p x).
Proof.
  destruct p as [i|u]; cbn [assign]; [intern_tac|].
  intros s a s' (c & s1 & [-> Hk]%loadUpvalue_inv & [= _ <-])%bind_inv Hs.
  by eapply interning_store.
Qed.
#[local] Hint Resolve keepsInterning_setMethod keepsInterning_setField
  keepsInterning_setUpvalue keepsInterning_assign : intern.

Lemma keepsInterning_loadUpvalue_store a (g : ObjUpvalue -> ObjUpvalue) :
  keepsInterning (loadUpvalue a ≫= fun uv => storeObj a (OBJ_UPVALUE (g uv))).
Proof.
  intros s r s' (c & s1 & [-> Hk]%loadUpvalue_inv & [= _ <-])%bind_inv Hs.
  by eapply interning_store.
Qed.

Lemma keepsInterning_loadClass_store {A} a (g : ObjClass -> ObjClass) (k : M A) :
  keepsInterning k ->
  keepsInterning (loadClass a ≫= fun to => storeObj a (OBJ_CLASS (g to)) ≫= fun _ => k).
Proof.
  intros Hk s r s' (c & s1 & [-> Ha]%loadClass_inv & Hst)%bind_inv Hs.
  apply bind_inv in Hst as ([] & s2 & [= <-] & Hrun).
  eapply Hk; [exact Hrun|]. by eapply interning_store.
Qed.

Lemma keepsInterning_traceFrames n : keepsInterning (traceFrames n).
Proof. induction n; cbn [traceFrames]; intern_tac. Qed.
#[local] Hint Resolve keepsInterning_traceFrames : intern.

Lemma keepsInterning_closeUpvalues fuel last : keepsInterning (closeUpvalues fuel last).
Proof.
  induction fuel as [|fuel IH]; [intros s a s' [=]|].
  intros s a s' H Hs. cbn [closeUpvalues] in H.
  apply bind_inv in H as (head & s0 & [= <- <-] & H).
  destruct (openUpvalues s) as [u|] eqn:Hhead; [|by injection H as _ <-].
  apply bind_inv in H as (uv & s1 & [-> Hu]%loadUpvalue_inv & H).
  apply bind_inv in H as (b & s1 & [-> (k & Hloc & ->)]%ptr_ge_inv & H).
  case_bool_decide; [|by injection H as _ <-].
  apply bind_inv in H as (x & s1 & ->%deref_inv & H).
  apply bind_inv in H as ([] & s1 & [= <-] & H).
  apply bind_inv in H as ([] & s1 & [= <-] & H).
  apply bind_inv in H as ([] & s1 & [= <-] & H).
  eapply IH; [exact H|].
  apply (interning_same (set_heap (<[u := OBJ_UPVALUE (mkUpvalue (ClosedField u) x
           (next uv))]> (heap s)) s)).
  - vm_proj. apply insert_insert_eq.
  - done.
  - by eapply interning_store.
Qed.

Lemma keepsInterning_captureUpvalue_walk fuel local : forall prev up,
  keepsInterning (captureUpvalue_walk fuel local prev up).
Proof.
  induction fuel as [|fuel IH]; intros prev up; cbn [captureUpvalue_walk]; intern_tac.
Qed.
#[local] Hint Resolve keepsInterning_closeUpvalues keepsInterning_captureUpvalue_walk
  : intern.

Lemma keepsInterning_captureUpvalue_create local prev up :
  keepsInterning (captureUpvalue_create local prev up).
Proof.
  unfold captureUpvalue_create.
  apply keepsInterning_bind; [intern_tac|intros created].
  intros s r s' (cu & s1 & [-> Hcu]%loadUpvalue_inv & H)%bind_inv Hs.
  apply bind_inv in H as ([] & s1 & [= <-] & H).
  apply bind_inv in H as ([] & s2 & H & [= _ <-]).
  assert (interning (set_heap (<[created := OBJ_UPVALUE
            (mkUpvalue (location cu) (closed cu) up)]> (heap s)) s)) as Hs1
    by (by eapply interning_store).
  destruct prev as [p|].
  - exact (keepsInterning_loadUpvalue_store p
      (fun pu => mkUpvalue (location pu) (closed pu) (Some created)) _ _ _ H Hs1).
  - by injection H as <-.
Qed.
#[local] Hint Resolve keepsInterning_captureUpvalue_create : intern.

Lemma keepsInterning_instr_op_closure_loop fuel frame n : forall cl i,
  keepsInterning (instr_op_closure_loop fuel frame n cl i).
Proof. induction n as [|n IH]; intros cl i; cbn [instr_op_closure_loop]; intern_tac. Qed.
#[local] Hint Resolve keepsInterning_instr_op_closure_loop : intern.

Lemma keepsInterning_instr_op_inherit frame : keepsInterning (instr_op_inherit frame).
Proof.
  unfold instr_op_inherit.
  apply keepsInterning_bind; [intern_tac|intros superclass].
  apply keepsInterning_bind; [intern_tac|intros isClass].
  destruct (negb isClass); [intern_tac|].
  apply keepsInterning_bind; [intern_tac|intros v0].
  apply keepsInterning_bind; [intern_tac|intros subclass].
  apply keepsInterning_bind; [intern_tac|intros sup].
  apply keepsInterning_bind; [intern_tac|intros from].
  apply (keepsInterning_loadClass_store subclass
    (fun to => mkClass (klass_name to) (tableAddAll (methods from) (methods to)))).
  intern_tac.
Qed.
#[local] Hint Resolve keepsInterning_instr_op_inherit : intern.

Lemma keepsInterning_dispatchTable fuel frame :
  Forall keepsInterning (dispatchTable fuel frame).
Proof.
  unfold dispatchTable.
  repeat (apply Forall_cons_2; [intern_tac|]).
  constructor.
Qed.

Lemma keepsInterning_PRINT_TRACE frame : keepsInterning (PRINT_TRACE frame).
Proof. intros s a s' [-> _]%PRINT_TRACE_inv Hs. exact Hs. Qed.

Lemma keepsInterning_DISPATCH fuel frame : keepsInterning (DISPATCH fuel frame).
Proof.
  unfold DISPATCH. apply keepsInterning_bind; [apply keepsInterning_PRINT_TRACE|intros _].
  apply keepsInterning_bind; [intern_tac|intros op].
  intros s a s' (handler & s1 & [Hh ->]%lift_inv & H)%bind_inv.
  apply index_Some in Hh as [_ Hh%list_elem_of_lookup_2].
  pose proof (keepsInterning_dispatchTable fuel frame) as Hall.
  rewrite Forall_forall in Hall. by eapply (Hall handler Hh).
Qed.

Lemma keepsInterning_run_from fuel steps : forall frame,
  keepsInterning (run_from steps fuel frame).
Proof.
  induction steps as [|steps IH]; intros frame; cbn [run_from]; [intern_tac|].
  apply keepsInterning_bind; [apply keepsInterning_DISPATCH|].
  intros [frame'|r]; [apply IH|intern_tac].
Qed.
#[local] Hint Resolve keepsInterning_run_from : intern.

Lemma keepsInterning_interpret steps fuel compiled :
  keepsInterning (interpret steps fuel compiled).
Proof. intern_tac. Qed.

Lemma keepsInterning_run steps fuel : keepsInterning (run steps fuel).
Proof. intern_tac. Qed.

(** X30: strings stay interned.  When the string objects of the heap are
    exactly the entries of the intern table, they still are when [interpret]
    or [run] returns: the only instruction that makes a string is [OP_ADD],
    through [takeString], and none changes or frees one.  So two string
    objects are the same object exactly when they hold the same characters,
    which is what lets the interpreter compare strings by identity. *)
Theorem run_keeps_strings_interned steps fuel compiled s r s' :
  interning s ->
  interpret steps fuel compiled s = Done r s' \/ run steps fuel s = Done r s' ->
  interning s' /\
  forall a b x y,
    heap s' !! a = Some (OBJ_STRING x) -> heap s' !! b = Some (OBJ_STRING y) ->
    (a = b <-> chars x = chars y).
Proof.
  intros Hs Hrun.
  assert (interning s') as Hs'.
  { destruct Hrun as [H|H].
    - by eapply keepsInterning_interpret.
    - by eapply keepsInterning_run. }
  split; [done|]. intros a b [x] [y] Ha Hb. cbn [chars]. split.
  - intros ->. rewrite Ha in Hb. by injection Hb.
  - intros ->. apply Hs' in Ha, Hb. rewrite Ha in Hb. by injection Hb.
Qed.

Lemma interning_exMain : interning exMain.
Proof.
  intros a cs. unfold exMain, bootVM. vm_proj. cbn [list_to_map foldr uncurry].
  rewrite lookup_singleton_Some, !lookup_insert_Some, lookup_empty. split.
  - intros [[<- [= <-]]|[_ [[_ [=]]|[_ [=]]]]]. done.
  - intros [<- <-]. by left.
Qed.

Lemma run_keeps_strings_interned_witness :
  exists s', interpret 10 1 (Some 2%positive) exMain = Done INTERPRET_OK s' /\ interning s'.
Proof.
  eexists. split; [vm_compute; reflexivity|].
  apply (run_keeps_strings_interned 10 1 (Some 2%positive) exMain INTERPRET_OK _
           interning_exMain).
  left. vm_compute. reflexivity.
Defined.
